(** * Flow-graph transformation engine (flowHelper)

    Shallow embedding of the flow helper of the activepieces shared
    package (the second document of
    [sidenav-routes-list.component.ts]): step trees, the traversal and
    rewrite primitives, the operation handlers, the import-operation
    generator, normalisation and the [apply] dispatcher, followed by the
    properties established about them and, for what [apply] writes to,
    by the same handlers over a store of flow versions. *)

From Stdlib Require Import List String Ascii ZArith Bool Arith Lia.
From Stdlib Require Import DecimalString DecimalNat Permutation.
Import ListNotations.
Local Open Scope string_scope.
Local Open Scope list_scope.

Set Implicit Arguments.
Set Warnings "-register-all".

(** String concatenation, kept apart from list append. *)
Local Infix "^^" := String.append (right associativity, at level 60).

(* ================================================================== *)
(** ** Results of running engine code *)
(* ================================================================== *)

(** [ErrorCode] of [../common/activepieces-error]; the engine only uses
    one code. *)
Inductive ErrorCode := FLOW_OPERATION_INVALID.

(** What a JavaScript [throw] can carry out of the engine. *)
Inductive Exn :=
| ActivepiecesError (code : ErrorCode) (message : string)
| Error (message : string)          (* [throw new Error(...)] *)
| SyntaxError                       (* [JSON.parse(undefined)] *)
| TypeError.                        (* property read on [undefined], [semver] on a bad version *)

(** A call either returns, throws, exhausts the recursion budget given
    to the model, or leaves the typed fragment of the source (an
    unchecked TypeScript cast produced an object that is no step). *)
Inductive outcome (A : Type) :=
| Returns (a : A)
| Throws (e : Exn)
| OutOfFuel
| IllTyped.

Arguments Returns {A} a.
Arguments Throws {A} e.
Arguments OutOfFuel {A}.
Arguments IllTyped {A}.

Definition bind {A B} (m : outcome A) (k : A -> outcome B) : outcome B :=
  match m with
  | Returns a => k a
  | Throws e => Throws e
  | OutOfFuel => OutOfFuel
  | IllTyped => IllTyped
  end.

Notation "x <- m ;; k" := (bind m (fun x => k))
  (at level 61, m at next level, right associativity).

Fixpoint mapM {A B} (g : A -> outcome B) (l : list A) : outcome (list B) :=
  match l with
  | [] => Returns []
  | a :: l' => b <- g a ;; bs <- mapM g l' ;; Returns (b :: bs)
  end.

Definition isFlowOperationInvalid (e : Exn) : bool :=
  match e with
  | ActivepiecesError FLOW_OPERATION_INVALID _ => true
  | _ => false
  end.

(* ================================================================== *)
(** ** Data model *)
(* ================================================================== *)

(** A JSON value, for the parts of a step the engine only carries. *)
Inductive Json :=
| JNull
| JBool (b : bool)
| JNumber (z : Z)
| JString (s : string)
| JArray (items : list Json)
| JObject (fields : list (string * Json)).

Inductive ActionType := CODE | PIECE | LOOP_ON_ITEMS | BRANCH | ROUTER.
Inductive TriggerType := EMPTY | PIECE_TRIGGER.
Inductive StepType :=
| OfAction (a : ActionType)
| OfTrigger (t : TriggerType).

Definition ActionType_eqb (a b : ActionType) : bool :=
  match a, b with
  | CODE, CODE | PIECE, PIECE | LOOP_ON_ITEMS, LOOP_ON_ITEMS
  | BRANCH, BRANCH | ROUTER, ROUTER => true
  | _, _ => false
  end.

Definition isAction (type : StepType) : bool :=
  match type with OfAction _ => true | OfTrigger _ => false end.

Definition isTrigger (type : StepType) : bool :=
  match type with OfTrigger _ => true | OfAction _ => false end.

Inductive BranchExecutionType := CONDITION | FALLBACK.

Record RouterBranch := {
  conditions : list (list Json);
  branchType : BranchExecutionType;
  branchName : string
}.

Record SampleDataSettings := {
  currentSelectedData : option Json;
  sampleDataFileId : option string;
  lastTestDate : option string
}.

(** [settings.input]: the credential reference [auth] and the other
    properties. *)
Record Input := {
  auth : option string;
  otherInput : list (string * Json)
}.

(** [settings] of a step.  The source keeps one object per step kind;
    the fields the engine reads are spelled out, the rest is carried in
    [otherSettings]. *)
Record Settings := {
  pieceName : string;
  pieceVersion : string;
  input : option Input;
  inputUiInfo : option SampleDataSettings;
  branches : list RouterBranch;
  otherSettings : list (string * Json)
}.

(** The fields every step has besides its links. *)
Record Props := {
  name : string;
  displayName : string;
  valid : bool;
  settings : Settings
}.

(** Steps without structural children: code and piece actions and the
    two triggers. *)
Inductive SimpleType := SCode | SPiece | STriggerEmpty | STriggerPiece.

(** [type Step = Action | Trigger], a tagged union on [type]. *)
Inductive Step :=
| SimpleStep (type : SimpleType) (props : Props) (nextAction : option Step)
| BranchAction (props : Props)
    (onSuccessAction onFailureAction nextAction : option Step)
| LoopOnItemsAction (props : Props) (firstLoopAction nextAction : option Step)
| RouterAction (props : Props) (children : list (option Step))
    (nextAction : option Step).

Definition typeOf (step : Step) : StepType :=
  match step with
  | SimpleStep SCode _ _ => OfAction CODE
  | SimpleStep SPiece _ _ => OfAction PIECE
  | SimpleStep STriggerEmpty _ _ => OfTrigger EMPTY
  | SimpleStep STriggerPiece _ _ => OfTrigger PIECE_TRIGGER
  | BranchAction _ _ _ _ => OfAction BRANCH
  | LoopOnItemsAction _ _ _ => OfAction LOOP_ON_ITEMS
  | RouterAction _ _ _ => OfAction ROUTER
  end.

Definition propsOf (step : Step) : Props :=
  match step with
  | SimpleStep _ p _ | BranchAction p _ _ _
  | LoopOnItemsAction p _ _ | RouterAction p _ _ => p
  end.

Definition nextOf (step : Step) : option Step :=
  match step with
  | SimpleStep _ _ n | BranchAction _ _ _ n
  | LoopOnItemsAction _ _ n | RouterAction _ _ n => n
  end.

Definition stepName (step : Step) : string := name (propsOf step).

Definition setNext (n : option Step) (step : Step) : Step :=
  match step with
  | SimpleStep t p _ => SimpleStep t p n
  | BranchAction p s f _ => BranchAction p s f n
  | LoopOnItemsAction p b _ => LoopOnItemsAction p b n
  | RouterAction p c _ => RouterAction p c n
  end.

Definition setProps (p : Props) (step : Step) : Step :=
  match step with
  | SimpleStep t _ n => SimpleStep t p n
  | BranchAction _ s f n => BranchAction p s f n
  | LoopOnItemsAction _ b n => LoopOnItemsAction p b n
  | RouterAction _ c n => RouterAction p c n
  end.

Definition withValid (v : bool) (p : Props) : Props :=
  {| name := name p; displayName := displayName p; valid := v;
     settings := settings p |}.

Definition withSettings (s : Settings) (p : Props) : Props :=
  {| name := name p; displayName := displayName p; valid := valid p;
     settings := s |}.

Definition withPieceVersion (v : string) (s : Settings) : Settings :=
  {| pieceName := pieceName s; pieceVersion := v; input := input s;
     inputUiInfo := inputUiInfo s; branches := branches s;
     otherSettings := otherSettings s |}.

Definition withInput (i : option Input) (s : Settings) : Settings :=
  {| pieceName := pieceName s; pieceVersion := pieceVersion s; input := i;
     inputUiInfo := inputUiInfo s; branches := branches s;
     otherSettings := otherSettings s |}.

Definition withInputUiInfo (u : option SampleDataSettings) (s : Settings)
  : Settings :=
  {| pieceName := pieceName s; pieceVersion := pieceVersion s;
     input := input s; inputUiInfo := u; branches := branches s;
     otherSettings := otherSettings s |}.

Definition withBranches (b : list RouterBranch) (s : Settings) : Settings :=
  {| pieceName := pieceName s; pieceVersion := pieceVersion s;
     input := input s; inputUiInfo := inputUiInfo s; branches := b;
     otherSettings := otherSettings s |}.

Inductive FlowVersionState := DRAFT | LOCKED.

Record FlowVersion := {
  flowDisplayName : string;
  state : FlowVersionState;
  trigger : Step;
  flowValid : bool
}.

Definition withTrigger (t : Step) (fv : FlowVersion) : FlowVersion :=
  {| flowDisplayName := flowDisplayName fv; state := state fv; trigger := t;
     flowValid := flowValid fv |}.

Definition withFlowValid (v : bool) (fv : FlowVersion) : FlowVersion :=
  {| flowDisplayName := flowDisplayName fv; state := state fv;
     trigger := trigger fv; flowValid := v |}.

(* ------------------------------------------------------------------ *)
(** *** Operations *)

Inductive StepLocationRelativeToParent :=
| AFTER | INSIDE_LOOP | INSIDE_TRUE_BRANCH | INSIDE_FALSE_BRANCH
| INSIDE_BRANCH.

Definition locationText (l : StepLocationRelativeToParent) : string :=
  match l with
  | AFTER => "AFTER"
  | INSIDE_LOOP => "INSIDE_LOOP"
  | INSIDE_TRUE_BRANCH => "INSIDE_TRUE_BRANCH"
  | INSIDE_FALSE_BRANCH => "INSIDE_FALSE_BRANCH"
  | INSIDE_BRANCH => "INSIDE_BRANCH"
  end.

(** [UpdateActionRequest].  Its [type] is declared an [ActionType]; the
    engine also passes whole steps where a request is expected
    ([sourceStep as Action], [duplicatedStep as Action]), so the tag
    ranges over every step type here. *)
Record UpdateActionRequest := {
  reqType : StepType;
  reqName : string;
  reqDisplayName : string;
  reqSettings : Settings;
  reqValid : option bool
}.

Record UpdateTriggerRequest := {
  treqType : TriggerType;
  treqName : string;
  treqDisplayName : string;
  treqSettings : Settings;
  treqValid : option bool
}.

Record AddActionRequest := {
  parentStep : string;
  stepLocationRelativeToParent : option StepLocationRelativeToParent;
  branchIndex : option Z;
  addBranchName : option string;
  action : UpdateActionRequest
}.

Record MoveActionRequest := {
  moveName : string;
  newParentStep : string;
  stepLocationRelativeToNewParent : option StepLocationRelativeToParent;
  moveBranchIndex : option Z;
  moveBranchName : option string
}.

Inductive FlowOperationRequest :=
| MOVE_ACTION (request : MoveActionRequest)
| LOCK_FLOW
| CHANGE_NAME (newDisplayName : string)
| DELETE_ACTION (name : string)
| ADD_ACTION (request : AddActionRequest)
| UPDATE_ACTION (request : UpdateActionRequest)
| UPDATE_TRIGGER (request : UpdateTriggerRequest)
| DUPLICATE_ACTION (stepName : string)
| DELETE_BRANCH (stepName : string) (branchIndex : Z)
| ADD_BRANCH (stepName : string) (branchIndex : Z)
| DUPLICATE_BRANCH (stepName : string) (branchIndex : Z).

(** A step read as a request: the five fields [createAction] looks at. *)
Definition requestOfStep (step : Step) : UpdateActionRequest :=
  {| reqType := typeOf step;
     reqName := stepName step;
     reqDisplayName := displayName (propsOf step);
     reqSettings := settings (propsOf step);
     reqValid := Some (valid (propsOf step)) |}.

(* ------------------------------------------------------------------ *)
(** *** Collaborators outside the engine *)

(** The schema validators compiled by TypeBox, the [semver] package and
    the constants imported from sibling modules. *)
Class Externals := {
  (** [actionSchemaValidator.Check] *)
  actionSchemaCheck : Step -> bool;
  (** [triggerSchemaValidation.Check] *)
  triggerSchemaCheck : Step -> bool;
  (** [semver.valid], read as a truth value *)
  semverValid : string -> bool;
  (** [semver.lt]; [None] when it throws on an invalid version *)
  semverLt : string -> string -> option bool;
  DEFAULT_SAMPLE_DATA_SETTINGS : SampleDataSettings;
  emptyCondition : Json;
  (** [String.prototype.replace] with the two regular expressions of
      [replaceOldStepNameWithNewOne]: input, old name, new name *)
  replaceInTemplates : string -> string -> string -> string
}.

(* ================================================================== *)
(** ** JavaScript built-ins used by the engine *)
(* ================================================================== *)

(** [`${n}`] for a non-negative integer. *)
Definition decimal (n : nat) : string := NilZero.string_of_uint (Nat.to_uint n).

Definition startsWith (prefix s : string) : bool := String.prefix prefix s.

(** [s.substring(1)] *)
Definition substring1 (s : string) : string :=
  match s with
  | EmptyString => EmptyString
  | String _ rest => rest
  end.

Definition includes (names : list string) (x : string) : bool :=
  existsb (String.eqb x) names.

(** [a[i]] on an array, with a JavaScript number that is an integer. *)
Definition at_ {A} (l : list A) (i : Z) : option A :=
  if (i <? 0)%Z then None else nth_error l (Z.to_nat i).

(** [a[i] = v]: inside the array the element is replaced, past its end
    the array grows and the gap reads as [hole]; a negative index only
    sets a property, which no later traversal of the array sees. *)
Fixpoint assignNat {A} (hole : A) (i : nat) (v : A) (l : list A) : list A :=
  match i, l with
  | O, [] => [v]
  | O, _ :: l' => v :: l'
  | S i', [] => hole :: assignNat hole i' v []
  | S i', a :: l' => a :: assignNat hole i' v l'
  end.

Definition assignAt {A} (hole : A) (i : Z) (v : A) (l : list A) : list A :=
  if (i <? 0)%Z then l else assignNat hole (Z.to_nat i) v l.

(** The start position [Array.prototype.splice] computes from its first
    argument. *)
Definition spliceStart (len : nat) (start : Z) : nat :=
  if (start <? 0)%Z then Z.to_nat (Z.max (Z.of_nat len + start) 0)
  else Nat.min (Z.to_nat start) len.

(** [a.splice(start, deleteCount, ...items)], as the array it leaves. *)
Definition splice {A} (start : Z) (deleteCount : nat) (items : list A)
  (l : list A) : list A :=
  let k := spliceStart (List.length l) start in
  firstn k l ++ items ++ skipn (k + deleteCount) l.

(** [JSON.parse(JSON.stringify(x))].  A value is its own clone;
    [undefined] stringifies to [undefined], which [JSON.parse] rejects. *)
Definition jsonClone {A} (x : option A) : outcome A :=
  match x with
  | Some a => Returns a
  | None => Throws SyntaxError
  end.

(* ================================================================== *)
(** ** Traversal primitives *)
(* ================================================================== *)

Fixpoint traverseInternal (step : Step) : list Step :=
  match step with
  | SimpleStep _ _ n =>
      step :: match n with Some a => traverseInternal a | None => [] end
  | BranchAction _ s f n =>
      step ::
      match s with Some a => traverseInternal a | None => [] end ++
      match f with Some a => traverseInternal a | None => [] end ++
      match n with Some a => traverseInternal a | None => [] end
  | LoopOnItemsAction _ b n =>
      step ::
      match b with Some a => traverseInternal a | None => [] end ++
      match n with Some a => traverseInternal a | None => [] end
  | RouterAction _ c n =>
      step ::
      flat_map (fun child =>
        match child with Some a => traverseInternal a | None => [] end) c ++
      match n with Some a => traverseInternal a | None => [] end
  end.

Definition traverseOpt (step : option Step) : list Step :=
  match step with Some a => traverseInternal a | None => [] end.

Definition getAllSteps (trigger : Step) : list Step := traverseInternal trigger.

(** [getAllStepsAtFirstLevel]: the step and its successors. *)
Fixpoint getAllStepsAtFirstLevel (step : Step) : list Step :=
  step ::
  match step with
  | SimpleStep _ _ n | BranchAction _ _ _ n
  | LoopOnItemsAction _ _ n | RouterAction _ _ n =>
      match n with
      | Some a => getAllStepsAtFirstLevel a
      | None => []
      end
  end.

Definition chainFrom (slot : option Step) : list Step :=
  match slot with Some a => getAllStepsAtFirstLevel a | None => [] end.

Definition isValid (flowVersion : FlowVersion) : bool :=
  fold_left (fun v step => v && valid (propsOf step))
    (getAllSteps (trigger flowVersion)) true.

Definition findByName (stepName_ : string) (steps : list Step) : option Step :=
  find (fun step => String.eqb (stepName step) stepName_) steps.

Definition getStep (flowVersion : FlowVersion) (stepName_ : string)
  : option Step :=
  findByName stepName_ (getAllSteps (trigger flowVersion)).

Definition stepNames (step : Step) : list string :=
  map stepName (getAllSteps step).

(* ================================================================== *)
(** ** Structural rewrite *)
(* ================================================================== *)

Definition transferOpt (rec : Step -> outcome Step) (slot : option Step)
  : outcome (option Step) :=
  match slot with
  | Some a => a' <- rec a ;; Returns (Some a')
  | None => Returns None
  end.

(** [transferStep]: rewrite the node, then the structural children and
    the successor of the rewritten node.  The recursion follows what
    [transferFunction] returned, so it is bounded by [fuel]. *)
Fixpoint transferStep (fuel : nat) (transferFunction : Step -> outcome Step)
  (step : Step) : outcome Step :=
  match fuel with
  | O => OutOfFuel
  | S fuel' =>
      let rec := transferStep fuel' transferFunction in
      updatedStep <- transferFunction step ;;
      match updatedStep with
      | SimpleStep t p n =>
          n' <- transferOpt rec n ;;
          Returns (SimpleStep t p n')
      | BranchAction p s f n =>
          s' <- transferOpt rec s ;;
          f' <- transferOpt rec f ;;
          n' <- transferOpt rec n ;;
          Returns (BranchAction p s' f' n')
      | LoopOnItemsAction p b n =>
          b' <- transferOpt rec b ;;
          n' <- transferOpt rec n ;;
          Returns (LoopOnItemsAction p b' n')
      | RouterAction p c n =>
          c' <- mapM (transferOpt rec) c ;;
          n' <- transferOpt rec n ;;
          Returns (RouterAction p c' n')
      end
  end.

Definition transferFlow (fuel : nat) (flowVersion : FlowVersion)
  (transferFunction : Step -> outcome Step) : outcome FlowVersion :=
  clonedFlow <- jsonClone (Some flowVersion) ;;
  t <- transferStep fuel transferFunction (trigger clonedFlow) ;;
  Returns (withTrigger t clonedFlow).

(* ================================================================== *)
(** ** Operation handlers *)
(* ================================================================== *)

Section Engine.

Context {E : Externals}.

(* ------------------------------------------------------------------ *)
(** *** [deleteAction] *)

(** The slot keeps its head unless the head is the step to delete, whose
    successor then takes its place. *)
Definition spliceOut (name_ : string) (slot : option Step) : option Step :=
  match slot with
  | Some stepToUpdate =>
      if String.eqb (stepName stepToUpdate) name_
      then nextOf stepToUpdate else slot
  | None => None
  end.

Definition deleteActionFn (name_ : string) (parentStep_ : Step)
  : outcome Step :=
  Returns
    match parentStep_ with
    | SimpleStep t p n => SimpleStep t p (spliceOut name_ n)
    | BranchAction p s f n =>
        BranchAction p (spliceOut name_ s) (spliceOut name_ f)
          (spliceOut name_ n)
    | LoopOnItemsAction p b n =>
        LoopOnItemsAction p (spliceOut name_ b) (spliceOut name_ n)
    | RouterAction p c n =>
        RouterAction p (map (spliceOut name_) c) (spliceOut name_ n)
    end.

Definition deleteAction (fuel : nat) (flowVersion : FlowVersion)
  (name_ : string) : outcome FlowVersion :=
  transferFlow fuel flowVersion (deleteActionFn name_).

(* ------------------------------------------------------------------ *)
(** *** [createAction], [createTrigger] *)

(** The second argument of [createAction]. *)
Record ActionLinks := {
  linkNext : option Step;
  linkOnFailure : option Step;
  linkOnSuccess : option Step;
  linkFirstLoop : option Step;
  linkChildren : option (list (option Step))
}.

Definition onlyNext (n : option Step)
  (children_ : option (list (option Step))) : ActionLinks :=
  {| linkNext := n; linkOnFailure := None; linkOnSuccess := None;
     linkFirstLoop := None; linkChildren := children_ |}.

Definition createAction (request : UpdateActionRequest) (links : ActionLinks)
  : outcome Step :=
  let baseProperties :=
    {| name := reqName request; displayName := reqDisplayName request;
       valid := false; settings := reqSettings request |} in
  action_ <-
    match reqType request with
    | OfAction BRANCH =>
        Returns (BranchAction baseProperties (linkOnSuccess links)
                   (linkOnFailure links) (linkNext links))
    | OfAction ROUTER =>
        Returns (RouterAction baseProperties
                   match linkChildren links with
                   | Some c => c
                   | None => [None; None]
                   end
                   (linkNext links))
    | OfAction LOOP_ON_ITEMS =>
        Returns (LoopOnItemsAction baseProperties (linkFirstLoop links)
                   (linkNext links))
    | OfAction PIECE => Returns (SimpleStep SPiece baseProperties (linkNext links))
    | OfAction CODE => Returns (SimpleStep SCode baseProperties (linkNext links))
    | OfTrigger _ => IllTyped   (* no case of the switch matches *)
    end ;;
  Returns
    (setProps
       (withValid
          (match reqValid request with None => true | Some v => v end
           && actionSchemaCheck action_)
          baseProperties)
       action_).

Definition createTrigger (name_ : string) (request : UpdateTriggerRequest)
  (nextAction : option Step) : Step :=
  let baseProperties :=
    {| name := name_; displayName := treqDisplayName request;
       valid := false; settings := treqSettings request |} in
  let trigger_ :=
    match treqType request with
    | EMPTY => SimpleStep STriggerEmpty baseProperties nextAction
    | PIECE_TRIGGER => SimpleStep STriggerPiece baseProperties nextAction
    end in
  setProps
    (withValid
       (match treqValid request with None => true | Some v => v end
        && triggerSchemaCheck trigger_)
       baseProperties)
    trigger_.

Definition extractActions (step : Step) : ActionLinks :=
  match step with
  | SimpleStep _ _ n => onlyNext n None
  | BranchAction _ s f n =>
      {| linkNext := n; linkOnFailure := f; linkOnSuccess := s;
         linkFirstLoop := None; linkChildren := None |}
  | LoopOnItemsAction _ b n =>
      {| linkNext := n; linkOnFailure := None; linkOnSuccess := None;
         linkFirstLoop := b; linkChildren := None |}
  | RouterAction _ c n => onlyNext n (Some c)
  end.

(* ------------------------------------------------------------------ *)
(** *** [addAction] *)

Definition operationInvalid (message : string) : Exn :=
  ActivepiecesError FLOW_OPERATION_INVALID message.

Definition addActionFn (request : AddActionRequest)
  (children_ : option (list (option Step))) (parentStep_ : Step)
  : outcome Step :=
  if negb (String.eqb (stepName parentStep_) (parentStep request))
  then Returns parentStep_
  else
    let create n := createAction (action request) (onlyNext n children_) in
    let after :=
      a <- create (nextOf parentStep_) ;;
      Returns (setNext (Some a) parentStep_) in
    match parentStep_, stepLocationRelativeToParent request with
    | LoopOnItemsAction p b n, Some loc =>
        match loc with
        | INSIDE_LOOP =>
            a <- create b ;; Returns (LoopOnItemsAction p (Some a) n)
        | AFTER => after
        | _ =>
            Throws (operationInvalid
                      ("Loop step parent " ^^ locationText loc ^^ " not found"))
        end
    | BranchAction p s f n, Some loc =>
        match loc with
        | INSIDE_TRUE_BRANCH =>
            a <- create s ;; Returns (BranchAction p (Some a) f n)
        | INSIDE_FALSE_BRANCH =>
            a <- create f ;; Returns (BranchAction p s (Some a) n)
        | AFTER => after
        | _ =>
            Throws (operationInvalid
                      ("Branch step parernt " ^^ locationText loc
                       ^^ " not found"))
        end
    | RouterAction p c n, Some loc =>
        match loc, branchIndex request with
        | INSIDE_BRANCH, Some i =>
            a <- create match at_ c i with
                        | Some (Some child) => Some child
                        | _ => None
                        end ;;
            Returns (RouterAction p (assignAt None i (Some a) c) n)
        | AFTER, _ => after
        | _, _ =>
            Throws (operationInvalid
                      ("Branch step parernt " ^^ locationText loc
                       ^^ " not found"))
        end
    | _, _ => after
    end.

Definition addAction (fuel : nat) (flowVersion : FlowVersion)
  (request : AddActionRequest) (children_ : option (list (option Step)))
  : outcome FlowVersion :=
  transferFlow fuel flowVersion (addActionFn request children_).

(* ------------------------------------------------------------------ *)
(** *** [updateAction] *)

Definition recreate (request : UpdateActionRequest) (slot : option Step)
  : outcome (option Step) :=
  match slot with
  | Some old =>
      if String.eqb (stepName old) (reqName request)
      then a <- createAction request (extractActions old) ;; Returns (Some a)
      else Returns slot
  | None => Returns None
  end.

(** [children.findIndex(child => child?.name === name)] followed by the
    replacement of that child. *)
Fixpoint recreateFirstChild (request : UpdateActionRequest)
  (c : list (option Step)) : outcome (list (option Step)) :=
  match c with
  | [] => Returns []
  | child :: rest =>
      match child with
      | Some old =>
          if String.eqb (stepName old) (reqName request)
          then a <- createAction request (extractActions old) ;;
               Returns (Some a :: rest)
          else rest' <- recreateFirstChild request rest ;;
               Returns (child :: rest')
      | None =>
          rest' <- recreateFirstChild request rest ;;
          Returns (child :: rest')
      end
  end.

Definition updateActionFn (request : UpdateActionRequest) (parentStep_ : Step)
  : outcome Step :=
  n' <- recreate request (nextOf parentStep_) ;;
  match parentStep_ with
  | SimpleStep t p _ => Returns (SimpleStep t p n')
  | RouterAction p c _ =>
      c' <- recreateFirstChild request c ;;
      Returns (RouterAction p c' n')
  | BranchAction p s f _ =>
      f' <- recreate request f ;;
      s' <- recreate request s ;;
      Returns (BranchAction p s' f' n')
  | LoopOnItemsAction p b _ =>
      b' <- recreate request b ;;
      Returns (LoopOnItemsAction p b' n')
  end.

Definition updateAction (fuel : nat) (flowVersion : FlowVersion)
  (request : UpdateActionRequest) : outcome FlowVersion :=
  transferFlow fuel flowVersion (updateActionFn request).

(* ------------------------------------------------------------------ *)
(** *** Import-operation generator *)

(** [removeAnySubsequentAction]: a copy without structural children and
    without successor; a router keeps its child heads, each stripped in
    the same way. *)
Fixpoint removeAnySubsequentAction (action_ : Step) : Step :=
  match action_ with
  | SimpleStep t p _ => SimpleStep t p None
  | BranchAction p _ _ _ => BranchAction p None None None
  | LoopOnItemsAction p _ _ => LoopOnItemsAction p None None
  | RouterAction p c _ =>
      RouterAction p
        (map (fun child =>
                match child with
                | None => None
                | Some a => Some (removeAnySubsequentAction a)
                end) c)
        None
  end.

Definition importAdd (parent : string)
  (location : option StepLocationRelativeToParent) (index : option nat)
  (child : Step) : FlowOperationRequest :=
  ADD_ACTION
    {| parentStep := parent;
       stepLocationRelativeToParent := location;
       branchIndex := option_map Z.of_nat index;
       addBranchName := option_map (fun i => "Branch " ^^ decimal i) index;
       action := requestOfStep (removeAnySubsequentAction child) |}.

(** [getImportOperations]: the [while] loop over the successor chain is
    the recursive call on [nextAction]. *)
Fixpoint getImportOperations (step : Step) : list FlowOperationRequest :=
  match step with
  | SimpleStep _ p n =>
      match n with
      | Some a => importAdd (name p) None None a :: getImportOperations a
      | None => []
      end
  | BranchAction p s f n =>
      match n with Some a => [importAdd (name p) None None a] | None => [] end
      ++ match f with
         | Some a =>
             importAdd (name p) (Some INSIDE_FALSE_BRANCH) None a
             :: getImportOperations a
         | None => []
         end
      ++ match s with
         | Some a =>
             importAdd (name p) (Some INSIDE_TRUE_BRANCH) None a
             :: getImportOperations a
         | None => []
         end
      ++ match n with Some a => getImportOperations a | None => [] end
  | LoopOnItemsAction p b n =>
      match n with Some a => [importAdd (name p) None None a] | None => [] end
      ++ match b with
         | Some a =>
             importAdd (name p) (Some INSIDE_LOOP) None a
             :: getImportOperations a
         | None => []
         end
      ++ match n with Some a => getImportOperations a | None => [] end
  | RouterAction p c n =>
      match n with Some a => [importAdd (name p) None None a] | None => [] end
      ++ (fix forEach (index : nat) (cs : list (option Step)) :=
            match cs with
            | [] => []
            | child :: cs' =>
                match child with
                | Some a =>
                    importAdd (name p) (Some INSIDE_BRANCH) (Some index) a
                    :: getImportOperations a
                | None => []
                end ++ forEach (S index) cs'
            end) 0%nat c
      ++ match n with Some a => getImportOperations a | None => [] end
  end.

(* ------------------------------------------------------------------ *)
(** *** Normalisation and piece-version upgrade *)

Definition semverLtOrThrow (a b : string) : outcome bool :=
  match semverLt a b with
  | Some r => Returns r
  | None => Throws TypeError
  end.

Definition isLegacyApp (pieceName_ pieceVersion_ : string) : outcome bool :=
  let newVersion :=
    if startsWith "^" pieceVersion_ || startsWith "~" pieceVersion_
    then substring1 pieceVersion_ else pieceVersion_ in
  sheets <-
    (if String.eqb pieceName_ "@activepieces/piece-google-sheets"
     then semverLtOrThrow newVersion "0.3.0" else Returns false) ;;
  if sheets then Returns true
  else
    gmail <-
      (if String.eqb pieceName_ "@activepieces/piece-gmail"
       then semverLtOrThrow newVersion "0.3.0" else Returns false) ;;
    Returns gmail.

Definition isPieceStep (step : Step) : bool :=
  match step with
  | SimpleStep SPiece _ _ | SimpleStep STriggerPiece _ _ => true
  | _ => false
  end.

Definition setPieceVersion (v : string) (step : Step) : Step :=
  let p := propsOf step in
  setProps (withSettings (withPieceVersion v (settings p)) p) step.

Definition upgradePiece (step : Step) (stepName_ : string) : outcome Step :=
  if negb (String.eqb (stepName step) stepName_) then Returns step
  else if isPieceStep step then
    let pieceVersion_ := pieceVersion (settings (propsOf step)) in
    let pieceName_ := pieceName (settings (propsOf step)) in
    legacy <- isLegacyApp pieceName_ pieceVersion_ ;;
    if legacy then Returns step
    else if startsWith "^" pieceVersion_ || startsWith "~" pieceVersion_
    then Returns step
    else
      below <-
        (if semverValid pieceVersion_
         then semverLtOrThrow pieceVersion_ "1.0.0" else Returns false) ;;
      if below then Returns (setPieceVersion ("~" ^^ pieceVersion_) step)
      else Returns (setPieceVersion ("^" ^^ pieceVersion_) step)
  else Returns step.

(** [auth] read as a condition: a non-empty string. *)
Definition truthyAuth (i : option Input) : bool :=
  match i with
  | Some {| auth := Some a |} => negb (String.eqb a "")
  | _ => false
  end.

Definition clearAuth (i : option Input) : option Input :=
  match i with
  | Some inp => Some {| auth := Some ""; otherInput := otherInput inp |}
  | None => None
  end.

Definition normalizeFn (step : Step) : outcome Step :=
  let p := propsOf step in
  let s1 := withInputUiInfo (Some DEFAULT_SAMPLE_DATA_SETTINGS) (settings p) in
  let s2 :=
    if truthyAuth (input s1) && isPieceStep step
    then withInput (clearAuth (input s1)) s1 else s1 in
  let clonedStep := setProps (withSettings s2 p) step in
  upgradePiece clonedStep (stepName clonedStep).

Definition normalize (fuel : nat) (flowVersion : FlowVersion)
  : outcome FlowVersion :=
  transferFlow fuel flowVersion normalizeFn.

(* ------------------------------------------------------------------ *)
(** *** Name allocation and reference rewriting *)

(** [findUnusedName]; the [while] loop is bounded by [fuel]. *)
Fixpoint findUnusedNameFrom (fuel : nat) (names : list string)
  (stepPrefix : string) (availableNumber : nat) : outcome string :=
  let availableName := stepPrefix ^^ "_" ^^ decimal availableNumber in
  if includes names availableName then
    match fuel with
    | O => OutOfFuel
    | S fuel' =>
        findUnusedNameFrom fuel' names stepPrefix (S availableNumber)
    end
  else Returns availableName.

Definition findUnusedName (fuel : nat) (names : list string)
  (stepPrefix : string) : outcome string :=
  findUnusedNameFrom fuel names stepPrefix 1.

Definition findAvailableStepName (fuel : nat) (flowVersion : FlowVersion)
  (stepPrefix : string) : outcome string :=
  findUnusedName fuel (map stepName (getAllSteps (trigger flowVersion)))
    stepPrefix.

(** Modelled from the spec: [applyFunctionToValuesSync] of [../common]
    is not part of this file.  Every string inside the value is passed
    to the function, other values are traversed structurally. *)
Fixpoint mapJsonStrings (g : string -> string) (j : Json) : Json :=
  match j with
  | JString s => JString (g s)
  | JArray items => JArray (map (mapJsonStrings g) items)
  | JObject fields =>
      JObject (map (fun kv => (fst kv, mapJsonStrings g (snd kv))) fields)
  | _ => j
  end.

Definition applyFunctionToValuesSync (i : option Input)
  (g : string -> string) : option Input :=
  match i with
  | None => None
  | Some inp =>
      Some {| auth := option_map g (auth inp);
              otherInput :=
                map (fun kv => (fst kv, mapJsonStrings g (snd kv)))
                  (otherInput inp) |}
  end.

Definition replaceOldStepNameWithNewOne (input_ oldStepName newStepName
  : string) : string :=
  replaceInTemplates input_ oldStepName newStepName.

(** A [Record<string, string>] filled by assignments: the last
    assignment to a key is the one read. *)
Definition NameMap := list (string * string).

Definition assign (k v : string) (m : NameMap) : NameMap := (k, v) :: m.

Fixpoint lookup (k : string) (m : NameMap) : option string :=
  match m with
  | [] => None
  | (k', v) :: m' => if String.eqb k k' then Some v else lookup k m'
  end.

(** The [forEach] that allocates a fresh name per step of the copy. *)
Fixpoint allocateNames (fuel : nat) (existingNames : list string)
  (oldNames : list string) (oldNameToNewName : NameMap) : outcome NameMap :=
  match oldNames with
  | [] => Returns oldNameToNewName
  | name_ :: rest =>
      newName <- findUnusedName fuel existingNames "step" ;;
      allocateNames fuel (existingNames ++ [newName]) rest
        (assign name_ newName oldNameToNewName)
  end.

Definition clearSampleData (u : option SampleDataSettings)
  : option SampleDataSettings :=
  match u with
  | Some _ =>
      Some {| currentSelectedData := None; sampleDataFileId := None;
              lastTestDate := None |}
  | None => None
  end.

(** The rewrite [duplicateStep] and [duplicateRouterChild] run over the
    copy. *)
Definition renameFn (oldStepsNameToReplace : list string)
  (oldNameToNewName : NameMap) (step : Step) : outcome Step :=
  let p := propsOf step in
  match lookup (name p) oldNameToNewName with
  | None => IllTyped   (* [step.name] would become [undefined] *)
  | Some newName =>
      let s1 := withInputUiInfo (clearSampleData (inputUiInfo (settings p)))
                  (settings p) in
      let input' :=
        fold_left
          (fun inp oldName =>
             applyFunctionToValuesSync inp
               (fun value =>
                  replaceOldStepNameWithNewOne value oldName
                    match lookup oldName oldNameToNewName with
                    | Some n => n
                    | None => "undefined"
                    end))
          oldStepsNameToReplace (input s1) in
      Returns
        (setProps
           {| name := newName; displayName := displayName p ^^ " Copy";
              valid := valid p; settings := withInput input' s1 |}
           step)
  end.

(* ------------------------------------------------------------------ *)
(** *** Replaying operations, move and duplicate *)

(** [operations.forEach(op => flow = flowHelper.apply(flow, op))] *)
Definition replay
  (applyRec : FlowVersion -> FlowOperationRequest -> outcome FlowVersion)
  (operations : list FlowOperationRequest) (flowVersion : FlowVersion)
  : outcome FlowVersion :=
  fold_left (fun acc operation => fv <- acc ;; applyRec fv operation)
    operations (Returns flowVersion).

(** [moveAction].  The replayed operations are spread into an object
    that gains [branchIndex] and [branchName] next to [type] and
    [request]; [apply] reads [request] only, so they are replayed as
    generated. *)
Definition moveAction
  (applyRec : FlowVersion -> FlowOperationRequest -> outcome FlowVersion)
  (fuel : nat) (flowVersion : FlowVersion) (request : MoveActionRequest)
  : outcome FlowVersion :=
  let steps := getAllSteps (trigger flowVersion) in
  match findByName (moveName request) steps with
  | None =>
      Throws (operationInvalid
                ("Source step " ^^ moveName request ^^ " not found"))
  | Some sourceStep =>
      if negb (isAction (typeOf sourceStep)) then
        Throws (operationInvalid
                  ("Source step " ^^ moveName request ^^ " not found"))
      else
        match findByName (newParentStep request) steps with
        | None =>
            Throws (operationInvalid
                      ("Destination step " ^^ newParentStep request
                       ^^ " not found"))
        | Some _ =>
            clonedSourceStep <- jsonClone (Some sourceStep) ;;
            let childOperation :=
              match clonedSourceStep with
              | LoopOnItemsAction _ _ _ | BranchAction _ _ _ _ =>
                  getImportOperations (setNext None clonedSourceStep)
              | _ => []
              end in
            fv1 <- deleteAction fuel flowVersion (moveName request) ;;
            fv2 <- addAction fuel fv1
                     {| parentStep := newParentStep request;
                        stepLocationRelativeToParent :=
                          stepLocationRelativeToNewParent request;
                        branchIndex := moveBranchIndex request;
                        addBranchName := moveBranchName request;
                        action := requestOfStep sourceStep |}
                     match sourceStep with
                     | RouterAction _ c _ => Some c
                     | _ => None
                     end ;;
            replay applyRec childOperation fv2
        end
  end.

Definition duplicateStep
  (applyRec : FlowVersion -> FlowOperationRequest -> outcome FlowVersion)
  (fuel : nat) (stepName_ : string) (flowVersionWithArtifacts : FlowVersion)
  : outcome FlowVersion :=
  found <- jsonClone (getStep flowVersionWithArtifacts stepName_) ;;
  (* [if (!clonedStep) throw new Error(...)] follows the assignment to
     [clonedStep.nextAction]; an object is never falsy. *)
  let clonedStep := setNext None found in
  let existingNames :=
    map stepName (getAllSteps (trigger flowVersionWithArtifacts)) in
  let oldStepsNameToReplace := map stepName (getAllSteps clonedStep) in
  oldNameToNewName <-
    allocateNames fuel existingNames oldStepsNameToReplace [] ;;
  duplicatedStep <-
    transferStep fuel (renameFn oldStepsNameToReplace oldNameToNewName)
      clonedStep ;;
  finalFlow <-
    addAction fuel flowVersionWithArtifacts
      {| parentStep := stepName_;
         stepLocationRelativeToParent := Some AFTER;
         branchIndex := None;
         addBranchName := None;
         action := requestOfStep duplicatedStep |}
      match duplicatedStep with
      | RouterAction _ c _ => Some (map (fun _ => None) c)
      | _ => None
      end ;;
  replay applyRec (getImportOperations duplicatedStep) finalFlow.

(** The write through the reference [getStep] returned: the first step
    of that name in traversal order is replaced. *)
Fixpoint updateFirst (name_ : string) (g : Step -> Step) (step : Step)
  : option Step :=
  if String.eqb (stepName step) name_ then Some (g step)
  else
    match step with
    | SimpleStep t p n =>
        match n with
        | Some a => option_map (fun a' => SimpleStep t p (Some a'))
                      (updateFirst name_ g a)
        | None => None
        end
    | BranchAction p s f n =>
        match match s with Some a => updateFirst name_ g a | None => None end
        with
        | Some a' => Some (BranchAction p (Some a') f n)
        | None =>
            match match f with Some a => updateFirst name_ g a | None => None end
            with
            | Some a' => Some (BranchAction p s (Some a') n)
            | None =>
                match n with
                | Some a => option_map (fun a' => BranchAction p s f (Some a'))
                              (updateFirst name_ g a)
                | None => None
                end
            end
        end
    | LoopOnItemsAction p b n =>
        match match b with Some a => updateFirst name_ g a | None => None end
        with
        | Some a' => Some (LoopOnItemsAction p (Some a') n)
        | None =>
            match n with
            | Some a => option_map (fun a' => LoopOnItemsAction p b (Some a'))
                          (updateFirst name_ g a)
            | None => None
            end
        end
    | RouterAction p c n =>
        match (fix first (cs : list (option Step))
                 : option (list (option Step)) :=
                 match cs with
                 | [] => None
                 | child :: cs' =>
                     match match child with
                           | Some a => updateFirst name_ g a
                           | None => None
                           end
                     with
                     | Some a' => Some (Some a' :: cs')
                     | None => option_map (cons child) (first cs')
                     end
                 end) c
        with
        | Some c' => Some (RouterAction p c' n)
        | None =>
            match n with
            | Some a => option_map (fun a' => RouterAction p c (Some a'))
                          (updateFirst name_ g a)
            | None => None
            end
        end
    end.

Definition duplicateRouterChild
  (applyRec : FlowVersion -> FlowOperationRequest -> outcome FlowVersion)
  (fuel : nat) (routerName : string) (childIndex : Z)
  (flowVersionWithArtifacts : FlowVersion) : outcome FlowVersion :=
  match getStep flowVersionWithArtifacts routerName with
  | None =>
      Throws (Error ("step with name '" ^^ routerName ^^ "' not found"))
  | Some (RouterAction p c _) =>
      let existingNames :=
        map stepName (getAllSteps (trigger flowVersionWithArtifacts)) in
      clonedChildStep <- jsonClone (at_ c childIndex) ;;
      branch <- jsonClone (at_ (branches (settings p)) childIndex) ;;
      let duplicatedBranch :=
        {| conditions := conditions branch; branchType := branchType branch;
           branchName := branchName branch ^^ " Copy" |} in
      let spliced (routerStep : Step) :=
        match routerStep with
        | RouterAction p' c' n' =>
            RouterAction
              (withSettings
                 (withBranches
                    (splice (-1) 0 [duplicatedBranch]
                       (branches (settings p')))
                    (settings p'))
                 p')
              (splice (-1) 0 [None] c') n'
        | _ => routerStep
        end in
      flowVersionWithArtifacts' <-
        match updateFirst routerName spliced (trigger flowVersionWithArtifacts)
        with
        | Some t => Returns (withTrigger t flowVersionWithArtifacts)
        | None => IllTyped
        end ;;
      match clonedChildStep with
      | None => Returns flowVersionWithArtifacts'
      | Some child =>
          let oldStepsNameToReplace := map stepName (getAllSteps child) in
          oldNameToNewName <-
            allocateNames fuel existingNames oldStepsNameToReplace [] ;;
          duplicatedStep <-
            transferStep fuel
              (renameFn oldStepsNameToReplace oldNameToNewName) child ;;
          finalFlow <-
            addAction fuel flowVersionWithArtifacts'
              {| parentStep := routerName;
                 stepLocationRelativeToParent := Some INSIDE_BRANCH;
                 branchIndex :=
                   Some (Z.of_nat (List.length (splice (-1) 0 [None] c)) - 2)%Z;
                 addBranchName := None;
                 action := requestOfStep duplicatedStep |}
              None ;;
          replay applyRec (getImportOperations duplicatedStep) finalFlow
      end
  | Some _ => Throws TypeError   (* [children] of a step that has none *)
  end.

(* ------------------------------------------------------------------ *)
(** *** Router branch operations *)

Definition createEmptyBranch (pathNumber : nat) : RouterBranch :=
  {| conditions := [[emptyCondition]];
     branchType := CONDITION;
     branchName := "Branch " ^^ decimal pathNumber |}.

(** What the branch operations do to [parentStep.nextAction] when it is
    the named router. *)
Definition onNamedRouterNext (stepName_ : string) (g : Props -> list (option Step)
  -> Props * list (option Step)) (parentStep_ : Step) : outcome Step :=
  Returns
    match nextOf parentStep_ with
    | Some (RouterAction p c n) =>
        if String.eqb (name p) stepName_
        then let (p', c') := g p c in
             setNext (Some (RouterAction p' c' n)) parentStep_
        else parentStep_
    | _ => parentStep_
    end.

Definition deleteBranchFn (stepName_ : string) (branchIndex_ : Z)
  : Step -> outcome Step :=
  onNamedRouterNext stepName_
    (fun p c =>
       (withSettings
          (withBranches (splice branchIndex_ 1 [] (branches (settings p)))
             (settings p)) p,
        splice branchIndex_ 1 [] c)).

Definition addBranchFn (stepName_ : string) (branchIndex_ : Z)
  : Step -> outcome Step :=
  onNamedRouterNext stepName_
    (fun p c =>
       (withSettings
          (withBranches
             (splice branchIndex_ 0
                [createEmptyBranch (List.length (branches (settings p)))]
                (branches (settings p)))
             (settings p)) p,
        splice branchIndex_ 0 [None] c)).

(* ------------------------------------------------------------------ *)
(** *** The dispatcher *)

Fixpoint apply (fuel : nat) (flowVersion : FlowVersion)
  (operation : FlowOperationRequest) : outcome FlowVersion :=
  match fuel with
  | O => OutOfFuel
  | S fuel' =>
      clonedVersion <- jsonClone (Some flowVersion) ;;
      clonedVersion' <-
        match operation with
        | MOVE_ACTION request =>
            moveAction (apply fuel') fuel' clonedVersion request
        | LOCK_FLOW =>
            Returns {| flowDisplayName := flowDisplayName clonedVersion;
                       state := LOCKED;
                       trigger := trigger clonedVersion;
                       flowValid := flowValid clonedVersion |}
        | CHANGE_NAME newDisplayName =>
            Returns {| flowDisplayName := newDisplayName;
                       state := state clonedVersion;
                       trigger := trigger clonedVersion;
                       flowValid := flowValid clonedVersion |}
        | DELETE_ACTION name_ => deleteAction fuel' clonedVersion name_
        | ADD_ACTION request =>
            added <- addAction fuel' clonedVersion request None ;;
            transferFlow fuel' added
              (fun step => upgradePiece step (reqName (action request)))
        | UPDATE_ACTION request =>
            updated <- updateAction fuel' clonedVersion request ;;
            transferFlow fuel' updated
              (fun step => upgradePiece step (reqName request))
        | UPDATE_TRIGGER request =>
            let t := trigger clonedVersion in
            transferFlow fuel'
              (withTrigger (createTrigger (stepName t) request (nextOf t))
                 clonedVersion)
              (fun step => upgradePiece step (treqName request))
        | DUPLICATE_ACTION stepName_ =>
            duplicateStep (apply fuel') fuel' stepName_ clonedVersion
        | DELETE_BRANCH stepName_ branchIndex_ =>
            transferFlow fuel' flowVersion (deleteBranchFn stepName_ branchIndex_)
        | ADD_BRANCH stepName_ branchIndex_ =>
            transferFlow fuel' flowVersion (addBranchFn stepName_ branchIndex_)
        | DUPLICATE_BRANCH stepName_ branchIndex_ =>
            duplicateRouterChild (apply fuel') fuel' stepName_ branchIndex_
              clonedVersion
        end ;;
      Returns (withFlowValid (isValid clonedVersion') clonedVersion')
  end.

End Engine.

(* ================================================================== *)
(** ** A reference instance of the collaborators *)
(* ================================================================== *)

(** Versions of the form MAJOR.MINOR.PATCH, compared field by field, as
    [semver] does on versions without pre-release tags. *)
Module SimpleSemver.

Definition digitValue (c : ascii) : option nat :=
  let n := nat_of_ascii c in
  if ((48 <=? n) && (n <=? 57))%nat then Some (n - 48) else None.

Fixpoint numberFrom (acc : nat) (s : string) : option nat :=
  match s with
  | EmptyString => Some acc
  | String c rest =>
      match digitValue c with
      | Some d => numberFrom (10 * acc + d) rest
      | None => None
      end
  end.

Definition number (s : string) : option nat :=
  match s with
  | EmptyString => None
  | _ => numberFrom 0 s
  end.

Fixpoint splitDots (current : string) (s : string) : list string :=
  match s with
  | EmptyString => [current]
  | String c rest =>
      if Ascii.eqb c "."%char then current :: splitDots EmptyString rest
      else splitDots (current ^^ String c EmptyString) rest
  end.

Definition parse (s : string) : option (nat * nat * nat) :=
  match map number (splitDots EmptyString s) with
  | [Some a; Some b; Some c] => Some (a, b, c)
  | _ => None
  end.

Definition valid (s : string) : bool :=
  match parse s with Some _ => true | None => false end.

Definition lt (a b : string) : option bool :=
  match parse a, parse b with
  | Some (a1, a2, a3), Some (b1, b2, b3) =>
      Some ((a1 <? b1)
            || ((a1 =? b1) && ((a2 <? b2) || ((a2 =? b2) && (a3 <? b3)))))%nat
  | _, _ => None
  end.

End SimpleSemver.

(** Every step passes the schema check, sample data defaults to empty,
    and template rewriting leaves strings alone (the steps of the
    examples carry no [{{...}}] template). *)
Definition referenceExternals : Externals :=
  {| actionSchemaCheck := fun _ => true;
     triggerSchemaCheck := fun _ => true;
     semverValid := SimpleSemver.valid;
     semverLt := SimpleSemver.lt;
     DEFAULT_SAMPLE_DATA_SETTINGS :=
       {| currentSelectedData := None; sampleDataFileId := None;
          lastTestDate := None |};
     emptyCondition := JObject [];
     replaceInTemplates := fun input_ _ _ => input_ |}.

(** Builders for the examples. *)
Definition plainSettings : Settings :=
  {| pieceName := ""; pieceVersion := ""; input := None; inputUiInfo := None;
     branches := []; otherSettings := [] |}.

Definition pieceSettings (pieceName_ pieceVersion_ : string)
  (auth_ : option string) : Settings :=
  {| pieceName := pieceName_; pieceVersion := pieceVersion_;
     input := Some {| auth := auth_; otherInput := [] |};
     inputUiInfo := None; branches := []; otherSettings := [] |}.

Definition namedBranch (n : string) : RouterBranch :=
  {| conditions := []; branchType := CONDITION; branchName := n |}.

Definition routerSettings (names : list string) : Settings :=
  withBranches (map namedBranch names) plainSettings.

Definition props (name_ : string) (s : Settings) : Props :=
  {| name := name_; displayName := name_; valid := true; settings := s |}.

Definition flowOf (t : Step) : FlowVersion :=
  {| flowDisplayName := "flow"; state := DRAFT; trigger := t;
     flowValid := true |}.

Definition emptyTrigger (n : option Step) : Step :=
  SimpleStep STriggerEmpty (props "trigger" plainSettings) n.

Definition code (name_ : string) (n : option Step) : Step :=
  SimpleStep SCode (props name_ plainSettings) n.

(* ================================================================== *)
(** ** Reasoning principles *)
(* ================================================================== *)

Unset Implicit Arguments.

(** *** Outcomes *)

Lemma bind_returns {A B} (m : outcome A) (k : A -> outcome B) (b : B) :
  bind m k = Returns b -> exists a, m = Returns a /\ k a = Returns b.
Proof.
  destruct m; simpl; intros H; try discriminate. eauto.
Qed.

Lemma mapM_app {A B} (g : A -> outcome B) (l1 l2 : list A) :
  mapM g (l1 ++ l2) =
  (r1 <- mapM g l1 ;; r2 <- mapM g l2 ;; Returns (r1 ++ r2)).
Proof.
  induction l1 as [|a l1 IH]; simpl.
  - destruct (mapM g l2); reflexivity.
  - destruct (g a); simpl; try reflexivity.
    rewrite IH. destruct (mapM g l1); simpl; try reflexivity.
    destruct (mapM g l2); reflexivity.
Qed.

Lemma mapM_returns {A B} (g : A -> outcome B) (l : list A) (r : list B) :
  mapM g l = Returns r -> Forall2 (fun a b => g a = Returns b) l r.
Proof.
  revert r. induction l as [|a l IH]; simpl; intros r H.
  - inversion H. constructor.
  - apply bind_returns in H. destruct H as [b [Hb H]].
    apply bind_returns in H. destruct H as [bs [Hbs H]].
    inversion H; subst. constructor; auto.
Qed.

Lemma mapM_of_Forall2 {A B} (g : A -> outcome B) (l : list A) (r : list B) :
  Forall2 (fun a b => g a = Returns b) l r -> mapM g l = Returns r.
Proof.
  induction 1 as [|a b l r Hab _ IH]; simpl; [reflexivity|].
  rewrite Hab. simpl. rewrite IH. reflexivity.
Qed.

Lemma mapM_ext_in {A B} (g h : A -> outcome B) (l : list A) :
  (forall a, In a l -> g a = h a) -> mapM g l = mapM h l.
Proof.
  induction l as [|a l IH]; simpl; intros H; [reflexivity|].
  rewrite (H a) by auto. rewrite IH by auto. reflexivity.
Qed.

(** *** The child slots of a step, in the order [transferStep] visits
    them *)

Definition slots (step : Step) : list (option Step) :=
  match step with
  | SimpleStep _ _ n => [n]
  | BranchAction _ s f n => [s; f; n]
  | LoopOnItemsAction _ b n => [b; n]
  | RouterAction _ c n => c ++ [n]
  end.

(** The step with its slots replaced (a list of the wrong length leaves
    slots empty; [withSlots] is only used at the right length). *)
Definition withSlots (step : Step) (l : list (option Step)) : Step :=
  match step with
  | SimpleStep t p _ => SimpleStep t p (nth 0 l None)
  | BranchAction p _ _ _ =>
      BranchAction p (nth 0 l None) (nth 1 l None) (nth 2 l None)
  | LoopOnItemsAction p _ _ => LoopOnItemsAction p (nth 0 l None) (nth 1 l None)
  | RouterAction p _ _ => RouterAction p (removelast l) (last l None)
  end.

Lemma withSlots_slots step : withSlots step (slots step) = step.
Proof.
  destruct step; simpl; try reflexivity.
  rewrite removelast_last, last_last. reflexivity.
Qed.

Lemma slots_withSlots step l :
  List.length l = List.length (slots step) -> slots (withSlots step l) = l.
Proof.
  destruct step; simpl; intros H.
  - destruct l as [|a [|? ?]]; try discriminate; reflexivity.
  - destruct l as [|a [|b [|c [|? ?]]]]; try discriminate; reflexivity.
  - destruct l as [|a [|b [|? ?]]]; try discriminate; reflexivity.
  - destruct l as [|a l] using rev_ind.
    + rewrite length_app in H. simpl in H. lia.
    + clear IHl. rewrite removelast_last, last_last. reflexivity.
Qed.

Lemma transferStep_unfold (fuel : nat) f step :
  transferStep (S fuel) f step =
  (updatedStep <- f step ;;
   l <- mapM (transferOpt (transferStep fuel f)) (slots updatedStep) ;;
   Returns (withSlots updatedStep l)).
Proof.
  simpl. destruct (f step) as [u| | |]; simpl; try reflexivity.
  destruct u as [t p n|p s fl n|p b n|p c n]; simpl.
  - destruct (transferOpt _ n); reflexivity.
  - destruct (transferOpt _ s); simpl; try reflexivity.
    destruct (transferOpt _ fl); simpl; try reflexivity.
    destruct (transferOpt _ n); reflexivity.
  - destruct (transferOpt _ b); simpl; try reflexivity.
    destruct (transferOpt _ n); reflexivity.
  - rewrite mapM_app. simpl.
    destruct (mapM _ c) as [c'| | |]; simpl; try reflexivity.
    destruct (transferOpt _ n) as [n'| | |]; simpl; try reflexivity.
    rewrite removelast_last, last_last. reflexivity.
Qed.

Lemma traverseInternal_slots step :
  traverseInternal step = step :: flat_map traverseOpt (slots step).
Proof.
  destruct step as [t p n|p s fl n|p b n|p c n]; simpl;
    unfold traverseOpt; rewrite ?app_nil_r; try reflexivity.
  rewrite flat_map_app. simpl. rewrite app_nil_r. reflexivity.
Qed.

Lemma traverseInternal_self step : In step (traverseInternal step).
Proof. rewrite traverseInternal_slots. left. reflexivity. Qed.

Lemma in_traverse_slot step slot s :
  In slot (slots step) -> In s (traverseOpt slot) ->
  In s (traverseInternal step).
Proof.
  intros Hslot Hs. rewrite traverseInternal_slots. right.
  apply in_flat_map. eauto.
Qed.

(** *** Height, the recursion budget a rewrite needs *)

Fixpoint height (step : Step) : nat :=
  S match step with
    | SimpleStep _ _ n =>
        match n with Some a => height a | None => 0 end
    | BranchAction _ s f n =>
        Nat.max match s with Some a => height a | None => 0 end
          (Nat.max match f with Some a => height a | None => 0 end
             match n with Some a => height a | None => 0 end)
    | LoopOnItemsAction _ b n =>
        Nat.max match b with Some a => height a | None => 0 end
          match n with Some a => height a | None => 0 end
    | RouterAction _ c n =>
        Nat.max
          (fold_right
             (fun child m =>
                Nat.max match child with Some a => height a | None => 0 end m)
             0 c)
          match n with Some a => height a | None => 0 end
    end.

Definition heightOpt (slot : option Step) : nat :=
  match slot with Some a => height a | None => 0 end.

Lemma height_slot step slot :
  In slot (slots step) -> heightOpt slot < height step.
Proof.
  destruct step as [t p n|p s fl n|p b n|p c n]; simpl; intros H.
  - destruct H as [<-|[]]. unfold heightOpt. destruct n; lia.
  - fold (heightOpt s) (heightOpt fl) (heightOpt n).
    destruct H as [<-|[<-|[<-|[]]]]; lia.
  - fold (heightOpt b) (heightOpt n).
    destruct H as [<-|[<-|[]]]; lia.
  - fold (heightOpt n). apply in_app_or in H. destruct H as [H|[<-|[]]]; [|lia].
    assert (heightOpt slot <=
            fold_right (fun child m => Nat.max (heightOpt child) m) 0 c).
    { induction c as [|a c IH]; simpl in *; [contradiction|].
      destruct H as [<-|H]; [lia|]. specialize (IH H). lia. }
    unfold heightOpt in *. lia.
Qed.

Lemma height_pos step : 0 < height step.
Proof. destruct step; simpl; lia. Qed.

(** *** A rewrite that leaves every step of a tree alone *)

Lemma transfer_identity f (fuel : nat) step :
  height step <= fuel ->
  (forall s, In s (traverseInternal step) -> f s = Returns s) ->
  transferStep fuel f step = Returns step.
Proof.
  revert step. induction fuel as [|fuel IH]; intros step Hh Hid.
  - pose proof (height_pos step). lia.
  - rewrite transferStep_unfold, (Hid step (traverseInternal_self step)).
    simpl.
    assert (Hm : mapM (transferOpt (transferStep fuel f)) (slots step)
                 = Returns (slots step)).
    { apply mapM_of_Forall2.
      assert (Hall : forall slot, In slot (slots step) ->
                transferOpt (transferStep fuel f) slot = Returns slot).
      { intros [a|] Hin; simpl; [|reflexivity].
        rewrite IH; [reflexivity| |].
        - pose proof (height_slot step _ Hin) as Hlt. simpl in Hlt. lia.
        - intros s Hs. apply Hid. eapply in_traverse_slot; eauto. }
      induction (slots step) as [|a l IHl]; constructor.
      - apply Hall. left. reflexivity.
      - apply IHl. intros slot Hin. apply Hall. right. exact Hin. }
    rewrite Hm. simpl. rewrite withSlots_slots. reflexivity.
Qed.

(** *** More fuel never changes a result *)

Lemma transferStep_mono f (fuel : nat) :
  forall step r fuel', fuel <= fuel' ->
    transferStep fuel f step = Returns r ->
    transferStep fuel' f step = Returns r.
Proof.
  induction fuel as [|fuel IH]; intros step r fuel' Hle H;
    [discriminate|].
  destruct fuel' as [|fuel']; [lia|].
  rewrite transferStep_unfold in *.
  destruct (f step) as [u| | |]; simpl in *; try discriminate.
  apply bind_returns in H. destruct H as [l [Hl H]].
  apply mapM_returns in Hl.
  assert (Hl' : mapM (transferOpt (transferStep fuel' f)) (slots u) = Returns l).
  { apply mapM_of_Forall2. revert Hl. apply Forall2_impl.
    intros [a|] b Hab; simpl in *; [|exact Hab].
    apply bind_returns in Hab. destruct Hab as [a' [Ha' Hab]].
    rewrite (IH a a' fuel'); [exact Hab|lia|exact Ha']. }
  rewrite Hl'. exact H.
Qed.

(* ================================================================== *)
(** ** Duplicating a step that does not exist *)
(* ================================================================== *)

Section DuplicateMissing.

Context {E : Externals}.

Lemma duplicateStep_missing applyRec (fuel : nat) flowVersion stepName_ :
  getStep flowVersion stepName_ = None ->
  duplicateStep applyRec fuel stepName_ flowVersion = Throws SyntaxError.
Proof.
  intros H. unfold duplicateStep. rewrite H. reflexivity.
Qed.

(** C8 (amended).  When no step of the flow carries the name given to
    [DUPLICATE_ACTION], [getStep] answers [undefined] without throwing,
    and [apply] does not return a flow: it throws, and what it throws is
    not an [ActivepiecesError] with code [FLOW_OPERATION_INVALID]. *)
Theorem duplicate_missing_step_throws (flowVersion : FlowVersion)
  (stepName_ : string) (fuel : nat) :
  getStep flowVersion stepName_ = None ->
  exists e,
    apply (S fuel) flowVersion (DUPLICATE_ACTION stepName_) = Throws e
    /\ isFlowOperationInvalid e = false.
Proof.
  intros H. exists SyntaxError. split; [|reflexivity].
  simpl. rewrite duplicateStep_missing by exact H. reflexivity.
Qed.

End DuplicateMissing.

Definition loneTriggerFlow : FlowVersion := flowOf (emptyTrigger None).

Lemma duplicate_missing_step_throws_witness :
  getStep loneTriggerFlow "step_9" = None
  /\ exists e,
       apply (E := referenceExternals) 1 loneTriggerFlow
         (DUPLICATE_ACTION "step_9") = Throws e
       /\ isFlowOperationInvalid e = false.
Proof.
  split; [reflexivity|].
  apply (duplicate_missing_step_throws (E := referenceExternals)
           loneTriggerFlow "step_9" 0).
  reflexivity.
Defined.

(** The claim as stated fails: duplicating the absent step ["step_9"] of
    a flow that consists of its trigger never ends in a
    [FLOW_OPERATION_INVALID] error, whatever the recursion budget. *)
Lemma duplicate_missing_step_not_operation_invalid :
  getStep loneTriggerFlow "step_9" = None
  /\ forall fuel message,
       apply (E := referenceExternals) fuel loneTriggerFlow
         (DUPLICATE_ACTION "step_9")
       <> Throws (ActivepiecesError FLOW_OPERATION_INVALID message).
Proof.
  split; [reflexivity|].
  intros [|fuel] message; simpl; discriminate.
Qed.

(* ================================================================== *)
(** ** The first step a rewrite refuses *)
(* ================================================================== *)

Lemma find_app {A} (pred : A -> bool) (l1 l2 : list A) :
  find pred (l1 ++ l2) =
  match find pred l1 with Some x => Some x | None => find pred l2 end.
Proof.
  induction l1 as [|a l1 IH]; simpl; [reflexivity|].
  destruct (pred a); [reflexivity|exact IH].
Qed.

Lemma findByName_none_names target steps :
  findByName target steps = None ->
  forall s, In s steps -> stepName s <> target.
Proof.
  intros H s Hin Heq. unfold findByName in H.
  pose proof (find_none _ _ H s Hin) as Hf. simpl in Hf.
  apply String.eqb_neq in Hf. contradiction.
Qed.

(** A rewrite that only touches steps named [target], and throws on the
    first of them in traversal order, throws on the whole tree. *)
Lemma transfer_throws_at_first f target e (fuel : nat) :
  (forall s, stepName s <> target -> f s = Returns s) ->
  forall step p,
    height step <= fuel ->
    findByName target (traverseInternal step) = Some p ->
    f p = Throws e ->
    transferStep fuel f step = Throws e.
Proof.
  intros Hother. induction fuel as [|fuel IH]; intros step p Hh Hfind Hp.
  - pose proof (height_pos step). lia.
  - rewrite transferStep_unfold.
    rewrite traverseInternal_slots in Hfind. unfold findByName in Hfind.
    simpl in Hfind.
    destruct (String.eqb (stepName step) target) eqn:Hname.
    + inversion Hfind; subst p. rewrite Hp. reflexivity.
    + apply String.eqb_neq in Hname. rewrite (Hother _ Hname). simpl.
      assert (Hslots : forall slot, In slot (slots step) ->
                heightOpt slot <= fuel).
      { intros slot Hin. pose proof (height_slot step _ Hin). lia. }
      assert (Hm : mapM (transferOpt (transferStep fuel f)) (slots step)
                   = Throws e); [|rewrite Hm; reflexivity].
      clear Hh Hname. induction (slots step) as [|slot l IHl];
        simpl in Hfind; [discriminate|].
      rewrite find_app in Hfind. simpl.
      destruct (find _ (traverseOpt slot)) as [q|] eqn:Hq.
      * inversion Hfind; subst q. destruct slot as [a|]; [|discriminate].
        simpl. rewrite (IH a p); [reflexivity| |exact Hq|exact Hp].
        apply (Hslots (Some a)). left. reflexivity.
      * assert (Hid : transferOpt (transferStep fuel f) slot = Returns slot).
        { destruct slot as [a|]; simpl; [|reflexivity].
          rewrite transfer_identity; [reflexivity| |].
          - apply (Hslots (Some a)). left. reflexivity.
          - intros s Hs. apply Hother.
            eapply findByName_none_names; eauto. }
        rewrite Hid. simpl. rewrite IHl; [reflexivity|exact Hfind|].
        intros s Hs. apply Hslots. right. exact Hs.
Qed.

(* ================================================================== *)
(** ** Adding under a parent that has no such slot *)
(* ================================================================== *)

Definition doesStepHaveChildren (step : Step) : bool :=
  match typeOf step with
  | OfAction BRANCH | OfAction LOOP_ON_ITEMS | OfAction ROUTER => true
  | _ => false
  end.

(** The locations that designate a place next to or inside a step of a
    given kind. *)
Definition locationFits (parent : Step) (location : StepLocationRelativeToParent)
  : bool :=
  match location, typeOf parent with
  | AFTER, _ => true
  | INSIDE_LOOP, OfAction LOOP_ON_ITEMS => true
  | INSIDE_TRUE_BRANCH, OfAction BRANCH => true
  | INSIDE_FALSE_BRANCH, OfAction BRANCH => true
  | INSIDE_BRANCH, OfAction ROUTER => true
  | _, _ => false
  end.

Section AddActionLocation.

Context {E : Externals}.

Lemma addActionFn_other request children_ s :
  stepName s <> parentStep request ->
  addActionFn request children_ s = Returns s.
Proof.
  intros H. unfold addActionFn.
  apply String.eqb_neq in H. rewrite H. reflexivity.
Qed.

Lemma addActionFn_rejects request children_ parent location :
  stepName parent = parentStep request ->
  doesStepHaveChildren parent = true ->
  stepLocationRelativeToParent request = Some location ->
  locationFits parent location = false ->
  exists message,
    addActionFn request children_ parent = Throws (operationInvalid message).
Proof.
  intros Hname Hkids Hloc Hfit. unfold addActionFn.
  rewrite Hname, String.eqb_refl, Hloc. simpl.
  destruct parent as [t p n|p s f n|p b n|p c n];
    [destruct t; discriminate| | |];
    destruct location; try discriminate; eexists; reflexivity.
Qed.

(** C7 (amended).  An [ADD_ACTION] whose parent step is a loop, a branch
    or a router, and whose location is set to one that this kind of step
    does not have, makes [apply] throw [FLOW_OPERATION_INVALID]. *)
Theorem add_action_misplaced_throws (flowVersion : FlowVersion)
  (request : AddActionRequest) (parent : Step)
  (location : StepLocationRelativeToParent) :
  getStep flowVersion (parentStep request) = Some parent ->
  doesStepHaveChildren parent = true ->
  stepLocationRelativeToParent request = Some location ->
  locationFits parent location = false ->
  exists message, forall fuel,
    height (trigger flowVersion) < fuel ->
    apply fuel flowVersion (ADD_ACTION request)
    = Throws (ActivepiecesError FLOW_OPERATION_INVALID message).
Proof.
  intros Hget Hkids Hloc Hfit.
  assert (Hname : stepName parent = parentStep request).
  { unfold getStep, findByName in Hget. apply find_some in Hget.
    apply String.eqb_eq. apply Hget. }
  destruct (addActionFn_rejects request None parent location
              Hname Hkids Hloc Hfit) as [message Hthrow].
  exists message. intros [|fuel] Hfuel; [lia|].
  simpl. unfold addAction, transferFlow. simpl.
  rewrite (transfer_throws_at_first (addActionFn request None)
             (parentStep request) (operationInvalid message) fuel)
    with (p := parent); [reflexivity| |lia|exact Hget|exact Hthrow].
  intros s Hs. apply addActionFn_other. exact Hs.
Qed.

End AddActionLocation.

Definition loopFlow : FlowVersion :=
  flowOf (emptyTrigger
            (Some (LoopOnItemsAction (props "loop" plainSettings) None None))).

Definition addUnder (parent : string)
  (location : StepLocationRelativeToParent) (a : Step) : FlowOperationRequest :=
  ADD_ACTION
    {| parentStep := parent; stepLocationRelativeToParent := Some location;
       branchIndex := None; addBranchName := None;
       action := requestOfStep a |}.

Lemma add_action_misplaced_throws_witness :
  exists message, forall fuel,
    height (trigger loopFlow) < fuel ->
    apply (E := referenceExternals) fuel loopFlow
      (addUnder "loop" INSIDE_TRUE_BRANCH (code "step_1" None))
    = Throws (ActivepiecesError FLOW_OPERATION_INVALID message).
Proof.
  apply (add_action_misplaced_throws (E := referenceExternals) loopFlow
           {| parentStep := "loop";
              stepLocationRelativeToParent := Some INSIDE_TRUE_BRANCH;
              branchIndex := None; addBranchName := None;
              action := requestOfStep (code "step_1" None) |}
           (LoopOnItemsAction (props "loop" plainSettings) None None)
           INSIDE_TRUE_BRANCH);
    reflexivity.
Defined.

Definition pieceFlow : FlowVersion :=
  flowOf (emptyTrigger
            (Some (SimpleStep SPiece
                     (props "step_1"
                        (pieceSettings "@activepieces/piece-slack" "^0.5.0"
                           None))
                     None))).

(** The claim as stated fails: [INSIDE_LOOP] under the piece step
    ["step_1"], which is no loop, is not refused; the new action is
    inserted after ["step_1"]. *)
Lemma add_inside_loop_under_piece_returns :
  locationFits (SimpleStep SPiece
                  (props "step_1"
                     (pieceSettings "@activepieces/piece-slack" "^0.5.0" None))
                  None) INSIDE_LOOP = false
  /\ forall fuel, 3 < fuel ->
       apply (E := referenceExternals) fuel pieceFlow
         (addUnder "step_1" INSIDE_LOOP (code "step_2" None))
       = Returns
           (flowOf (emptyTrigger
              (Some (SimpleStep SPiece
                       (props "step_1"
                          (pieceSettings "@activepieces/piece-slack" "^0.5.0"
                             None))
                       (Some (code "step_2" None)))))).
Proof.
  split; [reflexivity|].
  intros [|[|[|[|fuel]]]] H; try lia. reflexivity.
Qed.

(* ================================================================== *)
(** ** Rewrites that keep the shape of the tree *)
(* ================================================================== *)

(** [s'] carries what the rewrite made of [s], at the same place. *)
Definition rewrittenBy (f : Step -> outcome Step) (s s' : Step) : Prop :=
  exists u, f s = Returns u /\ propsOf s' = propsOf u /\ typeOf s' = typeOf u.

Lemma propsOf_withSlots u l : propsOf (withSlots u l) = propsOf u.
Proof. destruct u; reflexivity. Qed.

Lemma typeOf_withSlots u l : typeOf (withSlots u l) = typeOf u.
Proof. destruct u; reflexivity. Qed.

Lemma Forall2_flat_map {A B C D} (R : C -> D -> Prop)
  (g : A -> list C) (h : B -> list D) (Q : A -> B -> Prop) l l' :
  (forall a b, Q a b -> Forall2 R (g a) (h b)) ->
  Forall2 Q l l' -> Forall2 R (flat_map g l) (flat_map h l').
Proof.
  intros HQ. induction 1; simpl; [constructor|].
  apply Forall2_app; auto.
Qed.

Lemma Forall2_in_r {A B} (R : A -> B -> Prop) l l' y :
  Forall2 R l l' -> In y l' -> exists x, In x l /\ R x y.
Proof.
  induction 1 as [|a b l l' Hab _ IH]; simpl; [contradiction|].
  intros [<-|Hin]; [eauto|].
  destruct (IH Hin) as [x [Hx HR]]. eauto.
Qed.

Lemma transfer_pointwise f :
  (forall s u, f s = Returns u -> slots u = slots s) ->
  forall (fuel : nat) step step',
    transferStep fuel f step = Returns step' ->
    Forall2 (rewrittenBy f) (traverseInternal step) (traverseInternal step').
Proof.
  intros Hshape. induction fuel as [|fuel IH]; intros step step' H;
    [discriminate|].
  rewrite transferStep_unfold in H.
  apply bind_returns in H. destruct H as [u [Hu H]].
  apply bind_returns in H. destruct H as [l [Hl H]].
  inversion H; subst step'. clear H.
  apply mapM_returns in Hl.
  rewrite (traverseInternal_slots step), (traverseInternal_slots (withSlots u l)).
  rewrite slots_withSlots by (symmetry; eapply Forall2_length; eauto).
  rewrite <- (Hshape _ _ Hu).
  constructor.
  - exists u. rewrite propsOf_withSlots, typeOf_withSlots. auto.
  - eapply Forall2_flat_map; [|exact Hl].
    intros [a|] b Hab; simpl in Hab.
    + apply bind_returns in Hab. destruct Hab as [a' [Ha' Hab]].
      inversion Hab; subst b. simpl. eapply IH; eauto.
    + inversion Hab; subst b. constructor.
Qed.

(** A shape-keeping rewrite that never loops comes back within the
    height of the tree. *)
Lemma transfer_terminates f :
  (forall s u, f s = Returns u -> slots u = slots s) ->
  (forall s, f s <> OutOfFuel) ->
  forall (fuel : nat) step,
    height step <= fuel -> transferStep fuel f step <> OutOfFuel.
Proof.
  intros Hshape Hf. induction fuel as [|fuel IH]; intros step Hh.
  - pose proof (height_pos step). lia.
  - rewrite transferStep_unfold. specialize (Hf step).
    destruct (f step) as [u| | |] eqn:Hu; simpl; try discriminate;
      [|contradiction].
    assert (Hm : mapM (transferOpt (transferStep fuel f)) (slots u)
                 <> OutOfFuel).
    { rewrite (Hshape _ _ Hu).
      assert (Hslots : forall slot, In slot (slots step) ->
                heightOpt slot <= fuel).
      { intros slot Hin. pose proof (height_slot step _ Hin). lia. }
      induction (slots step) as [|slot l IHl]; simpl; [discriminate|].
      assert (Hs : transferOpt (transferStep fuel f) slot <> OutOfFuel).
      { destruct slot as [a|]; simpl; [|discriminate].
        specialize (IH a (Hslots (Some a) (or_introl eq_refl))).
        destruct (transferStep fuel f a); simpl; congruence. }
      destruct (transferOpt _ slot); simpl; try congruence.
      assert (Hl : mapM (transferOpt (transferStep fuel f)) l <> OutOfFuel).
      { apply IHl. intros s Hs'. apply Hslots. right. exact Hs'. }
      destruct (mapM _ l); simpl; congruence. }
    destruct (mapM _ (slots u)); simpl; congruence.
Qed.

Lemma height_le_of_slots step (k : nat) :
  0 < k ->
  (forall slot, In slot (slots step) -> heightOpt slot < k) ->
  height step <= k.
Proof.
  intros Hk Hbound.
  destruct step as [t p n|p s f n|p b n|p c n]; simpl in *.
  - pose proof (Hbound n (or_introl eq_refl)) as B. unfold heightOpt in B. lia.
  - pose proof (Hbound s (or_introl eq_refl)) as B1.
    pose proof (Hbound f (or_intror (or_introl eq_refl))) as B2.
    pose proof (Hbound n (or_intror (or_intror (or_introl eq_refl)))) as B3.
    unfold heightOpt in *. lia.
  - pose proof (Hbound b (or_introl eq_refl)) as B1.
    pose proof (Hbound n (or_intror (or_introl eq_refl))) as B2.
    unfold heightOpt in *. lia.
  - assert (B1 : heightOpt n < k)
      by (apply Hbound, in_or_app; right; left; reflexivity).
    assert (B2 : fold_right
                   (fun child m => Nat.max (heightOpt child) m) 0 c < k).
    { assert (Hc : forall slot, In slot c -> heightOpt slot < k)
        by (intros slot Hs; apply Hbound, in_or_app; left; exact Hs).
      clear - Hc Hk. induction c as [|x c IHc]; simpl; [lia|].
      pose proof (Hc x (or_introl eq_refl)).
      assert (fold_right (fun child m => Nat.max (heightOpt child) m) 0 c < k)
        by (apply IHc; intros slot Hs; apply Hc; right; exact Hs).
      lia. }
    unfold heightOpt in *. lia.
Qed.

(** A shape-keeping rewrite does not make the tree higher. *)
Lemma transfer_height f :
  (forall s u, f s = Returns u -> slots u = slots s) ->
  forall (fuel : nat) a b,
    transferStep fuel f a = Returns b -> height b <= height a.
Proof.
  intros Hshape. induction fuel as [|fuel IH]; intros a b Hab;
    [discriminate|].
  rewrite transferStep_unfold in Hab.
  apply bind_returns in Hab. destruct Hab as [u [Hu Hab]].
  apply bind_returns in Hab. destruct Hab as [l [Hl Hab]].
  inversion Hab; subst b. clear Hab.
  apply mapM_returns in Hl. rewrite (Hshape _ _ Hu) in Hl.
  apply height_le_of_slots; [apply height_pos|].
  rewrite slots_withSlots
    by (rewrite (Hshape _ _ Hu); symmetry; eapply Forall2_length; eauto).
  intros slot Hslot.
  destruct (Forall2_in_r _ _ _ _ Hl Hslot) as [x [Hx Hxs]].
  pose proof (height_slot a x Hx) as Hlt.
  destruct x as [x|]; simpl in Hxs.
  - apply bind_returns in Hxs. destruct Hxs as [x' [Hx' Hxs]].
    inversion Hxs; subst slot. simpl in *.
    specialize (IH _ _ Hx'). lia.
  - inversion Hxs; subst slot. simpl. lia.
Qed.

(* ================================================================== *)
(** ** Normalisation *)
(* ================================================================== *)

Lemma propsOf_setProps p s : propsOf (setProps p s) = p.
Proof. destruct s; reflexivity. Qed.

Lemma slots_setProps p s : slots (setProps p s) = slots s.
Proof. destruct s; reflexivity. Qed.

Lemma typeOf_setProps p s : typeOf (setProps p s) = typeOf s.
Proof. destruct s as [[] ? ?| | |]; reflexivity. Qed.

Lemma isPieceStep_setProps p s : isPieceStep (setProps p s) = isPieceStep s.
Proof. destruct s as [[] ? ?| | |]; reflexivity. Qed.

Lemma setProps_propsOf s : setProps (propsOf s) s = s.
Proof. destruct s; reflexivity. Qed.

Lemma setProps_setProps p q s : setProps p (setProps q s) = setProps p s.
Proof. destruct s; reflexivity. Qed.

Lemma isPieceStep_typeOf s s' :
  typeOf s = typeOf s' -> isPieceStep s = isPieceStep s'.
Proof.
  destruct s as [[] ? ?| | |], s' as [[] ? ?| | |]; simpl;
    intros H; try discriminate; reflexivity.
Qed.

Lemma same_node s u :
  propsOf s = propsOf u -> typeOf s = typeOf u ->
  setProps (propsOf u) s = s.
Proof. intros <- _. apply setProps_propsOf. Qed.

(** A version that already carries a range operator. *)
Definition pinned (v : string) : bool := startsWith "^" v || startsWith "~" v.

Section Normalize.

Context {E : Externals}.

(** [semver.valid(v) && semver.lt(v, '1.0.0')] *)
Definition belowOne (v : string) : bool :=
  semverValid v
  && match semverLt v "1.0.0" with Some b => b | None => false end.

(** The upgrade rule of a piece version: legacy and pinned versions
    stay, a version below 1.0.0 gets the tilde, any other the caret. *)
Definition upgradeRule (pieceName_ v v' : string) : Prop :=
  (isLegacyApp pieceName_ v = Returns true /\ v' = v)
  \/ (isLegacyApp pieceName_ v = Returns false
      /\ ((pinned v = true /\ v' = v)
          \/ (pinned v = false /\ belowOne v = true /\ v' = "~" ^^ v)
          \/ (pinned v = false /\ belowOne v = false /\ v' = "^" ^^ v))).

Lemma upgradePiece_shape step target u :
  upgradePiece step target = Returns u -> exists p, u = setProps p step.
Proof.
  assert (Hsame : forall v, Returns step = Returns v ->
            exists p, v = setProps p step).
  { intros v Hv. injection Hv as <-. exists (propsOf step).
    symmetry. apply setProps_propsOf. }
  unfold upgradePiece, setPieceVersion. intros H.
  destruct (negb _); [auto|].
  destruct (isPieceStep step); [|auto].
  destruct (isLegacyApp _ _) as [[|]| | |]; simpl in H; try discriminate;
    [auto|].
  destruct (_ || _); [auto|].
  destruct (semverValid _);
    [unfold semverLtOrThrow in H; destruct (semverLt _ _) as [[|]|]|];
    simpl in H; try discriminate; inversion H; eexists; reflexivity.
Qed.

Lemma upgradePiece_slots step target u :
  upgradePiece step target = Returns u -> slots u = slots step.
Proof.
  intros H. destruct (upgradePiece_shape _ _ _ H) as [p ->].
  apply slots_setProps.
Qed.

Lemma normalizeFn_shape step u :
  normalizeFn step = Returns u -> exists p, u = setProps p step.
Proof.
  unfold normalizeFn. intros H.
  destruct (upgradePiece_shape _ _ _ H) as [p ->].
  rewrite setProps_setProps. eauto.
Qed.

Lemma normalizeFn_slots step u :
  normalizeFn step = Returns u -> slots u = slots step.
Proof.
  intros H. destruct (normalizeFn_shape _ _ H) as [p ->].
  apply slots_setProps.
Qed.

Lemma isLegacyApp_total n v :
  isLegacyApp n v <> OutOfFuel /\ isLegacyApp n v <> IllTyped.
Proof.
  unfold isLegacyApp, semverLtOrThrow.
  repeat (match goal with
          | |- context [String.eqb ?a ?b] => destruct (String.eqb a b)
          | |- context [semverLt ?a ?b] => destruct (semverLt a b) as [[|]|]
          end; simpl);
    split; discriminate.
Qed.

Lemma upgradePiece_total step target :
  upgradePiece step target <> OutOfFuel
  /\ upgradePiece step target <> IllTyped.
Proof.
  unfold upgradePiece.
  destruct (negb _); [split; discriminate|].
  destruct (isPieceStep step); [|split; discriminate].
  pose proof (isLegacyApp_total (pieceName (settings (propsOf step)))
                (pieceVersion (settings (propsOf step)))) as [H1 H2].
  destruct (isLegacyApp _ _) as [[|]| | |]; simpl;
    try (split; discriminate); try contradiction.
  destruct (_ || _); [split; discriminate|].
  unfold semverLtOrThrow.
  destruct (semverValid _); [destruct (semverLt _ _) as [[|]|]|]; simpl;
    split; discriminate.
Qed.

(** What normalisation makes of one piece step. *)
Lemma normalizeFn_piece step u :
  normalizeFn step = Returns u ->
  isPieceStep step = true ->
  stepName u = stepName step
  /\ pieceName (settings (propsOf u)) = pieceName (settings (propsOf step))
  /\ truthyAuth (input (settings (propsOf u))) = false
  /\ upgradeRule (pieceName (settings (propsOf step)))
       (pieceVersion (settings (propsOf step)))
       (pieceVersion (settings (propsOf u))).
Proof.
  unfold normalizeFn, upgradePiece, upgradeRule, setPieceVersion, stepName.
  intros H Hpiece.
  rewrite !propsOf_setProps in H. simpl in H.
  rewrite String.eqb_refl, isPieceStep_setProps, Hpiece in H. simpl in H.
  rewrite !Bool.andb_true_r in H.
  set (p := propsOf step) in *.
  set (s2 := if truthyAuth (input (settings p)) then _ else _) in *.
  assert (Hv : pieceVersion s2 = pieceVersion (settings p))
    by (subst s2; destruct (truthyAuth _); reflexivity).
  assert (Hn : pieceName s2 = pieceName (settings p))
    by (subst s2; destruct (truthyAuth _); reflexivity).
  assert (Ha : truthyAuth (input s2) = false).
  { subst s2. destruct (truthyAuth (input (settings p))) eqn:Ht; simpl.
    - destruct (input (settings p)); [reflexivity|discriminate].
    - exact Ht. }
  rewrite Hv, Hn in H. fold (pinned (pieceVersion (settings p))) in H.
  destruct (isLegacyApp _ _) as [[|]| | |] eqn:Hleg; simpl in H;
    try discriminate.
  { inversion H; subst u. rewrite !propsOf_setProps. simpl.
    repeat split; auto. }
  destruct (pinned _) eqn:Hpin.
  { inversion H; subst u. rewrite !propsOf_setProps. simpl.
    repeat split; auto. }
  unfold belowOne, semverLtOrThrow in *.
  destruct (semverValid _);
    [destruct (semverLt _ _) as [[|]|]|]; simpl in H; try discriminate;
    inversion H; subst u; rewrite !propsOf_setProps; simpl;
    repeat split; auto; right; split; auto.
Qed.

End Normalize.

Section NormalizeProperties.

Context {E : Externals}.

Lemma upgradePiece_keeps step target u :
  upgradePiece step target = Returns u ->
  inputUiInfo (settings (propsOf u)) = inputUiInfo (settings (propsOf step))
  /\ input (settings (propsOf u)) = input (settings (propsOf step)).
Proof.
  unfold upgradePiece, setPieceVersion. intros H.
  repeat (match type of H with
          | context [if ?c then _ else _] => destruct c
          | context [bind ?m _] => destruct m as [[|]| | |]
          end; simpl in H; try discriminate);
    inversion H; subst u; rewrite ?propsOf_setProps; auto.
Qed.

Lemma normalizeFn_sample_data step u :
  normalizeFn step = Returns u ->
  inputUiInfo (settings (propsOf u)) = Some DEFAULT_SAMPLE_DATA_SETTINGS.
Proof.
  unfold normalizeFn. intros H.
  apply upgradePiece_keeps in H. destruct H as [H _].
  rewrite H, propsOf_setProps. simpl.
  destruct (_ && _); reflexivity.
Qed.

Lemma withInputUiInfo_same s :
  withInputUiInfo (inputUiInfo s) s = s.
Proof. destruct s; reflexivity. Qed.

Lemma withSettings_same p : withSettings (settings p) p = p.
Proof. destruct p; reflexivity. Qed.

Lemma pinned_tilde v : pinned ("~" ^^ v) = true.
Proof. destruct v; reflexivity. Qed.

Lemma pinned_caret v : pinned ("^" ^^ v) = true.
Proof. destruct v; reflexivity. Qed.

Lemma isLegacyApp_pin n v prefix :
  pinned v = false -> prefix = "~" \/ prefix = "^" ->
  isLegacyApp n (prefix ^^ v) = isLegacyApp n v.
Proof.
  intros Hpin Hprefix. unfold isLegacyApp.
  fold (pinned v). fold (pinned (prefix ^^ v)). rewrite Hpin.
  destruct Hprefix as [-> | ->];
    [rewrite pinned_tilde|rewrite pinned_caret]; reflexivity.
Qed.

(** A normalised step is left alone by a second normalisation. *)
Lemma normalizeFn_fixed step u step' :
  normalizeFn step = Returns u ->
  propsOf step' = propsOf u -> typeOf step' = typeOf u ->
  normalizeFn step' = Returns step'.
Proof.
  intros H Hprops Htype.
  pose proof (normalizeFn_sample_data _ _ H) as Hui.
  destruct (normalizeFn_shape _ _ H) as [q Hq].
  assert (Hkind : isPieceStep step' = isPieceStep step).
  { rewrite (isPieceStep_typeOf _ _ Htype), Hq. apply isPieceStep_setProps. }
  unfold normalizeFn. rewrite Hprops, <- Hui, withInputUiInfo_same.
  destruct (isPieceStep step) eqn:Hpiece.
  - destruct (normalizeFn_piece _ _ H Hpiece) as [_ [Hn [Ha Hrule]]].
    rewrite Ha. simpl. rewrite withSettings_same, <- Hprops, setProps_propsOf.
    unfold upgradePiece. rewrite String.eqb_refl, Hkind. simpl.
    rewrite Hprops, Hn.
    set (n := pieceName (settings (propsOf step))) in *.
    set (v := pieceVersion (settings (propsOf step))) in *.
    set (v' := pieceVersion (settings (propsOf u))) in *.
    fold (pinned v').
    destruct Hrule as [[Hleg Hv]|[Hleg [[Hpin Hv]|[[Hpin [_ Hv]]|[Hpin [_ Hv]]]]]];
      rewrite Hv.
    + rewrite Hleg. reflexivity.
    + rewrite Hleg. simpl. rewrite Hpin. reflexivity.
    + rewrite isLegacyApp_pin, Hleg by auto. unfold bind.
      rewrite pinned_tilde. reflexivity.
    + rewrite isLegacyApp_pin, Hleg by auto. unfold bind.
      rewrite pinned_caret. reflexivity.
  - rewrite Hkind, Bool.andb_false_r.
    rewrite withSettings_same, <- Hprops, setProps_propsOf.
    unfold upgradePiece. rewrite String.eqb_refl, Hkind. reflexivity.
Qed.

Lemma normalizeFn_input step u :
  normalizeFn step = Returns u ->
  stepName u = stepName step
  /\ input (settings (propsOf u))
     = if truthyAuth (input (settings (propsOf step))) && isPieceStep step
       then clearAuth (input (settings (propsOf step)))
       else input (settings (propsOf step)).
Proof.
  intros H. split.
  - destruct (normalizeFn_shape _ _ H) as [p Hp].
    unfold normalizeFn in H.
    destruct (upgradePiece_shape _ _ _ H) as [q Hq].
    unfold upgradePiece, setPieceVersion in H.
    repeat (match type of H with
            | context [if ?c then _ else _] => destruct c
            | context [bind ?m _] => destruct m as [[|]| | |]
            end; simpl in H; try discriminate);
      inversion H; unfold stepName; rewrite ?propsOf_setProps; reflexivity.
  - unfold normalizeFn in H. apply upgradePiece_keeps in H.
    destruct H as [_ H]. rewrite H, propsOf_setProps. simpl.
    destruct (_ && _); reflexivity.
Qed.

(** C5 (amended).  In a normalised flow every piece step has its
    [settings.input.auth] either absent or equal to the empty string:
    its [settings.input] is that of the step of the same name in the
    given flow, with a present, non-empty [auth] replaced by the empty
    string and nothing else changed, so that an absent [auth] stays
    absent.  Its [pieceVersion] is either that of a legacy piece or
    starts with a caret or a tilde: it comes from the version of that
    step by the upgrade rule, which leaves legacy and already pinned
    versions alone, puts a tilde before a valid version below 1.0.0 and
    a caret before any other. *)
Theorem normalize_piece_steps (fuel : nat) (flowVersion normalized : FlowVersion)
  (step' : Step) :
  normalize fuel flowVersion = Returns normalized ->
  In step' (getAllSteps (trigger normalized)) ->
  isPieceStep step' = true ->
  truthyAuth (input (settings (propsOf step'))) = false
  /\ (isLegacyApp (pieceName (settings (propsOf step')))
        (pieceVersion (settings (propsOf step'))) = Returns true
      \/ pinned (pieceVersion (settings (propsOf step'))) = true)
  /\ exists step,
       In step (getAllSteps (trigger flowVersion))
       /\ stepName step = stepName step'
       /\ isPieceStep step = true
       /\ input (settings (propsOf step'))
          = (if truthyAuth (input (settings (propsOf step)))
             then clearAuth (input (settings (propsOf step)))
             else input (settings (propsOf step)))
       /\ upgradeRule (pieceName (settings (propsOf step)))
            (pieceVersion (settings (propsOf step)))
            (pieceVersion (settings (propsOf step'))).
Proof.
  unfold normalize, transferFlow. simpl. intros H Hin Hpiece.
  apply bind_returns in H. destruct H as [t [Ht H]].
  inversion H; subst normalized. simpl in Hin. clear H.
  pose proof (transfer_pointwise normalizeFn normalizeFn_slots _ _ _ Ht) as Hall.
  destruct (Forall2_in_r _ _ _ _ Hall Hin) as [step [Hstep [u [Hu [Hp Hty]]]]].
  destruct (normalizeFn_shape _ _ Hu) as [q Hq].
  assert (Hkind : isPieceStep step = true).
  { rewrite <- Hpiece, (isPieceStep_typeOf _ _ Hty), Hq.
    symmetry. apply isPieceStep_setProps. }
  destruct (normalizeFn_piece _ _ Hu Hkind) as [Hname [Hn [Ha Hrule]]].
  destruct (normalizeFn_input _ _ Hu) as [_ Hinput].
  rewrite Hkind, andb_true_r in Hinput.
  unfold stepName in *. rewrite Hp. split; [exact Ha|]. split.
  - rewrite Hn.
    destruct Hrule as [[Hleg Hv]|[Hleg [[Hpin Hv]|[[Hpin [_ Hv]]|[Hpin [_ Hv]]]]]];
      rewrite Hv; auto using pinned_tilde, pinned_caret.
  - exists step. auto 6.
Qed.

(** C6.  Normalising twice is normalising once: with a recursion budget
    of at least the height of the flow normalisation comes to an end,
    and when it returns a flow, that flow is its own normal form; when
    it throws, so does the second pass. *)
Theorem normalize_idempotent (flowVersion : FlowVersion) :
  exists fuel0, forall fuel fuel',
    fuel0 <= fuel -> fuel0 <= fuel' ->
    normalize fuel flowVersion <> OutOfFuel
    /\ bind (normalize fuel flowVersion) (normalize fuel')
       = normalize fuel flowVersion.
Proof.
  exists (height (trigger flowVersion)). intros fuel fuel' Hfuel Hfuel'.
  unfold normalize at 1 2 4, transferFlow. simpl.
  pose proof (transfer_terminates normalizeFn normalizeFn_slots
                (fun s => proj1 (upgradePiece_total _ _))
                fuel (trigger flowVersion) Hfuel) as Hterm.
  destruct (transferStep fuel normalizeFn (trigger flowVersion))
    as [t| | |] eqn:Ht; simpl; try (split; [discriminate|reflexivity]);
    [|contradiction].
  split; [discriminate|].
  unfold normalize, transferFlow. simpl.
  pose proof (transfer_pointwise normalizeFn normalizeFn_slots _ _ _ Ht) as Hall.
  rewrite transfer_identity; [reflexivity| |].
  - pose proof (transfer_height normalizeFn normalizeFn_slots _ _ _ Ht). lia.
  - intros s Hs.
    destruct (Forall2_in_r _ _ _ _ Hall Hs) as [x [_ [u [Hu [Hp Hty]]]]].
    eapply normalizeFn_fixed; eauto.
Qed.

End NormalizeProperties.

(** A flow with three piece steps: an unpinned version below 1.0.0 with
    a credential, an unpinned version above, and a legacy gmail. *)
Definition slackStep (version : string) (auth_ : option string)
  (n : option Step) : Step :=
  SimpleStep SPiece
    (props "step_1" (pieceSettings "@activepieces/piece-slack" version auth_)) n.

Definition sampleCleared (s : Settings) : Settings :=
  withInputUiInfo
    (Some {| currentSelectedData := None; sampleDataFileId := None;
             lastTestDate := None |}) s.

Definition credentialFlow : FlowVersion :=
  flowOf (emptyTrigger (Some (slackStep "0.4.2" (Some "{{connections.slack}}") None))).

Definition credentialFlowNormalized : FlowVersion :=
  flowOf
    (SimpleStep STriggerEmpty (props "trigger" (sampleCleared plainSettings))
       (Some (SimpleStep SPiece
                (props "step_1"
                   (sampleCleared
                      (pieceSettings "@activepieces/piece-slack" "~0.4.2"
                         (Some ""))))
                None))).

Lemma normalize_piece_steps_witness :
  truthyAuth (Some {| auth := Some ""; otherInput := [] |}) = false
  /\ (isLegacyApp (E := referenceExternals) "@activepieces/piece-slack"
        "~0.4.2" = Returns true
      \/ pinned "~0.4.2" = true)
  /\ exists step,
       In step (getAllSteps (trigger credentialFlow))
       /\ stepName step = "step_1"
       /\ isPieceStep step = true
       /\ Some {| auth := Some ""; otherInput := [] |}
          = (if truthyAuth (input (settings (propsOf step)))
             then clearAuth (input (settings (propsOf step)))
             else input (settings (propsOf step)))
       /\ upgradeRule (E := referenceExternals)
            (pieceName (settings (propsOf step)))
            (pieceVersion (settings (propsOf step))) "~0.4.2".
Proof.
  apply (normalize_piece_steps (E := referenceExternals) 3 credentialFlow
           credentialFlowNormalized
           (SimpleStep SPiece
              (props "step_1"
                 (sampleCleared
                    (pieceSettings "@activepieces/piece-slack" "~0.4.2"
                       (Some ""))))
              None)).
  - reflexivity.
  - simpl. right. left. reflexivity.
  - reflexivity.
Defined.

(** The claim as stated fails: the piece step ["step_1"] of [pieceFlow]
    has no [auth]; after normalisation it still has none, which is not
    the empty string. *)
Lemma normalize_leaves_absent_auth_absent :
  exists normalized step,
    normalize (E := referenceExternals) 3 pieceFlow = Returns normalized
    /\ In step (getAllSteps (trigger normalized))
    /\ isPieceStep step = true
    /\ option_map auth (input (settings (propsOf step))) = Some None.
Proof.
  eexists. eexists. split; [reflexivity|].
  split; [right; left; reflexivity|].
  split; reflexivity.
Qed.

(* ================================================================== *)
(** ** Steps addressed by name inside a tree *)
(* ================================================================== *)

(** [plug hole t ctx]: the tree [ctx] in which every subtree rooted at a
    step named [hole] is replaced by [t]. *)
Fixpoint plug (hole : string) (t : Step) (ctx : Step) : Step :=
  if String.eqb (stepName ctx) hole then t
  else
    match ctx with
    | SimpleStep ty p n =>
        SimpleStep ty p
          match n with Some a => Some (plug hole t a) | None => None end
    | BranchAction p s f n =>
        BranchAction p
          match s with Some a => Some (plug hole t a) | None => None end
          match f with Some a => Some (plug hole t a) | None => None end
          match n with Some a => Some (plug hole t a) | None => None end
    | LoopOnItemsAction p b n =>
        LoopOnItemsAction p
          match b with Some a => Some (plug hole t a) | None => None end
          match n with Some a => Some (plug hole t a) | None => None end
    | RouterAction p c n =>
        RouterAction p
          (map (fun child =>
                  match child with
                  | Some a => Some (plug hole t a)
                  | None => None
                  end) c)
          match n with Some a => Some (plug hole t a) | None => None end
    end.

Definition plugOpt (hole : string) (t : Step) (slot : option Step)
  : option Step :=
  match slot with Some a => Some (plug hole t a) | None => None end.

(** The steps of [plug hole t ctx] that come from [ctx]. *)
Fixpoint outerSteps (hole : string) (t : Step) (ctx : Step) : list Step :=
  if String.eqb (stepName ctx) hole then []
  else
    plug hole t ctx ::
    match ctx with
    | SimpleStep _ _ n =>
        match n with Some a => outerSteps hole t a | None => [] end
    | BranchAction _ s f n =>
        match s with Some a => outerSteps hole t a | None => [] end
        ++ match f with Some a => outerSteps hole t a | None => [] end
        ++ match n with Some a => outerSteps hole t a | None => [] end
    | LoopOnItemsAction _ b n =>
        match b with Some a => outerSteps hole t a | None => [] end
        ++ match n with Some a => outerSteps hole t a | None => [] end
    | RouterAction _ c n =>
        flat_map (fun child =>
                    match child with
                    | Some a => outerSteps hole t a
                    | None => []
                    end) c
        ++ match n with Some a => outerSteps hole t a | None => [] end
    end.

Definition outerOpt (hole : string) (t : Step) (slot : option Step)
  : list Step :=
  match slot with Some a => outerSteps hole t a | None => [] end.

Lemma withSlots_withSlots step l l' :
  withSlots (withSlots step l) l' = withSlots step l'.
Proof. destruct step; reflexivity. Qed.

Lemma plug_unfold hole t ctx :
  plug hole t ctx =
  if String.eqb (stepName ctx) hole then t
  else withSlots ctx (map (plugOpt hole t) (slots ctx)).
Proof.
  destruct ctx as [ty p n|p s f n|p b n|p c n]; simpl;
    destruct (String.eqb _ hole); try reflexivity.
  rewrite map_app. simpl. rewrite removelast_last, last_last. reflexivity.
Qed.

Lemma outerSteps_unfold hole t ctx :
  outerSteps hole t ctx =
  if String.eqb (stepName ctx) hole then []
  else plug hole t ctx :: flat_map (outerOpt hole t) (slots ctx).
Proof.
  destruct ctx as [ty p n|p s f n|p b n|p c n]; simpl;
    destruct (String.eqb _ hole); unfold outerOpt; rewrite ?app_nil_r;
    try reflexivity.
  rewrite flat_map_app. simpl. rewrite app_nil_r. reflexivity.
Qed.

(** A rewrite that leaves the steps of the context alone commutes with
    plugging. *)
Lemma transfer_plug f hole t t' (fuel0 : nat) :
  (forall fuel, fuel0 <= fuel -> transferStep fuel f t = Returns t') ->
  forall (k : nat) ctx,
    height ctx <= k ->
    (forall s, In s (outerSteps hole t ctx) -> f s = Returns s) ->
    forall fuel, fuel0 + k <= fuel ->
      transferStep fuel f (plug hole t ctx) = Returns (plug hole t' ctx).
Proof.
  intros Ht. induction k as [|k IH]; intros ctx Hh Houter fuel Hfuel.
  - pose proof (height_pos ctx). lia.
  - rewrite outerSteps_unfold in Houter. rewrite (plug_unfold hole t' ctx).
    destruct (String.eqb (stepName ctx) hole) eqn:Hname.
    + rewrite plug_unfold, Hname. apply Ht. lia.
    + destruct fuel as [|fuel]; [lia|].
      rewrite transferStep_unfold.
      rewrite (Houter _ (or_introl eq_refl)). simpl.
      rewrite plug_unfold, Hname.
      rewrite slots_withSlots by (rewrite length_map; reflexivity).
      assert (Hm : mapM (transferOpt (transferStep fuel f))
                     (map (plugOpt hole t) (slots ctx))
                   = Returns (map (plugOpt hole t') (slots ctx))).
      { assert (Hall : forall slot, In slot (slots ctx) ->
                  transferOpt (transferStep fuel f) (plugOpt hole t slot)
                  = Returns (plugOpt hole t' slot)).
        { intros [a|] Hin; simpl; [|reflexivity].
          rewrite (IH a); [reflexivity| | |lia].
          - pose proof (height_slot ctx _ Hin) as Hlt. simpl in Hlt. lia.
          - intros s Hs. apply Houter. right.
            apply in_flat_map. exists (Some a). auto. }
        clear - Hall. induction (slots ctx) as [|a l IHl]; [reflexivity|].
        simpl. rewrite (Hall a (or_introl eq_refl)). simpl.
        rewrite IHl; [reflexivity|].
        intros slot Hin. apply Hall. right. exact Hin. }
      rewrite Hm. simpl. rewrite withSlots_withSlots. reflexivity.
Qed.

(* ================================================================== *)
(** ** Slot heads and successors *)
(* ================================================================== *)

(** The structural slots of a step: every slot but [nextAction]. *)
Definition structuralSlots (step : Step) : list (option Step) :=
  match step with
  | SimpleStep _ _ _ => []
  | BranchAction _ s f _ => [s; f]
  | LoopOnItemsAction _ b _ => [b]
  | RouterAction _ c _ => c
  end.

Definition headName (slot : option Step) : list string :=
  match slot with Some h => [stepName h] | None => [] end.

(** Names of the steps that head a structural slot of some step of the
    tree, and names of those that are the [nextAction] of some step. *)
Definition slotHeadNames (step : Step) : list string :=
  flat_map (fun s => flat_map headName (structuralSlots s))
    (traverseInternal step).

Definition successorNames (step : Step) : list string :=
  flat_map (fun s => headName (nextOf s)) (traverseInternal step).

Definition stepNamesOpt (slot : option Step) : list string :=
  match slot with Some a => stepNames a | None => [] end.

Lemma slots_structural step :
  slots step = structuralSlots step ++ [nextOf step].
Proof. destruct step; reflexivity. Qed.

Lemma stepNames_slots step :
  stepNames step = stepName step :: flat_map stepNamesOpt (slots step).
Proof.
  unfold stepNames, getAllSteps. rewrite traverseInternal_slots. simpl.
  f_equal. induction (slots step) as [|[a|] l IH]; simpl; [reflexivity| |exact IH].
  rewrite map_app, IH. reflexivity.
Qed.

Lemma Permutation_flat_map_app {A B} (g h : A -> list B) l :
  Permutation (flat_map (fun x => g x ++ h x) l)
    (flat_map g l ++ flat_map h l).
Proof.
  induction l as [|a l IH]; simpl; [constructor|].
  rewrite IH. rewrite <- !app_assoc. apply Permutation_app_head.
  rewrite !app_assoc. apply Permutation_app_tail.
  apply Permutation_app_comm.
Qed.

Lemma Permutation_flat_map_in {A B} (g h : A -> list B) l :
  (forall x, In x l -> Permutation (g x) (h x)) ->
  Permutation (flat_map g l) (flat_map h l).
Proof.
  induction l as [|a l IH]; simpl; intros H; [constructor|].
  apply Permutation_app; [apply H; left; reflexivity|].
  apply IH. intros x Hx. apply H. right. exact Hx.
Qed.

Lemma flat_map_nested {A B C} (g : B -> list C) (h : A -> list B) l :
  flat_map g (flat_map h l) = flat_map (fun x => flat_map g (h x)) l.
Proof.
  induction l as [|a l IH]; simpl; [reflexivity|].
  rewrite flat_map_app, IH. reflexivity.
Qed.

(** Every step but the root either heads a structural slot or is a
    successor, and is counted once. *)
Lemma stepNames_partition (k : nat) :
  forall step, height step <= k ->
    Permutation (stepNames step)
      (stepName step :: slotHeadNames step ++ successorNames step).
Proof.
  induction k as [|k IH]; intros step Hh.
  - pose proof (height_pos step). lia.
  - rewrite stepNames_slots. constructor.
    unfold slotHeadNames, successorNames.
    rewrite traverseInternal_slots. simpl.
    assert (Hsub : Permutation (flat_map stepNamesOpt (slots step))
              (flat_map headName (slots step)
               ++ flat_map (fun slot =>
                              flat_map
                                (fun s => flat_map headName (structuralSlots s))
                                (traverseOpt slot)) (slots step)
               ++ flat_map (fun slot =>
                              flat_map (fun s => headName (nextOf s))
                                (traverseOpt slot)) (slots step))).
    { rewrite <- Permutation_flat_map_app.
      rewrite <- (Permutation_flat_map_app headName).
      apply Permutation_flat_map_in. intros [a|] Hin; simpl; [|constructor].
      apply IH. pose proof (height_slot step _ Hin) as Hlt. simpl in Hlt. lia. }
    rewrite Hsub, <- !flat_map_nested.
    rewrite (slots_structural step) at 1. rewrite flat_map_app. simpl.
    rewrite app_nil_r, <- !app_assoc. apply Permutation_app_head.
    rewrite !app_assoc. apply Permutation_app_tail.
    apply Permutation_app_comm.
Qed.

Lemma NoDup_app_disjoint {A} (l l' : list A) a :
  NoDup (l ++ l') -> In a l -> ~ In a l'.
Proof.
  induction l as [|x l IH]; simpl; intros Hnd Hin; [contradiction|].
  inversion Hnd as [|? ? Hx Hrest]; subst.
  destruct Hin as [->|Hin]; [|apply IH; assumption].
  intros Ha. apply Hx. apply in_or_app. right. exact Ha.
Qed.

(** With pairwise distinct names, the head of a structural slot is the
    successor of no step. *)
Lemma slot_head_is_no_successor step N :
  NoDup (stepNames step) -> In N (slotHeadNames step) ->
  ~ In N (successorNames step).
Proof.
  intros Hnd Hhead.
  pose proof (Permutation_NoDup (stepNames_partition _ step (le_n _)) Hnd)
    as Hnd'.
  inversion Hnd' as [|? ? _ Happ]; subst.
  eapply NoDup_app_disjoint; eauto.
Qed.

(* ================================================================== *)
(** ** Branch operations on a router that is not a successor *)
(* ================================================================== *)

Definition isRouterNamed (routerName : string) (slot : option Step) : bool :=
  match slot with
  | Some (RouterAction p _ _) => String.eqb (name p) routerName
  | _ => false
  end.

Lemma isRouterNamed_successor step routerName s :
  In s (traverseInternal step) ->
  isRouterNamed routerName (nextOf s) = true ->
  In routerName (successorNames step).
Proof.
  intros Hs Hr. unfold successorNames. apply in_flat_map. exists s.
  split; [exact Hs|].
  destruct (nextOf s) as [[| | |p c n]|]; try discriminate.
  simpl in *. apply String.eqb_eq in Hr. left. exact Hr.
Qed.

Section BranchOperations.

Context {E : Externals}.

Lemma onNamedRouterNext_other routerName g s :
  isRouterNamed routerName (nextOf s) = false ->
  onNamedRouterNext routerName g s = Returns s.
Proof.
  unfold onNamedRouterNext, isRouterNamed.
  destruct (nextOf s) as [[| | |p c n]|]; try reflexivity.
  intros ->. reflexivity.
Qed.

Lemma withTrigger_same fv : withTrigger (trigger fv) fv = fv.
Proof. destruct fv; reflexivity. Qed.

Lemma branch_operation_unchanged flowVersion routerName g (fuel : nat) :
  height (trigger flowVersion) <= fuel ->
  (forall s, In s (getAllSteps (trigger flowVersion)) ->
     isRouterNamed routerName (nextOf s) = false) ->
  transferFlow fuel flowVersion (onNamedRouterNext routerName g)
  = Returns flowVersion.
Proof.
  intros Hfuel Hno. unfold transferFlow. simpl.
  rewrite transfer_identity; [simpl; rewrite withTrigger_same; reflexivity
                             |exact Hfuel|].
  intros s Hs. apply onNamedRouterNext_other. apply Hno. exact Hs.
Qed.

(** C10.  [ADD_BRANCH] and [DELETE_BRANCH] look for the named router in
    the [nextAction] of the steps only.  When no step has it there, and
    so when step names are pairwise distinct and the router heads a loop
    body, a slot of a branch or a child slot of a router, [apply] raises
    no error and returns the flow as it was, the router's [children]
    and [settings.branches] included ([valid] is recomputed). *)
Theorem branch_operations_skip_slot_heads (flowVersion : FlowVersion)
  (routerName : string) (index : Z) (fuel : nat) :
  height (trigger flowVersion) < fuel ->
  (forall s, In s (getAllSteps (trigger flowVersion)) ->
     isRouterNamed routerName (nextOf s) = false)
  \/ (NoDup (stepNames (trigger flowVersion))
      /\ In routerName (slotHeadNames (trigger flowVersion))) ->
  apply fuel flowVersion (ADD_BRANCH routerName index)
  = Returns (withFlowValid (isValid flowVersion) flowVersion)
  /\ apply fuel flowVersion (DELETE_BRANCH routerName index)
     = Returns (withFlowValid (isValid flowVersion) flowVersion).
Proof.
  intros Hfuel Hcase.
  assert (Hno : forall s, In s (getAllSteps (trigger flowVersion)) ->
            isRouterNamed routerName (nextOf s) = false).
  { destruct Hcase as [Hno|[Hnd Hhead]]; [exact Hno|].
    intros s Hs.
    destruct (isRouterNamed routerName (nextOf s)) eqn:Hr; [|reflexivity].
    exfalso. eapply slot_head_is_no_successor; eauto.
    eapply isRouterNamed_successor; eauto. }
  destruct fuel as [|fuel]; [lia|].
  simpl. unfold addBranchFn, deleteBranchFn.
  rewrite !branch_operation_unchanged by (auto; lia).
  split; reflexivity.
Qed.

End BranchOperations.

(** A router as the body of a loop. *)
Definition routerInLoopFlow : FlowVersion :=
  flowOf
    (emptyTrigger
       (Some (LoopOnItemsAction (props "step_1" plainSettings)
                (Some (RouterAction
                         (props "step_2" (routerSettings ["Branch 1"; "Otherwise"]))
                         [None; None] None))
                None))).

Lemma branch_operations_skip_slot_heads_witness :
  apply (E := referenceExternals) 4 routerInLoopFlow (ADD_BRANCH "step_2" 1)
  = Returns (withFlowValid (isValid routerInLoopFlow) routerInLoopFlow)
  /\ apply (E := referenceExternals) 4 routerInLoopFlow
       (DELETE_BRANCH "step_2" 1)
     = Returns (withFlowValid (isValid routerInLoopFlow) routerInLoopFlow).
Proof.
  apply (branch_operations_skip_slot_heads (E := referenceExternals)
           routerInLoopFlow "step_2" 1 4).
  - simpl. lia.
  - right. split.
    + repeat (constructor; [simpl; intuition discriminate|]). constructor.
    + simpl. left. reflexivity.
Defined.

(* ================================================================== *)
(** ** Distinct names *)
(* ================================================================== *)

Lemma NoDup_map_injective {A B} (g : A -> B) l x y :
  NoDup (map g l) -> In x l -> In y l -> g x = g y -> x = y.
Proof.
  induction l as [|a l IH]; simpl; intros Hnd Hx Hy Heq; [contradiction|].
  inversion Hnd as [|? ? Ha Hrest]; subst.
  destruct Hx as [->|Hx], Hy as [->|Hy]; auto.
  - exfalso. apply Ha. rewrite Heq. apply in_map. exact Hy.
  - exfalso. apply Ha. rewrite <- Heq. apply in_map. exact Hx.
Qed.

Lemma NoDup_flat_map_injective {A B} (g : A -> list B) l x y b :
  NoDup (flat_map g l) -> In x l -> In y l -> In b (g x) -> In b (g y) ->
  x = y.
Proof.
  induction l as [|a l IH]; simpl; intros Hnd Hx Hy Hbx Hby; [contradiction|].
  assert (Hl : NoDup (flat_map g l)) by (eapply NoDup_app_remove_l; eauto).
  destruct Hx as [->|Hx], Hy as [->|Hy]; auto.
  - exfalso. eapply NoDup_app_disjoint; eauto.
    apply in_flat_map. eauto.
  - exfalso. eapply NoDup_app_disjoint; eauto.
    apply in_flat_map. eauto.
Qed.

Lemma distinct_names_determine_step step s s' :
  NoDup (stepNames step) ->
  In s (traverseInternal step) -> In s' (traverseInternal step) ->
  stepName s = stepName s' -> s = s'.
Proof. apply NoDup_map_injective. Qed.

Lemma NoDup_successorNames step :
  NoDup (stepNames step) -> NoDup (successorNames step).
Proof.
  intros Hnd.
  pose proof (Permutation_NoDup (stepNames_partition _ step (le_n _)) Hnd)
    as Hnd'.
  inversion Hnd' as [|? ? _ Happ]; subst.
  eapply NoDup_app_remove_l; eauto.
Qed.

(** With pairwise distinct names a step is the successor of one step at
    most. *)
Lemma distinct_names_one_predecessor step s s' x x' :
  NoDup (stepNames step) ->
  In s (traverseInternal step) -> In s' (traverseInternal step) ->
  nextOf s = Some x -> nextOf s' = Some x' -> stepName x = stepName x' ->
  s = s'.
Proof.
  intros Hnd Hs Hs' Hx Hx' Heq.
  apply (NoDup_flat_map_injective (fun s => headName (nextOf s))
           (traverseInternal step) s s' (stepName x)); auto.
  - apply NoDup_successorNames. exact Hnd.
  - rewrite Hx. left. reflexivity.
  - rewrite Hx', Heq. left. reflexivity.
Qed.

Lemma plug_fixed hole t (k : nat) :
  forall ctx, height ctx <= k ->
    (forall s, In s (traverseInternal ctx) -> stepName s = hole -> s = t) ->
    plug hole t ctx = ctx.
Proof.
  induction k as [|k IH]; intros ctx Hh Hsame.
  - pose proof (height_pos ctx). lia.
  - rewrite plug_unfold.
    destruct (String.eqb (stepName ctx) hole) eqn:Hname.
    + apply String.eqb_eq in Hname. symmetry.
      apply Hsame; [apply traverseInternal_self|exact Hname].
    + transitivity (withSlots ctx (slots ctx)); [|apply withSlots_slots].
      f_equal.
      transitivity (map (fun slot => slot) (slots ctx)); [|apply map_id].
      apply map_ext_in. intros [a|] Hin; simpl; [|reflexivity].
      rewrite IH; [reflexivity| |].
      * pose proof (height_slot ctx _ Hin) as Hlt. simpl in Hlt. lia.
      * intros s Hs. apply Hsame. eapply in_traverse_slot; eauto.
Qed.

Lemma plug_self step s :
  NoDup (stepNames step) -> In s (traverseInternal step) ->
  plug (stepName s) s step = step.
Proof.
  intros Hnd Hs. apply (plug_fixed _ _ (height step)); [lia|].
  intros s' Hs' Hname. eapply distinct_names_determine_step; eauto.
Qed.

Lemma outerSteps_in hole t (k : nat) :
  forall ctx, height ctx <= k ->
    forall s, In s (outerSteps hole t ctx) ->
      In s (traverseInternal (plug hole t ctx)) /\ stepName s <> hole.
Proof.
  induction k as [|k IH]; intros ctx Hh s Hs.
  - pose proof (height_pos ctx). lia.
  - rewrite outerSteps_unfold in Hs. rewrite plug_unfold.
    destruct (String.eqb (stepName ctx) hole) eqn:Hname; [contradiction|].
    rewrite traverseInternal_slots.
    rewrite slots_withSlots by (rewrite length_map; reflexivity).
    destruct Hs as [<-|Hs].
    + split; [left; rewrite plug_unfold, Hname; reflexivity|].
      rewrite plug_unfold, Hname. unfold stepName.
      rewrite propsOf_withSlots. apply String.eqb_neq. exact Hname.
    + apply in_flat_map in Hs. destruct Hs as [[a|] [Hin Hs]];
        [|contradiction].
      destruct (IH a) with (s := s) as [H1 H2]; auto.
      { pose proof (height_slot ctx _ Hin) as Hlt. simpl in Hlt. lia. }
      split; [|exact H2]. right. apply in_flat_map.
      exists (Some (plug hole t a)). split; [|exact H1].
      apply (in_map (plugOpt hole t) _ (Some a)). exact Hin.
Qed.

Lemma height_in_traverse (k : nat) :
  forall step, height step <= k ->
    forall s, In s (traverseInternal step) -> height s <= height step.
Proof.
  induction k as [|k IH]; intros step Hh s Hs.
  - pose proof (height_pos step). lia.
  - rewrite traverseInternal_slots in Hs. destruct Hs as [<-|Hs]; [lia|].
    apply in_flat_map in Hs. destruct Hs as [[a|] [Hin Hs]]; [|contradiction].
    pose proof (height_slot step _ Hin) as Hlt. simpl in Hlt, Hs.
    specialize (IH a ltac:(lia) s Hs). lia.
Qed.

Lemma height_below step s :
  In s (flat_map traverseOpt (slots step)) -> height s < height step.
Proof.
  intros Hs. apply in_flat_map in Hs. destruct Hs as [[a|] [Hin Hs]];
    [|contradiction].
  pose proof (height_slot step _ Hin) as Hlt. simpl in Hlt, Hs.
  pose proof (height_in_traverse _ a (le_n _) s Hs). lia.
Qed.

Lemma traverse_trans (k : nat) :
  forall step, height step <= k ->
    forall a s, In a (traverseInternal step) -> In s (traverseInternal a) ->
      In s (traverseInternal step).
Proof.
  induction k as [|k IH]; intros step Hh a s Ha Hs.
  - pose proof (height_pos step). lia.
  - rewrite traverseInternal_slots in Ha. destruct Ha as [<-|Ha]; [exact Hs|].
    apply in_flat_map in Ha. destruct Ha as [[b|] [Hin Ha]]; [|contradiction].
    eapply in_traverse_slot; [exact Hin|]. simpl.
    apply (IH b) with (a := a); auto.
    pose proof (height_slot step _ Hin) as Hlt. simpl in Hlt. lia.
Qed.

Lemma below_in_tree step a s :
  In a (traverseInternal step) ->
  In s (flat_map traverseOpt (slots a)) ->
  In s (traverseInternal step).
Proof.
  intros Ha Hs. apply (traverse_trans _ step (le_n _) a); [exact Ha|].
  rewrite traverseInternal_slots. right. exact Hs.
Qed.

Lemma below_trans step a s :
  In a (flat_map traverseOpt (slots step)) -> In s (traverseInternal a) ->
  In s (flat_map traverseOpt (slots step)).
Proof.
  intros Ha Hs. apply in_flat_map in Ha. destruct Ha as [[b|] [Hin Ha]];
    [|contradiction].
  apply in_flat_map. exists (Some b). split; [exact Hin|]. simpl in *.
  eapply traverse_trans; eauto.
Qed.

(* ================================================================== *)
(** ** Adding a branch to a router *)
(* ================================================================== *)

(** The list with [x] put at position [i]. *)
Definition insertAt {A} (i : nat) (x : A) (l : list A) : list A :=
  firstn i l ++ x :: skipn i l.

Lemma splice_insert {A} (index : Z) (x : A) (l : list A) :
  (0 <= index <= Z.of_nat (List.length l))%Z ->
  splice index 0 [x] l = insertAt (Z.to_nat index) x l.
Proof.
  intros H. unfold splice, spliceStart, insertAt.
  destruct (index <? 0)%Z eqn:Hneg; [apply Z.ltb_lt in Hneg; lia|].
  rewrite Nat.min_l by lia. rewrite Nat.add_0_r. reflexivity.
Qed.

Lemma in_insertAt_None {A} (i : nat) (l : list (option A)) a :
  In (Some a) (insertAt i None l) -> In (Some a) l.
Proof.
  unfold insertAt. intros H. rewrite <- (firstn_skipn i l).
  apply in_app_or in H. apply in_or_app.
  destruct H as [H|[H|H]]; [left; exact H|discriminate|right; exact H].
Qed.

Section AddBranch.

Context {E : Externals}.

Lemma splice_insertAt {A} (index : Z) (x : A) (l : list A) :
  splice index 0 [x] l = insertAt (spliceStart (List.length l) index) x l.
Proof. unfold splice, insertAt. rewrite Nat.add_0_r. reflexivity. Qed.

Lemma spliceStart_within (len : nat) (index : Z) :
  (0 <= index <= Z.of_nat len)%Z -> spliceStart len index = Z.to_nat index.
Proof.
  intros H. unfold spliceStart.
  destruct (index <? 0)%Z eqn:Hneg; [apply Z.ltb_lt in Hneg; lia|].
  apply Nat.min_l. lia.
Qed.

Lemma slots_setNext x step :
  slots (setNext x step) = structuralSlots step ++ [x].
Proof. destruct step; reflexivity. Qed.

(** A rewrite of the router that follows [parent], which gives the
    router no child it did not have, changes the flow at [parent] only. *)
Lemma router_rewrite_at_next g (T parent : Step) p c n p' c' :
  NoDup (stepNames T) ->
  In parent (traverseInternal T) ->
  nextOf parent = Some (RouterAction p c n) ->
  g p c = (p', c') ->
  (forall a, In (Some a) c' -> In (Some a) c) ->
  forall fuel,
    height (setNext (Some (RouterAction p' c' n)) parent) + height T <= fuel ->
    transferStep fuel (onNamedRouterNext (name p) g) T
    = Returns (plug (stepName parent)
                 (setNext (Some (RouterAction p' c' n)) parent) T).
Proof.
  intros Hnd Hparent Hnext Hg Hsub.
  set (parent' := setNext (Some (RouterAction p' c' n)) parent).
  set (f := onNamedRouterNext (name p) g).
  assert (Hone : forall s, In s (traverseInternal T) ->
            isRouterNamed (name p) (nextOf s) = true -> s = parent).
  { intros s Hs Hr.
    destruct (nextOf s) as [[| | |q c0 n0]|] eqn:Hs'; try discriminate.
    simpl in Hr. apply String.eqb_eq in Hr.
    eapply distinct_names_one_predecessor; eauto. }
  assert (Hbelow : forall s, In s (flat_map traverseOpt (slots parent)) ->
            isRouterNamed (name p) (nextOf s) = false).
  { intros s Hs.
    destruct (isRouterNamed (name p) (nextOf s)) eqn:Hr; [|reflexivity].
    pose proof (height_below _ _ Hs) as Hlt.
    rewrite (Hone s) in Hlt; [lia| |exact Hr].
    eapply below_in_tree; eauto. }
  assert (Hrouter : In (RouterAction p c n)
                      (flat_map traverseOpt (slots parent))).
  { rewrite slots_structural, flat_map_app, Hnext. apply in_or_app. right.
    simpl. left. reflexivity. }
  assert (Hat : forall fuel, height parent' <= fuel ->
            transferStep fuel f parent = Returns parent').
  { intros [|fuel] Hfuel; [pose proof (height_pos parent'); lia|].
    rewrite transferStep_unfold. unfold f at 1, onNamedRouterNext.
    rewrite Hnext, String.eqb_refl, Hg. simpl. fold parent'.
    assert (Hm : mapM (transferOpt (transferStep fuel f))
                   (slots parent') = Returns (slots parent')).
    { apply mapM_of_Forall2.
      assert (Hall : forall slot, In slot (slots parent') ->
                transferOpt (transferStep fuel f) slot = Returns slot).
      { intros [a|] Hin; simpl; [|reflexivity].
        rewrite transfer_identity; [reflexivity| |].
        - pose proof (height_slot parent' _ Hin) as Hlt. simpl in Hlt. lia.
        - intros s Hs. apply onNamedRouterNext_other.
          unfold parent' in Hin. rewrite slots_setNext in Hin.
          apply in_app_or in Hin. destruct Hin as [Hin|[Hin|[]]].
          + apply Hbelow. apply in_flat_map. exists (Some a).
            split; [|exact Hs]. rewrite slots_structural.
            apply in_or_app. left. exact Hin.
          + inversion Hin; subst a. clear Hin.
            rewrite traverseInternal_slots in Hs.
            destruct Hs as [<-|Hs].
            * simpl. apply (Hbelow _ Hrouter).
            * apply Hbelow. apply (below_trans _ _ _ Hrouter).
              rewrite traverseInternal_slots. right.
              simpl in Hs. simpl. rewrite flat_map_app in *.
              apply in_app_or in Hs. apply in_or_app.
              destruct Hs as [Hs|Hs]; [left|right; exact Hs].
              apply in_flat_map in Hs. destruct Hs as [[x|] [Hx Hs]];
                [|contradiction].
              apply in_flat_map. exists (Some x).
              split; [|exact Hs]. apply Hsub. exact Hx. }
      induction (slots parent') as [|a l IHl]; constructor.
      - apply Hall. left. reflexivity.
      - apply IHl. intros slot Hin. apply Hall. right. exact Hin. }
    rewrite Hm. simpl. rewrite withSlots_slots. reflexivity. }
  intros fuel Hfuel.
  rewrite <- (plug_self T parent Hnd Hparent) at 1.
  apply (transfer_plug f (stepName parent) parent parent' (height parent')
           Hat (height T)); [lia| |exact Hfuel].
  intros s Hs. apply onNamedRouterNext_other.
  destruct (outerSteps_in _ _ _ T (le_n _) s Hs) as [Hin Hname].
  rewrite plug_self in Hin by assumption.
  destruct (isRouterNamed (name p) (nextOf s)) eqn:Hr; [|reflexivity].
  rewrite (Hone s Hin Hr) in Hname. contradiction.
Qed.

(** C4 (amended).  Let a router with [n] branches be the [nextAction]
    of a step of a flow with pairwise distinct step names.  [ADD_BRANCH]
    returns the flow in which only that router changed: [null] has been
    inserted into its [children], and into [settings.branches] a new
    branch with one empty condition, type [CONDITION] and name
    ["Branch <n>"], each at the place [splice] gives the index in that
    list: the index itself when it lies between 0 and the length of the
    list, the end of the list when it is larger, and counted back from
    the end when it is negative. *)
Theorem add_branch_inserts (flowVersion : FlowVersion) (parent : Step)
  (p : Props) (c : list (option Step)) (n : option Step) (index : Z) :
  NoDup (stepNames (trigger flowVersion)) ->
  In parent (getAllSteps (trigger flowVersion)) ->
  nextOf parent = Some (RouterAction p c n) ->
  exists fuel0 flowVersion',
    (forall fuel, fuel0 <= fuel ->
       apply fuel flowVersion (ADD_BRANCH (name p) index)
       = Returns flowVersion')
    /\ trigger flowVersion'
       = plug (stepName parent)
           (setNext
              (Some
                 (RouterAction
                    (withSettings
                       (withBranches
                          (insertAt
                             (spliceStart
                                (List.length (branches (settings p))) index)
                             {| conditions := [[emptyCondition]];
                                branchType := CONDITION;
                                branchName :=
                                  "Branch "
                                  ^^ decimal
                                       (List.length (branches (settings p))) |}
                             (branches (settings p)))
                          (settings p))
                       p)
                    (insertAt (spliceStart (List.length c) index) None c) n))
              parent)
           (trigger flowVersion)
    /\ (forall len : nat,
          (0 <= index <= Z.of_nat len)%Z ->
          spliceStart len index = Z.to_nat index)
    /\ (forall len : nat,
          (Z.of_nat len <= index)%Z -> spliceStart len index = len)
    /\ (forall len : nat,
          (index < 0)%Z ->
          spliceStart len index = Z.to_nat (Z.max (Z.of_nat len + index) 0)).
Proof.
  intros Hnd Hparent Hnext.
  set (T := trigger flowVersion) in *.
  set (p' := withSettings
               (withBranches
                  (insertAt
                     (spliceStart (List.length (branches (settings p))) index)
                     (createEmptyBranch (List.length (branches (settings p))))
                     (branches (settings p)))
                  (settings p)) p).
  set (c' := insertAt (spliceStart (List.length c) index) None c).
  set (parent' := setNext (Some (RouterAction p' c' n)) parent).
  exists (S (height parent' + height T)).
  exists (withFlowValid
            (isValid (withTrigger (plug (stepName parent) parent' T)
                        flowVersion))
            (withTrigger (plug (stepName parent) parent' T) flowVersion)).
  split; [|split; [reflexivity|split; [|split]]].
  - intros [|fuel] Hfuel; [lia|]. simpl.
    unfold transferFlow. simpl. fold T. unfold addBranchFn.
    rewrite (router_rewrite_at_next _ T parent p c n p' c' Hnd Hparent Hnext).
    + reflexivity.
    + rewrite !splice_insertAt. reflexivity.
    + intros a. apply in_insertAt_None.
    + fold parent'. lia.
  - intros len. apply spliceStart_within.
  - intros len H. unfold spliceStart.
    destruct (index <? 0)%Z eqn:Hneg; [apply Z.ltb_lt in Hneg; lia|].
    apply Nat.min_r. lia.
  - intros len H. unfold spliceStart.
    destruct (index <? 0)%Z eqn:Hneg; [reflexivity|].
    apply Z.ltb_ge in Hneg. lia.
Qed.

End AddBranch.

(** A router with two branches after the trigger. *)
Definition twoBranchRouter : Step :=
  RouterAction (props "step_1" (routerSettings ["Branch 1"; "Otherwise"]))
    [None; None] None.

Definition routerFlow : FlowVersion :=
  flowOf (emptyTrigger (Some twoBranchRouter)).

Lemma add_branch_inserts_witness :
  exists fuel0 flowVersion',
    (forall fuel, fuel0 <= fuel ->
       apply (E := referenceExternals) fuel routerFlow (ADD_BRANCH "step_1" 1)
       = Returns flowVersion')
    /\ trigger flowVersion'
       = plug "trigger"
           (emptyTrigger
              (Some
                 (RouterAction
                    (props "step_1"
                       (withBranches
                          [namedBranch "Branch 1";
                           {| conditions := [[JObject []]];
                              branchType := CONDITION;
                              branchName := "Branch 2" |};
                           namedBranch "Otherwise"]
                          plainSettings))
                    [None; None; None] None)))
           (trigger routerFlow)
    /\ (forall len : nat,
          (0 <= 1 <= Z.of_nat len)%Z -> spliceStart len 1 = Z.to_nat 1)
    /\ (forall len : nat, (Z.of_nat len <= 1)%Z -> spliceStart len 1 = len)
    /\ (forall len : nat,
          (1 < 0)%Z ->
          spliceStart len 1 = Z.to_nat (Z.max (Z.of_nat len + 1) 0)).
Proof.
  apply (add_branch_inserts (E := referenceExternals) routerFlow
           (emptyTrigger (Some twoBranchRouter))
           (props "step_1" (routerSettings ["Branch 1"; "Otherwise"]))
           [None; None] None 1).
  - repeat (constructor; [simpl; intuition discriminate|]). constructor.
  - left. reflexivity.
  - reflexivity.
Defined.

(** The claim as stated fails: the branch added to the two-branch
    router ["step_1"] is named ["Branch 2"], not ["Branch 3"]. *)
Lemma add_branch_to_two_branches_names_it_branch_2 :
  exists flowVersion' p,
    (forall fuel, 3 < fuel ->
       apply (E := referenceExternals) fuel routerFlow (ADD_BRANCH "step_1" 1)
       = Returns flowVersion')
    /\ getStep flowVersion' "step_1"
       = Some (RouterAction p [None; None; None] None)
    /\ map branchName (branches (settings p))
       = ["Branch 1"; "Branch 2"; "Otherwise"]
    /\ option_map branchName (nth_error (branches (settings p)) 1)
       <> Some "Branch 3".
Proof.
  eexists. eexists. split; [|split; [|split]].
  - intros [|[|[|[|fuel]]]] H; try lia. reflexivity.
  - reflexivity.
  - reflexivity.
  - discriminate.
Qed.

(* ================================================================== *)
(** ** Router alignment *)
(* ================================================================== *)

(** [|children| == |settings.branches|] at a router; other steps have
    nothing to align. *)
Definition alignedStep (step : Step) : bool :=
  match step with
  | RouterAction p c _ =>
      (List.length c =? List.length (branches (settings p)))%nat
  | _ => true
  end.

Definition routersAligned (step : Step) : bool :=
  forallb alignedStep (traverseInternal step).

(** A property of single steps that looks at their own fields and at
    the number of their slots only. *)
Definition slotBlind (Q : Step -> Prop) : Prop :=
  forall u l, List.length l = List.length (slots u) -> Q u -> Q (withSlots u l).

Lemma Forall_traverse_slots (Q : Step -> Prop) step :
  Forall Q (traverseInternal step) <->
  Q step /\ forall a, In (Some a) (slots step) -> Forall Q (traverseInternal a).
Proof.
  rewrite traverseInternal_slots. split.
  - intros H. inversion H as [|? ? Hq Hrest]; subst. split; [exact Hq|].
    intros a Ha. rewrite Forall_forall in *. intros s Hs. apply Hrest.
    apply in_flat_map. exists (Some a). auto.
  - intros [Hq Hslots]. constructor; [exact Hq|].
    rewrite Forall_forall. intros s Hs. apply in_flat_map in Hs.
    destruct Hs as [[a|] [Ha Hs]]; [|contradiction].
    specialize (Hslots a Ha). rewrite Forall_forall in Hslots. auto.
Qed.

(** A rewrite that keeps a slot-blind property of all steps of a tree at
    every node keeps it over the whole rewrite. *)
Lemma transfer_keeps (Q : Step -> Prop) f :
  slotBlind Q ->
  (forall s u, Forall Q (traverseInternal s) -> f s = Returns u ->
     Forall Q (traverseInternal u)) ->
  forall (fuel : nat) step step',
    Forall Q (traverseInternal step) ->
    transferStep fuel f step = Returns step' ->
    Forall Q (traverseInternal step').
Proof.
  intros Hblind Hf. induction fuel as [|fuel IH]; intros step step' HQ H;
    [discriminate|].
  rewrite transferStep_unfold in H.
  apply bind_returns in H. destruct H as [u [Hu H]].
  apply bind_returns in H. destruct H as [l [Hl H]].
  inversion H; subst step'. clear H.
  apply mapM_returns in Hl.
  pose proof (Forall2_length Hl) as Hlen.
  specialize (Hf _ _ HQ Hu). apply Forall_traverse_slots in Hf.
  destruct Hf as [Hq Hslots].
  apply Forall_traverse_slots. split; [apply Hblind; auto|].
  rewrite slots_withSlots by auto.
  intros b Hb.
  destruct (Forall2_in_r _ _ _ _ Hl Hb) as [[a|] [Ha Hab]]; simpl in Hab;
    [|discriminate].
  apply bind_returns in Hab. destruct Hab as [a' [Ha' Hab]].
  inversion Hab; subst a'.
  apply (IH a b); [apply Hslots; exact Ha|exact Ha'].
Qed.

Lemma routersAligned_Forall step :
  routersAligned step = true <->
  Forall (fun s => alignedStep s = true) (traverseInternal step).
Proof.
  unfold routersAligned. rewrite forallb_forall, Forall_forall. tauto.
Qed.

Lemma alignedStep_withSlots u l :
  List.length l = List.length (slots u) ->
  alignedStep (withSlots u l) = alignedStep u.
Proof.
  destruct u as [t p n|p s f n|p b n|p c n]; simpl; try reflexivity.
  intros H. rewrite length_app in H. simpl in H.
  destruct l as [|x l] using rev_ind; [simpl in H; lia|].
  rewrite removelast_last. rewrite length_app in H. simpl in H.
  replace (List.length l) with (List.length c) by lia. reflexivity.
Qed.

Lemma aligned_slotBlind : slotBlind (fun s => alignedStep s = true).
Proof. intros u l Hlen Hq. rewrite alignedStep_withSlots; auto. Qed.

Lemma length_splice {A} (index : Z) (k : nat) (items : list A) l :
  List.length (splice index k items l)
  = (spliceStart (List.length l) index + List.length items
     + (List.length l - (spliceStart (List.length l) index + k)))%nat.
Proof.
  unfold splice. rewrite !length_app, length_firstn, length_skipn.
  assert (spliceStart (List.length l) index <= List.length l).
  { unfold spliceStart. destruct (Z.ltb_spec index 0); lia. }
  lia.
Qed.

Lemma Forall_traverse_sub (Q : Step -> Prop) step a :
  Forall Q (traverseInternal step) -> In a (traverseInternal step) ->
  Forall Q (traverseInternal a).
Proof.
  intros H Ha. rewrite Forall_forall in *. intros s Hs. apply H.
  eapply traverse_trans; eauto.
Qed.

Lemma Forall_traverse_slot (Q : Step -> Prop) step a :
  Forall Q (traverseInternal step) -> In (Some a) (slots step) ->
  Forall Q (traverseInternal a).
Proof.
  intros H Ha. apply Forall_traverse_slots in H. apply H. exact Ha.
Qed.

Lemma Forall_traverse_next (Q : Step -> Prop) step a :
  Forall Q (traverseInternal step) -> nextOf step = Some a ->
  Forall Q (traverseInternal a).
Proof.
  intros H Ha. eapply Forall_traverse_slot; eauto.
  rewrite slots_structural, Ha. apply in_or_app. right. left. reflexivity.
Qed.

(** Rebuilding a step from slots that each hold a tree with the
    property. *)
Lemma Forall_traverse_withSlots (Q : Step -> Prop) u l :
  slotBlind Q -> Q u -> List.length l = List.length (slots u) ->
  (forall a, In (Some a) l -> Forall Q (traverseInternal a)) ->
  Forall Q (traverseInternal (withSlots u l)).
Proof.
  intros Hblind Hq Hlen Hl. apply Forall_traverse_slots.
  rewrite slots_withSlots by exact Hlen. split; auto.
Qed.

Lemma in_splice {A} (index : Z) (k : nat) (items l : list A) x :
  In x (splice index k items l) -> In x items \/ In x l.
Proof.
  unfold splice. intros H. apply in_app_or in H. destruct H as [H|H].
  - right. rewrite <- (firstn_skipn (spliceStart (List.length l) index) l).
    apply in_or_app. left. exact H.
  - apply in_app_or in H. destruct H as [H|H]; [left; exact H|right].
    rewrite <- (firstn_skipn (spliceStart (List.length l) index + k) l).
    apply in_or_app. right. exact H.
Qed.

Section Alignment.

Context {E : Externals}.

Lemma spliceOut_sub (Q : Step -> Prop) name_ slot a :
  (forall b, slot = Some b -> Forall Q (traverseInternal b)) ->
  spliceOut name_ slot = Some a -> Forall Q (traverseInternal a).
Proof.
  intros Hslot H. destruct slot as [b|]; simpl in H; [|discriminate].
  specialize (Hslot b eq_refl).
  destruct (String.eqb (stepName b) name_).
  - eapply Forall_traverse_next; eauto.
  - inversion H; subst a. exact Hslot.
Qed.

Lemma deleteActionFn_slots name_ s :
  deleteActionFn name_ s
  = Returns (withSlots s (map (spliceOut name_) (slots s))).
Proof.
  destruct s as [t p n|p s f n|p b n|p c n]; simpl; try reflexivity.
  rewrite map_app. simpl. rewrite removelast_last, last_last. reflexivity.
Qed.

Lemma deleteActionFn_keeps (Q : Step -> Prop) name_ s u :
  slotBlind Q ->
  Forall Q (traverseInternal s) -> deleteActionFn name_ s = Returns u ->
  Forall Q (traverseInternal u).
Proof.
  intros Hblind HQ H. rewrite deleteActionFn_slots in H.
  inversion H; subst u. clear H.
  pose proof (proj1 (Forall_traverse_slots Q s) HQ) as [Hq Hslots].
  apply Forall_traverse_withSlots; auto.
  - apply length_map.
  - intros a Ha. apply in_map_iff in Ha. destruct Ha as [slot [Hslot Hin]].
    eapply spliceOut_sub; [|exact Hslot].
    intros b ->. apply Hslots. exact Hin.
Qed.

Lemma branchFn_keeps_aligned routerName (index : Z) (k : nat)
  (fresh : Props -> list RouterBranch) s u :
  (forall p, List.length (fresh p) = (1 - k)%nat) -> k <= 1 ->
  Forall (fun x => alignedStep x = true) (traverseInternal s) ->
  onNamedRouterNext routerName
    (fun p c =>
       (withSettings
          (withBranches (splice index k (fresh p) (branches (settings p)))
             (settings p)) p,
        splice index k (repeat None (1 - k)) c)) s = Returns u ->
  Forall (fun x => alignedStep x = true) (traverseInternal u).
Proof.
  intros Hfresh Hk HQ H. unfold onNamedRouterNext in H.
  destruct (nextOf s) as [[| | |p c n]|] eqn:Hnext;
    try (inversion H; subst u; exact HQ).
  destruct (String.eqb (name p) routerName);
    [|inversion H; subst u; exact HQ].
  inversion H; subst u. clear H.
  pose proof (Forall_traverse_next _ _ _ HQ Hnext) as Hrouter.
  pose proof (proj1 (Forall_traverse_slots _ _) Hrouter) as [Hq Hsub].
  pose proof (proj1 (Forall_traverse_slots _ _) HQ) as [Hqs Hslots].
  apply Forall_traverse_slots. split; [destruct s; exact Hqs|].
  intros a Ha. rewrite slots_setNext in Ha. apply in_app_or in Ha.
  destruct Ha as [Ha|[Ha|[]]].
  - apply Hslots. rewrite slots_structural. apply in_or_app. left. exact Ha.
  - inversion Ha; subst a. clear Ha.
    apply Forall_traverse_slots. split.
    + simpl in *. apply Nat.eqb_eq in Hq. apply Nat.eqb_eq.
      rewrite !length_splice, Hfresh, repeat_length, Hq. reflexivity.
    + intros a Ha. simpl in Ha. apply in_app_or in Ha.
      apply Hsub. simpl. apply in_or_app.
      destruct Ha as [Ha|Ha]; [left|right; exact Ha].
      apply in_splice in Ha. destruct Ha as [Ha|Ha]; [|exact Ha].
      apply repeat_spec in Ha. discriminate.
Qed.

Lemma upgradePiece_keeps_aligned target s u :
  Forall (fun x => alignedStep x = true) (traverseInternal s) ->
  upgradePiece s target = Returns u ->
  Forall (fun x => alignedStep x = true) (traverseInternal u).
Proof.
  intros HQ H. destruct (upgradePiece_shape _ _ _ H) as [q ->].
  apply Forall_traverse_slots in HQ. destruct HQ as [Hq Hslots].
  apply Forall_traverse_slots. rewrite slots_setProps. split; [|exact Hslots].
  destruct s as [t p n|p s f n|p b n|p c n]; try reflexivity.
  unfold upgradePiece in H. simpl in H.
  destruct (negb _); inversion H; subst; exact Hq.
Qed.

(** What [createAction] returns. *)
Lemma createAction_returns request links a :
  createAction request links = Returns a ->
  stepName a = reqName request
  /\ settings (propsOf a) = reqSettings request
  /\ (forall x, In (Some x) (slots a) ->
        In (Some x) [linkNext links; linkOnSuccess links;
                     linkOnFailure links; linkFirstLoop links]
        \/ exists c, linkChildren links = Some c /\ In (Some x) c)
  /\ match a with
     | RouterAction _ c _ =>
         reqType request = OfAction ROUTER
         /\ c = match linkChildren links with
                | Some c => c
                | None => [None; None]
                end
     | _ => reqType request <> OfAction ROUTER
     end.
Proof.
  unfold createAction. intros H.
  destruct (reqType request) as [[]|]; simpl in H; try discriminate;
    inversion H; subst a; clear H; simpl;
    (split; [reflexivity|split; [reflexivity|split; [|try discriminate]]]).
  - intros x [Hx|[]]. left. rewrite <- Hx. simpl. auto.
  - intros x [Hx|[]]. left. rewrite <- Hx. simpl. auto.
  - intros x [Hx|[Hx|[]]]; left; rewrite <- Hx; simpl; auto.
  - intros x [Hx|[Hx|[Hx|[]]]]; left; rewrite <- Hx; simpl; auto.
  - intros x Hx. apply in_app_or in Hx. destruct Hx as [Hx|[Hx|[]]].
    + destruct (linkChildren links) as [c|].
      * right. eauto.
      * simpl in Hx. destruct Hx as [Hx|[Hx|[]]]; discriminate.
    + left. rewrite <- Hx. simpl. auto.
  - split; reflexivity.
Qed.

End Alignment.

Lemma length_assignNat {A} (hole : A) (i : nat) v l :
  i < List.length l -> List.length (assignNat hole i v l) = List.length l.
Proof.
  revert l. induction i as [|i IH]; intros [|a l] H; simpl in *; try lia.
  rewrite IH by lia. reflexivity.
Qed.

Lemma length_assignAt {A} (hole : A) (i : Z) v l :
  (i < Z.of_nat (List.length l))%Z ->
  List.length (assignAt hole i v l) = List.length l.
Proof.
  intros H. unfold assignAt. destruct (Z.ltb_spec i 0); [reflexivity|].
  apply length_assignNat. lia.
Qed.

Lemma in_assignNat {A} (hole : A) (i : nat) v l x :
  In x (assignNat hole i v l) -> x = v \/ x = hole \/ In x l.
Proof.
  revert l. induction i as [|i IH]; intros [|a l] H; simpl in *.
  - destruct H as [H|[]]; auto.
  - destruct H as [H|H]; auto.
  - destruct H as [H|H]; auto. destruct (IH [] H) as [?|[?|[]]]; auto.
  - destruct H as [H|H]; auto. destruct (IH l H) as [?|[?|?]]; auto.
Qed.

Lemma in_assignAt {A} (hole : A) (i : Z) v l x :
  In x (assignAt hole i v l) -> x = v \/ x = hole \/ In x l.
Proof.
  unfold assignAt. destruct (i <? 0)%Z; [auto|apply in_assignNat].
Qed.

Lemma at_in {A} (l : list A) (i : Z) x : at_ l i = Some x -> In x l.
Proof.
  unfold at_. destruct (i <? 0)%Z; [discriminate|apply nth_error_In].
Qed.

Section AlignmentOfOperations.

Context {E : Externals}.

(** What an [ADD_ACTION] needs of a step to keep the routers aligned:
    a router parent addressed [INSIDE_BRANCH] has the branch index among
    its child slots. *)
Definition addFits (request : AddActionRequest) (x : Step) : Prop :=
  alignedStep x = true
  /\ match x with
     | RouterAction p c _ =>
         name p = parentStep request ->
         stepLocationRelativeToParent request = Some INSIDE_BRANCH ->
         forall i, branchIndex request = Some i ->
                   (i < Z.of_nat (List.length c))%Z
     | _ => True
     end.

Lemma addFits_slotBlind request : slotBlind (addFits request).
Proof.
  intros u l Hlen [Ha Hi]. split; [rewrite alignedStep_withSlots; auto|].
  destruct u as [t p n|p s f n|p b n|p c n]; simpl; auto.
  intros H1 H2 i H3. specialize (Hi H1 H2 i H3).
  simpl in Hlen. rewrite length_app in Hlen. simpl in Hlen.
  destruct l as [|x l] using rev_ind; [simpl in Hlen; lia|].
  rewrite removelast_last. rewrite length_app in Hlen. simpl in Hlen.
  replace (List.length l) with (List.length c) by lia. exact Hi.
Qed.

Lemma created_fits request x a :
  (reqType (action request) = OfAction ROUTER ->
   List.length (branches (reqSettings (action request))) = 2) ->
  (stepLocationRelativeToParent request = Some INSIDE_BRANCH ->
   reqName (action request) <> parentStep request) ->
  (forall b, x = Some b -> Forall (addFits request) (traverseInternal b)) ->
  createAction (action request) (onlyNext x None) = Returns a ->
  Forall (addFits request) (traverseInternal a).
Proof.
  intros Hrouter Hname Hx H.
  destruct (createAction_returns _ _ _ H) as [Hn [Hs [Hslots Hkind]]].
  apply Forall_traverse_slots. split.
  - destruct a as [t p n|p s f n|p b n|p c n]; try (split; [reflexivity|exact I]).
    destruct Hkind as [Hty Hc]. simpl in Hc, Hs, Hn. subst c. split.
    + simpl. rewrite Hs, (Hrouter Hty). reflexivity.
    + intros H1 H2. exfalso. apply (Hname H2). rewrite <- H1. symmetry.
      exact Hn.
  - intros y Hy. destruct (Hslots y Hy) as [Hin|[c [Hc _]]]; [|discriminate].
    simpl in Hin. destruct Hin as [Hin|[Hin|[Hin|[Hin|[]]]]];
      try discriminate.
    apply Hx. exact Hin.
Qed.

Lemma addActionFn_keeps request s u :
  (reqType (action request) = OfAction ROUTER ->
   List.length (branches (reqSettings (action request))) = 2) ->
  (stepLocationRelativeToParent request = Some INSIDE_BRANCH ->
   reqName (action request) <> parentStep request) ->
  Forall (addFits request) (traverseInternal s) ->
  addActionFn request None s = Returns u ->
  Forall (addFits request) (traverseInternal u).
Proof.
  intros Hrouter Hname HQ H. unfold addActionFn in H.
  destruct (String.eqb (stepName s) (parentStep request)) eqn:Hparent;
    simpl in H; [|inversion H; subst u; exact HQ].
  apply String.eqb_eq in Hparent.
  pose proof (proj1 (Forall_traverse_slots _ _) HQ) as [Hq Hslots].
  assert (Hcreated : forall x a,
            (forall b, x = Some b -> In (Some b) (slots s)) ->
            createAction (action request) (onlyNext x None) = Returns a ->
            Forall (addFits request) (traverseInternal a)).
  { intros x a Hx Ha. eapply created_fits; eauto. }
  assert (Hafter : forall v,
            (a <- createAction (action request) (onlyNext (nextOf s) None) ;;
             Returns (setNext (Some a) s)) = Returns v ->
            Forall (addFits request) (traverseInternal v)).
  { intros v Hv. apply bind_returns in Hv. destruct Hv as [a [Ha Hv]].
    inversion Hv; subst v. clear Hv.
    apply Forall_traverse_slots. split; [destruct s; exact Hq|].
    intros y Hy. rewrite slots_setNext in Hy. apply in_app_or in Hy.
    destruct Hy as [Hy|[Hy|[]]].
    - apply Hslots. rewrite slots_structural. apply in_or_app. auto.
    - inversion Hy; subst y. apply (Hcreated (nextOf s)); [|exact Ha].
      intros b Hb. rewrite slots_structural, Hb. apply in_or_app.
      right. left. reflexivity. }
  destruct s as [t p n|p sc fl n|p b n|p c n];
    destruct (stepLocationRelativeToParent request) as [loc|] eqn:Hloc;
    try (apply Hafter; exact H).
  - (* branch *)
    destruct loc; try discriminate; try (apply Hafter; exact H);
      apply bind_returns in H; destruct H as [a [Ha H]];
      inversion H; subst u; clear H;
      (apply Forall_traverse_slots; split; [exact Hq|]);
      intros y Hy; simpl in Hy;
      repeat match goal with
             | Hy : _ \/ _ |- _ => destruct Hy as [Hy|Hy]
             | Hy : False |- _ => destruct Hy
             end;
      match goal with
      | Hy : Some ?a = Some ?y |- _ =>
          injection Hy as <-; eapply Hcreated; [|eassumption];
          intros x ->; simpl; auto
      | Hy : ?slot = Some ?y |- _ =>
          apply Hslots; rewrite <- Hy; simpl; tauto
      end.
  - (* loop *)
    destruct loc; try discriminate; try (apply Hafter; exact H).
    apply bind_returns in H. destruct H as [a [Ha H]].
    inversion H; subst u. clear H.
    apply Forall_traverse_slots. split; [exact Hq|].
    intros y [Hy|[Hy|[]]]; [|apply Hslots; rewrite <- Hy; simpl; tauto].
    injection Hy as <-.
    eapply Hcreated; [|exact Ha]. intros x ->. simpl. auto.
  - (* router *)
    destruct loc; try discriminate; try (apply Hafter; exact H).
    destruct (branchIndex request) as [i|] eqn:Hi; [|discriminate].
    apply bind_returns in H. destruct H as [a [Ha H]].
    inversion H; subst u. clear H.
    destruct Hq as [Hal Hfit]. simpl in Hparent.
    specialize (Hfit Hparent Hloc i Hi).
    apply Forall_traverse_slots. split.
    + split.
      * simpl in *. rewrite length_assignAt by exact Hfit. exact Hal.
      * intros _ _ j Hj. rewrite Hi in Hj. inversion Hj; subst j.
        rewrite length_assignAt by exact Hfit. exact Hfit.
    + intros y Hy. simpl in Hy. apply in_app_or in Hy.
      destruct Hy as [Hy|Hy];
        [|apply Hslots; simpl; apply in_or_app; right; exact Hy].
      apply in_assignAt in Hy. destruct Hy as [Hy|[Hy|Hy]];
        [|discriminate|apply Hslots; simpl; apply in_or_app; left; exact Hy].
      inversion Hy; subst y. eapply Hcreated; [|exact Ha].
      intros x Hx. simpl. apply in_or_app. left.
      destruct (at_ c i) as [[child|]|] eqn:Hat; try discriminate.
      inversion Hx; subst x. eapply at_in; eauto.
Qed.

End AlignmentOfOperations.

Section AlignmentOfUpdate.

Context {E : Externals}.

(** The child slots a router built by [UPDATE_ACTION] in place of [x]
    receives. *)
Definition inheritedChildren (x : Step) : list (option Step) :=
  match x with
  | RouterAction _ c _ => c
  | _ => [None; None]
  end.

(** What an [UPDATE_ACTION] needs of a step to keep the routers
    aligned: where the request replaces a step by a router, it brings
    as many branches as the router gets child slots. *)
Definition updateFits (request : UpdateActionRequest) (x : Step) : Prop :=
  alignedStep x = true
  /\ (stepName x = reqName request -> reqType request = OfAction ROUTER ->
      List.length (branches (reqSettings request))
      = List.length (inheritedChildren x)).

Lemma updateFits_slotBlind request : slotBlind (updateFits request).
Proof.
  intros u l Hlen [Ha Hi]. split; [rewrite alignedStep_withSlots; auto|].
  unfold stepName. rewrite propsOf_withSlots.
  destruct u as [t p n|p s f n|p b n|p c n]; simpl in *; auto.
  intros H1 H2. rewrite (Hi H1 H2).
  rewrite length_app in Hlen. simpl in Hlen.
  destruct l as [|x l] using rev_ind; [simpl in Hlen; lia|].
  rewrite removelast_last. rewrite length_app in Hlen. simpl in Hlen. lia.
Qed.

Lemma extractActions_links old x :
  In (Some x) [linkNext (extractActions old); linkOnSuccess (extractActions old);
               linkOnFailure (extractActions old);
               linkFirstLoop (extractActions old)]
  \/ (exists c, linkChildren (extractActions old) = Some c /\ In (Some x) c) ->
  In (Some x) (slots old).
Proof.
  destruct old as [t p n|p s f n|p b n|p c n]; simpl;
    intros [H|[c' [Hc H]]]; try discriminate;
    repeat match goal with
           | H : _ \/ _ |- _ => destruct H as [H|H]
           | H : False |- _ => destruct H
           | H : None = Some _ |- _ => discriminate H
           end; auto.
  - apply in_or_app. right. left. assumption.
  - inversion Hc; subst c'. apply in_or_app. left. exact H.
Qed.

Lemma recreated_fits request old a :
  Forall (updateFits request) (traverseInternal old) ->
  stepName old = reqName request ->
  createAction request (extractActions old) = Returns a ->
  Forall (updateFits request) (traverseInternal a).
Proof.
  intros HQ Hname H.
  destruct (createAction_returns _ _ _ H) as [Hn [Hs [Hslots Hkind]]].
  pose proof (proj1 (Forall_traverse_slots _ _) HQ) as [[_ Hfit] Hsub].
  apply Forall_traverse_slots. split.
  - destruct a as [t p n|p s f n|p b n|p c n];
      try (split; [reflexivity|intros _ Hty; contradiction]).
    destruct Hkind as [Hty Hc]. simpl in Hs.
    assert (Hlen : List.length c = List.length (branches (reqSettings request))).
    { rewrite (Hfit Hname Hty), Hc.
      destruct old; reflexivity. }
    split; simpl.
    + rewrite Hs. apply Nat.eqb_eq. exact Hlen.
    + intros _ _. symmetry. exact Hlen.
  - intros y Hy. apply Hsub. apply extractActions_links. apply Hslots. exact Hy.
Qed.

Lemma recreate_keeps request slot slot' :
  (forall b, slot = Some b -> Forall (updateFits request) (traverseInternal b)) ->
  recreate request slot = Returns slot' ->
  forall y, slot' = Some y -> Forall (updateFits request) (traverseInternal y).
Proof.
  intros Hslot H y ->. unfold recreate in H.
  destruct slot as [old|]; [|discriminate].
  destruct (String.eqb (stepName old) (reqName request)) eqn:Hname.
  - apply bind_returns in H. destruct H as [a [Ha H]].
    inversion H; subst y. apply String.eqb_eq in Hname.
    eapply recreated_fits; eauto.
  - inversion H; subst y. apply Hslot. reflexivity.
Qed.

Lemma recreateFirstChild_keeps request c c' :
  (forall b, In (Some b) c -> Forall (updateFits request) (traverseInternal b)) ->
  recreateFirstChild request c = Returns c' ->
  List.length c' = List.length c
  /\ forall y, In (Some y) c' ->
       Forall (updateFits request) (traverseInternal y).
Proof.
  revert c'. induction c as [|child rest IH]; intros c' Hc H; simpl in H.
  - inversion H; subst c'. split; [reflexivity|intros y []].
  - assert (Hrest : forall r, recreateFirstChild request rest = Returns r ->
              List.length (child :: r) = List.length (child :: rest)
              /\ forall y, In (Some y) (child :: r) ->
                   Forall (updateFits request) (traverseInternal y)).
    { intros r Hr. destruct (IH r) as [Hlen Hin]; auto.
      { intros b Hb. apply Hc. right. exact Hb. }
      split; [simpl; rewrite Hlen; reflexivity|].
      intros y [Hy|Hy]; [apply Hc; left; exact Hy|apply Hin; exact Hy]. }
    destruct child as [old|].
    + destruct (String.eqb (stepName old) (reqName request)) eqn:Hname.
      * apply bind_returns in H. destruct H as [a [Ha H]].
        inversion H; subst c'. split; [reflexivity|].
        intros y [Hy|Hy]; [|apply Hc; right; exact Hy].
        inversion Hy; subst y. apply String.eqb_eq in Hname.
        eapply recreated_fits; eauto. apply Hc. left. reflexivity.
      * apply bind_returns in H. destruct H as [r [Hr H]].
        inversion H; subst c'. apply Hrest. exact Hr.
    + apply bind_returns in H. destruct H as [r [Hr H]].
      inversion H; subst c'. apply Hrest. exact Hr.
Qed.

Lemma updateActionFn_keeps request s u :
  Forall (updateFits request) (traverseInternal s) ->
  updateActionFn request s = Returns u ->
  Forall (updateFits request) (traverseInternal u).
Proof.
  intros HQ H. unfold updateActionFn in H.
  pose proof (proj1 (Forall_traverse_slots _ _) HQ) as [Hq Hslots].
  apply bind_returns in H. destruct H as [n' [Hn' H]].
  assert (Hnext : forall y, n' = Some y ->
            Forall (updateFits request) (traverseInternal y)).
  { eapply recreate_keeps; [|exact Hn'].
    intros b Hb. apply Hslots. rewrite slots_structural, Hb.
    apply in_or_app. right. left. reflexivity. }
  destruct s as [t p n|p sc fl n|p b n|p c n].
  - inversion H; subst u. apply Forall_traverse_slots. split; [exact Hq|].
    intros y [Hy|[]]. apply Hnext. exact Hy.
  - apply bind_returns in H. destruct H as [f' [Hf' H]].
    apply bind_returns in H. destruct H as [s' [Hs' H]].
    inversion H; subst u. apply Forall_traverse_slots. split; [exact Hq|].
    intros y [Hy|[Hy|[Hy|[]]]].
    + eapply recreate_keeps; [|exact Hs'|exact Hy].
      intros x ->. apply Hslots. simpl. auto.
    + eapply recreate_keeps; [|exact Hf'|exact Hy].
      intros x ->. apply Hslots. simpl. auto.
    + apply Hnext. exact Hy.
  - apply bind_returns in H. destruct H as [b' [Hb' H]].
    inversion H; subst u. apply Forall_traverse_slots. split; [exact Hq|].
    intros y [Hy|[Hy|[]]].
    + eapply recreate_keeps; [|exact Hb'|exact Hy].
      intros x ->. apply Hslots. simpl. auto.
    + apply Hnext. exact Hy.
  - apply bind_returns in H. destruct H as [c' [Hc' H]].
    inversion H; subst u.
    destruct (recreateFirstChild_keeps request c c') as [Hlen Hin]; auto.
    { intros x Hx. apply Hslots. simpl. apply in_or_app. left. exact Hx. }
    apply Forall_traverse_slots. split.
    + destruct Hq as [Hal Hfit]. split; simpl in *.
      * rewrite Hlen. exact Hal.
      * rewrite Hlen. exact Hfit.
    + intros y Hy. simpl in Hy. apply in_app_or in Hy.
      destruct Hy as [Hy|[Hy|[]]]; [apply Hin; exact Hy|apply Hnext; exact Hy].
Qed.

End AlignmentOfUpdate.

(* ================================================================== *)
(** ** Rewrites that settle, and the contexts they pass through *)
(* ================================================================== *)

(** [settles f t t']: with enough recursion budget the rewrite of [t]
    by [f] returns [t']. *)
Definition settles (f : Step -> outcome Step) (t t' : Step) : Prop :=
  exists fuel0, forall fuel, fuel0 <= fuel ->
    transferStep fuel f t = Returns t'.

(** [f] leaves alone every step whose name is not in [names]. *)
Definition localTo (names : list string) (f : Step -> outcome Step) : Prop :=
  forall x, ~ In (stepName x) names -> f x = Returns x.

(** A context that every rewrite local to [names] passes through. *)
Definition transparent (names : list string) (C : Step -> Step) : Prop :=
  forall f, localTo names f ->
    forall t t', settles f t t' -> settles f (C t) (C t').

Lemma localTo_incl names names' f :
  incl names' names -> localTo names' f -> localTo names f.
Proof. intros Hincl Hf x Hx. apply Hf. intros Hin. apply Hx, Hincl, Hin. Qed.

Lemma transparent_incl names names' C :
  incl names' names -> transparent names C -> transparent names' C.
Proof.
  intros Hincl HC f Hf. apply HC. eapply localTo_incl; eauto.
Qed.

Lemma transparent_here names : transparent names (fun t => t).
Proof. intros f _ t t' H. exact H. Qed.

Lemma settles_identity f t :
  (forall s, In s (traverseInternal t) -> f s = Returns s) -> settles f t t.
Proof.
  intros H. exists (height t). intros fuel Hfuel.
  apply transfer_identity; assumption.
Qed.

Lemma transparent_plug names hole ctx :
  (forall t x, In x (outerSteps hole t ctx) -> ~ In (stepName x) names) ->
  transparent names (fun t => plug hole t ctx).
Proof.
  intros Houter f Hf t t' [fuel0 Ht].
  exists (fuel0 + height ctx). intros fuel Hfuel.
  apply (transfer_plug f hole t t' fuel0 Ht (height ctx)); [lia| |exact Hfuel].
  intros s Hs. apply Hf. eapply Houter; eauto.
Qed.

(** Rewriting the slots of a step one by one. *)
Lemma mapM_slots_settle f (l l' : list (option Step)) :
  Forall2 (fun a b =>
             match a, b with
             | Some x, Some y => settles f x y
             | None, None => True
             | _, _ => False
             end) l l' ->
  exists fuel0, forall fuel, fuel0 <= fuel ->
    mapM (transferOpt (transferStep fuel f)) l = Returns l'.
Proof.
  induction 1 as [|a b l l' Hab _ [fuel1 IH]].
  - exists 0. reflexivity.
  - destruct a as [x|], b as [y|]; try contradiction.
    + destruct Hab as [fuel2 Hxy]. exists (Nat.max fuel1 fuel2).
      intros fuel Hfuel. simpl. rewrite Hxy by lia. simpl.
      rewrite IH by lia. reflexivity.
    + exists fuel1. intros fuel Hfuel. simpl. rewrite IH by lia. reflexivity.
Qed.

(** The rewrite of a node from what it does at the node and in the
    slots. *)
Lemma settles_node f s u l' :
  f s = Returns u ->
  Forall2 (fun a b =>
             match a, b with
             | Some x, Some y => settles f x y
             | None, None => True
             | _, _ => False
             end) (slots u) l' ->
  settles f s (withSlots u l').
Proof.
  intros Hu Hslots. destruct (mapM_slots_settle f _ _ Hslots) as [fuel0 Hm].
  exists (S fuel0). intros [|fuel] Hfuel; [lia|].
  rewrite transferStep_unfold, Hu. simpl. rewrite Hm by lia. reflexivity.
Qed.

Lemma slots_settle_identity f (l : list (option Step)) :
  (forall x, In x (flat_map traverseOpt l) -> f x = Returns x) ->
  Forall2 (fun a b =>
             match a, b with
             | Some x, Some y => settles f x y
             | None, None => True
             | _, _ => False
             end) l l.
Proof.
  induction l as [|[a|] l IH]; intros H; constructor.
  - apply settles_identity. intros s Hs. apply H. simpl.
    apply in_or_app. left. exact Hs.
  - apply IH. intros x Hx. apply H. simpl. apply in_or_app. right. exact Hx.
  - exact I.
  - apply IH. intros x Hx. apply H. exact Hx.
Qed.

(** A frame: a step seen as a function of the content of one slot. *)
Definition frameOf (base : Step) (before after : list (option Step))
  (v : option Step) : Step :=
  withSlots base (before ++ v :: after).

Definition wellFramed (base : Step) (before after : list (option Step))
  : Prop :=
  List.length (slots base) = S (List.length before + List.length after).

Lemma slots_frameOf base before after v :
  wellFramed base before after ->
  slots (frameOf base before after v) = before ++ v :: after.
Proof.
  intros H. unfold frameOf. apply slots_withSlots.
  rewrite length_app. simpl. unfold wellFramed in H. lia.
Qed.

Lemma stepName_frameOf base before after v :
  stepName (frameOf base before after v) = stepName base.
Proof. unfold frameOf, stepName. rewrite propsOf_withSlots. reflexivity. Qed.

Lemma frameOf_withSlots base before after v v' :
  withSlots (frameOf base before after v) (before ++ v' :: after)
  = frameOf base before after v'.
Proof. unfold frameOf. apply withSlots_withSlots. Qed.

(** A rewrite that is the identity on the frame step and on the other
    slots passes through the frame. *)
Lemma settles_in_frame f base before after t t' :
  wellFramed base before after ->
  f (frameOf base before after (Some t))
  = Returns (frameOf base before after (Some t)) ->
  (forall x, In x (flat_map traverseOpt (before ++ after)) -> f x = Returns x) ->
  settles f t t' ->
  settles f (frameOf base before after (Some t))
    (frameOf base before after (Some t')).
Proof.
  intros Hwf Hroot Hother Ht.
  rewrite <- (frameOf_withSlots base before after (Some t) (Some t')).
  apply settles_node; [exact Hroot|].
  rewrite slots_frameOf by exact Hwf.
  apply Forall2_app.
  - apply slots_settle_identity. intros x Hx. apply Hother.
    rewrite flat_map_app. apply in_or_app. left. exact Hx.
  - constructor; [exact Ht|].
    apply slots_settle_identity. intros x Hx. apply Hother.
    rewrite flat_map_app. apply in_or_app. right. exact Hx.
Qed.

Lemma transparent_frame names names' C base before after :
  transparent names C -> incl names' names ->
  wellFramed base before after ->
  ~ In (stepName base) names' ->
  (forall x, In x (flat_map traverseOpt (before ++ after)) ->
     ~ In (stepName x) names') ->
  transparent names' (fun t => C (frameOf base before after (Some t))).
Proof.
  intros HC Hincl Hwf Hbase Hother f Hf t t' Ht.
  apply HC; [eapply localTo_incl; eauto|].
  apply settles_in_frame; auto.
  apply Hf. rewrite stepName_frameOf. exact Hbase.
Qed.

(* ================================================================== *)
(** ** Replaying import operations *)
(* ================================================================== *)

(** A step without its descendants: no successor, empty structural
    slots, a router keeping the number of its child slots. *)
Definition bareRoot (step : Step) : Step :=
  match step with
  | SimpleStep t p _ => SimpleStep t p None
  | BranchAction p _ _ _ => BranchAction p None None None
  | LoopOnItemsAction p _ _ => LoopOnItemsAction p None None
  | RouterAction p c _ => RouterAction p (map (fun _ => None) c) None
  end.

(** The successor chain of [step] continued by [tail]. *)
Fixpoint appendChain (step : Step) (tail : option Step) : Step :=
  match step with
  | SimpleStep t p n =>
      SimpleStep t p
        match n with Some a => Some (appendChain a tail) | None => tail end
  | BranchAction p s f n =>
      BranchAction p s f
        match n with Some a => Some (appendChain a tail) | None => tail end
  | LoopOnItemsAction p b n =>
      LoopOnItemsAction p b
        match n with Some a => Some (appendChain a tail) | None => tail end
  | RouterAction p c n =>
      RouterAction p c
        match n with Some a => Some (appendChain a tail) | None => tail end
  end.

Lemma appendChain_unfold step tail :
  appendChain step tail
  = setNext match nextOf step with
            | Some a => Some (appendChain a tail)
            | None => tail
            end step.
Proof. destruct step; reflexivity. Qed.

Lemma setNext_nextOf step : setNext (nextOf step) step = step.
Proof. destruct step; reflexivity. Qed.

Lemma appendChain_None (k : nat) :
  forall step, height step <= k -> appendChain step None = step.
Proof.
  induction k as [|k IH]; intros step Hh.
  - pose proof (height_pos step). lia.
  - rewrite appendChain_unfold.
    destruct (nextOf step) as [a|] eqn:Hn.
    + rewrite IH; [rewrite <- Hn; apply setNext_nextOf|].
      assert (In (Some a) (slots step)).
      { rewrite slots_structural, Hn. apply in_or_app. right. left.
        reflexivity. }
      pose proof (height_slot step _ H) as Hlt. simpl in Hlt. lia.
    + rewrite <- Hn. apply setNext_nextOf.
Qed.

Lemma traverse_bare step tail :
  traverseInternal (setNext tail (bareRoot step))
  = setNext tail (bareRoot step) :: traverseOpt tail.
Proof.
  destruct step as [t p n|p s f n|p b n|p c n]; simpl; try reflexivity.
  f_equal. induction c as [|a c IH]; simpl; [reflexivity|exact IH].
Qed.

Lemma stepName_setNext x step : stepName (setNext x step) = stepName step.
Proof. destruct step; reflexivity. Qed.

Lemma stepName_bareRoot step : stepName (bareRoot step) = stepName step.
Proof. destruct step; reflexivity. Qed.

Lemma requestOfStep_stripped step :
  requestOfStep (removeAnySubsequentAction step) = requestOfStep step.
Proof. destruct step as [[] ? ?| | |]; reflexivity. Qed.

(** The operations that rebuild the structural slots of a step. *)
Fixpoint childImports (parent : string) (index : nat)
  (cs : list (option Step)) : list FlowOperationRequest :=
  match cs with
  | [] => []
  | child :: cs' =>
      match child with
      | Some a =>
          importAdd parent (Some INSIDE_BRANCH) (Some index) a
          :: getImportOperations a
      | None => []
      end ++ childImports parent (S index) cs'
  end.

Definition slotImports (parent : string)
  (location : StepLocationRelativeToParent) (slot : option Step)
  : list FlowOperationRequest :=
  match slot with
  | Some a => importAdd parent (Some location) None a :: getImportOperations a
  | None => []
  end.

Definition structuralImports (step : Step) : list FlowOperationRequest :=
  match step with
  | SimpleStep _ _ _ => []
  | BranchAction p s f _ =>
      slotImports (name p) INSIDE_FALSE_BRANCH f
      ++ slotImports (name p) INSIDE_TRUE_BRANCH s
  | LoopOnItemsAction p b _ => slotImports (name p) INSIDE_LOOP b
  | RouterAction p c _ => childImports (name p) 0 c
  end.

Lemma getImportOperations_phases step :
  getImportOperations step
  = match nextOf step with
    | Some a => [importAdd (stepName step) None None a]
    | None => []
    end
    ++ structuralImports step
    ++ match nextOf step with
       | Some a => getImportOperations a
       | None => []
       end.
Proof.
  destruct step as [t p n|p s f n|p b n|p c n]; simpl.
  - destruct n; reflexivity.
  - unfold slotImports. rewrite <- !app_assoc. reflexivity.
  - reflexivity.
  - f_equal. f_equal. generalize 0%nat.
    induction c as [|child c IH]; intros index; simpl; [reflexivity|].
    rewrite IH. reflexivity.
Qed.

Section Replay.

Context {E : Externals}.

(** The action [createAction] builds for the request read off [x], as
    the schema validator sees it: [valid] not yet computed, no
    structural children, successor [nx]. *)
Definition bareAction (x : Step) (nx : option Step) : Step :=
  setNext nx (bareRoot (setProps (withValid false (propsOf x)) x)).

(** A step that comes back unchanged when it is added again: it is an
    action, the validator accepts it when its [valid] flag says so, as
    a router it has two child slots, and as a piece its version is that
    of a legacy piece or is pinned. *)
Definition replayStable (x : Step) : Prop :=
  isAction (typeOf x) = true
  /\ (valid (propsOf x) = true ->
      forall nx, actionSchemaCheck (bareAction x nx) = true)
  /\ match x with
     | RouterAction _ c _ => List.length c = 2
     | _ => True
     end
  /\ (isPieceStep x = true ->
      isLegacyApp (pieceName (settings (propsOf x)))
        (pieceVersion (settings (propsOf x))) = Returns true
      \/ (isLegacyApp (pieceName (settings (propsOf x)))
            (pieceVersion (settings (propsOf x))) = Returns false
          /\ pinned (pieceVersion (settings (propsOf x))) = true)).

Lemma created_stable x nx :
  replayStable x ->
  createAction (requestOfStep (removeAnySubsequentAction x)) (onlyNext nx None)
  = Returns (setNext nx (bareRoot x)).
Proof.
  intros [Haction [Hcheck [Hrouter _]]].
  rewrite requestOfStep_stripped.
  unfold createAction, bareAction in *.
  destruct x as [[] p n|p s f n|p b n|p c n]; simpl in *; try discriminate;
    try (destruct c as [|c0 [|c1 [|c2 c]]]; try discriminate);
    destruct p as [nm dn v st]; unfold stepName, withValid in *; simpl in *;
    (destruct v; simpl; [rewrite (Hcheck eq_refl nx)|]; reflexivity).
Qed.

Lemma upgrade_stable x nx :
  replayStable x ->
  upgradePiece (setNext nx (bareRoot x)) (stepName x)
  = Returns (setNext nx (bareRoot x)).
Proof.
  intros [_ [_ [_ Hpiece]]]. unfold upgradePiece.
  rewrite stepName_setNext, stepName_bareRoot, String.eqb_refl. simpl.
  destruct x as [[] p n|p s f n|p b n|p c n]; simpl in *; try reflexivity.
  - destruct (Hpiece eq_refl) as [->|[-> Hpin]]; [reflexivity|].
    simpl. unfold pinned in Hpin. rewrite Hpin. reflexivity.
  - destruct (Hpiece eq_refl) as [->|[-> Hpin]]; [reflexivity|].
    simpl. unfold pinned in Hpin. rewrite Hpin. reflexivity.
Qed.

(** [replaysTo ops t t']: rewriting [t] by each [ADD_ACTION] of [ops]
    in turn, the insertion followed by the version upgrade that
    [apply] runs, settles in [t']. *)
Inductive replaysTo : list FlowOperationRequest -> Step -> Step -> Prop :=
| replays_nil t : replaysTo [] t t
| replays_add request ops t t1 t2 t' :
    settles (addActionFn request None) t t1 ->
    settles (fun s => upgradePiece s (reqName (action request))) t1 t2 ->
    replaysTo ops t2 t' ->
    replaysTo (ADD_ACTION request :: ops) t t'.

Lemma replaysTo_app ops1 ops2 t t1 t' :
  replaysTo ops1 t t1 -> replaysTo ops2 t1 t' ->
  replaysTo (ops1 ++ ops2) t t'.
Proof.
  induction 1; simpl; intros H2; [exact H2|].
  econstructor; eauto.
Qed.

Lemma upgradePiece_localTo target :
  localTo [target] (fun s => upgradePiece s target).
Proof.
  intros x Hx. unfold upgradePiece.
  destruct (String.eqb (stepName x) target) eqn:Hname; [|reflexivity].
  apply String.eqb_eq in Hname. exfalso. apply Hx. left. symmetry.
  exact Hname.
Qed.

Lemma addActionFn_localTo request children_ :
  localTo [parentStep request] (addActionFn request children_).
Proof.
  intros x Hx. apply addActionFn_other. intros Hname. apply Hx. left.
  symmetry. exact Hname.
Qed.

(** One import operation, seen at the frame of the slot it fills: the
    stable step [a] arrives bare, in front of what the slot held. *)
Lemma add_in_frame names C base before after slot location index a :
  transparent names C ->
  incl [stepName base; stepName a] names ->
  wellFramed base before after ->
  replayStable a ->
  stepName a <> stepName base ->
  (forall x, In x (flat_map traverseOpt (before ++ slot :: after)) ->
     stepName x <> stepName base /\ stepName x <> stepName a) ->
  addActionFn
    {| parentStep := stepName base;
       stepLocationRelativeToParent := location;
       branchIndex := option_map Z.of_nat index;
       addBranchName := option_map (fun i => "Branch " ^^ decimal i) index;
       action := requestOfStep (removeAnySubsequentAction a) |}
    None (frameOf base before after slot)
  = (a' <- createAction (requestOfStep (removeAnySubsequentAction a))
             (onlyNext slot None) ;;
     Returns (frameOf base before after (Some a'))) ->
  replaysTo [importAdd (stepName base) location index a]
    (C (frameOf base before after slot))
    (C (frameOf base before after (Some (setNext slot (bareRoot a))))).
Proof.
  intros HC Hincl Hwf Hstable Hname Hother Hadd.
  set (created := setNext slot (bareRoot a)).
  assert (Hsteps : forall x,
            In x (flat_map traverseOpt (before ++ Some created :: after)) ->
            x = created
            \/ (stepName x <> stepName base /\ stepName x <> stepName a)).
  { intros x Hx. rewrite flat_map_app in Hx. simpl in Hx.
    apply in_app_or in Hx. destruct Hx as [Hx|Hx].
    - right. apply Hother. rewrite flat_map_app. apply in_or_app. auto.
    - apply in_app_or in Hx. destruct Hx as [Hx|Hx].
      + unfold created in Hx. rewrite traverse_bare in Hx.
        destruct Hx as [Hx|Hx]; [left; symmetry; exact Hx|right].
        apply Hother. rewrite flat_map_app. apply in_or_app. right.
        simpl. apply in_or_app. left. exact Hx.
      + right. apply Hother. rewrite flat_map_app. apply in_or_app. right.
        simpl. apply in_or_app. right. exact Hx. }
  assert (Hcreated_name : stepName created = stepName a).
  { unfold created. rewrite stepName_setNext. apply stepName_bareRoot. }
  unfold importAdd.
  eapply replays_add with (t1 := C (frameOf base before after (Some created)))
                          (t2 := C (frameOf base before after (Some created)));
    [| |constructor].
  - apply HC.
    { eapply localTo_incl; [|apply addActionFn_localTo].
      intros x [<-|[]]. apply Hincl. left. reflexivity. }
    rewrite <- (withSlots_slots (frameOf base before after (Some created))).
    apply settles_node.
    + rewrite Hadd, (created_stable a slot Hstable). reflexivity.
    + rewrite slots_frameOf by exact Hwf.
      apply slots_settle_identity. intros x Hx. apply addActionFn_other.
      simpl. destruct (Hsteps x Hx) as [->|[H1 _]]; [|exact H1].
      rewrite Hcreated_name. exact Hname.
  - apply HC.
    { eapply localTo_incl; [|apply upgradePiece_localTo].
      intros x [<-|[]]. apply Hincl. right. left. simpl.
      unfold stepName. destruct a as [[] ? ?| | |]; reflexivity. }
    apply settles_identity. intros x Hx.
    assert (Hreq : reqName (requestOfStep (removeAnySubsequentAction a))
                   = stepName a).
    { rewrite requestOfStep_stripped. reflexivity. }
    change (upgradePiece x
              (reqName (requestOfStep (removeAnySubsequentAction a)))
            = Returns x).
    rewrite Hreq.
    rewrite traverseInternal_slots, slots_frameOf in Hx by exact Hwf.
    destruct Hx as [<-|Hx].
    + apply upgradePiece_localTo. intros [Heq|[]].
      rewrite stepName_frameOf in Heq. apply Hname. exact Heq.
    + destruct (Hsteps x Hx) as [->|[_ H2]].
      * apply upgrade_stable. exact Hstable.
      * apply upgradePiece_localTo. intros [Heq|[]]. apply H2. symmetry.
        exact Heq.
Qed.

End Replay.

(* ------------------------------------------------------------------ *)
(** *** Names in the slots of a step *)

Lemma in_steps_names l x :
  In x (flat_map traverseOpt l) -> In (stepName x) (flat_map stepNamesOpt l).
Proof.
  intros H. apply in_flat_map in H. destruct H as [[a|] [Hin Hx]];
    [|contradiction].
  apply in_flat_map. exists (Some a). split; [exact Hin|].
  simpl. unfold stepNames, getAllSteps. apply in_map. exact Hx.
Qed.

Lemma stepName_in_stepNames a : In (stepName a) (stepNames a).
Proof.
  unfold stepNames, getAllSteps. apply in_map. apply traverseInternal_self.
Qed.

Lemma NoDup_app_parts {A} (l1 l2 l3 : list A) :
  NoDup (l1 ++ l2 ++ l3) ->
  NoDup l2 /\ forall y, In y (l1 ++ l3) -> ~ In y l2.
Proof.
  intros H. split.
  - apply NoDup_app_remove_l in H. apply NoDup_app_remove_r in H. exact H.
  - intros y Hy Hy2. apply in_app_or in Hy. destruct Hy as [Hy|Hy].
    + eapply NoDup_app_disjoint; [exact H|exact Hy|].
      apply in_or_app. left. exact Hy2.
    + apply NoDup_app_remove_l in H.
      eapply NoDup_app_disjoint; [exact H|exact Hy2|exact Hy].
Qed.

(** With distinct names, the subtree in one slot shares no name with
    the step or with the other slots. *)
Lemma NoDup_slot step before a after :
  NoDup (stepNames step) -> slots step = before ++ Some a :: after ->
  NoDup (stepNames a)
  /\ ~ In (stepName step) (stepNames a)
  /\ forall y, In y (flat_map stepNamesOpt (before ++ after)) ->
       ~ In y (stepNames a).
Proof.
  intros Hnd Hslots. rewrite stepNames_slots, Hslots in Hnd.
  inversion Hnd as [|? ? Hroot Hrest]; subst.
  rewrite flat_map_app in Hrest, Hroot. simpl in Hrest, Hroot.
  destruct (NoDup_app_parts _ _ _ Hrest) as [Ha Hdisj].
  split; [exact Ha|]. split.
  - intros Hin. apply Hroot. apply in_or_app. right. apply in_or_app. left.
    exact Hin.
  - intros y Hy. apply Hdisj. rewrite flat_map_app in Hy. exact Hy.
Qed.

Lemma frameOf_next base v :
  frameOf base (structuralSlots base) [] v = setNext v base.
Proof.
  unfold frameOf. destruct base as [t p n|p s f n|p b n|p c n]; simpl;
    try reflexivity.
  rewrite removelast_last, last_last. reflexivity.
Qed.

Lemma wellFramed_next base : wellFramed base (structuralSlots base) [].
Proof.
  unfold wellFramed. rewrite slots_structural, length_app. simpl. lia.
Qed.

Lemma structuralSlots_setNext v step :
  structuralSlots (setNext v step) = structuralSlots step.
Proof. destruct step; reflexivity. Qed.

Lemma bareRoot_no_children step :
  flat_map traverseOpt (structuralSlots (bareRoot step)) = [].
Proof.
  destruct step as [t p n|p s f n|p b n|p c n]; simpl; try reflexivity.
  induction c as [|a c IH]; simpl; [reflexivity|exact IH].
Qed.

Lemma setNext_None_bareRoot step : setNext None (bareRoot step) = bareRoot step.
Proof. destruct step; reflexivity. Qed.

Lemma setNext_setNext v w step : setNext v (setNext w step) = setNext v step.
Proof. destruct step; reflexivity. Qed.

Lemma nextOf_setNext v step : nextOf (setNext v step) = v.
Proof. destruct step; reflexivity. Qed.

Section Rebuild.

Context {E : Externals}.

(** Filling one empty structural slot: the head arrives bare, then its
    own import operations rebuild it in place. *)
Lemma fill_slot names C base before after location index a :
  transparent names C ->
  incl (stepName base :: stepNames a) names ->
  wellFramed base before after ->
  replayStable a ->
  ~ In (stepName base) (stepNames a) ->
  (forall x, In x (flat_map traverseOpt (before ++ after)) ->
     stepName x <> stepName base /\ ~ In (stepName x) (stepNames a)) ->
  addActionFn
    {| parentStep := stepName base;
       stepLocationRelativeToParent := location;
       branchIndex := option_map Z.of_nat index;
       addBranchName := option_map (fun i => "Branch " ^^ decimal i) index;
       action := requestOfStep (removeAnySubsequentAction a) |}
    None (frameOf base before after None)
  = (a' <- createAction (requestOfStep (removeAnySubsequentAction a))
             (onlyNext None None) ;;
     Returns (frameOf base before after (Some a'))) ->
  (forall names' C', transparent names' C' -> incl (stepNames a) names' ->
     replaysTo (getImportOperations a) (C' (bareRoot a)) (C' a)) ->
  replaysTo (importAdd (stepName base) location index a
             :: getImportOperations a)
    (C (frameOf base before after None))
    (C (frameOf base before after (Some a))).
Proof.
  intros HC Hincl Hwf Hstable Hbase Hother Hadd IH.
  apply (replaysTo_app [importAdd (stepName base) location index a]
           (getImportOperations a) _
           (C (frameOf base before after (Some (bareRoot a))))).
  - rewrite <- (setNext_None_bareRoot a).
    apply (add_in_frame names); auto.
    + intros y [<-|[<-|[]]]; apply Hincl; [left; reflexivity|right].
      apply stepName_in_stepNames.
    + intros Heq. apply Hbase. rewrite <- Heq. apply stepName_in_stepNames.
    + intros x Hx. rewrite flat_map_app in Hx. simpl in Hx.
      rewrite <- flat_map_app in Hx. destruct (Hother x Hx) as [H1 H2].
      split; [exact H1|]. intros Heq. apply H2. rewrite Heq.
      apply stepName_in_stepNames.
  - apply (IH (stepNames a)
             (fun t => C (frameOf base before after (Some t))));
      [|apply incl_refl].
    apply (transparent_frame names); auto.
    + intros y Hy. apply Hincl. right. exact Hy.
    + intros x Hx. apply Hother. exact Hx.
Qed.

End Rebuild.

Lemma stepNames_slot_incl step a :
  In (Some a) (slots step) -> incl (stepNames a) (stepNames step).
Proof.
  intros Hin y Hy. rewrite stepNames_slots. right.
  apply in_flat_map. exists (Some a). auto.
Qed.

Lemma root_not_below step y :
  NoDup (stepNames step) ->
  In y (flat_map stepNamesOpt (slots step)) -> y <> stepName step.
Proof.
  intros Hnd Hy Heq. rewrite stepNames_slots in Hnd.
  inversion Hnd as [|? ? Hroot _]; subst. contradiction.
Qed.

Lemma at_middle {A} (before after : list A) x :
  at_ (before ++ x :: after) (Z.of_nat (List.length before)) = Some x.
Proof.
  unfold at_. destruct (Z.ltb_spec (Z.of_nat (List.length before)) 0); [lia|].
  rewrite Nat2Z.id, nth_error_app2 by lia.
  rewrite Nat.sub_diag. reflexivity.
Qed.

Lemma assignNat_middle {A} (hole v x : A) (before after : list A) :
  assignNat hole (List.length before) v (before ++ x :: after)
  = before ++ v :: after.
Proof.
  induction before as [|b before IH]; simpl; [reflexivity|].
  rewrite IH. reflexivity.
Qed.

Lemma assignAt_middle {A} (hole v x : A) (before after : list A) :
  assignAt hole (Z.of_nat (List.length before)) v (before ++ x :: after)
  = before ++ v :: after.
Proof.
  unfold assignAt.
  destruct (Z.ltb_spec (Z.of_nat (List.length before)) 0); [lia|].
  rewrite Nat2Z.id. apply assignNat_middle.
Qed.

Lemma router_frame p (before middle : list (option Step)) v nx :
  frameOf (RouterAction p (before ++ None :: middle) nx) before
    (middle ++ [nx]) v
  = RouterAction p (before ++ v :: middle) nx.
Proof.
  unfold frameOf. simpl.
  replace (before ++ v :: middle ++ [nx])
    with ((before ++ v :: middle) ++ [nx])
    by (rewrite <- app_assoc; reflexivity).
  rewrite removelast_last, last_last. reflexivity.
Qed.

Lemma no_steps_in_empty_slots {A} (l : list A) :
  flat_map traverseOpt (map (fun _ => None) l) = [].
Proof. induction l; simpl; auto. Qed.

Section RebuildStructure.

Context {E : Externals}.

Lemma addActionFn_router_child p before middle nx request :
  parentStep request = name p ->
  stepLocationRelativeToParent request = Some INSIDE_BRANCH ->
  branchIndex request = Some (Z.of_nat (List.length before)) ->
  addActionFn request None (RouterAction p (before ++ None :: middle) nx)
  = (a' <- createAction (action request) (onlyNext None None) ;;
     Returns (RouterAction p (before ++ Some a' :: middle) nx)).
Proof.
  intros Hparent Hloc Hindex. unfold addActionFn, stepName. simpl.
  rewrite Hparent, String.eqb_refl, Hloc, Hindex. simpl.
  rewrite at_middle.
  destruct (createAction _ _); simpl; try reflexivity.
  rewrite assignAt_middle. reflexivity.
Qed.

(** The import operations of the children of a router fill its child
    slots from left to right. *)
Lemma rebuild_children p nx names C :
  transparent names C ->
  forall cs before,
    (forall a, In (Some a) cs -> replayStable a) ->
    (forall a, In (Some a) cs ->
       forall names' C', transparent names' C' ->
         incl (stepNames a) names' ->
         replaysTo (getImportOperations a) (C' (bareRoot a)) (C' a)) ->
    incl (name p :: flat_map stepNamesOpt (before ++ cs)) names ->
    (forall l1 a l2, cs = l1 ++ Some a :: l2 ->
       ~ In (name p) (stepNames a)
       /\ forall y, In y (flat_map stepNamesOpt (before ++ l1 ++ l2)) ->
            ~ In y (stepNames a)) ->
    (forall y, In y (flat_map stepNamesOpt (before ++ cs)) -> y <> name p) ->
    (forall x, In x (traverseOpt nx) ->
       stepName x <> name p
       /\ ~ In (stepName x) (flat_map stepNamesOpt (before ++ cs))) ->
    replaysTo (childImports (name p) (List.length before) cs)
      (C (RouterAction p (before ++ map (fun _ => None) cs) nx))
      (C (RouterAction p (before ++ cs) nx)).
Proof.
  intros HC. induction cs as [|child cs IH];
    intros before Hstable Hrec Hincl Hdisj Hroot Hnx.
  - simpl. constructor.
  - assert (Hnext : forall child',
              (child' = child) ->
              replaysTo (childImports (name p) (S (List.length before)) cs)
                (C (RouterAction p
                      (before ++ child' :: map (fun _ => None) cs) nx))
                (C (RouterAction p (before ++ child' :: cs) nx))).
    { intros child' ->.
      replace (before ++ child :: map (fun _ => None) cs)
        with ((before ++ [child]) ++ map (fun _ => None) cs)
        by (rewrite <- app_assoc; reflexivity).
      replace (before ++ child :: cs) with ((before ++ [child]) ++ cs)
        by (rewrite <- app_assoc; reflexivity).
      replace (S (List.length before)) with (List.length (before ++ [child]))
        by (rewrite length_app; simpl; lia).
      apply IH.
      - intros a Ha. apply Hstable. right. exact Ha.
      - intros a Ha. apply Hrec. right. exact Ha.
      - rewrite <- app_assoc. exact Hincl.
      - intros l1 a l2 Hcs. destruct (Hdisj (child :: l1) a l2) as [H1 H2];
          [rewrite Hcs; reflexivity|].
        split; [exact H1|]. intros y Hy. apply H2.
        rewrite <- app_assoc in Hy. exact Hy.
      - intros y Hy. apply Hroot. rewrite <- app_assoc in Hy. exact Hy.
      - intros x Hx. destruct (Hnx x Hx) as [H1 H2]. split; [exact H1|].
        rewrite <- app_assoc. exact H2. }
    simpl. destruct child as [a|]; [|simpl; apply Hnext; reflexivity].
    apply (replaysTo_app
             (importAdd (name p) (Some INSIDE_BRANCH)
                (Some (List.length before)) a :: getImportOperations a)
             _ _ (C (RouterAction p (before ++ Some a :: map (fun _ => None) cs)
                       nx)));
      [|apply Hnext; reflexivity].
    destruct (Hdisj [] a cs eq_refl) as [Hp Hothers].
    rewrite <- (router_frame p before (map (fun _ => None) cs) None nx).
    rewrite <- (router_frame p before (map (fun _ => None) cs) (Some a) nx).
    apply (fill_slot names C
             (RouterAction p (before ++ None :: map (fun _ => None) cs) nx)
             before (map (fun _ => None) cs ++ [nx])
             (Some INSIDE_BRANCH) (Some (List.length before)) a); auto.
    + intros y [<-|Hy]; apply Hincl; [left; reflexivity|right].
      rewrite flat_map_app. apply in_or_app. right. simpl.
      apply in_or_app. left. exact Hy.
    + unfold wellFramed. simpl.
      repeat (rewrite ?length_app, ?length_map; simpl). lia.
    + apply Hstable. left. reflexivity.
    + intros x Hx. rewrite !flat_map_app, no_steps_in_empty_slots in Hx.
      simpl in Hx. rewrite app_nil_r in Hx.
      apply in_app_or in Hx. destruct Hx as [Hx|Hx].
      * apply in_steps_names in Hx. split.
        -- apply Hroot. rewrite flat_map_app. apply in_or_app. left. exact Hx.
        -- apply Hothers. simpl. rewrite flat_map_app. apply in_or_app. left.
           exact Hx.
      * destruct (Hnx x Hx) as [H1 H2]. split; [exact H1|].
        intros Hin. apply H2. rewrite flat_map_app. apply in_or_app. right.
        simpl. apply in_or_app. left. exact Hin.
    + rewrite router_frame.
      rewrite addActionFn_router_child by reflexivity.
      destruct (createAction _ _); unfold bind; try reflexivity.
      rewrite router_frame. reflexivity.
    + apply Hrec. left. reflexivity.
Qed.

(** The structural import operations of a step fill its structural
    slots, whatever its successor slot holds. *)
Lemma rebuild_structure names C s nx :
  transparent names C ->
  incl (stepName s :: flat_map stepNamesOpt (structuralSlots s)) names ->
  NoDup (stepName s :: flat_map stepNamesOpt (structuralSlots s)) ->
  (forall a, In (Some a) (structuralSlots s) -> replayStable a) ->
  (forall a, In (Some a) (structuralSlots s) ->
     forall names' C', transparent names' C' ->
       incl (stepNames a) names' ->
       replaysTo (getImportOperations a) (C' (bareRoot a)) (C' a)) ->
  (forall x, In x (traverseOpt nx) ->
     stepName x <> stepName s
     /\ ~ In (stepName x) (flat_map stepNamesOpt (structuralSlots s))) ->
  replaysTo (structuralImports s) (C (setNext nx (bareRoot s)))
    (C (setNext nx s)).
Proof.
  intros HC Hincl Hnd Hstable Hrec Hnx.
  inversion Hnd as [|? ? Hroot Hslots]; subst.
  destruct s as [t p n|p sc fl n|p b n|p c n]; simpl in *.
  - constructor.
  - unfold stepName in *. simpl in *.
    apply (replaysTo_app _ _ _ (C (BranchAction p None fl nx))).
    + destruct fl as [a|]; [|constructor]. simpl.
      change (BranchAction p None None nx)
        with (frameOf (BranchAction p None None nx) [None] [nx] None).
      change (BranchAction p None (Some a) nx)
        with (frameOf (BranchAction p None None nx) [None] [nx] (Some a)).
      apply (fill_slot names C (BranchAction p None None nx) [None] [nx]
               (Some INSIDE_FALSE_BRANCH) None a); auto;
        try (apply Hstable; tauto); try (apply Hrec; tauto).
      * intros y [<-|Hy]; apply Hincl; [left; reflexivity|right].
        apply in_or_app. right. rewrite app_nil_r. exact Hy.
      * reflexivity.
      * intros Hin. apply Hroot. apply in_or_app. right.
        rewrite app_nil_r. exact Hin.
      * intros x Hx. simpl in Hx. rewrite app_nil_r in Hx.
        destruct (Hnx x Hx) as [H1 H2]. split; [exact H1|].
        intros Hin. apply H2. apply in_or_app. right. rewrite app_nil_r.
        exact Hin.
      * unfold addActionFn, stepName. simpl. rewrite String.eqb_refl.
        reflexivity.
    + destruct sc as [a|]; [|constructor]. simpl.
      change (BranchAction p None fl nx)
        with (frameOf (BranchAction p None fl nx) [] [fl; nx] None).
      change (BranchAction p (Some a) fl nx)
        with (frameOf (BranchAction p None fl nx) [] [fl; nx] (Some a)).
      rewrite app_nil_r in *.
      apply (fill_slot names C (BranchAction p None fl nx) [] [fl; nx]
               (Some INSIDE_TRUE_BRANCH) None a); auto;
        try (apply Hstable; tauto); try (apply Hrec; tauto).
      * intros y [<-|Hy]; apply Hincl; [left; reflexivity|right].
        apply in_or_app. left. exact Hy.
      * reflexivity.
      * intros Hin. apply Hroot. apply in_or_app. left. exact Hin.
      * intros x Hx. simpl in Hx. rewrite app_nil_r in Hx.
        apply in_app_or in Hx. destruct Hx as [Hx|Hx].
        -- assert (Hname : In (stepName x) (stepNamesOpt fl)).
           { destruct fl as [b|]; [|contradiction]. simpl.
             unfold stepNames, getAllSteps. apply in_map. exact Hx. }
           split.
           ++ intros Heq. apply Hroot. unfold stepName in Heq. simpl in Heq.
              rewrite <- Heq. apply in_or_app. right. exact Hname.
           ++ intros Hin.
              eapply NoDup_app_disjoint; [exact Hslots|exact Hin|exact Hname].
        -- destruct (Hnx x Hx) as [H1 H2]. split; [exact H1|].
           intros Hin. apply H2. apply in_or_app. left. exact Hin.
      * unfold addActionFn, stepName. simpl. rewrite String.eqb_refl.
        reflexivity.
  - unfold stepName in *. simpl in *. rewrite app_nil_r in *.
    destruct b as [a|]; [|constructor]. simpl.
    change (LoopOnItemsAction p None nx)
      with (frameOf (LoopOnItemsAction p None nx) [] [nx] None).
    change (LoopOnItemsAction p (Some a) nx)
      with (frameOf (LoopOnItemsAction p None nx) [] [nx] (Some a)).
    apply (fill_slot names C (LoopOnItemsAction p None nx) [] [nx]
             (Some INSIDE_LOOP) None a); auto;
        try (apply Hstable; tauto); try (apply Hrec; tauto).
    + reflexivity.
    + intros x Hx. simpl in Hx. rewrite app_nil_r in Hx.
      exact (Hnx x Hx).
    + unfold addActionFn, stepName. simpl. rewrite String.eqb_refl.
      reflexivity.
  - unfold stepName in *. simpl in *.
    apply (rebuild_children p nx names C HC c []); auto.
    + intros l1 a l2 ->. rewrite !flat_map_app in Hroot, Hslots.
      simpl in Hroot, Hslots.
      destruct (NoDup_app_parts _ _ _ Hslots) as [_ Hdisj]. split.
      * intros Hin. apply Hroot. apply in_or_app. right.
        apply in_or_app. left. exact Hin.
      * intros y Hy. apply Hdisj. simpl in Hy.
        rewrite flat_map_app in Hy. exact Hy.
    + intros y Hy ->. contradiction.
Qed.

End RebuildStructure.

(* ------------------------------------------------------------------ *)
(** *** Rebuilding a whole subtree *)

Lemma in_slot_names (l : list (option Step)) a y :
  In (Some a) l -> In y (stepNames a) -> In y (flat_map stepNamesOpt l).
Proof. intros Ha Hy. apply in_flat_map. exists (Some a). auto. Qed.

Lemma slot_child step a :
  NoDup (stepNames step) -> In (Some a) (slots step) ->
  NoDup (stepNames a)
  /\ ~ In (stepName step) (stepNames a)
  /\ height a < height step
  /\ incl (stepNames a) (stepNames step).
Proof.
  intros Hnd Hin. destruct (in_split _ _ Hin) as [before [after Hslots]].
  destruct (NoDup_slot step before a after Hnd Hslots) as [H1 [H2 _]].
  repeat split; auto.
  - exact (height_slot step (Some a) Hin).
  - apply stepNames_slot_incl. exact Hin.
Qed.

Lemma in_steps_of_slot (l : list (option Step)) a x :
  In (Some a) l -> In x (traverseInternal a) -> In x (flat_map traverseOpt l).
Proof. intros Ha Hx. apply in_flat_map. exists (Some a). auto. Qed.

Section RebuildSubtree.

Context {E : Externals}.

(** Adding a step after the bare root puts it in front of what the
    successor slot held. *)
Lemma add_after_bare s X request :
  parentStep request = stepName s ->
  stepLocationRelativeToParent request = None ->
  addActionFn request None (setNext X (bareRoot s))
  = (a' <- createAction (action request) (onlyNext X None) ;;
     Returns (setNext (Some a') (bareRoot s))).
Proof.
  intros Hparent Hloc. unfold addActionFn.
  rewrite stepName_setNext, stepName_bareRoot, Hparent, String.eqb_refl, Hloc.
  destruct s; reflexivity.
Qed.

(** Replaying the import operations of [s] over its bare root, whose
    successor slot holds [X], rebuilds [s] in front of [X]. *)
Lemma rebuild (k : nat) :
  forall s X names C,
    height s <= k ->
    transparent names C ->
    incl (stepNames s) names ->
    NoDup (stepNames s) ->
    (forall x, In x (flat_map traverseOpt (slots s)) -> replayStable x) ->
    (forall x, In x (traverseOpt X) -> ~ In (stepName x) (stepNames s)) ->
    replaysTo (getImportOperations s) (C (setNext X (bareRoot s)))
      (C (appendChain s X)).
Proof.
  induction k as [|k IH]; intros s X names C Hh HC Hincl Hnd Hstable HX.
  - pose proof (height_pos s). lia.
  - assert (Hchild : forall a, In (Some a) (slots s) ->
              forall X' names' C',
                transparent names' C' -> incl (stepNames a) names' ->
                (forall x, In x (traverseOpt X') ->
                   ~ In (stepName x) (stepNames a)) ->
                replaysTo (getImportOperations a)
                  (C' (setNext X' (bareRoot a))) (C' (appendChain a X'))).
    { intros a Ha X' names' C' HC' Hincl' HX'.
      destruct (slot_child s a Hnd Ha) as [Hnda [_ [Hlt _]]].
      apply (IH a X' names' C'); auto; [lia|].
      intros x Hx. apply Hstable.
      apply in_flat_map in Hx. destruct Hx as [slot [Hslot Hx]].
      apply in_flat_map. exists (Some a). split; [exact Ha|].
      simpl. eapply in_traverse_slot; eauto. }
    assert (Hstructure : forall nx,
              (forall x, In x (traverseOpt nx) ->
                 stepName x <> stepName s
                 /\ ~ In (stepName x)
                      (flat_map stepNamesOpt (structuralSlots s))) ->
              replaysTo (structuralImports s) (C (setNext nx (bareRoot s)))
                (C (setNext nx s))).
    { intros nx Hnx. apply (rebuild_structure names C s nx); auto.
      - intros y Hy. apply Hincl. rewrite stepNames_slots, slots_structural.
        destruct Hy as [<-|Hy]; [left; reflexivity|right].
        rewrite flat_map_app. apply in_or_app. left. exact Hy.
      - rewrite stepNames_slots, slots_structural, flat_map_app in Hnd.
        change (NoDup ((stepName s
                        :: flat_map stepNamesOpt (structuralSlots s))
                       ++ flat_map stepNamesOpt [nextOf s])) in Hnd.
        apply NoDup_app_remove_r in Hnd. exact Hnd.
      - intros a Ha. apply Hstable. rewrite slots_structural.
        apply (in_steps_of_slot _ a); [|apply traverseInternal_self].
        apply in_or_app. left. exact Ha.
      - intros a Ha names' C' HC' Hincl'.
        assert (Hin : In (Some a) (slots s)).
        { rewrite slots_structural. apply in_or_app. left. exact Ha. }
        pose proof (Hchild a Hin None names' C' HC' Hincl') as Hrebuilt.
        rewrite setNext_None_bareRoot in Hrebuilt.
        rewrite (appendChain_None (height a)) in Hrebuilt by lia.
        apply Hrebuilt. intros x []. }
    rewrite getImportOperations_phases, appendChain_unfold.
    destruct (nextOf s) as [s1|] eqn:Hn.
    + assert (Hin1 : In (Some s1) (slots s)).
      { rewrite slots_structural, Hn. apply in_or_app. right. left.
        reflexivity. }
      destruct (slot_child s s1 Hnd Hin1) as [Hnd1 [Hroot1 [Hlt1 Hincl1]]].
      assert (Hs1 : ~ In (stepName s1)
                      (flat_map stepNamesOpt (structuralSlots s))
                    /\ stepName s1 <> stepName s).
      { rewrite stepNames_slots, slots_structural, Hn, flat_map_app in Hnd.
        inversion Hnd as [|? ? Hroot Hslots]; subst. split.
        - intros Hin. eapply NoDup_app_disjoint; [exact Hslots|exact Hin|].
          simpl. rewrite app_nil_r. apply stepName_in_stepNames.
        - intros Heq. apply Hroot1. rewrite <- Heq.
          apply stepName_in_stepNames. }
      destruct Hs1 as [Hs1 Hs1root].
      assert (HXs : forall x, In x (traverseOpt X) ->
                stepName x <> stepName s
                /\ ~ In (stepName x)
                     (flat_map stepNamesOpt (structuralSlots s))
                /\ ~ In (stepName x) (stepNames s1)).
      { intros x Hx. pose proof (HX x Hx) as Hout.
        rewrite stepNames_slots, slots_structural, Hn, flat_map_app in Hout.
        repeat split; intros Hbad; apply Hout.
        - left. symmetry. exact Hbad.
        - right. apply in_or_app. left. exact Hbad.
        - right. apply in_or_app. right. simpl. rewrite app_nil_r.
          exact Hbad. }
      apply (replaysTo_app _ _ _
               (C (setNext (Some (setNext X (bareRoot s1))) (bareRoot s)))).
      { rewrite <- (stepName_bareRoot s).
        rewrite <- (frameOf_next (bareRoot s) X).
        rewrite <- (frameOf_next (bareRoot s) (Some (setNext X (bareRoot s1)))).
        apply (add_in_frame names C (bareRoot s)
                 (structuralSlots (bareRoot s)) [] X None None s1); auto.
        - intros y [<-|[<-|[]]]; apply Hincl.
          + rewrite stepName_bareRoot. apply stepName_in_stepNames.
          + apply Hincl1. apply stepName_in_stepNames.
        - apply wellFramed_next.
        - apply Hstable. apply (in_steps_of_slot _ s1); [exact Hin1|].
          apply traverseInternal_self.
        - rewrite stepName_bareRoot. exact Hs1root.
        - intros x Hx. rewrite flat_map_app, bareRoot_no_children in Hx.
          simpl in Hx. rewrite app_nil_r in Hx.
          rewrite stepName_bareRoot.
          destruct (HXs x Hx) as [H1 [_ H3]]. split; [exact H1|].
          intros Heq. apply H3. rewrite Heq. apply stepName_in_stepNames.
        - rewrite frameOf_next, add_after_bare by
            (simpl; rewrite ?stepName_bareRoot; reflexivity).
          destruct (createAction _ _); simpl; try reflexivity.
          rewrite frameOf_next. reflexivity. }
      apply (replaysTo_app _ _ _
               (C (setNext (Some (setNext X (bareRoot s1))) s))).
      { apply Hstructure. intros x Hx. simpl in Hx.
        rewrite traverse_bare in Hx. destruct Hx as [<-|Hx].
        - rewrite stepName_setNext, stepName_bareRoot. auto.
        - destruct (HXs x Hx) as [H1 [H2 _]]. auto. }
      rewrite <- (frameOf_next s (Some (setNext X (bareRoot s1)))).
      rewrite <- (frameOf_next s (Some (appendChain s1 X))).
      apply (Hchild s1 Hin1 X (stepNames s1)
               (fun t => C (frameOf s (structuralSlots s) [] (Some t))));
        [|apply incl_refl|intros x Hx; apply (HXs x Hx)].
      apply (transparent_frame names); auto.
      * intros y Hy. apply Hincl. apply Hincl1. exact Hy.
      * apply wellFramed_next.
      * intros x Hx Hbad. rewrite app_nil_r in Hx.
        apply in_steps_names in Hx.
        rewrite stepNames_slots, slots_structural, Hn, flat_map_app in Hnd.
        inversion Hnd as [|? ? _ Hslots]; subst.
        eapply NoDup_app_disjoint; [exact Hslots|exact Hx|].
        simpl. rewrite app_nil_r. exact Hbad.
    + simpl. rewrite app_nil_r. apply Hstructure.
      intros x Hx. pose proof (HX x Hx) as Hout.
      rewrite stepNames_slots, slots_structural, flat_map_app in Hout.
      split; intros Hbad; apply Hout.
      * left. symmetry. exact Hbad.
      * right. apply in_or_app. left. exact Hbad.
Qed.

End RebuildSubtree.

(* ------------------------------------------------------------------ *)
(** *** The steps of a plugged tree *)

Lemma outerSteps_names hole t (k : nat) :
  forall ctx, height ctx <= k ->
    forall s, In s (outerSteps hole t ctx) -> In (stepName s) (stepNames ctx).
Proof.
  induction k as [|k IH]; intros ctx Hh s Hs.
  - pose proof (height_pos ctx). lia.
  - rewrite outerSteps_unfold in Hs. rewrite stepNames_slots.
    destruct (String.eqb (stepName ctx) hole) eqn:Hname; [contradiction|].
    destruct Hs as [<-|Hs].
    + left. rewrite plug_unfold, Hname. unfold stepName.
      rewrite propsOf_withSlots. reflexivity.
    + right. apply in_flat_map in Hs. destruct Hs as [[a|] [Hin Hs]];
        [|contradiction].
      apply (in_slot_names _ a); [exact Hin|].
      apply (IH a); [|exact Hs].
      pose proof (height_slot ctx _ Hin) as Hlt. simpl in Hlt. lia.
Qed.

Lemma plug_steps hole t (k : nat) :
  forall ctx, height ctx <= k ->
    forall x, In x (traverseInternal (plug hole t ctx)) ->
      In x (outerSteps hole t ctx) \/ In x (traverseInternal t).
Proof.
  induction k as [|k IH]; intros ctx Hh x Hx.
  - pose proof (height_pos ctx). lia.
  - rewrite outerSteps_unfold. rewrite plug_unfold in *.
    destruct (String.eqb (stepName ctx) hole) eqn:Hname; [right; exact Hx|].
    rewrite traverseInternal_slots in Hx.
    rewrite slots_withSlots in Hx by (rewrite length_map; reflexivity).
    destruct Hx as [<-|Hx]; [left; left; reflexivity|].
    apply in_flat_map in Hx. destruct Hx as [slot [Hin Hx]].
    apply in_map_iff in Hin. destruct Hin as [[a|] [<- Hin]];
      [|contradiction].
    simpl in Hx. destruct (IH a) with (x := x) as [Hout|Ht]; auto.
    { pose proof (height_slot ctx _ Hin) as Hlt. simpl in Hlt. lia. }
    left. right. apply in_flat_map. exists (Some a). auto.
Qed.

Lemma plug_contains hole t (k : nat) :
  forall ctx, height ctx <= k ->
    In hole (stepNames ctx) -> In t (traverseInternal (plug hole t ctx)).
Proof.
  induction k as [|k IH]; intros ctx Hh Hin.
  - pose proof (height_pos ctx). lia.
  - rewrite plug_unfold.
    destruct (String.eqb (stepName ctx) hole) eqn:Hname;
      [apply traverseInternal_self|].
    rewrite stepNames_slots in Hin. destruct Hin as [Heq|Hin].
    { apply String.eqb_neq in Hname. contradiction. }
    apply in_flat_map in Hin. destruct Hin as [[a|] [Hslot Hin]];
      [|contradiction].
    rewrite traverseInternal_slots. right.
    rewrite slots_withSlots by (rewrite length_map; reflexivity).
    apply in_flat_map. exists (Some (plug hole t a)). split.
    + apply (in_map (plugOpt hole t) _ (Some a)). exact Hslot.
    + apply (IH a); [|exact Hin].
      pose proof (height_slot ctx _ Hslot) as Hlt. simpl in Hlt. lia.
Qed.

(** Looking up the name of the hole in a plugged tree finds the plugged
    step, when the names of the plugged step are distinct. *)
Lemma findByName_plug t ctx :
  NoDup (stepNames t) -> In (stepName t) (stepNames ctx) ->
  findByName (stepName t) (traverseInternal (plug (stepName t) t ctx))
  = Some t.
Proof.
  intros Hnd Hin. unfold findByName.
  destruct (find _ _) as [x|] eqn:Hfind.
  - apply find_some in Hfind. destruct Hfind as [Hx Hname].
    apply String.eqb_eq in Hname. f_equal.
    destruct (plug_steps _ _ _ ctx (le_n _) x Hx) as [Hout|Ht].
    + destruct (outerSteps_in _ _ _ ctx (le_n _) x Hout) as [_ Hne].
      contradiction.
    + apply (distinct_names_determine_step t); auto.
      apply traverseInternal_self.
  - pose proof (find_none _ _ Hfind t
                  (plug_contains _ _ _ ctx (le_n _) Hin)) as Hno.
    simpl in Hno. rewrite String.eqb_refl in Hno. discriminate.
Qed.

(* ================================================================== *)
(** ** Import operations replayed by [apply] *)
(* ================================================================== *)

Lemma names_in_steps (l : list (option Step)) y :
  In y (flat_map stepNamesOpt l) ->
  exists x, In x (flat_map traverseOpt l) /\ stepName x = y.
Proof.
  intros H. apply in_flat_map in H. destruct H as [[a|] [Hin Hy]];
    [|contradiction].
  simpl in Hy. unfold stepNames, getAllSteps in Hy.
  apply in_map_iff in Hy. destruct Hy as [x [Hname Hx]].
  exists x. split; [|exact Hname].
  apply (in_steps_of_slot _ a); assumption.
Qed.

Section ReplayByApply.

Context {E : Externals}.

Lemma replay_step
  (applyRec : FlowVersion -> FlowOperationRequest -> outcome FlowVersion)
  operation operations flowVersion flowVersion' :
  applyRec flowVersion operation = Returns flowVersion' ->
  replay applyRec (operation :: operations) flowVersion
  = replay applyRec operations flowVersion'.
Proof. intros H. unfold replay. simpl. rewrite H. reflexivity. Qed.

(** [apply] on [ADD_ACTION]: the insertion, the version upgrade, then
    the validity of the flow computed anew. *)
Lemma apply_add_action (fuel : nat) flowVersion request t1 t2 :
  transferStep fuel (addActionFn request None) (trigger flowVersion)
  = Returns t1 ->
  transferStep fuel (fun s => upgradePiece s (reqName (action request))) t1
  = Returns t2 ->
  apply (S fuel) flowVersion (ADD_ACTION request)
  = Returns (withFlowValid (isValid (withTrigger t2 flowVersion))
               (withTrigger t2 flowVersion)).
Proof.
  intros H1 H2. simpl. unfold addAction, transferFlow. simpl.
  rewrite H1. simpl. rewrite H2. reflexivity.
Qed.

(** Operations that rebuild a trigger tree step by step do so when
    [apply] replays them over a flow with that trigger, for every
    recursion budget from some budget on. *)
Lemma replay_flow operations t t' :
  replaysTo operations t t' ->
  forall flowVersion, trigger flowVersion = t ->
    exists fuel0 flowVersion',
      (forall fuel, fuel0 <= fuel ->
         replay (apply fuel) operations flowVersion = Returns flowVersion')
      /\ trigger flowVersion' = t'.
Proof.
  induction 1 as [t|request ops t t1 t2 t' [fuel1 H1] [fuel2 H2] _ IH];
    intros flowVersion Hf.
  - exists 0, flowVersion. split; [reflexivity|exact Hf].
  - destruct (IH (withFlowValid (isValid (withTrigger t2 flowVersion))
                    (withTrigger t2 flowVersion)) eq_refl)
      as [fuel3 [flowVersion' [H3 H4]]].
    exists (S (Nat.max fuel1 (Nat.max fuel2 fuel3))), flowVersion'.
    split; [|exact H4]. intros [|fuel] Hfuel; [lia|].
    rewrite (replay_step (apply (S fuel)) (ADD_ACTION request) ops
               flowVersion _
               (apply_add_action fuel flowVersion request t1 t2
                  ltac:(rewrite Hf; apply H1; lia) ltac:(apply H2; lia))).
    apply H3. lia.
Qed.

(** C1 (amended).  Let the names of the steps of [R] be distinct, let
    every step below [R] come back unchanged when it is added again
    ([replayStable]) and bear a name the flow does not use, and let the
    flow, whose names are distinct, contain [R] stripped of its
    structural children and of its successor.  Then, for every
    recursion budget from some budget on, replaying the import
    operations of [R] by [apply] returns one and the same flow: the
    given one with [R] in the place of its stripped root, so that the
    step named as [R] is [R] itself. *)
Theorem import_operations_rebuild (R : Step) (flowVersion : FlowVersion) :
  NoDup (stepNames (trigger flowVersion)) ->
  In (bareRoot R) (getAllSteps (trigger flowVersion)) ->
  NoDup (stepNames R) ->
  (forall x, In x (flat_map traverseOpt (slots R)) ->
     replayStable x
     /\ ~ In (stepName x) (stepNames (trigger flowVersion))) ->
  exists fuel0 rebuilt,
    (forall fuel, fuel0 <= fuel ->
       replay (apply fuel) (getImportOperations R) flowVersion
       = Returns rebuilt)
    /\ trigger rebuilt = plug (stepName R) R (trigger flowVersion)
    /\ getStep rebuilt (stepName R) = Some R.
Proof.
  intros Hflow Hin Hnd Hbelow.
  assert (Hname : In (stepName R) (stepNames (trigger flowVersion))).
  { rewrite <- (stepName_bareRoot R). unfold stepNames. apply in_map.
    exact Hin. }
  assert (HC : transparent (stepNames R)
                 (fun t => plug (stepName R) t (trigger flowVersion))).
  { apply transparent_plug. intros t x Hx Hbad.
    destruct (outerSteps_in _ _ _ _ (le_n _) x Hx) as [_ Hne].
    pose proof (outerSteps_names _ _ _ _ (le_n _) x Hx) as Hused.
    rewrite stepNames_slots in Hbad. destruct Hbad as [Heq|Hbad].
    - apply Hne. symmetry. exact Heq.
    - apply names_in_steps in Hbad. destruct Hbad as [y [Hy Heq]].
      apply (proj2 (Hbelow y Hy)). rewrite Heq. exact Hused. }
  pose proof (rebuild (height R) R None (stepNames R) _ (le_n _) HC
                (incl_refl _) Hnd (fun x Hx => proj1 (Hbelow x Hx))
                (fun x (Hx : In x (traverseOpt None)) => match Hx with end))
    as Hrebuilt.
  rewrite setNext_None_bareRoot in Hrebuilt.
  rewrite (appendChain_None (height R)) in Hrebuilt by lia.
  destruct (replay_flow _ _ _ Hrebuilt flowVersion) as [fuel0 [rebuilt [H1 H2]]].
  { rewrite <- (stepName_bareRoot R). symmetry. apply plug_self; assumption. }
  exists fuel0, rebuilt. split; [exact H1|]. split; [exact H2|].
  unfold getStep, getAllSteps. rewrite H2.
  apply findByName_plug; assumption.
Qed.

End ReplayByApply.

Definition nestedSubtree : Step :=
  LoopOnItemsAction (props "step_1" plainSettings)
    (Some (code "step_2"
             (Some (RouterAction
                      (props "step_3"
                         (routerSettings ["Branch 1"; "Otherwise"]))
                      [None; Some (code "step_4" None)] None))))
    (Some (BranchAction (props "step_5" plainSettings)
             (Some (code "step_6" None))
             (Some (SimpleStep SPiece
                      (props "step_7"
                         (pieceSettings "@activepieces/piece-slack" "~0.5.0"
                            None))
                      None))
             (Some (code "step_8" None)))).

Definition strippedFlow : FlowVersion :=
  flowOf (emptyTrigger (Some (code "step_0" (Some (bareRoot nestedSubtree))))).

Lemma import_operations_rebuild_witness :
  exists fuel0 rebuilt,
    (forall fuel, fuel0 <= fuel ->
       replay (apply (E := referenceExternals) fuel)
         (getImportOperations nestedSubtree) strippedFlow
       = Returns rebuilt)
    /\ trigger rebuilt
       = plug (stepName nestedSubtree) nestedSubtree (trigger strippedFlow)
    /\ getStep rebuilt (stepName nestedSubtree) = Some nestedSubtree.
Proof.
  apply (import_operations_rebuild (E := referenceExternals) nestedSubtree
           strippedFlow).
  - repeat constructor; simpl; intuition discriminate.
  - simpl. tauto.
  - repeat constructor; simpl; intuition discriminate.
  - intros x Hx. simpl in Hx.
    repeat (destruct Hx as [<-|Hx]);
      try contradiction;
      (split; [|simpl; intuition discriminate]);
      (split; [reflexivity|]);
      (split; [intros; reflexivity|]);
      (split; [reflexivity|]);
      simpl; try discriminate;
      intros _; right; split; reflexivity.
Defined.

Definition unpinnedSlack (version : string) : Step :=
  SimpleStep SPiece
    (props "step_2" (pieceSettings "@activepieces/piece-slack" version None))
    None.

Definition unpinnedSubtree : Step :=
  code "step_1" (Some (unpinnedSlack "0.5.0")).

Definition unpinnedFlow : FlowVersion :=
  flowOf (emptyTrigger (Some (bareRoot unpinnedSubtree))).

(** The claim as stated fails: a code step followed by a piece step of
    version ["0.5.0"] is rebuilt, from its stripped root, followed by a
    piece step of version ["~0.5.0"], since every [ADD_ACTION] that
    [apply] replays pins the version of the piece it adds. *)
Lemma replay_pins_piece_version :
  In (bareRoot unpinnedSubtree) (getAllSteps (trigger unpinnedFlow))
  /\ exists rebuilt,
       (forall fuel, 4 < fuel ->
          replay (apply (E := referenceExternals) fuel)
            (getImportOperations unpinnedSubtree) unpinnedFlow
          = Returns rebuilt)
       /\ getStep rebuilt "step_1"
          = Some (code "step_1" (Some (unpinnedSlack "~0.5.0")))
       /\ code "step_1" (Some (unpinnedSlack "~0.5.0")) <> unpinnedSubtree.
Proof.
  split; [simpl; tauto|].
  eexists. split; [|split].
  - intros [|[|[|[|[|fuel]]]]] H; try lia. reflexivity.
  - reflexivity.
  - discriminate.
Qed.

(* ================================================================== *)
(** ** Moving a step *)
(* ================================================================== *)

(* ------------------------------------------------------------------ *)
(** *** Trees with distinct names *)

Lemma NoDup_subtree (k : nat) :
  forall step, height step <= k -> NoDup (stepNames step) ->
    forall x, In x (traverseInternal step) -> NoDup (stepNames x).
Proof.
  induction k as [|k IH]; intros step Hh Hnd x Hx.
  - pose proof (height_pos step). lia.
  - rewrite traverseInternal_slots in Hx. destruct Hx as [<-|Hx]; [exact Hnd|].
    apply in_flat_map in Hx. destruct Hx as [[a|] [Hin Hx]]; [|contradiction].
    destruct (slot_child step a Hnd Hin) as [Hnda [_ [Hlt _]]].
    apply (IH a); [lia|exact Hnda|exact Hx].
Qed.

Lemma subtree_names step x :
  In x (traverseInternal step) -> incl (stepNames x) (stepNames step).
Proof.
  intros Hx y Hy. unfold stepNames, getAllSteps in *.
  apply in_map_iff in Hy. destruct Hy as [z [<- Hz]]. apply in_map.
  eapply traverse_trans; eauto.
Qed.

(** With distinct names a step sits in one slot of one step. *)
Lemma distinct_names_one_owner (k : nat) :
  forall step, height step <= k -> NoDup (stepNames step) ->
    forall s s' x,
      In s (traverseInternal step) -> In s' (traverseInternal step) ->
      In (Some x) (slots s) -> In (Some x) (slots s') -> s = s'.
Proof.
  induction k as [|k IH]; intros step Hh Hnd s s' x Hs Hs' Hx Hx'.
  - pose proof (height_pos step). lia.
  - assert (Hself : forall a, In (Some a) (slots step) ->
              forall y, In y (traverseInternal a) ->
                In (Some x) (slots y) -> In (Some x) (slots step) -> False).
    { intros a Ha y Hy Hxy Hxstep.
      assert (Hxa : In x (traverseInternal a)).
      { eapply traverse_trans; [apply le_n|exact Hy|].
        eapply in_traverse_slot; [exact Hxy|apply traverseInternal_self]. }
      assert (Heq : Some x = Some a).
      { rewrite stepNames_slots in Hnd. inversion Hnd as [|? ? _ Hslots].
        apply (NoDup_flat_map_injective stepNamesOpt (slots step)
                 (Some x) (Some a) (stepName x) Hslots Hxstep Ha).
        - apply stepName_in_stepNames.
        - simpl. unfold stepNames, getAllSteps. apply in_map. exact Hxa. }
      inversion Heq; subst a.
      pose proof (height_in_traverse _ x (le_n _) y Hy) as H1.
      pose proof (height_slot y _ Hxy) as H2. simpl in H2. lia. }
    rewrite traverseInternal_slots in Hs, Hs'.
    destruct Hs as [<-|Hs], Hs' as [<-|Hs']; [reflexivity| | |].
    + exfalso. apply in_flat_map in Hs'.
      destruct Hs' as [[a|] [Ha Hs']]; [|contradiction]. eauto.
    + exfalso. apply in_flat_map in Hs.
      destruct Hs as [[a|] [Ha Hs]]; [|contradiction]. eauto.
    + apply in_flat_map in Hs, Hs'.
      destruct Hs as [[a|] [Ha Hs]]; [|contradiction].
      destruct Hs' as [[a'|] [Ha' Hs']]; [|contradiction].
      assert (Heq : Some a = Some a').
      { rewrite stepNames_slots in Hnd. inversion Hnd as [|? ? _ Hslots].
        apply (NoDup_flat_map_injective stepNamesOpt (slots step)
                 (Some a) (Some a') (stepName x) Hslots Ha Ha').
        - simpl. apply (subtree_names a s Hs).
          apply (stepNames_slot_incl s x Hx). apply stepName_in_stepNames.
        - simpl. apply (subtree_names a' s' Hs').
          apply (stepNames_slot_incl s' x Hx'). apply stepName_in_stepNames. }
      inversion Heq; subst a'.
      destruct (slot_child step a Hnd Ha) as [Hnda [_ [Hlt _]]].
      apply (IH a) with (x := x); auto. lia.
Qed.

(* ------------------------------------------------------------------ *)
(** *** Removing the source step *)

Section RemoveSource.

Context {E : Externals}.

Lemma spliceOut_other name_ slot :
  (forall a, slot = Some a -> stepName a <> name_) ->
  spliceOut name_ slot = slot.
Proof.
  intros H. destruct slot as [a|]; [|reflexivity]. simpl.
  destruct (String.eqb (stepName a) name_) eqn:Hname; [|reflexivity].
  apply String.eqb_eq in Hname. elim (H a eq_refl Hname).
Qed.

Lemma deleteActionFn_other name_ x :
  (forall a, In (Some a) (slots x) -> stepName a <> name_) ->
  deleteActionFn name_ x = Returns x.
Proof.
  intros H. rewrite deleteActionFn_slots. f_equal.
  transitivity (withSlots x (slots x)); [f_equal|apply withSlots_slots].
  transitivity (map (fun slot => slot) (slots x)); [|apply map_id].
  apply map_ext_in.
  intros slot Hslot. apply spliceOut_other. intros a ->. apply H. exact Hslot.
Qed.

(** [Q] is the step one of whose slots holds [S]: deleting [S] puts the
    successor of [S] into that slot and leaves the rest of the tree. *)
Lemma delete_settles T0 Q S before after :
  NoDup (stepNames T0) -> In Q (traverseInternal T0) ->
  slots Q = before ++ Some S :: after ->
  settles (deleteActionFn (stepName S)) T0
    (plug (stepName Q) (frameOf Q before after (nextOf S)) T0).
Proof.
  intros Hnd HQ Hslots.
  assert (HSQ : In (Some S) (slots Q)).
  { rewrite Hslots. apply in_or_app. right. left. reflexivity. }
  assert (HS : In S (traverseInternal T0)).
  { eapply traverse_trans; [apply le_n|exact HQ|].
    eapply in_traverse_slot; [exact HSQ|apply traverseInternal_self]. }
  assert (HndQ : NoDup (stepNames Q)).
  { apply (NoDup_subtree _ T0 (le_n _) Hnd Q HQ). }
  assert (Hid : forall z, In z (traverseInternal T0) ->
            stepName z <> stepName Q ->
            deleteActionFn (stepName S) z = Returns z).
  { intros z Hz Hname. apply deleteActionFn_other. intros a Ha Heq.
    assert (a = S).
    { apply (distinct_names_determine_step T0); auto.
      eapply traverse_trans; [apply le_n|exact Hz|].
      eapply in_traverse_slot; [exact Ha|apply traverseInternal_self]. }
    subst a. apply Hname. f_equal.
    apply (distinct_names_one_owner _ T0 (le_n _) Hnd z Q S); auto. }
  assert (Hbelow : forall x,
            In x (flat_map traverseOpt (before ++ nextOf S :: after)) ->
            deleteActionFn (stepName S) x = Returns x).
  { intros x Hx.
    assert (HxQ : In x (flat_map traverseOpt (slots Q))).
    { rewrite Hslots. rewrite flat_map_app in *. simpl in *.
      apply in_app_or in Hx. apply in_or_app.
      destruct Hx as [Hx|Hx]; [left; exact Hx|right].
      apply in_app_or in Hx. apply in_or_app.
      destruct Hx as [Hx|Hx]; [left|right; exact Hx].
      rewrite traverseInternal_slots. right. rewrite slots_structural.
      rewrite flat_map_app. apply in_or_app. right. simpl.
      rewrite app_nil_r. exact Hx. }
    apply Hid.
    - exact (below_in_tree T0 Q x HQ HxQ).
    - apply (root_not_below Q _ HndQ). apply in_steps_names. exact HxQ. }
  destruct (NoDup_slot Q before S after HndQ Hslots) as [_ [_ Hothers]].
  assert (Hfixed : forall l, incl l (before ++ after) ->
            map (spliceOut (stepName S)) l = l).
  { intros l Hl. transitivity (map (fun slot => slot) l); [|apply map_id].
    apply map_ext_in.
    intros slot Hslot. apply spliceOut_other. intros a -> Heq.
    apply (Hothers (stepName a)).
    - apply (in_slot_names _ a); [apply Hl; exact Hslot|].
      apply stepName_in_stepNames.
    - rewrite Heq. apply stepName_in_stepNames. }
  assert (Hroot : settles (deleteActionFn (stepName S)) Q
                    (frameOf Q before after (nextOf S))).
  { rewrite <- (withSlots_slots (frameOf Q before after (nextOf S))).
    assert (Hwf : wellFramed Q before after).
    { unfold wellFramed. rewrite Hslots, length_app. simpl. lia. }
    apply settles_node.
    - rewrite deleteActionFn_slots, Hslots, map_app. simpl.
      rewrite String.eqb_refl.
      rewrite (Hfixed before), (Hfixed after);
        [reflexivity|apply incl_appr, incl_refl|apply incl_appl, incl_refl].
    - rewrite slots_frameOf by exact Hwf.
      apply slots_settle_identity. exact Hbelow. }
  destruct Hroot as [fuel0 Hroot].
  exists (fuel0 + height T0). intros fuel Hfuel.
  pose proof (transfer_plug (deleteActionFn (stepName S)) (stepName Q) Q
                (frameOf Q before after (nextOf S)) fuel0 Hroot
                (height T0) T0 (le_n _)) as Hplug.
  rewrite (plug_self T0 Q Hnd HQ) in Hplug. apply Hplug; [|exact Hfuel].
  intros s Hs. destruct (outerSteps_in _ _ _ T0 (le_n _) s Hs) as [Hin Hname].
  rewrite (plug_self T0 Q Hnd HQ) in Hin. apply Hid; assumption.
Qed.

End RemoveSource.

(* ------------------------------------------------------------------ *)
(** *** The names of a plugged tree *)

Lemma plug_absent hole t ctx :
  ~ In hole (stepNames ctx) -> plug hole t ctx = ctx.
Proof.
  intros H. apply (plug_fixed hole t (height ctx)); [lia|].
  intros s Hs Hname. exfalso. apply H. rewrite <- Hname.
  unfold stepNames, getAllSteps. apply in_map. exact Hs.
Qed.

Lemma stepNames_withSlots u l :
  List.length l = List.length (slots u) ->
  stepNames (withSlots u l) = stepName u :: flat_map stepNamesOpt l.
Proof.
  intros H. rewrite stepNames_slots, slots_withSlots by exact H.
  unfold stepName. rewrite propsOf_withSlots. reflexivity.
Qed.

(** Plugging [t] for the step [hstep] of a tree with distinct names
    exchanges the names of [hstep] for those of [t]. *)
Lemma plug_names (k : nat) :
  forall ctx, height ctx <= k -> NoDup (stepNames ctx) ->
    forall hstep t, In hstep (traverseInternal ctx) ->
      exists rest,
        Permutation (stepNames ctx) (stepNames hstep ++ rest)
        /\ Permutation (stepNames (plug (stepName hstep) t ctx))
             (stepNames t ++ rest).
Proof.
  induction k as [|k IH]; intros ctx Hh Hnd hstep t Hin.
  - pose proof (height_pos ctx). lia.
  - rewrite plug_unfold.
    destruct (String.eqb (stepName ctx) (stepName hstep)) eqn:Hname.
    + apply String.eqb_eq in Hname.
      assert (ctx = hstep).
      { apply (distinct_names_determine_step ctx); auto.
        apply traverseInternal_self. }
      subst hstep. exists []. rewrite !app_nil_r. split; reflexivity.
    + rewrite traverseInternal_slots in Hin. destruct Hin as [->|Hin].
      { rewrite String.eqb_refl in Hname. discriminate. }
      apply in_flat_map in Hin. destruct Hin as [[a|] [Ha Hin]];
        [|contradiction].
      simpl in Hin. destruct (in_split _ _ Ha) as [l1 [l2 Hslots]].
      destruct (NoDup_slot ctx l1 a l2 Hnd Hslots) as [Hnda [_ Hothers]].
      destruct (IH a) with (hstep := hstep) (t := t) as [rest [H1 H2]]; auto.
      { pose proof (height_slot ctx _ Ha) as Hlt. simpl in Hlt. lia. }
      assert (Hfixed : forall l, incl l (l1 ++ l2) ->
                map (plugOpt (stepName hstep) t) l = l).
      { intros l Hl. transitivity (map (fun slot => slot) l); [|apply map_id].
        apply map_ext_in. intros [b|] Hb; [|reflexivity]. simpl. f_equal.
        apply plug_absent. intros Hbad.
        apply (Hothers (stepName hstep)).
        - apply (in_slot_names _ b); [apply Hl; exact Hb|exact Hbad].
        - unfold stepNames, getAllSteps. apply in_map. exact Hin. }
      exists (stepName ctx :: flat_map stepNamesOpt l1
                ++ rest ++ flat_map stepNamesOpt l2).
      rewrite stepNames_withSlots by (rewrite length_map; reflexivity).
      rewrite stepNames_slots, Hslots, map_app. simpl.
      rewrite (Hfixed l1), (Hfixed l2);
        [|apply incl_appr, incl_refl|apply incl_appl, incl_refl].
      rewrite !flat_map_app. simpl.
      split.
      * change (Permutation
                  ((stepName ctx :: flat_map stepNamesOpt l1)
                   ++ stepNames a ++ flat_map stepNamesOpt l2)
                  (stepNames hstep
                   ++ (stepName ctx :: flat_map stepNamesOpt l1)
                   ++ rest ++ flat_map stepNamesOpt l2)).
        rewrite H1, <- app_assoc. apply Permutation_app_swap_app.
      * change (Permutation
                  ((stepName ctx :: flat_map stepNamesOpt l1)
                   ++ stepNames (plug (stepName hstep) t a)
                   ++ flat_map stepNamesOpt l2)
                  (stepNames t
                   ++ (stepName ctx :: flat_map stepNamesOpt l1)
                   ++ rest ++ flat_map stepNamesOpt l2)).
        rewrite H2, <- app_assoc. apply Permutation_app_swap_app.
Qed.

(** The names of the flow once [S] is removed: those of the flow
    without the name of [S] and the names in its structural slots. *)
Lemma removed_names T0 Q S before after :
  NoDup (stepNames T0) -> In Q (traverseInternal T0) ->
  slots Q = before ++ Some S :: after ->
  Permutation (stepNames T0)
    ((stepName S :: flat_map stepNamesOpt (structuralSlots S))
     ++ stepNames (plug (stepName Q) (frameOf Q before after (nextOf S)) T0)).
Proof.
  intros Hnd HQ Hslots.
  destruct (plug_names _ T0 (le_n _) Hnd Q
              (frameOf Q before after (nextOf S)) HQ) as [rest [H1 H2]].
  rewrite H1, H2, app_assoc. apply Permutation_app_tail.
  assert (Hwf : wellFramed Q before after).
  { unfold wellFramed. rewrite Hslots, length_app. simpl. lia. }
  rewrite (stepNames_slots Q), Hslots.
  rewrite (stepNames_slots (frameOf Q before after (nextOf S))).
  rewrite slots_frameOf, stepName_frameOf by exact Hwf.
  rewrite !flat_map_app. simpl.
  rewrite (stepNames_slots S), slots_structural, flat_map_app. simpl.
  rewrite app_nil_r.
  change (Permutation
            ((stepName Q :: flat_map stepNamesOpt before)
             ++ ((stepName S :: flat_map stepNamesOpt (structuralSlots S))
                 ++ stepNamesOpt (nextOf S))
             ++ flat_map stepNamesOpt after)
            ((stepName S :: flat_map stepNamesOpt (structuralSlots S))
             ++ (stepName Q :: flat_map stepNamesOpt before)
             ++ stepNamesOpt (nextOf S) ++ flat_map stepNamesOpt after)).
  rewrite <- app_assoc. apply Permutation_app_swap_app.
Qed.

(* ------------------------------------------------------------------ *)
(** *** Rewrites that keep every step of the tree *)

(** [keepsSlots f]: what the slots of a step hold is still below the
    step after [f] has rewritten it. *)
Definition keepsSlots (f : Step -> outcome Step) : Prop :=
  forall y y', f y = Returns y' ->
    forall a, In (Some a) (slots y) -> In a (flat_map traverseOpt (slots y')).

Lemma in_own_slot (l : list (option Step)) a :
  In (Some a) l -> In a (flat_map traverseOpt l).
Proof.
  intros H. apply (in_steps_of_slot l a); [exact H|].
  apply traverseInternal_self.
Qed.

Lemma in_next_of_slot (l : list (option Step)) a b :
  In (Some b) l -> nextOf b = Some a -> In a (flat_map traverseOpt l).
Proof.
  intros Hb Hnext. apply (in_steps_of_slot l b); [exact Hb|].
  apply (in_traverse_slot b (Some a) a); [|apply traverseInternal_self].
  rewrite slots_structural, Hnext. apply in_or_app. right. left. reflexivity.
Qed.

Lemma assignNat_keeps {A} (hole v x : A) (i : nat) l :
  In x l -> In x (assignNat hole i v l) \/ nth_error l i = Some x.
Proof.
  revert i. induction l as [|a l IH]; intros i Hx; [contradiction|].
  destruct i as [|i]; simpl.
  - destruct Hx as [->|Hx]; [right; reflexivity|left; right; exact Hx].
  - destruct Hx as [->|Hx]; [left; left; reflexivity|].
    destruct (IH i Hx) as [H|H]; [left; right; exact H|right; exact H].
Qed.

Lemma assignAt_keeps {A} (hole v x : A) (i : Z) l :
  In x l -> In x (assignAt hole i v l) \/ at_ l i = Some x.
Proof.
  intros Hx. unfold assignAt, at_. destruct (i <? 0)%Z; [left; exact Hx|].
  apply assignNat_keeps. exact Hx.
Qed.

Lemma assignNat_holds {A} (hole v : A) (i : nat) l :
  In v (assignNat hole i v l).
Proof.
  revert l. induction i as [|i IH]; intros [|a l]; simpl; auto.
Qed.

Section KeepsSlots.

Context {E : Externals}.

Lemma createAction_next request links a :
  createAction request links = Returns a -> nextOf a = linkNext links.
Proof.
  unfold createAction. intros H.
  destruct (reqType request) as [[]|]; simpl in H; try discriminate;
    inversion H; reflexivity.
Qed.

Lemma upgradePiece_keepsSlots target :
  keepsSlots (fun s => upgradePiece s target).
Proof.
  intros y y' H a Ha. rewrite (upgradePiece_slots y target y' H).
  apply in_own_slot. exact Ha.
Qed.

Lemma addActionFn_keepsSlots request children_ :
  keepsSlots (addActionFn request children_).
Proof.
  intros y y' H a Ha. unfold addActionFn in H.
  destruct (negb (String.eqb (stepName y) (parentStep request)));
    [inversion H; subst y'; apply in_own_slot; exact Ha|].
  assert (Hafter :
            (b <- createAction (action request)
                    (onlyNext (nextOf y) children_) ;;
             Returns (setNext (Some b) y)) = Returns y' ->
            In a (flat_map traverseOpt (slots y'))).
  { intros H'. apply bind_returns in H'. destruct H' as [b [Hb H']].
    inversion H'; subst y'. apply createAction_next in Hb. simpl in Hb.
    rewrite slots_structural in Ha.
    rewrite slots_structural, structuralSlots_setNext, nextOf_setNext.
    apply in_app_or in Ha. destruct Ha as [Ha|[Ha|[]]].
    - apply in_own_slot. apply in_or_app. left. exact Ha.
    - apply (in_next_of_slot _ a b); [|congruence].
      apply in_or_app. right. left. reflexivity. }
  destruct y as [t p n|p s f n|p b n|p c n];
    destruct (stepLocationRelativeToParent request) as [[]|];
    try (exact (Hafter H)); try discriminate.
  - apply bind_returns in H. destruct H as [x [Hx H]].
    inversion H; subst y'. apply createAction_next in Hx.
    change (In (Some a) [s; f; n]) in Ha.
    change (In a (flat_map traverseOpt [Some x; f; n])).
    destruct Ha as [Ha|Ha].
    + apply (in_next_of_slot _ a x); [left; reflexivity|].
      rewrite Hx. exact Ha.
    + apply in_own_slot. right. exact Ha.
  - apply bind_returns in H. destruct H as [x [Hx H]].
    inversion H; subst y'. apply createAction_next in Hx.
    change (In (Some a) [s; f; n]) in Ha.
    change (In a (flat_map traverseOpt [s; Some x; n])).
    destruct Ha as [Ha|[Ha|Ha]].
    + apply in_own_slot. left. exact Ha.
    + apply (in_next_of_slot _ a x); [right; left; reflexivity|].
      rewrite Hx. exact Ha.
    + apply in_own_slot. right. right. exact Ha.
  - apply bind_returns in H. destruct H as [x [Hx H]].
    inversion H; subst y'. apply createAction_next in Hx.
    change (In (Some a) [b; n]) in Ha.
    change (In a (flat_map traverseOpt [Some x; n])).
    destruct Ha as [Ha|Ha].
    + apply (in_next_of_slot _ a x); [left; reflexivity|].
      rewrite Hx. exact Ha.
    + apply in_own_slot. right. exact Ha.
  - destruct (branchIndex request) as [i|]; [|discriminate].
    apply bind_returns in H. destruct H as [x [Hx H]].
    inversion H; subst y'. apply createAction_next in Hx. simpl in Hx.
    change (slots (RouterAction p c n)) with (c ++ [n]) in Ha.
    change (slots (RouterAction p (assignAt None i (Some x) c) n))
      with (assignAt None i (Some x) c ++ [n]).
    apply in_app_or in Ha. destruct Ha as [Ha|Ha].
    + destruct (assignAt_keeps None (Some x) (Some a) i c Ha) as [Hin|Hat].
      * apply in_own_slot. apply in_or_app. left. exact Hin.
      * rewrite Hat in Hx. apply (in_next_of_slot _ a x); [|exact Hx].
        apply in_or_app. left. unfold assignAt, at_ in *.
        destruct (i <? 0)%Z; [discriminate|]. apply assignNat_holds.
    + apply in_own_slot. apply in_or_app. right. exact Ha.
Qed.

End KeepsSlots.

(* ------------------------------------------------------------------ *)
(** *** Following a step through a rewrite *)

Lemma transferStep_inv (fuel : nat) f x x' :
  transferStep fuel f x = Returns x' ->
  exists fuel' y l',
    fuel = S fuel' /\ f x = Returns y
    /\ Forall2 (fun a b => transferOpt (transferStep fuel' f) a = Returns b)
         (slots y) l'
    /\ x' = withSlots y l'.
Proof.
  destruct fuel as [|fuel]; [discriminate|].
  rewrite transferStep_unfold. intros H.
  apply bind_returns in H. destruct H as [y [Hy H]].
  apply bind_returns in H. destruct H as [l' [Hl H]].
  inversion H. exists fuel, y, l'. repeat split; auto.
  apply mapM_returns. exact Hl.
Qed.

Lemma Forall2_in_l {A B} (R : A -> B -> Prop) l l' a :
  Forall2 R l l' -> In a l -> exists b, In b l' /\ R a b.
Proof.
  induction 1 as [|x y l l' Hxy _ IH]; intros Hin; [contradiction|].
  destruct Hin as [->|Hin]; [exists y; split; [left; reflexivity|exact Hxy]|].
  destruct (IH Hin) as [b [Hb HR]]. exists b. split; [right|]; assumption.
Qed.

(** Every step of the tree is reached by a rewrite that keeps the
    slots: the rewrite of the tree contains the rewrite of the step. *)
Lemma transfer_visits f :
  keepsSlots f ->
  forall (fuel : nat) T T',
    transferStep fuel f T = Returns T' ->
    forall x, In x (traverseInternal T) ->
      exists fuel1 x',
        transferStep fuel1 f x = Returns x' /\ In x' (traverseInternal T').
Proof.
  intros Hkeeps. induction fuel as [|fuel IH]; intros T T' H x Hx;
    [discriminate|].
  destruct (transferStep_inv _ _ _ _ H) as [fuel' [y [l' [Hf [Hy [Hl ->]]]]]].
  inversion Hf; subst fuel'. clear Hf.
  rewrite traverseInternal_slots in Hx. destruct Hx as [<-|Hx].
  { exists (S fuel), (withSlots y l'). split; [exact H|].
    apply traverseInternal_self. }
  apply in_flat_map in Hx. destruct Hx as [[a|] [Ha Hx]]; [|contradiction].
  pose proof (Hkeeps T y Hy a Ha) as Hkept.
  apply in_flat_map in Hkept. destruct Hkept as [[b|] [Hb Hab]];
    [|contradiction].
  destruct (Forall2_in_l _ _ _ (Some b) Hl Hb) as [slot [Hslot Hb']].
  simpl in Hb'. apply bind_returns in Hb'. destruct Hb' as [b' [Hb' Heq]].
  inversion Heq; subst slot.
  destruct (IH b b' Hb' x) as [fuel1 [x' [H1 H2]]].
  { eapply traverse_trans; [apply le_n|exact Hab|exact Hx]. }
  exists fuel1, x'. split; [exact H1|].
  rewrite traverseInternal_slots. right.
  rewrite slots_withSlots by (symmetry; eapply Forall2_length; eauto).
  apply (in_steps_of_slot _ b'); assumption.
Qed.

(** A rewrite that is the identity on every step of a tree returns the
    tree or runs out of budget. *)
Lemma inert_returns f (fuel : nat) n n' :
  transferStep fuel f n = Returns n' ->
  (forall z, In z (traverseInternal n) -> f z = Returns z) ->
  n' = n.
Proof.
  intros H Hid.
  pose proof (transferStep_mono f fuel n n' (Nat.max fuel (height n))
                (Nat.le_max_l _ _) H) as H1.
  rewrite (transfer_identity f _ n (Nat.le_max_r _ _) Hid) in H1.
  inversion H1. reflexivity.
Qed.

(** A way to pick one slot that goes along with a slot-by-slot
    relation of slot lists. *)
Definition slotSelector
  (sel : list (option Step) -> option (option Step)) : Prop :=
  forall (R : option Step -> option Step -> Prop) l l',
    Forall2 R l l' -> forall c, sel l = Some c ->
    exists c', sel l' = Some c' /\ R c c'.

Lemma nth_error_selector (i : nat) : slotSelector (fun l => nth_error l i).
Proof.
  intros R l l' H. revert i. induction H as [|x y l l' Hxy _ IH];
    intros [|i] c Hc; simpl in *; try discriminate.
  - inversion Hc; subst. exists y. auto.
  - apply IH. exact Hc.
Qed.

Definition lastSlot (l : list (option Step)) : option (option Step) :=
  match l with [] => None | _ => Some (last l None) end.

Lemma lastSlot_selector : slotSelector lastSlot.
Proof.
  intros R l l' H. induction H as [|x y l l' Hxy Hl IH]; intros c Hc;
    [discriminate|].
  destruct Hl as [|x1 y1 l l' H1 Hl].
  - inversion Hc; subst. exists y. auto.
  - destruct (IH c) as [c' [Hc' HR]].
    { simpl in *. exact Hc. }
    exists c'. split; [|exact HR]. simpl in *. exact Hc'.
Qed.

Lemma lastSlot_next x : lastSlot (slots x) = Some (nextOf x).
Proof.
  rewrite slots_structural. unfold lastSlot.
  destruct (structuralSlots x ++ [nextOf x]) eqn:Hl.
  - destruct (structuralSlots x); discriminate.
  - rewrite <- Hl, last_last. reflexivity.
Qed.

(** The rewrite of a step keeps what the rewrite function made of its
    properties, and a slot on whose content the function does nothing. *)
Lemma transfer_node_keeps sel f (fuel : nat) x x' y c :
  slotSelector sel ->
  transferStep fuel f x = Returns x' -> f x = Returns y ->
  sel (slots y) = Some c ->
  (forall z, In z (traverseOpt c) -> f z = Returns z) ->
  propsOf x' = propsOf y /\ typeOf x' = typeOf y /\ sel (slots x') = Some c.
Proof.
  intros Hsel H Hy Hc Hid.
  destruct (transferStep_inv _ _ _ _ H) as [fuel' [y0 [l' [_ [Hy0 [Hl ->]]]]]].
  rewrite Hy in Hy0. inversion Hy0; subst y0.
  rewrite propsOf_withSlots, typeOf_withSlots.
  split; [reflexivity|]. split; [reflexivity|].
  rewrite slots_withSlots by (symmetry; eapply Forall2_length; eauto).
  destruct (Hsel _ _ _ Hl c Hc) as [c' [Hc' HR]]. rewrite Hc'. f_equal.
  destruct c as [n|]; simpl in HR; [|inversion HR; reflexivity].
  apply bind_returns in HR. destruct HR as [n' [Hn Heq]].
  inversion Heq. f_equal. eapply inert_returns; eauto.
Qed.

(** [tracked name ty sel c x]: [x] bears the name [name], is of type
    [ty], and the slot of [x] that [sel] picks holds [c]. *)
Definition tracked (name_ : string) (ty : StepType)
  (sel : list (option Step) -> option (option Step)) (c : option Step)
  (x : Step) : Prop :=
  stepName x = name_ /\ typeOf x = ty /\ sel (slots x) = Some c.

Lemma transfer_tracks sel f name_ ty c :
  slotSelector sel -> keepsSlots f ->
  (forall z, In z (traverseOpt c) -> f z = Returns z) ->
  (forall x y, tracked name_ ty sel c x -> f x = Returns y ->
     tracked name_ ty sel c y) ->
  forall (fuel : nat) T T',
    transferStep fuel f T = Returns T' ->
    (exists x, In x (traverseInternal T) /\ tracked name_ ty sel c x) ->
    exists x', In x' (traverseInternal T') /\ tracked name_ ty sel c x'.
Proof.
  intros Hsel Hkeeps Hid Hkeep fuel T T' H [x [Hx Htracked]].
  destruct (transfer_visits f Hkeeps fuel T T' H x Hx) as [fuel1 [x' [H1 H2]]].
  exists x'. split; [exact H2|].
  destruct (transferStep_inv _ _ _ _ H1) as [_ [y [_ [_ [Hy _]]]]].
  destruct (Hkeep x y Htracked Hy) as [Hname [Hty Hc]].
  destruct (transfer_node_keeps sel f fuel1 x x' y c Hsel H1 Hy Hc Hid)
    as [Hp [Ht Hs]].
  unfold tracked, stepName. rewrite Hp, Ht. auto.
Qed.

Section TrackedByEngine.

Context {E : Externals}.

Lemma createAction_typeOf request links a :
  createAction request links = Returns a -> typeOf a = reqType request.
Proof.
  unfold createAction. intros H.
  destruct (reqType request) as [[]|]; simpl in H; try discriminate;
    inversion H; reflexivity.
Qed.

(** Adding inside a loop, a branch or a router keeps the successor of
    the parent. *)
Lemma addActionFn_inside request children_ location x y :
  stepLocationRelativeToParent request = Some location ->
  location <> AFTER ->
  (exists a, typeOf x = OfAction a /\ a <> CODE /\ a <> PIECE) ->
  addActionFn request children_ x = Returns y ->
  stepName y = stepName x /\ typeOf y = typeOf x /\ nextOf y = nextOf x.
Proof.
  intros Hloc Hafter [a [Hty [Hcode Hpiece]]] H. unfold addActionFn in H.
  destruct (negb (String.eqb (stepName x) (parentStep request)));
    [inversion H; auto|].
  rewrite Hloc in H.
  destruct x as [[] p n|p s f n|p b n|p c n]; simpl in Hty;
    try discriminate; try (inversion Hty; subst a; congruence);
    destruct location; try congruence; try discriminate.
  - apply bind_returns in H. destruct H as [b [_ H]]. inversion H. auto.
  - apply bind_returns in H. destruct H as [b [_ H]]. inversion H. auto.
  - apply bind_returns in H. destruct H as [b0 [_ H]]. inversion H. auto.
  - destruct (branchIndex request); [|discriminate].
    apply bind_returns in H. destruct H as [b [_ H]]. inversion H. auto.
Qed.

Lemma tracked_elsewhere_add request children_ name_ ty sel c x y :
  parentStep request <> name_ ->
  tracked name_ ty sel c x -> addActionFn request children_ x = Returns y ->
  tracked name_ ty sel c y.
Proof.
  intros Hne Hx H. rewrite addActionFn_other in H.
  - inversion H; subst y. exact Hx.
  - destruct Hx as [Hname _]. congruence.
Qed.

Lemma tracked_elsewhere_upgrade target name_ ty sel c x y :
  target <> name_ ->
  tracked name_ ty sel c x -> upgradePiece x target = Returns y ->
  tracked name_ ty sel c y.
Proof.
  intros Hne Hx H. rewrite (upgradePiece_localTo target x) in H.
  - inversion H; subst y. exact Hx.
  - destruct Hx as [Hname _]. intros [Heq|[]]. congruence.
Qed.

Lemma tracked_next_inside request children_ location name_ a c x y :
  stepLocationRelativeToParent request = Some location ->
  location <> AFTER -> a <> CODE -> a <> PIECE ->
  tracked name_ (OfAction a) lastSlot c x ->
  addActionFn request children_ x = Returns y ->
  tracked name_ (OfAction a) lastSlot c y.
Proof.
  intros Hloc Hafter Hcode Hpiece [Hname [Hty Hc]] H.
  destruct (addActionFn_inside request children_ location x y Hloc Hafter)
    as [H1 [H2 H3]]; eauto.
  unfold tracked. rewrite H1, H2, lastSlot_next, H3, <- lastSlot_next. auto.
Qed.

End TrackedByEngine.

(* ------------------------------------------------------------------ *)
(** *** The slot an insertion fills *)

(** The content of the slot of the parent in front of which [addAction]
    places the new step; [None] where [addAction] throws. *)
Definition destinationContent
  (location : option StepLocationRelativeToParent) (index : option Z)
  (parentStep_ : Step) : option (option Step) :=
  match parentStep_, location with
  | LoopOnItemsAction _ b n, Some loc =>
      match loc with
      | INSIDE_LOOP => Some b
      | AFTER => Some n
      | _ => None
      end
  | BranchAction _ s f n, Some loc =>
      match loc with
      | INSIDE_TRUE_BRANCH => Some s
      | INSIDE_FALSE_BRANCH => Some f
      | AFTER => Some n
      | _ => None
      end
  | RouterAction _ c n, Some loc =>
      match loc, index with
      | INSIDE_BRANCH, Some i =>
          Some match at_ c i with
               | Some (Some child) => Some child
               | _ => None
               end
      | AFTER, _ => Some n
      | _, _ => None
      end
  | _, _ => Some (nextOf parentStep_)
  end.

(** The slot in position [k]: one of the structural slots when [k] is
    below their number [m], the successor otherwise. *)
Definition slotAt (k m : nat) (l : list (option Step))
  : option (option Step) :=
  if (k <? m)%nat then nth_error (removelast l) k else lastSlot l.

(** The same slot, read off the step. *)
Definition slotOf (k m : nat) (x : Step) : option (option Step) :=
  if (k <? m)%nat then nth_error (structuralSlots x) k else Some (nextOf x).

(** The names and types along a chain of successors. *)
Definition chainKinds (slot : option Step) : list (string * StepType) :=
  map (fun z => (stepName z, typeOf z)) (chainFrom slot).

Lemma Forall2_removelast {A B} (R : A -> B -> Prop) l l' :
  Forall2 R l l' -> Forall2 R (removelast l) (removelast l').
Proof.
  induction 1 as [|x y l l' Hxy Hl IH]; [constructor|].
  destruct Hl as [|x1 y1 l l' H1 Hl]; [constructor|].
  simpl in *. constructor; [exact Hxy|exact IH].
Qed.

Lemma slotAt_selector (k m : nat) : slotSelector (slotAt k m).
Proof.
  intros R l l' H c Hc. unfold slotAt in *. destruct (k <? m)%nat.
  - exact (nth_error_selector k R _ _ (Forall2_removelast R l l' H) c Hc).
  - exact (lastSlot_selector R l l' H c Hc).
Qed.

Lemma slotAt_slots (k m : nat) x : slotAt k m (slots x) = slotOf k m x.
Proof.
  unfold slotAt, slotOf.
  rewrite lastSlot_next, slots_structural, removelast_last. reflexivity.
Qed.

Lemma assignNat_other {A} (hole v c : A) (i k : nat) l :
  nth_error l k = Some c -> k <> i ->
  nth_error (assignNat hole i v l) k = Some c.
Proof.
  revert i k. induction l as [|a l IH]; intros i k Hk Hne.
  - destruct k; discriminate.
  - destruct i as [|i], k as [|k]; simpl in *; try congruence.
    apply IH; [exact Hk|lia].
Qed.

Lemma height_next x n : nextOf x = Some n -> height n < height x.
Proof.
  intros H. apply (height_slot x (Some n)). rewrite slots_structural, H.
  apply in_or_app. right. left. reflexivity.
Qed.

Lemma getAllStepsAtFirstLevel_unfold step :
  getAllStepsAtFirstLevel step = step :: chainFrom (nextOf step).
Proof. destruct step; reflexivity. Qed.

Lemma first_level_steps (k : nat) :
  forall step, height step <= k ->
    incl (getAllStepsAtFirstLevel step) (getAllSteps step).
Proof.
  induction k as [|k IH]; intros step Hh x Hx.
  - pose proof (height_pos step). lia.
  - rewrite getAllStepsAtFirstLevel_unfold in Hx.
    destruct Hx as [<-|Hx]; [apply traverseInternal_self|].
    destruct (nextOf step) as [a|] eqn:Hn; [|contradiction].
    assert (Hin : In (Some a) (slots step)).
    { rewrite slots_structural, Hn. apply in_or_app. right. left.
      reflexivity. }
    apply (in_traverse_slot step (Some a) x Hin). simpl.
    apply (IH a); [|exact Hx].
    pose proof (height_slot step _ Hin) as Hlt. simpl in Hlt. lia.
Qed.

Lemma chainFrom_steps slot : incl (chainFrom slot) (traverseOpt slot).
Proof.
  destruct slot as [a|]; simpl; [|intros x []].
  apply (first_level_steps (height a)). apply le_n.
Qed.

Lemma chain_successor slot z m :
  In z (chainFrom slot) -> nextOf z = Some m -> In m (chainFrom slot).
Proof.
  destruct slot as [a|]; [|contradiction]. simpl.
  assert (Hgen : forall (k : nat) a, height a <= k ->
            In z (getAllStepsAtFirstLevel a) -> nextOf z = Some m ->
            In m (getAllStepsAtFirstLevel a)).
  { induction k as [|k IH]; intros x Hk Hz Hm.
    - pose proof (height_pos x). lia.
    - rewrite getAllStepsAtFirstLevel_unfold in *. destruct Hz as [<-|Hz].
      + right. rewrite Hm. simpl. rewrite getAllStepsAtFirstLevel_unfold.
        left. reflexivity.
      + right. destruct (nextOf x) as [n|] eqn:Hn; [|contradiction].
        simpl in *. apply (IH n); auto.
        pose proof (height_next x n Hn). lia. }
  apply (Hgen (height a) a (le_n _)).
Qed.

Section Destination.

Context {E : Externals}.

(** What [addAction] makes of the parent: the new step takes the place
    of the content of the destination slot, which becomes its
    successor. *)
Lemma addActionFn_cases request children_ x y :
  stepName x = parentStep request ->
  addActionFn request children_ x = Returns y ->
  exists a X,
    destinationContent (stepLocationRelativeToParent request)
      (branchIndex request) x = Some X
    /\ createAction (action request) (onlyNext X children_) = Returns a
    /\ ((y = setNext (Some a) x /\ X = nextOf x)
        \/ exists i : Z,
             propsOf y = propsOf x /\ typeOf y = typeOf x
             /\ nextOf y = nextOf x
             /\ structuralSlots y
                = assignAt None i (Some a) (structuralSlots x)
             /\ X = match at_ (structuralSlots x) i with
                    | Some (Some child) => Some child
                    | _ => None
                    end
             /\ ((0 <= i)%Z \/ branchIndex request = Some i)).
Proof.
  intros Hname H. unfold addActionFn in H.
  rewrite Hname, String.eqb_refl in H. simpl in H.
  assert (Hafter :
            destinationContent (stepLocationRelativeToParent request)
              (branchIndex request) x = Some (nextOf x) ->
            (b <- createAction (action request)
                    (onlyNext (nextOf x) children_) ;;
             Returns (setNext (Some b) x)) = Returns y ->
            exists a X,
              destinationContent (stepLocationRelativeToParent request)
                (branchIndex request) x = Some X
              /\ createAction (action request) (onlyNext X children_)
                 = Returns a
              /\ ((y = setNext (Some a) x /\ X = nextOf x)
                  \/ exists i : Z,
                       propsOf y = propsOf x /\ typeOf y = typeOf x
                       /\ nextOf y = nextOf x
                       /\ structuralSlots y
                          = assignAt None i (Some a) (structuralSlots x)
                       /\ X = match at_ (structuralSlots x) i with
                              | Some (Some child) => Some child
                              | _ => None
                              end
                       /\ ((0 <= i)%Z \/ branchIndex request = Some i))).
  { intros Hd H'. apply bind_returns in H'. destruct H' as [b [Hb H']].
    inversion H'; subst y. exists b, (nextOf x). auto. }
  destruct x as [t p n|p s f n|p b n|p c n];
    destruct (stepLocationRelativeToParent request) as [[]|];
    try (apply Hafter; [reflexivity|exact H]); try discriminate.
  - apply bind_returns in H. destruct H as [a [Ha H]]. inversion H; subst y.
    exists a, s. split; [reflexivity|]. split; [exact Ha|]. right.
    exists 0%Z. repeat split; try reflexivity.
    + destruct s; reflexivity.
    + left. lia.
  - apply bind_returns in H. destruct H as [a [Ha H]]. inversion H; subst y.
    exists a, f. split; [reflexivity|]. split; [exact Ha|]. right.
    exists 1%Z. repeat split; try reflexivity.
    + destruct f; reflexivity.
    + left. lia.
  - apply bind_returns in H. destruct H as [a [Ha H]]. inversion H; subst y.
    exists a, b. split; [reflexivity|]. split; [exact Ha|]. right.
    exists 0%Z. repeat split; try reflexivity.
    + destruct b; reflexivity.
    + left. lia.
  - destruct (branchIndex request) as [i|]; [|discriminate].
    apply bind_returns in H. destruct H as [a [Ha H]]. inversion H; subst y.
    eexists a, _. split; [reflexivity|]. split; [exact Ha|]. right.
    exists i. repeat split; try reflexivity. right. reflexivity.
Qed.

Lemma typeOf_setNext v step : typeOf (setNext v step) = typeOf step.
Proof. destruct step; reflexivity. Qed.

Lemma slotAt_middle (before after : list (option Step)) v (m : nat) :
  m = List.length before + List.length after ->
  slotAt (List.length before) m (before ++ v :: after) = Some v.
Proof.
  intros Hm. unfold slotAt.
  destruct (Nat.ltb_spec (List.length before) m) as [Hlt|Hge].
  - destruct (exists_last (l := after)) as [after' [z ->]].
    { intros ->. simpl in Hm. lia. }
    rewrite app_comm_cons, app_assoc, removelast_last.
    rewrite nth_error_app2, Nat.sub_diag by lia. reflexivity.
  - destruct after as [|z after]; [|simpl in Hm; lia].
    unfold lastSlot. destruct (before ++ [v]) eqn:Hl.
    + destruct before; discriminate.
    + rewrite <- Hl, last_last. reflexivity.
Qed.

(** The insertion keeps the content of every slot of the parent but
    the destination slot. *)
Lemma addActionFn_keeps_slot request children_ (k m : nat) n x y :
  slotOf k m x = Some (Some n) ->
  (stepName x = parentStep request ->
   destinationContent (stepLocationRelativeToParent request)
     (branchIndex request) x <> Some (Some n)) ->
  addActionFn request children_ x = Returns y ->
  stepName y = stepName x /\ typeOf y = typeOf x
  /\ slotOf k m y = Some (Some n).
Proof.
  intros Hheld Hdest H.
  destruct (String.eqb_spec (stepName x) (parentStep request)) as [Hname|Hne].
  - specialize (Hdest Hname).
    destruct (addActionFn_cases request children_ x y Hname H)
      as [a [X [HX [_ [[-> Hnext]|[i [Hp [Ht [Hn [Hs [Hat _]]]]]]]]]]].
    + rewrite stepName_setNext, typeOf_setNext.
      split; [reflexivity|]. split; [reflexivity|].
      unfold slotOf in *. rewrite structuralSlots_setNext.
      destruct (k <? m)%nat; [exact Hheld|].
      elim Hdest. rewrite HX, Hnext. exact Hheld.
    + unfold stepName. rewrite Hp, Ht.
      split; [reflexivity|]. split; [reflexivity|].
      unfold slotOf in *. rewrite Hn, Hs.
      destruct (k <? m)%nat; [|exact Hheld].
      unfold assignAt. unfold at_ in Hat.
      destruct (i <? 0)%Z; [exact Hheld|].
      apply assignNat_other; [exact Hheld|].
      intros Heq. apply Hdest. rewrite HX, Hat, <- Heq, Hheld. reflexivity.
  - rewrite addActionFn_other in H by exact Hne. inversion H; subst y. auto.
Qed.

End Destination.

(* ------------------------------------------------------------------ *)
(** *** Following the content of a slot through a rewrite *)

Lemma transfer_follows sel f :
  slotSelector sel -> keepsSlots f ->
  forall (fuel : nat) T T' x n,
    transferStep fuel f T = Returns T' ->
    In x (traverseInternal T) ->
    (forall y, f x = Returns y ->
       stepName y = stepName x /\ typeOf y = typeOf x
       /\ sel (slots y) = Some (Some n)) ->
    exists fuel' x' n',
      In x' (traverseInternal T')
      /\ stepName x' = stepName x /\ typeOf x' = typeOf x
      /\ sel (slots x') = Some (Some n')
      /\ transferStep fuel' f n = Returns n'.
Proof.
  intros Hsel Hkeeps fuel T T' x n H Hx Hkeep.
  destruct (transfer_visits f Hkeeps fuel T T' H x Hx) as [fuel1 [x' [H1 H2]]].
  destruct (transferStep_inv _ _ _ _ H1) as [fuel' [y [l' [_ [Hy [Hl ->]]]]]].
  destruct (Hkeep y Hy) as [Hname [Hty Hc]].
  destruct (Hsel _ _ _ Hl _ Hc) as [c' [Hc' HR]].
  simpl in HR. apply bind_returns in HR. destruct HR as [n' [Hn Heq]].
  inversion Heq; subst c'.
  exists fuel', (withSlots y l'), n'. split; [exact H2|].
  unfold stepName in *. rewrite propsOf_withSlots, typeOf_withSlots.
  rewrite slots_withSlots by (symmetry; eapply Forall2_length; eauto).
  auto.
Qed.

(** The rewrite of a step bears the name and the type the function gave
    it, and is followed by the rewrite of the successor the function
    gave it. *)
Lemma transfer_next f (fuel : nat) x x' y :
  transferStep (S fuel) f x = Returns x' -> f x = Returns y ->
  stepName x' = stepName y /\ typeOf x' = typeOf y
  /\ transferOpt (transferStep fuel f) (nextOf y) = Returns (nextOf x').
Proof.
  intros H Hy.
  destruct (transferStep_inv _ _ _ _ H) as [fuel' [y0 [l' [Hf [Hy0 [Hl ->]]]]]].
  inversion Hf; subst fuel'. rewrite Hy in Hy0. inversion Hy0; subst y0.
  unfold stepName. rewrite propsOf_withSlots, typeOf_withSlots.
  split; [reflexivity|]. split; [reflexivity|].
  destruct (lastSlot_selector _ _ _ Hl _ (lastSlot_next y)) as [c' [Hc' HR]].
  rewrite <- (slots_withSlots y l') in Hc'
    by (symmetry; eapply Forall2_length; eauto).
  rewrite lastSlot_next in Hc'. inversion Hc'. subst c'. exact HR.
Qed.

(** A rewrite that keeps the name, the type and the successor of every
    step of a chain keeps the names and types along the chain. *)
Lemma transfer_chain_exact f :
  forall (fuel : nat) n n',
    transferStep fuel f n = Returns n' ->
    (forall z y, In z (chainFrom (Some n)) -> f z = Returns y ->
       stepName y = stepName z /\ typeOf y = typeOf z
       /\ nextOf y = nextOf z) ->
    chainKinds (Some n') = chainKinds (Some n).
Proof.
  induction fuel as [|fuel IH]; intros n n' H Hf; [discriminate|].
  destruct (transferStep_inv _ _ _ _ H) as [_ [y [_ [_ [Hy _]]]]].
  destruct (transfer_next f fuel n n' y H Hy) as [Hname [Hty Hnext]].
  destruct (Hf n y) as [Hn1 [Hn2 Hn3]];
    [simpl; rewrite getAllStepsAtFirstLevel_unfold; left; reflexivity
    |exact Hy|].
  unfold chainKinds. simpl. rewrite !getAllStepsAtFirstLevel_unfold. simpl.
  rewrite Hname, Hty, Hn1, Hn2. f_equal.
  rewrite Hn3 in Hnext. destruct (nextOf n) as [m|] eqn:Hm; simpl in Hnext.
  - apply bind_returns in Hnext. destruct Hnext as [m' [Hm' Heq]].
    inversion Heq as [Heq']. apply (IH m m' Hm').
    intros z y' Hz. apply Hf. simpl.
    rewrite getAllStepsAtFirstLevel_unfold, Hm. right. exact Hz.
  - inversion Hnext. reflexivity.
Qed.

(** The same when the rewrite may give a step that ends the chain one
    successor, which it leaves alone and which has no successor. *)
Lemma transfer_chain_grows f (extra : string * StepType) :
  forall (fuel : nat) n n',
    transferStep fuel f n = Returns n' ->
    (forall z y, In z (chainFrom (Some n)) -> f z = Returns y ->
       stepName y = stepName z /\ typeOf y = typeOf z
       /\ (nextOf y = nextOf z
           \/ (nextOf z = None
               /\ exists a, nextOf y = Some a
                    /\ (stepName a, typeOf a) = extra
                    /\ nextOf a = None /\ f a = Returns a))) ->
    exists rest,
      chainKinds (Some n') = chainKinds (Some n) ++ rest
      /\ (rest = [] \/ rest = [extra]).
Proof.
  induction fuel as [|fuel IH]; intros n n' H Hf; [discriminate|].
  destruct (transferStep_inv _ _ _ _ H) as [_ [y [_ [_ [Hy _]]]]].
  destruct (transfer_next f fuel n n' y H Hy) as [Hname [Hty Hnext]].
  destruct (Hf n y) as [Hn1 [Hn2 Hn3]];
    [simpl; rewrite getAllStepsAtFirstLevel_unfold; left; reflexivity
    |exact Hy|].
  unfold chainKinds. simpl. rewrite !getAllStepsAtFirstLevel_unfold. simpl.
  rewrite Hname, Hty, Hn1, Hn2.
  destruct Hn3 as [Hn3|[Hnone [a [Ha [Hextra [Hlast Hid]]]]]].
  - rewrite Hn3 in Hnext. destruct (nextOf n) as [m|] eqn:Hm; simpl in Hnext.
    + apply bind_returns in Hnext. destruct Hnext as [m' [Hm' Heq]].
      inversion Heq as [Heq'].
      destruct (IH m m' Hm') as [rest [Hrest Hcases]].
      { intros z y' Hz. apply Hf. simpl.
        rewrite getAllStepsAtFirstLevel_unfold, Hm. right. exact Hz. }
      exists rest. split; [|exact Hcases]. simpl.
      unfold chainKinds in Hrest. simpl in Hrest. rewrite Hrest. reflexivity.
    + inversion Hnext. exists []. split; [reflexivity|left; reflexivity].
  - rewrite Ha in Hnext. simpl in Hnext.
    apply bind_returns in Hnext. destruct Hnext as [a' [Ha' Heq]].
    inversion Heq as [Heq']. rewrite Hnone. simpl.
    destruct fuel as [|fuel]; [discriminate|].
    destruct (transfer_next f fuel a a' a Ha' Hid) as [Hname' [Hty' Hnext']].
    rewrite Hlast in Hnext'. simpl in Hnext'. inversion Hnext' as [Hend].
    exists [extra]. split; [|right; reflexivity].
    rewrite getAllStepsAtFirstLevel_unfold, <- Hend. simpl.
    rewrite Hname', Hty', Hextra. reflexivity.
Qed.

(* ------------------------------------------------------------------ *)
(** *** What import operations address *)

Lemma childImports_in parent op :
  forall cs (index : nat), In op (childImports parent index cs) ->
    exists a, In (Some a) cs
      /\ ((exists j, op = importAdd parent (Some INSIDE_BRANCH) (Some j) a)
          \/ In op (getImportOperations a)).
Proof.
  induction cs as [|child cs IH]; intros index H; [contradiction|].
  simpl in H. apply in_app_or in H. destruct H as [H|H].
  - destruct child as [a|]; [|contradiction]. exists a.
    split; [left; reflexivity|]. destruct H as [<-|H]; eauto.
  - destruct (IH _ H) as [a [Ha Hop]]. exists a. split; [right|]; assumption.
Qed.

Lemma structuralImports_in s op :
  In op (structuralImports s) ->
  exists a location index,
    In (Some a) (structuralSlots s) /\ location <> AFTER
    /\ (op = importAdd (stepName s) (Some location) index a
        \/ In op (getImportOperations a)).
Proof.
  destruct s as [t p n|p sc fl n|p b n|p c n]; simpl; intros H.
  - contradiction.
  - apply in_app_or in H. destruct H as [H|H].
    + destruct fl as [a|]; [|contradiction].
      exists a, INSIDE_FALSE_BRANCH, None.
      split; [right; left; reflexivity|]. split; [discriminate|].
      destruct H as [<-|H]; auto.
    + destruct sc as [a|]; [|contradiction].
      exists a, INSIDE_TRUE_BRANCH, None.
      split; [left; reflexivity|]. split; [discriminate|].
      destruct H as [<-|H]; auto.
  - destruct b as [a|]; [|contradiction]. exists a, INSIDE_LOOP, None.
    split; [left; reflexivity|]. split; [discriminate|].
    destruct H as [<-|H]; auto.
  - destruct (childImports_in _ _ _ _ H) as [a [Ha [[j Hop]|Hop]]].
    + exists a, INSIDE_BRANCH, (Some j).
      split; [exact Ha|]. split; [discriminate|]. left. exact Hop.
    + exists a, INSIDE_BRANCH, None.
      split; [exact Ha|]. split; [discriminate|]. right. exact Hop.
Qed.

(** An import operation of [s] adds a step named as a step below [s]
    under a parent named as a step of [s]. *)
Lemma import_ops_names (k : nat) :
  forall s, height s <= k ->
    forall op, In op (getImportOperations s) ->
      exists request,
        op = ADD_ACTION request
        /\ In (parentStep request) (stepNames s)
        /\ In (reqName (action request)) (flat_map stepNamesOpt (slots s)).
Proof.
  induction k as [|k IH]; intros s Hh op Hop.
  - pose proof (height_pos s). lia.
  - assert (Hbelow : forall a, In (Some a) (slots s) ->
              forall op', In op' (getImportOperations a) ->
                exists request,
                  op' = ADD_ACTION request
                  /\ In (parentStep request) (stepNames s)
                  /\ In (reqName (action request))
                       (flat_map stepNamesOpt (slots s))).
    { intros a Ha op' Hop'.
      pose proof (height_slot s _ Ha) as Hlt. simpl in Hlt.
      destruct (IH a ltac:(lia) op' Hop') as [request [H1 [H2 H3]]].
      exists request. split; [exact H1|]. split.
      - apply (stepNames_slot_incl s a Ha). exact H2.
      - apply (in_slot_names _ a); [exact Ha|].
        rewrite stepNames_slots. right. exact H3. }
    assert (Hhead : forall a location index, In (Some a) (slots s) ->
              exists request,
                importAdd (stepName s) location index a = ADD_ACTION request
                /\ In (parentStep request) (stepNames s)
                /\ In (reqName (action request))
                     (flat_map stepNamesOpt (slots s))).
    { intros a location index Ha. eexists. split; [reflexivity|].
      cbn [parentStep action]. rewrite requestOfStep_stripped.
      split; [apply stepName_in_stepNames|].
      apply (in_slot_names _ a); [exact Ha|apply stepName_in_stepNames]. }
    rewrite getImportOperations_phases in Hop.
    apply in_app_or in Hop. destruct Hop as [Hop|Hop].
    { destruct (nextOf s) as [a|] eqn:Hn; [|contradiction].
      destruct Hop as [<-|[]]. apply Hhead.
      rewrite slots_structural, Hn. apply in_or_app. right. left.
      reflexivity. }
    apply in_app_or in Hop. destruct Hop as [Hop|Hop].
    { destruct (structuralImports_in s op Hop)
        as [a [location [index [Ha [_ [->|Hin]]]]]].
      - apply Hhead. rewrite slots_structural. apply in_or_app. left.
        exact Ha.
      - apply (Hbelow a); [|exact Hin].
        rewrite slots_structural. apply in_or_app. left. exact Ha. }
    destruct (nextOf s) as [a|] eqn:Hn; [|contradiction].
    apply (Hbelow a); [|exact Hop].
    rewrite slots_structural, Hn. apply in_or_app. right. left. reflexivity.
Qed.

(** The operations that rebuild the structural slots of [S] add steps
    named as the steps in those slots, inside [S] or under one of those
    steps. *)
Lemma structural_ops_scope S op :
  In op (structuralImports S) ->
  exists request,
    op = ADD_ACTION request
    /\ In (reqName (action request))
         (flat_map stepNamesOpt (structuralSlots S))
    /\ ((parentStep request = stepName S
         /\ exists location,
              stepLocationRelativeToParent request = Some location
              /\ location <> AFTER)
        \/ In (parentStep request)
             (flat_map stepNamesOpt (structuralSlots S))).
Proof.
  intros Hop.
  destruct (structuralImports_in S op Hop)
    as [a [location [index [Ha [Hloc [->|Hin]]]]]].
  - eexists. split; [reflexivity|].
    cbn [parentStep action stepLocationRelativeToParent].
    rewrite requestOfStep_stripped. split.
    + apply (in_slot_names _ a); [exact Ha|apply stepName_in_stepNames].
    + left. split; [reflexivity|]. exists location. auto.
  - destruct (import_ops_names _ a (le_n _) op Hin) as [request [H1 [H2 H3]]].
    exists request. split; [exact H1|]. split.
    + apply (in_slot_names _ a); [exact Ha|].
      rewrite stepNames_slots. right. exact H3.
    + right. apply (in_slot_names _ a); assumption.
Qed.

(* ------------------------------------------------------------------ *)
(** *** The copy of the source step and the slot it left *)

Section MoveTracking.

Context {E : Externals}.

Lemma replay_failed
  (applyRec : FlowVersion -> FlowOperationRequest -> outcome FlowVersion)
  operations (m : outcome FlowVersion) :
  (forall fv, m <> Returns fv) ->
  fold_left (fun acc operation => fv <- acc ;; applyRec fv operation)
    operations m = m.
Proof.
  intros Hm. induction operations as [|op ops IH]; [reflexivity|].
  simpl. destruct m as [fv| | |]; [elim (Hm fv); reflexivity| | |];
    exact IH.
Qed.

(** A property of the trigger that every replayed operation keeps holds
    of the result of the replay. *)
Lemma replay_invariant (Inv : Step -> Prop)
  (applyRec : FlowVersion -> FlowOperationRequest -> outcome FlowVersion)
  operations :
  (forall op, In op operations ->
     forall fv fv', Inv (trigger fv) -> applyRec fv op = Returns fv' ->
       Inv (trigger fv')) ->
  forall fv result,
    Inv (trigger fv) -> replay applyRec operations fv = Returns result ->
    Inv (trigger result).
Proof.
  induction operations as [|op ops IH]; intros Hstep fv result Hinv H.
  - inversion H; subst result. exact Hinv.
  - unfold replay in H. simpl in H.
    destruct (applyRec fv op) as [fv'| | |] eqn:Hop;
      try (rewrite replay_failed in H by discriminate; discriminate).
    apply (IH (fun op' Hin => Hstep op' (or_intror Hin)) fv' result);
      [|exact H].
    apply (Hstep op (or_introl eq_refl) fv fv' Hinv Hop).
Qed.

Lemma apply_add_action_inv (fuel : nat) fv fv' request :
  apply fuel fv (ADD_ACTION request) = Returns fv' ->
  exists fuel' t1,
    transferStep fuel' (addActionFn request None) (trigger fv) = Returns t1
    /\ transferStep fuel'
         (fun s => upgradePiece s (reqName (action request))) t1
       = Returns (trigger fv').
Proof.
  destruct fuel as [|fuel]; [discriminate|]. simpl.
  unfold addAction, transferFlow. simpl. intros H.
  apply bind_returns in H. destruct H as [cv [H Hcv]].
  inversion Hcv; subst fv'. simpl.
  apply bind_returns in H. destruct H as [added [Hadded H]].
  apply bind_returns in Hadded. destruct Hadded as [t1 [Ht1 Hadded]].
  inversion Hadded; subst added. simpl in H.
  apply bind_returns in H. destruct H as [t2 [Ht2 H]].
  inversion H; subst cv. simpl. exists fuel, t1. auto.
Qed.

Variables (names : list string) (name_ : string) (ty : StepType)
  (sel : list (option Step) -> option (option Step)) (c : option Step).

Hypothesis Hsel : slotSelector sel.
Hypothesis Hinert : forall z, In z (traverseOpt c) -> ~ In (stepName z) names.

(** An [ADD_ACTION] applied under a parent named in [names], of a step
    named in [names], keeps a tracked step whose own name is not the
    name of the added step, when the insertion itself keeps it. *)
Lemma add_action_tracks (fuel : nat) fv fv' request :
  In (parentStep request) names ->
  In (reqName (action request)) names ->
  reqName (action request) <> name_ ->
  (forall x y, tracked name_ ty sel c x ->
     addActionFn request None x = Returns y -> tracked name_ ty sel c y) ->
  apply fuel fv (ADD_ACTION request) = Returns fv' ->
  (exists x, In x (traverseInternal (trigger fv))
             /\ tracked name_ ty sel c x) ->
  exists x', In x' (traverseInternal (trigger fv'))
             /\ tracked name_ ty sel c x'.
Proof.
  intros Hparent Hadded Hne Hkeep H Hx.
  destruct (apply_add_action_inv fuel fv fv' request H)
    as [fuel' [t1 [H1 H2]]].
  eapply (transfer_tracks sel _ name_ ty c Hsel); [| | |exact H2|].
  - apply upgradePiece_keepsSlots.
  - intros z Hz. apply upgradePiece_localTo. intros [Heq|[]].
    apply (Hinert z Hz). rewrite <- Heq. exact Hadded.
  - intros x y. apply tracked_elsewhere_upgrade. exact Hne.
  - eapply (transfer_tracks sel _ name_ ty c Hsel); [| | |exact H1|exact Hx].
    + apply addActionFn_keepsSlots.
    + intros z Hz. apply addActionFn_other. intros Heq.
      apply (Hinert z Hz). rewrite Heq. exact Hparent.
    + exact Hkeep.
Qed.

End MoveTracking.

Section PlaceCopy.

Context {E : Externals}.

(** The destination slot is a slot of the parent, or reads as empty. *)
Lemma destination_in_slots location index P X :
  destinationContent location index P = Some X ->
  X = None \/ In X (slots P).
Proof.
  intros H.
  assert (Hnext : In (nextOf P) (slots P)).
  { rewrite slots_structural. apply in_or_app. right. left. reflexivity. }
  destruct P as [t p n|p s f n|p b n|p c n];
    destruct location as [[]|]; simpl in H; try discriminate;
    try (inversion H; subst X; right; exact Hnext);
    try (inversion H; subst X; right; simpl; tauto).
  destruct index as [i|]; [|discriminate]. inversion H; subst X.
  destruct (at_ c i) as [[child|]|] eqn:Hat; auto.
  right. simpl. apply in_or_app. left. eapply at_in; eauto.
Qed.

(** Adding a step under the one step of the tree that bears the name
    of the parent: the result holds the new step, in front of what the
    destination slot of the parent held. *)
Lemma add_places_copy (fuel : nat) T1 T2 request children_ P :
  NoDup (stepNames T1) -> In P (traverseInternal T1) ->
  stepName P = parentStep request ->
  reqName (action request) <> parentStep request ->
  match branchIndex request with Some i => (0 <= i)%Z | None => True end ->
  transferStep fuel (addActionFn request children_) T1 = Returns T2 ->
  exists X,
    destinationContent (stepLocationRelativeToParent request)
      (branchIndex request) P = Some X
    /\ exists S', In S' (traverseInternal T2)
         /\ tracked (reqName (action request)) (reqType (action request))
              lastSlot X S'.
Proof.
  intros Hnd HP Hname Hne Hindex H.
  destruct (transfer_visits _ (addActionFn_keepsSlots request children_)
              fuel T1 T2 H P HP) as [fuel1 [P' [H1 HP']]].
  destruct (transferStep_inv _ _ _ _ H1) as [fuel' [y [l' [_ [Hy [Hl ->]]]]]].
  destruct (addActionFn_cases request children_ P y Hname Hy)
    as [a [X [HX [Ha Hcases]]]].
  assert (Hin : In (Some a) (slots y)).
  { rewrite slots_structural.
    destruct Hcases as [[-> _]|[i [_ [_ [_ [Hs [_ Hi]]]]]]].
    - rewrite nextOf_setNext. apply in_or_app. right. left. reflexivity.
    - rewrite Hs. apply in_or_app. left. unfold assignAt.
      assert (0 <= i)%Z.
      { destruct Hi as [Hi|Hi]; [exact Hi|]. rewrite Hi in Hindex.
        exact Hindex. }
      destruct (Z.ltb_spec i 0); [lia|]. apply assignNat_holds. }
  exists X. split; [exact HX|].
  destruct (Forall2_in_l _ _ _ (Some a) Hl Hin) as [slot [Hslot Ha']].
  simpl in Ha'. apply bind_returns in Ha'. destruct Ha' as [a' [Ha' Heq]].
  inversion Heq; subst slot. exists a'. split.
  - eapply traverse_trans; [apply le_n|exact HP'|].
    rewrite traverseInternal_slots. right.
    rewrite slots_withSlots by (symmetry; eapply Forall2_length; eauto).
    apply in_own_slot. exact Hslot.
  - destruct (createAction_returns _ _ _ Ha) as [Hcreated _].
    assert (Hself : addActionFn request children_ a = Returns a).
    { apply addActionFn_other. rewrite Hcreated. exact Hne. }
    destruct (transfer_node_keeps lastSlot _ fuel' a a' a X
                lastSlot_selector Ha' Hself) as [Hp [Ht Hs]].
    + rewrite lastSlot_next, (createAction_next _ _ _ Ha). reflexivity.
    + intros z Hz. apply addActionFn_other. rewrite <- Hname.
      destruct (destination_in_slots _ _ _ _ HX) as [->|HXin];
        [contradiction|].
      apply (root_not_below P).
      * apply (NoDup_subtree _ T1 (le_n _) Hnd P HP).
      * apply in_steps_names. apply in_flat_map. exists X. auto.
    + unfold tracked, stepName. rewrite Hp, Ht, Hs.
      rewrite (createAction_typeOf _ _ _ Ha). auto.
Qed.

End PlaceCopy.

(* ------------------------------------------------------------------ *)
(** *** [MOVE_ACTION] *)

(** The operations [moveAction] replays: for a loop or a branch those
    that rebuild its structural slots, none for other steps. *)
Lemma move_child_operations s a :
  typeOf s = OfAction a ->
  match s with
  | LoopOnItemsAction _ _ _ | BranchAction _ _ _ _ =>
      getImportOperations (setNext None s)
  | _ => []
  end = []
  \/ (match s with
      | LoopOnItemsAction _ _ _ | BranchAction _ _ _ _ =>
          getImportOperations (setNext None s)
      | _ => []
      end = structuralImports s
      /\ a <> CODE /\ a <> PIECE).
Proof.
  intros Hty.
  destruct s as [ty p n|p sc fl n|p b n|p c n]; auto; right;
    inversion Hty; subst a;
    (split; [|split; discriminate]);
    rewrite getImportOperations_phases; simpl; rewrite app_nil_r;
    reflexivity.
Qed.

Section MoveAction.

Context {E : Externals}.

Variables (flowVersion : FlowVersion) (Q S : Step)
  (before after : list (option Step)).

Hypothesis Hnd : NoDup (stepNames (trigger flowVersion)).
Hypothesis HQ : In Q (getAllSteps (trigger flowVersion)).
Hypothesis Hslots : slots Q = before ++ Some S :: after.

(** The flow once [S] is removed. *)
Definition withoutSource : Step :=
  plug (stepName Q) (frameOf Q before after (nextOf S)) (trigger flowVersion).

(** The names that leave the flow with [S]. *)
Definition removedNames : list string :=
  stepName S :: flat_map stepNamesOpt (structuralSlots S).

Lemma source_slot : In (Some S) (slots Q).
Proof. rewrite Hslots. apply in_or_app. right. left. reflexivity. Qed.

Lemma source_in_flow : In S (traverseInternal (trigger flowVersion)).
Proof.
  eapply traverse_trans; [apply le_n|exact HQ|].
  eapply in_traverse_slot; [exact source_slot|apply traverseInternal_self].
Qed.

Lemma source_NoDup : NoDup (stepNames S).
Proof.
  exact (NoDup_subtree _ _ (le_n _) Hnd S source_in_flow).
Qed.

Lemma removedNames_source : incl removedNames (stepNames S).
Proof.
  intros y Hy. rewrite stepNames_slots, slots_structural, flat_map_app.
  destruct Hy as [<-|Hy]; [left; reflexivity|right].
  apply in_or_app. left. exact Hy.
Qed.

Lemma withoutSource_names :
  NoDup (removedNames ++ stepNames withoutSource)
  /\ forall y, In y (stepNames (trigger flowVersion)) <->
               In y (removedNames ++ stepNames withoutSource).
Proof.
  pose proof (removed_names _ Q S before after Hnd HQ Hslots) as Hperm.
  split.
  - exact (Permutation_NoDup Hperm Hnd).
  - intros y. split; apply Permutation_in; [|symmetry]; exact Hperm.
Qed.

Lemma withoutSource_NoDup : NoDup (stepNames withoutSource).
Proof.
  destruct withoutSource_names as [H _].
  exact (NoDup_app_remove_l _ _ H).
Qed.

Lemma withoutSource_disjoint z :
  In z (traverseInternal withoutSource) -> ~ In (stepName z) removedNames.
Proof.
  intros Hz Hbad. destruct withoutSource_names as [H _].
  apply (NoDup_app_disjoint _ _ _ H Hbad).
  unfold stepNames, getAllSteps. apply in_map. exact Hz.
Qed.

Lemma owner_outside_source : ~ In (stepName Q) (stepNames S).
Proof.
  destruct (slot_child Q S) as [_ [H _]]; [|exact source_slot|exact H].
  exact (NoDup_subtree _ _ (le_n _) Hnd Q HQ).
Qed.

Lemma chain_stays z :
  In z (traverseOpt (nextOf S)) -> ~ In (stepName z) removedNames.
Proof.
  intros Hz Hbad. pose proof source_NoDup as HndS.
  rewrite stepNames_slots, slots_structural, flat_map_app in HndS.
  simpl in HndS. rewrite app_nil_r in HndS.
  change (NoDup (removedNames ++ stepNamesOpt (nextOf S))) in HndS.
  apply (NoDup_app_disjoint _ _ _ HndS Hbad).
  destruct (nextOf S) as [n|]; [|contradiction].
  simpl. unfold stepNames, getAllSteps. apply in_map. exact Hz.
Qed.

(** The slot of [Q] that holds [S], as a choice among the slots of a
    step. *)
Definition sourceSlot : list (option Step) -> option (option Step) :=
  slotAt (List.length before) (List.length (structuralSlots Q)).

Lemma source_frame :
  List.length (structuralSlots Q) = List.length before + List.length after.
Proof.
  pose proof (f_equal (@List.length _) Hslots) as Hlen.
  rewrite slots_structural, !length_app in Hlen. simpl in Hlen. lia.
Qed.

Lemma source_held :
  slotOf (List.length before) (List.length (structuralSlots Q)) Q
  = Some (Some S).
Proof.
  rewrite <- slotAt_slots, Hslots. apply slotAt_middle. exact source_frame.
Qed.

Lemma frame_in_flow :
  In (frameOf Q before after (nextOf S)) (traverseInternal withoutSource).
Proof.
  apply (plug_contains _ _ _ _ (le_n _)).
  unfold stepNames. apply in_map. exact HQ.
Qed.

Lemma frame_slots :
  slots (frameOf Q before after (nextOf S)) = before ++ nextOf S :: after.
Proof.
  apply slots_frameOf. unfold wellFramed.
  rewrite Hslots, length_app. simpl. lia.
Qed.

(** Once [S] is removed, the slot that held it holds its successor. *)
Lemma slot_after_removal :
  stepName (frameOf Q before after (nextOf S)) = stepName Q
  /\ typeOf (frameOf Q before after (nextOf S)) = typeOf Q
  /\ sourceSlot (slots (frameOf Q before after (nextOf S)))
     = Some (nextOf S).
Proof.
  split; [apply stepName_frameOf|]. split.
  - unfold frameOf. apply typeOf_withSlots.
  - rewrite frame_slots. apply slotAt_middle. exact source_frame.
Qed.

Lemma chain_in_flow z :
  In z (traverseOpt (nextOf S)) -> In z (traverseInternal withoutSource).
Proof.
  intros Hz. apply (below_in_tree _ _ z frame_in_flow).
  rewrite frame_slots. apply in_flat_map. exists (nextOf S). split; [|exact Hz].
  apply in_or_app. right. left. reflexivity.
Qed.

Lemma source_name_not_below :
  ~ In (stepName S) (flat_map stepNamesOpt (structuralSlots S)).
Proof.
  intros Hbad. pose proof source_NoDup as HndS.
  rewrite stepNames_slots, slots_structural, flat_map_app in HndS.
  inversion HndS as [|? ? Hroot _]. apply Hroot. apply in_or_app. left.
  exact Hbad.
Qed.

Lemma chain_kinds_stay n z :
  nextOf S = Some n ->
  In (stepName z, typeOf z) (chainKinds (Some n)) ->
  ~ In (stepName z) removedNames.
Proof.
  intros Hn Hz. unfold chainKinds in Hz. apply in_map_iff in Hz.
  destruct Hz as [z0 [Heq Hz0]]. injection Heq as Hname Hty.
  intros Hbad. apply (chain_stays z0).
  - rewrite Hn. apply chainFrom_steps. exact Hz0.
  - unfold stepName in *. rewrite Hname. exact Hbad.
Qed.

(** What the replayed operations address: a parent and a new step
    whose names left the flow with [S]. *)
Lemma replayed_scope op :
  In op (structuralImports S) ->
  exists r,
    op = ADD_ACTION r
    /\ In (parentStep r) removedNames
    /\ In (reqName (action r)) (flat_map stepNamesOpt (structuralSlots S))
    /\ ((parentStep r = stepName S
         /\ exists location,
              stepLocationRelativeToParent r = Some location
              /\ location <> AFTER)
        \/ parentStep r <> stepName S).
Proof.
  intros Hop.
  destruct (structural_ops_scope S op Hop) as [r [-> [Hadded Hparent]]].
  exists r. split; [reflexivity|]. split; [|split; [exact Hadded|]].
  - destruct Hparent as [[-> _]|Hin]; [left; reflexivity|right; exact Hin].
  - destruct Hparent as [Hinside|Hin]; [left; exact Hinside|right].
    intros Heq. apply source_name_not_below. rewrite <- Heq. exact Hin.
Qed.

(** While the structural slots of the copy are rebuilt, the slot [S]
    left keeps its content when no step of that content is addressed. *)
Lemma replay_keeps_slot n (fuel : nat) fv fv' :
  nextOf S = Some n ->
  replay (apply fuel) (structuralImports S) fv = Returns fv' ->
  (exists x, In x (traverseInternal (trigger fv))
     /\ tracked (stepName Q) (typeOf Q) sourceSlot (Some n) x) ->
  exists x, In x (traverseInternal (trigger fv'))
    /\ tracked (stepName Q) (typeOf Q) sourceSlot (Some n) x.
Proof.
  intros Hn Hreplay Hkept.
  apply (replay_invariant
           (fun T => exists x, In x (traverseInternal T)
              /\ tracked (stepName Q) (typeOf Q) sourceSlot (Some n) x)
           (apply fuel) (structuralImports S)) with (fv := fv); auto.
  clear fv fv' Hreplay Hkept. intros op Hop fv fv' Hkept Happ.
  destruct (replayed_scope op Hop) as [r [-> [Hparent [Hadded _]]]].
  assert (Hinert : forall z, In z (traverseOpt (Some n)) ->
                     ~ In (stepName z) removedNames).
  { rewrite <- Hn. exact chain_stays. }
  apply (add_action_tracks removedNames (stepName Q) (typeOf Q) sourceSlot
           (Some n) (slotAt_selector _ _) Hinert fuel fv fv' r); auto.
  - right. exact Hadded.
  - intros Heq. apply owner_outside_source. rewrite <- Heq.
    apply removedNames_source. right. exact Hadded.
  - intros x y. apply tracked_elsewhere_add. intros Heq.
    apply owner_outside_source. rewrite <- Heq.
    apply removedNames_source. exact Hparent.
Qed.

(** The copy of [S] keeps its successor [X] meanwhile. *)
Lemma replay_keeps_copy (a : ActionType) X (fuel : nat) fv fv' :
  a <> CODE -> a <> PIECE ->
  (forall z, In z (traverseOpt X) -> ~ In (stepName z) removedNames) ->
  replay (apply fuel) (structuralImports S) fv = Returns fv' ->
  (exists x, In x (traverseInternal (trigger fv))
     /\ tracked (stepName S) (OfAction a) lastSlot X x) ->
  exists x, In x (traverseInternal (trigger fv'))
    /\ tracked (stepName S) (OfAction a) lastSlot X x.
Proof.
  intros Hcode Hpiece HX Hreplay Hkept.
  apply (replay_invariant
           (fun T => exists x, In x (traverseInternal T)
              /\ tracked (stepName S) (OfAction a) lastSlot X x)
           (apply fuel) (structuralImports S)) with (fv := fv); auto.
  clear fv fv' Hreplay Hkept. intros op Hop fv fv' Hkept Happ.
  destruct (replayed_scope op Hop) as [r [-> [Hparent [Hadded Hwhere]]]].
  apply (add_action_tracks removedNames (stepName S) (OfAction a) lastSlot
           X lastSlot_selector HX fuel fv fv' r); auto.
  - right. exact Hadded.
  - intros Heq. apply source_name_not_below. rewrite <- Heq. exact Hadded.
  - intros x y. destruct Hwhere as [[_ [location [Hloc Hne]]]|Hne].
    + apply (tracked_next_inside r None location); assumption.
    + apply tracked_elsewhere_add. exact Hne.
Qed.

Lemma successor_in_source n :
  nextOf S = Some n -> incl (stepNames n) (stepNames S).
Proof.
  intros Hn y Hy. rewrite stepNames_slots, slots_structural, flat_map_app.
  right. apply in_or_app. right. rewrite Hn. simpl. rewrite app_nil_r.
  exact Hy.
Qed.

Lemma source_not_successor n :
  nextOf S = Some n -> ~ In (stepName S) (stepNames n).
Proof.
  intros Hn Hbad. apply (root_not_below S (stepName S) source_NoDup);
    [|reflexivity].
  rewrite slots_structural, flat_map_app. apply in_or_app. right.
  rewrite Hn. simpl. rewrite app_nil_r. exact Hbad.
Qed.

(** The slot [S] left holds a chain that starts with the names and
    types of the former successors of [S], followed by nothing else or
    by the copy of [S]. *)
Definition chainKept (n : Step) (T : Step) : Prop :=
  exists x n',
    In x (traverseInternal T)
    /\ stepName x = stepName Q /\ typeOf x = typeOf Q
    /\ sourceSlot (slots x) = Some (Some n')
    /\ exists rest,
         chainKinds (Some n') = chainKinds (Some n) ++ rest
         /\ (rest = [] \/ rest = [(stepName S, typeOf S)]).

Lemma pass_keeps_chain f n (fuel : nat) T T' :
  keepsSlots f ->
  (forall z, stepName z = stepName Q -> f z = Returns z) ->
  (forall z y,
     In (stepName z, typeOf z) (chainKinds (Some n))
     \/ (stepName z, typeOf z) = (stepName S, typeOf S) ->
     f z = Returns y ->
     stepName y = stepName z /\ typeOf y = typeOf z
     /\ nextOf y = nextOf z) ->
  transferStep fuel f T = Returns T' ->
  chainKept n T -> chainKept n T'.
Proof.
  intros Hkeeps Howner Hchain H
    [x [n' [Hx [Hname [Hty [Hslot [rest [Hrest Hcases]]]]]]]].
  destruct (transfer_follows sourceSlot f (slotAt_selector _ _) Hkeeps
              fuel T T' x n' H Hx)
    as [fuel' [x' [n'' [Hx' [Hname' [Hty' [Hslot' Hn'']]]]]]].
  { intros y Hy. rewrite (Howner x Hname) in Hy. inversion Hy; subst y.
    auto. }
  exists x', n''. split; [exact Hx'|]. split; [congruence|].
  split; [congruence|]. split; [exact Hslot'|].
  exists rest. split; [|exact Hcases].
  rewrite <- Hrest. apply (transfer_chain_exact f fuel' n' n'' Hn'').
  intros z y Hz. apply Hchain.
  assert (Hin : In (stepName z, typeOf z) (chainKinds (Some n'))).
  { unfold chainKinds.
    apply (in_map (fun z => (stepName z, typeOf z))). exact Hz. }
  rewrite Hrest in Hin. apply in_app_or in Hin.
  destruct Hin as [Hin|Hin]; [left; exact Hin|right].
  destruct Hcases as [->| ->]; [contradiction|].
  destruct Hin as [Heq|[]]. symmetry. exact Heq.
Qed.

(** While the structural slots of the copy are rebuilt, the chain in
    the slot [S] left keeps its names and types. *)
Lemma replay_keeps_chain (a : ActionType) n (fuel : nat) fv fv' :
  typeOf S = OfAction a -> a <> CODE -> a <> PIECE ->
  nextOf S = Some n ->
  replay (apply fuel) (structuralImports S) fv = Returns fv' ->
  chainKept n (trigger fv) -> chainKept n (trigger fv').
Proof.
  intros Hty Hcode Hpiece Hn Hreplay Hkept.
  apply (replay_invariant (chainKept n) (apply fuel) (structuralImports S))
    with (fv := fv); auto.
  clear fv fv' Hreplay Hkept. intros op Hop fv fv' Hkept Happ.
  destruct (replayed_scope op Hop) as [r [-> [Hparent [Hadded Hwhere]]]].
  destruct (apply_add_action_inv fuel fv fv' r Happ) as [fuel' [t1 [H1 H2]]].
  assert (HQparent : stepName Q <> parentStep r).
  { intros Heq. apply owner_outside_source. rewrite Heq.
    apply removedNames_source. exact Hparent. }
  assert (HQadded : stepName Q <> reqName (action r)).
  { intros Heq. apply owner_outside_source. rewrite Heq.
    apply removedNames_source. right. exact Hadded. }
  apply (pass_keeps_chain (fun s => upgradePiece s (reqName (action r))) n
           fuel' t1 (trigger fv')); [| | |exact H2|].
  - apply upgradePiece_keepsSlots.
  - intros z Hz. apply upgradePiece_localTo. intros [Heq|[]].
    apply HQadded. rewrite <- Hz. symmetry. exact Heq.
  - intros z y Hz Hy. rewrite upgradePiece_localTo in Hy;
      [inversion Hy; auto|].
    intros [Heq|[]]. destruct Hz as [Hz|Hz].
    + apply (chain_kinds_stay n z Hn Hz). rewrite <- Heq. right.
      exact Hadded.
    + pose proof (f_equal fst Hz) as Hname. simpl in Hname.
      apply source_name_not_below. rewrite <- Hname, <- Heq. exact Hadded.
  - apply (pass_keeps_chain (addActionFn r None) n fuel' (trigger fv) t1);
      [| | |exact H1|exact Hkept].
    + apply addActionFn_keepsSlots.
    + intros z Hz. apply addActionFn_other. rewrite Hz. exact HQparent.
    + intros z y Hz Hy. destruct Hz as [Hz|Hz].
      * rewrite addActionFn_other in Hy; [inversion Hy; auto|].
        intros Heq. apply (chain_kinds_stay n z Hn Hz). rewrite Heq.
        exact Hparent.
      * pose proof (f_equal fst Hz) as Hname. simpl in Hname.
        pose proof (f_equal snd Hz) as Htyz. simpl in Htyz.
        destruct Hwhere as [[_ [location [Hloc Hne]]]|Hne].
        -- apply (addActionFn_inside r None location z y Hloc Hne);
             [|exact Hy].
           exists a. rewrite Htyz. auto.
        -- rewrite addActionFn_other in Hy; [inversion Hy; auto|].
           rewrite Hname. intros Heq. apply Hne. symmetry. exact Heq.
Qed.


End MoveAction.

Definition movedLoop : Step :=
  LoopOnItemsAction (props "step_2" plainSettings)
    (Some (code "step_3" None)) (Some (code "step_4" None)).

Definition loopOwner : Step := code "step_1" (Some movedLoop).

Definition loopInChainFlow : FlowVersion :=
  flowOf (emptyTrigger (Some loopOwner)).

Definition moveAfterRequest (source parent : string) : MoveActionRequest :=
  {| moveName := source; newParentStep := parent;
     stepLocationRelativeToNewParent := Some AFTER;
     moveBranchIndex := None; moveBranchName := None |}.

Definition moveAfter (source parent : string) : FlowOperationRequest :=
  MOVE_ACTION (moveAfterRequest source parent).

Definition movedFromBody : Step :=
  LoopOnItemsAction (props "step_2" plainSettings)
    (Some (code "step_5" None)) (Some (code "step_4" None)).

Definition bodyOwner : Step :=
  LoopOnItemsAction (props "step_1" plainSettings)
    (Some movedFromBody) (Some (code "step_3" None)).

Definition loopBodyFlow : FlowVersion :=
  flowOf (emptyTrigger (Some bodyOwner)).


Definition chainFlow : FlowVersion :=
  flowOf
    (emptyTrigger
       (Some (code "step_1"
                (Some (code "step_2" (Some (code "step_3" None))))))).


(* ================================================================== *)
(** ** The engine over a store of flow versions *)
(* ================================================================== *)

(** A cell of the store stands for one object graph, as
    [JSON.parse(JSON.stringify(...))] creates it; a reference names a
    cell.  Assigning to a field of an object of a graph is a write to
    the cell of the graph.  The functions below follow the handlers of
    the engine reference by reference: which flow version each one
    copies, which one it writes to, and which one it hands on. *)
Definition Ref := nat.
Definition Heap := list FlowVersion.

Definition M (A : Type) : Type := Heap -> outcome A * Heap.

Definition ret {A} (a : A) : M A := fun h => (Returns a, h).

(** An exception leaves the store as it is at that point. *)
Definition bindM {A B} (m : M A) (k : A -> M B) : M B :=
  fun h =>
    match m h with
    | (Returns a, h') => k a h'
    | (Throws e, h') => (Throws e, h')
    | (OutOfFuel, h') => (OutOfFuel, h')
    | (IllTyped, h') => (IllTyped, h')
    end.

Notation "x <~ m ;; k" := (bindM m (fun x => k))
  (at level 61, m at next level, right associativity).

(** A computation that does not touch the store. *)
Definition lift {A} (o : outcome A) : M A := fun h => (o, h).

Definition deref (r : Ref) : M FlowVersion :=
  fun h =>
    match nth_error h r with
    | Some v => (Returns v, h)
    | None => (IllTyped, h)
    end.

(** [JSON.parse(JSON.stringify(flowVersion))]: a new cell. *)
Definition jsonCloneAt (r : Ref) : M Ref :=
  fun h =>
    match nth_error h r with
    | Some v => (Returns (List.length h), h ++ [v])
    | None => (IllTyped, h)
    end.

Definition setCell (r : Ref) (v : FlowVersion) (h : Heap) : Heap :=
  firstn r h ++ v :: skipn (S r) h.

(** Assignments to fields of the graph of [r], in place. *)
Definition modify (r : Ref) (g : FlowVersion -> outcome FlowVersion)
  : M unit :=
  fun h =>
    match nth_error h r with
    | Some v =>
        match g v with
        | Returns v' => (Returns tt, setCell r v' h)
        | Throws e => (Throws e, h)
        | OutOfFuel => (OutOfFuel, h)
        | IllTyped => (IllTyped, h)
        end
    | None => (IllTyped, h)
    end.

(** [transferFlow]: [clonedFlow] is a copy of the argument, and
    [clonedFlow.trigger = transferStep(clonedFlow.trigger, ...)]
    rewrites the copy. *)
Definition transferFlowAt (fuel : nat) (flowVersion : Ref)
  (transferFunction : Step -> outcome Step) : M Ref :=
  clonedFlow <~ jsonCloneAt flowVersion ;;
  _ <~ modify clonedFlow
         (fun v =>
            t <- transferStep fuel transferFunction (trigger v) ;;
            Returns (withTrigger t v)) ;;
  ret clonedFlow.

Definition replayAt
  (applyRec : Ref -> FlowOperationRequest -> M Ref)
  (operations : list FlowOperationRequest) (flowVersion : Ref) : M Ref :=
  fold_left (fun acc operation => fv <~ acc ;; applyRec fv operation)
    operations (ret flowVersion).

Section EngineAt.

Context {E : Externals}.

Definition deleteActionAt (fuel : nat) (flowVersion : Ref) (name_ : string)
  : M Ref :=
  transferFlowAt fuel flowVersion (deleteActionFn name_).

Definition addActionAt (fuel : nat) (flowVersion : Ref)
  (request : AddActionRequest) (children_ : option (list (option Step)))
  : M Ref :=
  transferFlowAt fuel flowVersion (addActionFn request children_).

Definition updateActionAt (fuel : nat) (flowVersion : Ref)
  (request : UpdateActionRequest) : M Ref :=
  transferFlowAt fuel flowVersion (updateActionFn request).

(** [moveAction]: the local [flowVersion] is rebound to the copies
    [deleteAction], [addAction] and [flowHelper.apply] return; the
    argument is read only. *)
Definition moveActionAt
  (applyRec : Ref -> FlowOperationRequest -> M Ref)
  (fuel : nat) (flowVersion : Ref) (request : MoveActionRequest) : M Ref :=
  v <~ deref flowVersion ;;
  let steps := getAllSteps (trigger v) in
  match findByName (moveName request) steps with
  | None =>
      lift (Throws (operationInvalid
                      ("Source step " ^^ moveName request ^^ " not found")))
  | Some sourceStep =>
      if negb (isAction (typeOf sourceStep)) then
        lift (Throws (operationInvalid
                        ("Source step " ^^ moveName request ^^ " not found")))
      else
        match findByName (newParentStep request) steps with
        | None =>
            lift (Throws (operationInvalid
                            ("Destination step " ^^ newParentStep request
                             ^^ " not found")))
        | Some _ =>
            clonedSourceStep <~ lift (jsonClone (Some sourceStep)) ;;
            let childOperation :=
              match clonedSourceStep with
              | LoopOnItemsAction _ _ _ | BranchAction _ _ _ _ =>
                  getImportOperations (setNext None clonedSourceStep)
              | _ => []
              end in
            fv1 <~ deleteActionAt fuel flowVersion (moveName request) ;;
            fv2 <~ addActionAt fuel fv1
                     {| parentStep := newParentStep request;
                        stepLocationRelativeToParent :=
                          stepLocationRelativeToNewParent request;
                        branchIndex := moveBranchIndex request;
                        addBranchName := moveBranchName request;
                        action := requestOfStep sourceStep |}
                     match sourceStep with
                     | RouterAction _ c _ => Some c
                     | _ => None
                     end ;;
            replayAt applyRec childOperation fv2
        end
  end.

(** [duplicateStep]: the step is copied out of the argument, renamed as
    a copy, and added to a copy of the argument. *)
Definition duplicateStepAt
  (applyRec : Ref -> FlowOperationRequest -> M Ref)
  (fuel : nat) (stepName_ : string) (flowVersionWithArtifacts : Ref)
  : M Ref :=
  v <~ deref flowVersionWithArtifacts ;;
  found <~ lift (jsonClone (getStep v stepName_)) ;;
  let clonedStep := setNext None found in
  let existingNames := map stepName (getAllSteps (trigger v)) in
  let oldStepsNameToReplace := map stepName (getAllSteps clonedStep) in
  oldNameToNewName <~
    lift (allocateNames fuel existingNames oldStepsNameToReplace []) ;;
  duplicatedStep <~
    lift (transferStep fuel (renameFn oldStepsNameToReplace oldNameToNewName)
            clonedStep) ;;
  finalFlow <~
    addActionAt fuel flowVersionWithArtifacts
      {| parentStep := stepName_;
         stepLocationRelativeToParent := Some AFTER;
         branchIndex := None;
         addBranchName := None;
         action := requestOfStep duplicatedStep |}
      match duplicatedStep with
      | RouterAction _ c _ => Some (map (fun _ => None) c)
      | _ => None
      end ;;
  replayAt applyRec (getImportOperations duplicatedStep) finalFlow.

(** [duplicateRouterChild]: [routerStep] is a step of the argument, and
    [routerStep.settings.branches.splice(...)] and
    [routerStep.children.splice(...)] change the argument in place; with
    no child in the branch the argument itself is returned. *)
Definition duplicateRouterChildAt
  (applyRec : Ref -> FlowOperationRequest -> M Ref)
  (fuel : nat) (routerName : string) (childIndex : Z)
  (flowVersionWithArtifacts : Ref) : M Ref :=
  v <~ deref flowVersionWithArtifacts ;;
  match getStep v routerName with
  | None =>
      lift (Throws (Error ("step with name '" ^^ routerName ^^ "' not found")))
  | Some (RouterAction p c _) =>
      let existingNames := map stepName (getAllSteps (trigger v)) in
      clonedChildStep <~ lift (jsonClone (at_ c childIndex)) ;;
      branch <~ lift (jsonClone (at_ (branches (settings p)) childIndex)) ;;
      let duplicatedBranch :=
        {| conditions := conditions branch; branchType := branchType branch;
           branchName := branchName branch ^^ " Copy" |} in
      let spliced (routerStep : Step) :=
        match routerStep with
        | RouterAction p' c' n' =>
            RouterAction
              (withSettings
                 (withBranches
                    (splice (-1) 0 [duplicatedBranch]
                       (branches (settings p')))
                    (settings p'))
                 p')
              (splice (-1) 0 [None] c') n'
        | _ => routerStep
        end in
      _ <~ modify flowVersionWithArtifacts
             (fun v' =>
                match updateFirst routerName spliced (trigger v') with
                | Some t => Returns (withTrigger t v')
                | None => IllTyped
                end) ;;
      match clonedChildStep with
      | None => ret flowVersionWithArtifacts
      | Some child =>
          let oldStepsNameToReplace := map stepName (getAllSteps child) in
          oldNameToNewName <~
            lift (allocateNames fuel existingNames oldStepsNameToReplace
                    []) ;;
          duplicatedStep <~
            lift (transferStep fuel
                    (renameFn oldStepsNameToReplace oldNameToNewName)
                    child) ;;
          finalFlow <~
            addActionAt fuel flowVersionWithArtifacts
              {| parentStep := routerName;
                 stepLocationRelativeToParent := Some INSIDE_BRANCH;
                 branchIndex :=
                   Some (Z.of_nat (List.length (splice (-1) 0 [None] c)) - 2)%Z;
                 addBranchName := None;
                 action := requestOfStep duplicatedStep |}
              None ;;
          replayAt applyRec (getImportOperations duplicatedStep) finalFlow
      end
  | Some _ => lift (Throws TypeError)
  end.

(** [flowHelper.apply]: [clonedVersion] starts as a copy of the
    argument; the handlers rebind it or write to it.  [DELETE_BRANCH]
    and [ADD_BRANCH] hand the argument itself to [transferFlow]. *)
Fixpoint applyAt (fuel : nat) (flowVersion : Ref)
  (operation : FlowOperationRequest) : M Ref :=
  match fuel with
  | O => lift OutOfFuel
  | S fuel' =>
      clonedVersion <~ jsonCloneAt flowVersion ;;
      clonedVersion' <~
        match operation with
        | MOVE_ACTION request =>
            moveActionAt (applyAt fuel') fuel' clonedVersion request
        | LOCK_FLOW =>
            _ <~ modify clonedVersion
                   (fun v =>
                      Returns {| flowDisplayName := flowDisplayName v;
                                 state := LOCKED;
                                 trigger := trigger v;
                                 flowValid := flowValid v |}) ;;
            ret clonedVersion
        | CHANGE_NAME newDisplayName =>
            _ <~ modify clonedVersion
                   (fun v =>
                      Returns {| flowDisplayName := newDisplayName;
                                 state := state v;
                                 trigger := trigger v;
                                 flowValid := flowValid v |}) ;;
            ret clonedVersion
        | DELETE_ACTION name_ => deleteActionAt fuel' clonedVersion name_
        | ADD_ACTION request =>
            added <~ addActionAt fuel' clonedVersion request None ;;
            transferFlowAt fuel' added
              (fun step => upgradePiece step (reqName (action request)))
        | UPDATE_ACTION request =>
            updated <~ updateActionAt fuel' clonedVersion request ;;
            transferFlowAt fuel' updated
              (fun step => upgradePiece step (reqName request))
        | UPDATE_TRIGGER request =>
            _ <~ modify clonedVersion
                   (fun v =>
                      let t := trigger v in
                      Returns
                        (withTrigger
                           (createTrigger (stepName t) request (nextOf t))
                           v)) ;;
            transferFlowAt fuel' clonedVersion
              (fun step => upgradePiece step (treqName request))
        | DUPLICATE_ACTION stepName_ =>
            duplicateStepAt (applyAt fuel') fuel' stepName_ clonedVersion
        | DELETE_BRANCH stepName_ branchIndex_ =>
            transferFlowAt fuel' flowVersion
              (deleteBranchFn stepName_ branchIndex_)
        | ADD_BRANCH stepName_ branchIndex_ =>
            transferFlowAt fuel' flowVersion
              (addBranchFn stepName_ branchIndex_)
        | DUPLICATE_BRANCH stepName_ branchIndex_ =>
            duplicateRouterChildAt (applyAt fuel') fuel' stepName_
              branchIndex_ clonedVersion
        end ;;
      _ <~ modify clonedVersion'
             (fun v => Returns (withFlowValid (isValid v) v)) ;;
      ret clonedVersion'
  end.

End EngineAt.

(* ------------------------------------------------------------------ *)
(** *** The store model against the functional model *)

Lemma firstn_extended {A} (n : nat) (h l : list A) :
  n <= List.length h -> firstn n (h ++ l) = firstn n h.
Proof.
  intros H. rewrite firstn_app.
  replace (n - List.length h) with 0 by lia. simpl. apply app_nil_r.
Qed.

Lemma length_setCell r v h :
  r < List.length h -> List.length (setCell r v h) = List.length h.
Proof.
  intros H. unfold setCell. rewrite length_app.
  change (List.length (v :: skipn (S r) h))
    with (S (List.length (skipn (S r) h))).
  rewrite length_firstn, length_skipn. lia.
Qed.

Lemma firstn_setCell (n : nat) r v h :
  n <= r -> r < List.length h -> firstn n (setCell r v h) = firstn n h.
Proof.
  intros H Hr. unfold setCell. rewrite firstn_app, firstn_firstn.
  rewrite Nat.min_l by exact H.
  replace (n - List.length (firstn r h)) with 0; [apply app_nil_r|].
  rewrite length_firstn. lia.
Qed.

Lemma nth_error_setCell r v h :
  r < List.length h -> nth_error (setCell r v h) r = Some v.
Proof.
  intros H. unfold setCell.
  rewrite nth_error_app2; rewrite length_firstn, Nat.min_l by lia; [|lia].
  rewrite Nat.sub_diag. reflexivity.
Qed.

(** [agree R h' res o]: the store computation and the functional one
    end alike; when both return, [R] relates the results over the
    final store. *)
Definition agree {A B} (R : Heap -> A -> B -> Prop) (h' : Heap)
  (res : outcome A) (o : outcome B) : Prop :=
  match res, o with
  | Returns a, Returns b => R h' a b
  | Throws e, Throws e' => e = e'
  | OutOfFuel, OutOfFuel => True
  | IllTyped, IllTyped => True
  | _, _ => False
  end.

(** [sound n R m h o]: run from [h], the computation [m] leaves the
    first [n] cells alone, frees nothing, and ends as [o] does. *)
Definition sound {A B} (n : nat) (R : Heap -> A -> B -> Prop)
  (m : M A) (h : Heap) (o : outcome B) : Prop :=
  firstn n (snd (m h)) = firstn n h
  /\ List.length h <= List.length (snd (m h))
  /\ agree R (snd (m h)) (fst (m h)) o.

(** A reference past the first [n] cells that holds [v]. *)
Definition holds (n : nat) (h : Heap) (r : Ref) (v : FlowVersion) : Prop :=
  n <= r /\ nth_error h r = Some v.

Lemma sound_ret (n : nat) h r v :
  holds n h r v -> sound n (holds n) (ret r) h (Returns v).
Proof. intros H. repeat split; auto; apply H. Qed.

Lemma sound_fails {A B} (n : nat) (R : Heap -> A -> B -> Prop) h
  (o : outcome A) (o' : outcome B) :
  agree R h o o' -> sound n R (lift o) h o'.
Proof. intros H. repeat split; auto. Qed.

Lemma sound_bind {A B A' B'} (n : nat)
  (R : Heap -> A -> B -> Prop) (R' : Heap -> A' -> B' -> Prop)
  (m : M A) (k : A -> M A') h (o : outcome B) (k' : B -> outcome B') :
  sound n R m h o ->
  (forall h' a b,
     firstn n h' = firstn n h -> List.length h <= List.length h' ->
     R h' a b -> sound n R' (k a) h' (k' b)) ->
  sound n R' (bindM m k) h (bind o k').
Proof.
  unfold sound, bindM. intros [H1 [H2 H3]] Hk.
  destruct (m h) as [res h1]. simpl in *.
  destruct res as [a|e| |], o as [b|e'| |]; simpl in *; try contradiction;
    auto.
  destruct (Hk h1 a b H1 H2 H3) as [K1 [K2 K3]].
  repeat split; auto; [congruence|lia].
Qed.

Lemma sound_lift {A A' B'} (n : nat) (R' : Heap -> A' -> B' -> Prop)
  (o : outcome A) (k : A -> M A') h (k' : A -> outcome B') :
  (forall a, o = Returns a -> sound n R' (k a) h (k' a)) ->
  sound n R' (bindM (lift o) k) h (bind o k').
Proof.
  intros Hk. unfold sound, bindM, lift.
  destruct o as [a|e| |]; simpl; try (repeat split; auto; fail).
  apply Hk. reflexivity.
Qed.

Lemma sound_deref {A' B'} (n : nat) (R' : Heap -> A' -> B' -> Prop)
  r v (k : FlowVersion -> M A') h (o : outcome B') :
  nth_error h r = Some v ->
  sound n R' (k v) h o -> sound n R' (bindM (deref r) k) h o.
Proof. intros Hr H. unfold sound, bindM, deref. rewrite Hr. exact H. Qed.

Lemma sound_clone {A' B'} (n : nat) (R' : Heap -> A' -> B' -> Prop)
  r v (k : Ref -> M A') h (o : outcome B') :
  n <= List.length h -> nth_error h r = Some v ->
  sound n R' (k (List.length h)) (h ++ [v]) o ->
  sound n R' (bindM (jsonCloneAt r) k) h o.
Proof.
  intros Hn Hr [H1 [H2 H3]]. unfold sound, bindM, jsonCloneAt. rewrite Hr.
  rewrite firstn_extended in H1 by exact Hn.
  rewrite length_app in H2. simpl in H2.
  repeat split; auto. lia.
Qed.

Lemma sound_modify {A' B'} (n : nat) (R' : Heap -> A' -> B' -> Prop)
  r v g (k : unit -> M A') h (k' : FlowVersion -> outcome B') :
  n <= r -> nth_error h r = Some v ->
  (forall v', g v = Returns v' ->
     sound n R' (k tt) (setCell r v' h) (k' v')) ->
  sound n R' (bindM (modify r g) k) h (bind (g v) k').
Proof.
  intros Hn Hr Hk. unfold sound, bindM, modify. rewrite Hr.
  assert (Hlt : r < List.length h).
  { apply nth_error_Some. congruence. }
  destruct (g v) as [v'|e| |]; simpl; try (repeat split; auto; fail).
  destruct (Hk v' eq_refl) as [H1 [H2 H3]].
  rewrite firstn_setCell in H1 by assumption.
  rewrite length_setCell in H2 by exact Hlt.
  repeat split; auto.
Qed.

Lemma bind_Returns {A} (m : outcome A) : bind m (fun a => Returns a) = m.
Proof. destruct m; reflexivity. Qed.

Lemma transferFlowAt_sound (n : nat) (fuel : nat) r v fn h :
  n <= List.length h -> nth_error h r = Some v ->
  sound n (holds n) (transferFlowAt fuel r fn) h (transferFlow fuel v fn).
Proof.
  intros Hn Hr. unfold transferFlowAt, transferFlow.
  apply (sound_clone n _ r v); auto. simpl.
  rewrite <- (bind_Returns
                (t <- transferStep fuel fn (trigger v) ;;
                 Returns (withTrigger t v))).
  assert (Hcell : nth_error (h ++ [v]) (List.length h) = Some v).
  { rewrite nth_error_app2, Nat.sub_diag by lia. reflexivity. }
  apply (sound_modify n _ (List.length h) v); auto.
  intros v' _. apply sound_ret. split; [exact Hn|].
  apply nth_error_setCell. rewrite length_app. simpl. lia.
Qed.

Section SoundHandlers.

Context {E : Externals}.

Variable n : nat.
Variable applyRecAt : Ref -> FlowOperationRequest -> M Ref.
Variable applyRec : FlowVersion -> FlowOperationRequest -> outcome FlowVersion.

Hypothesis applyRec_sound :
  forall r v h operation,
    n <= List.length h -> nth_error h r = Some v ->
    sound n (holds n) (applyRecAt r operation) h (applyRec v operation).

Lemma replayAt_sound operations :
  forall (macc : M Ref) (oacc : outcome FlowVersion) h,
    n <= List.length h ->
    sound n (holds n) macc h oacc ->
    sound n (holds n)
      (fold_left (fun acc operation => fv <~ acc ;; applyRecAt fv operation)
         operations macc)
      h
      (fold_left (fun acc operation => fv <- acc ;; applyRec fv operation)
         operations oacc).
Proof.
  induction operations as [|op ops IH]; intros macc oacc h Hn Hacc;
    [exact Hacc|].
  simpl. apply IH; [exact Hn|].
  apply (sound_bind n (holds n) (holds n) macc _ h oacc); [exact Hacc|].
  intros h' r v _ Hlen [_ Hr]. apply applyRec_sound; [lia|exact Hr].
Qed.

Lemma replayAt_from (operations : list FlowOperationRequest) r v h :
  n <= List.length h -> holds n h r v ->
  sound n (holds n) (replayAt applyRecAt operations r) h
    (replay applyRec operations v).
Proof.
  intros Hn Hr. apply replayAt_sound; [exact Hn|].
  apply sound_ret. exact Hr.
Qed.

Lemma moveActionAt_sound (fuel : nat) r v request h :
  n <= List.length h -> nth_error h r = Some v ->
  sound n (holds n) (moveActionAt applyRecAt fuel r request) h
    (moveAction applyRec fuel v request).
Proof.
  intros Hn Hr. unfold moveActionAt, moveAction.
  apply (sound_deref n _ r v); [exact Hr|].
  destruct (findByName (moveName request) _) as [sourceStep|];
    [|apply sound_fails; reflexivity].
  destruct (negb (isAction (typeOf sourceStep)));
    [apply sound_fails; reflexivity|].
  destruct (findByName (newParentStep request) _);
    [|apply sound_fails; reflexivity].
  apply sound_lift. intros clonedSourceStep _.
  apply (sound_bind n (holds n)).
  { apply transferFlowAt_sound; assumption. }
  intros h1 r1 v1 _ Hlen1 [_ Hr1].
  apply (sound_bind n (holds n)).
  { apply transferFlowAt_sound; [lia|exact Hr1]. }
  intros h2 r2 v2 _ Hlen2 Hr2.
  apply replayAt_from; [lia|exact Hr2].
Qed.

Lemma duplicateStepAt_sound (fuel : nat) stepName_ r v h :
  n <= List.length h -> nth_error h r = Some v ->
  sound n (holds n) (duplicateStepAt applyRecAt fuel stepName_ r) h
    (duplicateStep applyRec fuel stepName_ v).
Proof.
  intros Hn Hr. unfold duplicateStepAt, duplicateStep.
  apply (sound_deref n _ r v); [exact Hr|].
  apply sound_lift. intros found _.
  apply sound_lift. intros oldNameToNewName _.
  apply sound_lift. intros duplicatedStep _.
  apply (sound_bind n (holds n)).
  { apply transferFlowAt_sound; assumption. }
  intros h1 r1 v1 _ Hlen1 Hr1.
  apply replayAt_from; [lia|exact Hr1].
Qed.

Lemma duplicateRouterChildAt_sound (fuel : nat) routerName childIndex r v h :
  n <= r -> n <= List.length h -> nth_error h r = Some v ->
  sound n (holds n)
    (duplicateRouterChildAt applyRecAt fuel routerName childIndex r) h
    (duplicateRouterChild applyRec fuel routerName childIndex v).
Proof.
  intros Hfresh Hn Hr. unfold duplicateRouterChildAt, duplicateRouterChild.
  apply (sound_deref n _ r v); [exact Hr|].
  destruct (getStep v routerName) as [[t p nx|p s f nx|p b nx|p c nx]|];
    try (apply sound_fails; reflexivity).
  apply sound_lift. intros clonedChildStep _.
  apply sound_lift. intros branch _.
  apply (sound_modify n _ r v); auto.
  intros v' Hv'.
  assert (Hlt : r < List.length h).
  { apply nth_error_Some. congruence. }
  assert (Hr' : nth_error (setCell r v' h) r = Some v').
  { apply nth_error_setCell. exact Hlt. }
  assert (Hn' : n <= List.length (setCell r v' h)).
  { rewrite length_setCell by exact Hlt. exact Hn. }
  destruct clonedChildStep as [child|].
  - apply sound_lift. intros oldNameToNewName _.
    apply sound_lift. intros duplicatedStep _.
    apply (sound_bind n (holds n)).
    { apply transferFlowAt_sound; assumption. }
    intros h1 r1 v1 _ Hlen1 Hr1.
    apply replayAt_from; [lia|exact Hr1].
  - apply sound_ret. split; assumption.
Qed.

End SoundHandlers.

Lemma sound_assign {A' B'} (n : nat) (R' : Heap -> A' -> B' -> Prop)
  r v (g : FlowVersion -> FlowVersion) (k : unit -> M A') h
  (k' : FlowVersion -> outcome B') :
  n <= r -> nth_error h r = Some v ->
  sound n R' (k tt) (setCell r (g v) h) (k' (g v)) ->
  sound n R' (bindM (modify r (fun v' => Returns (g v'))) k) h (k' (g v)).
Proof.
  intros Hn Hr Hk.
  change (sound n R' (bindM (modify r (fun v' => Returns (g v'))) k) h
            (bind ((fun v' => Returns (g v')) v) k')).
  apply (sound_modify n R' r v); auto.
  intros v' Hv'. inversion Hv'; subst v'. exact Hk.
Qed.

Lemma sound_assigned (n : nat) r v (g : FlowVersion -> FlowVersion) h :
  holds n h r v ->
  sound n (holds n) (_ <~ modify r (fun v' => Returns (g v')) ;; ret r) h
    (Returns (g v)).
Proof.
  intros [Hn Hr].
  apply (sound_assign n (holds n) r v g _ h (fun v' => Returns v')); auto.
  apply sound_ret. split; [exact Hn|].
  apply nth_error_setCell. apply nth_error_Some. congruence.
Qed.

Section ApplyAt.

Context {E : Externals}.

(** Over a store whose first [n] cells are to be kept, [applyAt] ends
    as [apply] does on what its argument holds, returns a reference
    past those cells, and leaves them alone. *)
Lemma applyAt_sound (n : nat) (fuel : nat) :
  forall r v h operation,
    n <= List.length h -> nth_error h r = Some v ->
    sound n (holds n) (applyAt fuel r operation) h (apply fuel v operation).
Proof.
  induction fuel as [|fuel IH]; intros r v h operation Hn Hr.
  - apply sound_fails. exact I.
  - cbn [applyAt apply]. apply (sound_clone n _ r v); auto.
    cbn [jsonClone bind].
    assert (Hr1 : nth_error (h ++ [v]) r = Some v).
    { rewrite nth_error_app1; [exact Hr|]. apply nth_error_Some. congruence. }
    assert (Hc : nth_error (h ++ [v]) (List.length h) = Some v).
    { rewrite nth_error_app2, Nat.sub_diag by lia. reflexivity. }
    assert (Hn1 : n <= List.length (h ++ [v])).
    { rewrite length_app. simpl. lia. }
    assert (Hlt : List.length h < List.length (h ++ [v])).
    { rewrite length_app. simpl. lia. }
    apply (sound_bind n (holds n)).
    + destruct operation as [request| |newName|name_|request|request|request
                            |stepName_|stepName_ branchIndex_
                            |stepName_ branchIndex_|stepName_ branchIndex_].
      * apply (moveActionAt_sound n _ _ (IH)); assumption.
      * apply (sound_assigned n (List.length h) v
                 (fun v' => {| flowDisplayName := flowDisplayName v';
                               state := LOCKED;
                               trigger := trigger v';
                               flowValid := flowValid v' |})).
        split; assumption.
      * apply (sound_assigned n (List.length h) v
                 (fun v' => {| flowDisplayName := newName;
                               state := state v';
                               trigger := trigger v';
                               flowValid := flowValid v' |})).
        split; assumption.
      * apply transferFlowAt_sound; assumption.
      * apply (sound_bind n (holds n)).
        { apply transferFlowAt_sound; assumption. }
        intros h1 r1 v1 _ Hlen1 [_ Hv1].
        apply transferFlowAt_sound; [lia|exact Hv1].
      * apply (sound_bind n (holds n)).
        { apply transferFlowAt_sound; assumption. }
        intros h1 r1 v1 _ Hlen1 [_ Hv1].
        apply transferFlowAt_sound; [lia|exact Hv1].
      * apply (sound_assign n (holds n) (List.length h) v
                 (fun v' =>
                    withTrigger
                      (createTrigger (stepName (trigger v')) request
                         (nextOf (trigger v')))
                      v')
                 _ _
                 (fun v' =>
                    transferFlow fuel v'
                      (fun step => upgradePiece step (treqName request))));
          auto.
        apply transferFlowAt_sound.
        -- rewrite length_setCell by exact Hlt. exact Hn1.
        -- apply nth_error_setCell. exact Hlt.
      * apply (duplicateStepAt_sound n _ _ (IH)); assumption.
      * apply transferFlowAt_sound; assumption.
      * apply transferFlowAt_sound; assumption.
      * apply (duplicateRouterChildAt_sound n _ _ (IH)); assumption.
    + intros h1 r1 v1 _ Hlen1 Hv1.
      apply (sound_assigned n r1 v1
               (fun v' => withFlowValid (isValid v') v')).
      exact Hv1.
Qed.

(** C2.  Whatever the store, the reference and the operation, and
    whether [applyAt] returns a flow version or throws, every cell the
    store had before the call holds after the call what it held
    before: the flow version that was passed in is not written to. *)
Theorem apply_never_mutates_input (fuel : nat) (h : Heap)
  (flowVersion : Ref) (operation : FlowOperationRequest) :
  firstn (List.length h) (snd (applyAt fuel flowVersion operation h)) = h.
Proof.
  destruct (nth_error h flowVersion) as [v|] eqn:Hr.
  - destruct (applyAt_sound (List.length h) fuel flowVersion v h operation
                (le_n _) Hr) as [H _].
    rewrite H. apply firstn_all.
  - destruct fuel as [|fuel]; [apply firstn_all|].
    cbn [applyAt]. unfold bindM at 1. unfold jsonCloneAt. rewrite Hr.
    apply firstn_all.
Qed.

(** On the flow version its argument holds, [applyAt] ends as [apply]
    does, and what it returns is held by a new cell. *)
Lemma applyAt_refines (fuel : nat) (h : Heap) (flowVersion : Ref)
  (v : FlowVersion) (operation : FlowOperationRequest) :
  nth_error h flowVersion = Some v ->
  agree (holds (List.length h))
    (snd (applyAt fuel flowVersion operation h))
    (fst (applyAt fuel flowVersion operation h))
    (apply fuel v operation).
Proof.
  intros Hr.
  exact (proj2 (proj2 (applyAt_sound (List.length h) fuel flowVersion v h
                         operation (le_n _) Hr))).
Qed.

End ApplyAt.

(** The copy [apply] starts with matters: called on a reference of its
    own, the handler of [DUPLICATE_BRANCH] writes to the flow version
    it is given. *)
Lemma duplicate_branch_handler_writes_its_argument :
  exists h',
    snd (duplicateRouterChildAt (E := referenceExternals)
           (applyAt (E := referenceExternals) 5) 5 "step_1" 0 0 [routerFlow])
    = h'
    /\ nth_error h' 0 <> Some routerFlow
    /\ firstn 1
         (snd (applyAt (E := referenceExternals) 6 0
                 (DUPLICATE_BRANCH "step_1" 0) [routerFlow]))
       = [routerFlow].
Proof.
  eexists. split; [reflexivity|]. split; [discriminate|reflexivity].
Qed.

(* ================================================================== *)
(** ** Operations that find nothing to do *)
(* ================================================================== *)

(** The names of the steps below the root of a tree. *)
Definition namesBelow (step : Step) : list string :=
  flat_map stepNamesOpt (slots step).

Lemma slot_head_below step s a :
  In s (traverseInternal step) -> In (Some a) (slots s) ->
  In (stepName a) (namesBelow step).
Proof.
  intros Hs Ha. apply in_steps_names.
  rewrite traverseInternal_slots in Hs. destruct Hs as [<-|Hs].
  - apply in_own_slot. exact Ha.
  - eapply below_trans; [exact Hs|].
    apply (in_traverse_slot s (Some a) a Ha). apply traverseInternal_self.
Qed.

Lemma namesBelow_names step : incl (namesBelow step) (stepNames step).
Proof. intros y Hy. rewrite stepNames_slots. right. exact Hy. Qed.

Lemma isValid_withFlowValid v fv : isValid (withFlowValid v fv) = isValid fv.
Proof. reflexivity. Qed.

Section NothingToDo.

Context {E : Externals}.

Lemma recreate_other request slot :
  (forall a, slot = Some a -> stepName a <> reqName request) ->
  recreate request slot = Returns slot.
Proof.
  intros H. destruct slot as [a|]; [|reflexivity]. simpl.
  destruct (String.eqb (stepName a) (reqName request)) eqn:Hname;
    [|reflexivity].
  apply String.eqb_eq in Hname. elim (H a eq_refl Hname).
Qed.

Lemma recreateFirstChild_other request c :
  (forall a, In (Some a) c -> stepName a <> reqName request) ->
  recreateFirstChild request c = Returns c.
Proof.
  induction c as [|[a|] c IH]; intros H; simpl; [reflexivity| |].
  - destruct (String.eqb (stepName a) (reqName request)) eqn:Hname.
    + apply String.eqb_eq in Hname. elim (H a (or_introl eq_refl) Hname).
    + rewrite IH; [reflexivity|]. intros b Hb. apply H. right. exact Hb.
  - rewrite IH; [reflexivity|]. intros b Hb. apply H. right. exact Hb.
Qed.

Lemma updateActionFn_other request s :
  (forall a, In (Some a) (slots s) -> stepName a <> reqName request) ->
  updateActionFn request s = Returns s.
Proof.
  intros H. unfold updateActionFn.
  destruct s as [t p n|p sc fl n|p b n|p c n]; cbn [nextOf];
    change (forall a, In (Some a) [n] -> stepName a <> reqName request) in H
    || change (forall a, In (Some a) [sc; fl; n] ->
                 stepName a <> reqName request) in H
    || change (forall a, In (Some a) [b; n] ->
                 stepName a <> reqName request) in H
    || change (forall a, In (Some a) (c ++ [n]) ->
                 stepName a <> reqName request) in H.
  - rewrite (recreate_other request n); [reflexivity|].
    intros a ->. apply H. left. reflexivity.
  - rewrite (recreate_other request n), (recreate_other request fl),
      (recreate_other request sc); [reflexivity| | |];
      intros a ->; apply H; simpl; auto.
  - rewrite (recreate_other request n), (recreate_other request b);
      [reflexivity| |]; intros a ->; apply H; simpl; auto.
  - rewrite (recreate_other request n), (recreateFirstChild_other request c);
      [reflexivity| |].
    + intros a Ha. apply H. apply in_or_app. left. exact Ha.
    + intros a ->. apply H. apply in_or_app. right. left. reflexivity.
Qed.

(** X1.  [DELETE_ACTION] of a name that no step below the trigger
    bears, so of an unknown name and, when names are distinct, of the
    name of the trigger, raises no error and returns the flow as it
    was, [valid] computed anew. *)
Theorem delete_unknown_step_changes_nothing (flowVersion : FlowVersion)
  (name_ : string) (fuel : nat) :
  ~ In name_ (namesBelow (trigger flowVersion)) ->
  height (trigger flowVersion) < fuel ->
  apply fuel flowVersion (DELETE_ACTION name_)
  = Returns (withFlowValid (isValid flowVersion) flowVersion).
Proof.
  intros Hno Hfuel. destruct fuel as [|fuel]; [lia|]. simpl.
  unfold deleteAction, transferFlow. simpl.
  rewrite transfer_identity; [simpl; rewrite withTrigger_same; reflexivity
                             |lia|].
  intros s Hs. apply deleteActionFn_other. intros a Ha Hname.
  apply Hno. rewrite <- Hname. eapply slot_head_below; eauto.
Qed.

(** X2.  [ADD_ACTION] under a parent that is no step of the flow, of a
    step whose name the flow does not use, raises no error and adds
    nothing: the flow comes back as it was, [valid] computed anew. *)
Theorem add_under_unknown_parent_changes_nothing (flowVersion : FlowVersion)
  (request : AddActionRequest) (fuel : nat) :
  ~ In (parentStep request) (stepNames (trigger flowVersion)) ->
  ~ In (reqName (action request)) (stepNames (trigger flowVersion)) ->
  height (trigger flowVersion) < fuel ->
  apply fuel flowVersion (ADD_ACTION request)
  = Returns (withFlowValid (isValid flowVersion) flowVersion).
Proof.
  intros Hparent Hname Hfuel. destruct fuel as [|fuel]; [lia|]. simpl.
  unfold addAction, transferFlow. simpl.
  rewrite transfer_identity; [simpl|lia|].
  - rewrite transfer_identity; [simpl; rewrite withTrigger_same; reflexivity
                               |lia|].
    intros s Hs. apply upgradePiece_localTo. intros [Heq|[]].
    apply Hname. rewrite Heq. unfold stepNames. apply in_map. exact Hs.
  - intros s Hs. apply addActionFn_other. intros Heq.
    apply Hparent. rewrite <- Heq. unfold stepNames. apply in_map. exact Hs.
Qed.

(** X3.  [UPDATE_ACTION] of a name that no step of the flow bears
    raises no error and updates nothing: the flow comes back as it was,
    [valid] computed anew. *)
Theorem update_unknown_step_changes_nothing (flowVersion : FlowVersion)
  (request : UpdateActionRequest) (fuel : nat) :
  ~ In (reqName request) (stepNames (trigger flowVersion)) ->
  height (trigger flowVersion) < fuel ->
  apply fuel flowVersion (UPDATE_ACTION request)
  = Returns (withFlowValid (isValid flowVersion) flowVersion).
Proof.
  intros Hname Hfuel. destruct fuel as [|fuel]; [lia|]. simpl.
  unfold updateAction, transferFlow. simpl.
  rewrite transfer_identity; [simpl|lia|].
  - rewrite transfer_identity; [simpl; rewrite withTrigger_same; reflexivity
                               |lia|].
    intros s Hs. apply upgradePiece_localTo. intros [Heq|[]].
    apply Hname. rewrite Heq. unfold stepNames. apply in_map. exact Hs.
  - intros s Hs. apply updateActionFn_other. intros a Ha Heq.
    apply Hname. rewrite <- Heq. apply namesBelow_names.
    eapply slot_head_below; eauto.
Qed.

End NothingToDo.

Lemma delete_unknown_step_changes_nothing_witness :
  apply (E := referenceExternals) 5 chainFlow (DELETE_ACTION "step_9")
  = Returns (withFlowValid (isValid chainFlow) chainFlow)
  /\ apply (E := referenceExternals) 5 chainFlow (DELETE_ACTION "trigger")
     = Returns (withFlowValid (isValid chainFlow) chainFlow).
Proof.
  split;
    apply (delete_unknown_step_changes_nothing (E := referenceExternals));
    simpl; try lia; intuition discriminate.
Defined.

Lemma add_under_unknown_parent_changes_nothing_witness :
  apply (E := referenceExternals) 5 chainFlow
    (addUnder "step_9" AFTER (code "step_4" None))
  = Returns (withFlowValid (isValid chainFlow) chainFlow).
Proof.
  apply (add_under_unknown_parent_changes_nothing (E := referenceExternals)
           chainFlow
           {| parentStep := "step_9";
              stepLocationRelativeToParent := Some AFTER;
              branchIndex := None; addBranchName := None;
              action := requestOfStep (code "step_4" None) |} 5);
    simpl; try lia; intuition discriminate.
Defined.

Lemma update_unknown_step_changes_nothing_witness :
  apply (E := referenceExternals) 5 chainFlow
    (UPDATE_ACTION (requestOfStep (code "step_9" None)))
  = Returns (withFlowValid (isValid chainFlow) chainFlow).
Proof.
  apply (update_unknown_step_changes_nothing (E := referenceExternals)
           chainFlow (requestOfStep (code "step_9" None)) 5);
    simpl; try lia; intuition discriminate.
Defined.

(* ================================================================== *)
(** ** What [DELETE_ACTION] removes *)
(* ================================================================== *)

Lemma findByName_absent target step :
  ~ In target (stepNames step) ->
  findByName target (traverseInternal step) = None.
Proof.
  intros H. unfold findByName.
  destruct (find _ _) as [x|] eqn:Hfind; [|reflexivity].
  apply find_some in Hfind. destruct Hfind as [Hx Hname].
  apply String.eqb_eq in Hname. exfalso. apply H. rewrite <- Hname.
  unfold stepNames, getAllSteps. apply in_map. exact Hx.
Qed.

Section DeleteAction.

Context {E : Externals}.

(** X4.  In a flow with distinct step names let a slot of [Q] hold
    [S].  With enough recursion budget [DELETE_ACTION] of [S] returns
    the flow in which that slot holds the successor of [S]: the steps
    of the result are those of the flow without [S] and without the
    steps in the structural slots of [S], the successors of [S] stay,
    and the name of [S] is no longer found. *)
Theorem delete_action_removes_step_and_inner_steps
  (flowVersion : FlowVersion) (Q S : Step)
  (before after : list (option Step)) :
  NoDup (stepNames (trigger flowVersion)) ->
  In Q (getAllSteps (trigger flowVersion)) ->
  slots Q = before ++ Some S :: after ->
  exists fuel0, forall fuel, fuel0 <= fuel ->
    exists deleted,
      apply fuel flowVersion (DELETE_ACTION (stepName S)) = Returns deleted
      /\ trigger deleted = withoutSource flowVersion Q S before after
      /\ Permutation (stepNames (trigger flowVersion))
           (removedNames S ++ stepNames (trigger deleted))
      /\ getStep deleted (stepName S) = None.
Proof.
  intros Hnd HQ Hslots.
  destruct (delete_settles _ Q S before after Hnd HQ Hslots) as [fuel0 H0].
  exists (Datatypes.S fuel0). intros [|fuel] Hfuel; [lia|].
  eexists. split.
  - simpl. unfold deleteAction, transferFlow. simpl.
    rewrite H0 by lia. reflexivity.
  - simpl. split; [reflexivity|].
    pose proof (removed_names _ Q S before after Hnd HQ Hslots) as Hperm.
    split; [exact Hperm|].
    unfold getStep, getAllSteps. simpl. apply findByName_absent.
    intros Hin.
    pose proof (Permutation_NoDup Hperm Hnd) as Hnd'.
    apply (NoDup_app_disjoint _ _ (stepName S) Hnd'); [left; reflexivity|].
    exact Hin.
Qed.

End DeleteAction.

Lemma delete_action_removes_step_and_inner_steps_witness :
  exists fuel0, forall fuel, fuel0 <= fuel ->
    exists deleted,
      apply (E := referenceExternals) fuel loopInChainFlow
        (DELETE_ACTION "step_2") = Returns deleted
      /\ trigger deleted
         = withoutSource loopInChainFlow loopOwner movedLoop [] []
      /\ Permutation (stepNames (trigger loopInChainFlow))
           (removedNames movedLoop ++ stepNames (trigger deleted))
      /\ getStep deleted "step_2" = None.
Proof.
  apply (delete_action_removes_step_and_inner_steps
           (E := referenceExternals) loopInChainFlow loopOwner movedLoop
           [] []).
  - repeat constructor; simpl; intuition discriminate.
  - simpl. tauto.
  - reflexivity.
Defined.

(* ================================================================== *)
(** ** Operations that are refused *)
(* ================================================================== *)

Section Refused.

Context {E : Externals}.

(** X5.  [MOVE_ACTION] is refused with a [FLOW_OPERATION_INVALID]
    error.  When the source is no step of the flow or is a trigger,
    the message is [Source step <name> not found], whatever the new
    parent is: the source is looked up first.  When the source is an
    action of the flow and the new parent is no step of the flow, the
    message is [Destination step <name> not found]. *)
Theorem move_action_needs_source_and_destination
  (flowVersion : FlowVersion) (request : MoveActionRequest) (fuel : nat) :
  (match getStep flowVersion (moveName request) with
   | Some source => isAction (typeOf source) = false
   | None => True
   end ->
   apply (S fuel) flowVersion (MOVE_ACTION request)
   = Throws (ActivepiecesError FLOW_OPERATION_INVALID
               ("Source step " ^^ moveName request ^^ " not found")))
  /\ (forall source,
        getStep flowVersion (moveName request) = Some source ->
        isAction (typeOf source) = true ->
        getStep flowVersion (newParentStep request) = None ->
        apply (S fuel) flowVersion (MOVE_ACTION request)
        = Throws (ActivepiecesError FLOW_OPERATION_INVALID
                    ("Destination step " ^^ newParentStep request
                     ^^ " not found"))).
Proof.
  split.
  - intros H. simpl. unfold moveAction, getStep in *.
    destruct (findByName (moveName request) _) as [source|];
      [|reflexivity].
    rewrite H. reflexivity.
  - intros source Hsource Haction Hdest. simpl.
    unfold moveAction, getStep in *.
    rewrite Hsource, Haction, Hdest. reflexivity.
Qed.

(** X6.  [DUPLICATE_BRANCH] of a name that is not the name of a router
    returns no flow: for a name no step bears it throws the error
    [step with name '...' not found], for a step that is no router,
    which has no [children], a [TypeError]; neither is a
    [FLOW_OPERATION_INVALID] error. *)
Theorem duplicate_branch_needs_router (flowVersion : FlowVersion)
  (routerName : string) (childIndex : Z) (fuel : nat) :
  (getStep flowVersion routerName = None ->
   apply (S fuel) flowVersion (DUPLICATE_BRANCH routerName childIndex)
   = Throws (Error ("step with name '" ^^ routerName ^^ "' not found")))
  /\ (forall step,
        getStep flowVersion routerName = Some step ->
        typeOf step <> OfAction ROUTER ->
        apply (S fuel) flowVersion (DUPLICATE_BRANCH routerName childIndex)
        = Throws TypeError)
  /\ isFlowOperationInvalid
       (Error ("step with name '" ^^ routerName ^^ "' not found")) = false
  /\ isFlowOperationInvalid TypeError = false.
Proof.
  split; [|split; [|split; reflexivity]].
  - intros H. simpl. unfold duplicateRouterChild. rewrite H. reflexivity.
  - intros step H Hty. simpl. unfold duplicateRouterChild. rewrite H.
    destruct step as [t p n|p s f n|p b n|p c n]; try reflexivity.
    elim Hty. reflexivity.
Qed.

End Refused.

Lemma move_action_needs_source_and_destination_witness :
  apply (E := referenceExternals) 3 chainFlow (moveAfter "trigger" "step_9")
  = Throws (ActivepiecesError FLOW_OPERATION_INVALID
              "Source step trigger not found")
  /\ apply (E := referenceExternals) 3 chainFlow (moveAfter "step_1" "step_9")
     = Throws (ActivepiecesError FLOW_OPERATION_INVALID
                 "Destination step step_9 not found").
Proof.
  split.
  - apply (proj1 (move_action_needs_source_and_destination
                    (E := referenceExternals)
                    chainFlow (moveAfterRequest "trigger" "step_9") 2)).
    reflexivity.
  - apply (proj2 (move_action_needs_source_and_destination
                    (E := referenceExternals)
                    chainFlow (moveAfterRequest "step_1" "step_9") 2)
             (code "step_1"
                (Some (code "step_2" (Some (code "step_3" None))))));
      reflexivity.
Defined.

Lemma duplicate_branch_needs_router_witness :
  apply (E := referenceExternals) 3 chainFlow (DUPLICATE_BRANCH "step_9" 0)
  = Throws (Error "step with name 'step_9' not found")
  /\ apply (E := referenceExternals) 3 chainFlow (DUPLICATE_BRANCH "step_1" 0)
     = Throws TypeError.
Proof.
  split.
  - apply (proj1 (duplicate_branch_needs_router (E := referenceExternals)
                    chainFlow "step_9" 0 2)).
    reflexivity.
  - apply (proj1 (proj2 (duplicate_branch_needs_router
                           (E := referenceExternals) chainFlow "step_1" 0 2))
             (code "step_1"
                (Some (code "step_2" (Some (code "step_3" None))))));
      [reflexivity|discriminate].
Defined.

(* ================================================================== *)
(** ** Unused names *)
(* ================================================================== *)

Lemma to_uint_not_Nil n : Nat.to_uint n <> Decimal.Nil.
Proof.
  intros H. pose proof (DecimalNat.Unsigned.of_to n) as Hn.
  rewrite H in Hn. simpl in Hn. subst n. discriminate.
Qed.

Lemma decimal_inj n m : decimal n = decimal m -> n = m.
Proof.
  unfold decimal. intros H. apply DecimalNat.Unsigned.to_uint_inj.
  pose proof (NilZero.usu _ (to_uint_not_Nil n)) as Hn.
  pose proof (NilZero.usu _ (to_uint_not_Nil m)) as Hm.
  rewrite H in Hn. congruence.
Qed.

Lemma append_inj_r (s a b : string) : s ^^ a = s ^^ b -> a = b.
Proof.
  induction s as [|c s IH]; simpl; intros H; [exact H|].
  inversion H. auto.
Qed.

(** The name [findUnusedName] tries at number [i]. *)
Definition candidateName (stepPrefix : string) (i : nat) : string :=
  stepPrefix ^^ "_" ^^ decimal i.

Lemma candidateName_inj stepPrefix i j :
  candidateName stepPrefix i = candidateName stepPrefix j -> i = j.
Proof.
  unfold candidateName. intros H.
  apply append_inj_r in H. apply append_inj_r in H.
  apply decimal_inj. exact H.
Qed.

Lemma includes_In names x : includes names x = true <-> In x names.
Proof.
  unfold includes. rewrite existsb_exists. split.
  - intros [y [Hy Heq]]. apply String.eqb_eq in Heq. subst y. exact Hy.
  - intros H. exists x. split; [exact H|apply String.eqb_refl].
Qed.

(** The loop of [findUnusedName] from [i] up to the first free number
    [k]. *)
Lemma findUnusedNameFrom_reaches names stepPrefix (k : nat) :
  includes names (candidateName stepPrefix k) = false ->
  forall (fuel i : nat),
    i <= k -> k - i <= fuel ->
    (forall j, i <= j < k ->
       includes names (candidateName stepPrefix j) = true) ->
    findUnusedNameFrom fuel names stepPrefix i
    = Returns (candidateName stepPrefix k).
Proof.
  unfold candidateName. intros Hfree.
  induction fuel as [|fuel IH]; intros i Hik Hfuel Hused.
  - assert (i = k) by lia. subst i. cbn [findUnusedNameFrom].
    rewrite Hfree. reflexivity.
  - destruct (Nat.eq_dec i k) as [->|Hne].
    + cbn [findUnusedNameFrom]. rewrite Hfree. reflexivity.
    + cbn [findUnusedNameFrom].
      rewrite (Hused i) by lia. apply IH; [lia|lia|].
      intros j Hj. apply Hused. lia.
Qed.

(** Among the numbers from [i] on, as many as there are names and one
    more, one gives a name that is not among the names. *)
Lemma some_candidate_is_free names stepPrefix (i : nat) :
  exists k, i <= k <= i + List.length names
    /\ includes names (candidateName stepPrefix k) = false.
Proof.
  destruct (forallb (fun j => includes names (candidateName stepPrefix j))
              (seq i (Datatypes.S (List.length names)))) eqn:Hall.
  - exfalso. rewrite forallb_forall in Hall.
    assert (Hincl : incl (map (candidateName stepPrefix)
                            (seq i (Datatypes.S (List.length names))))
                      names).
    { intros x Hx. apply in_map_iff in Hx. destruct Hx as [j [<- Hj]].
      apply includes_In. apply Hall. exact Hj. }
    assert (Hnd : NoDup (map (candidateName stepPrefix)
                           (seq i (Datatypes.S (List.length names))))).
    { apply Finite.Injective_map_NoDup; [|apply seq_NoDup].
      intros a b. apply candidateName_inj. }
    pose proof (NoDup_incl_length Hnd Hincl) as Hlen.
    rewrite length_map, length_seq in Hlen. lia.
  - assert (Hex : existsb (fun j => negb (includes names
                                           (candidateName stepPrefix j)))
                    (seq i (Datatypes.S (List.length names))) = true).
    { clear -Hall. induction (seq i (Datatypes.S (List.length names)))
        as [|j l IH]; simpl in *; [discriminate|].
      destruct (includes names (candidateName stepPrefix j)); simpl in *;
        auto. }
    apply existsb_exists in Hex. destruct Hex as [k [Hk Hfree]].
    apply in_seq in Hk. exists k. split; [lia|].
    destruct (includes names (candidateName stepPrefix k));
      [discriminate|reflexivity].
Qed.

(** The least free number from [i] on. *)
Lemma least_free_candidate names stepPrefix (n : nat) :
  forall i k, k - i <= n -> i <= k ->
    includes names (candidateName stepPrefix k) = false ->
    exists k', i <= k' <= k
      /\ includes names (candidateName stepPrefix k') = false
      /\ forall j, i <= j < k' ->
           includes names (candidateName stepPrefix j) = true.
Proof.
  induction n as [|n IH]; intros i k Hn Hik Hfree.
  - exists k. split; [lia|]. split; [exact Hfree|]. intros j Hj. lia.
  - destruct (includes names (candidateName stepPrefix i)) eqn:Hi.
    + destruct (Nat.eq_dec i k) as [->|Hne]; [congruence|].
      destruct (IH (Datatypes.S i) k) as [k' [H1 [H2 H3]]]; [lia|lia|auto|].
      exists k'. split; [lia|]. split; [exact H2|].
      intros j Hj. destruct (Nat.eq_dec j i) as [->|Hji]; [exact Hi|].
      apply H3. lia.
    + exists i. split; [lia|]. split; [exact Hi|]. intros j Hj. lia.
Qed.

(** X7.  Given a recursion budget of at least the number of names,
    [findUnusedName] returns the name [<prefix>_<k>] for the least
    number [k], counted from 1, whose name is not among the names; [k]
    is at most the number of names plus one. *)
Theorem findUnusedName_least_free (names : list string)
  (stepPrefix : string) (fuel : nat) :
  List.length names <= fuel ->
  exists k,
    findUnusedName fuel names stepPrefix
    = Returns (stepPrefix ^^ "_" ^^ decimal k)
    /\ 1 <= k <= Datatypes.S (List.length names)
    /\ ~ In (stepPrefix ^^ "_" ^^ decimal k) names
    /\ forall j, 1 <= j < k -> In (stepPrefix ^^ "_" ^^ decimal j) names.
Proof.
  intros Hfuel.
  destruct (some_candidate_is_free names stepPrefix 1) as [k0 [Hk0 Hfree0]].
  destruct (least_free_candidate names stepPrefix (k0 - 1) 1 k0)
    as [k [Hk [Hfree Hused]]]; [lia|lia|exact Hfree0|].
  exists k. fold (candidateName stepPrefix k). split.
  - unfold findUnusedName.
    apply findUnusedNameFrom_reaches; [exact Hfree|lia|lia|exact Hused].
  - split; [lia|]. split.
    + intros Hin. apply includes_In in Hin. congruence.
    + intros j Hj. apply includes_In. apply Hused. exact Hj.
Qed.

Lemma findUnusedName_least_free_witness :
  exists k,
    findUnusedName 3 ["step_1"; "trigger"; "step_3"] "step"
    = Returns ("step" ^^ "_" ^^ decimal k)
    /\ 1 <= k <= 4
    /\ ~ In ("step" ^^ "_" ^^ decimal k) ["step_1"; "trigger"; "step_3"]
    /\ forall j, 1 <= j < k ->
         In ("step" ^^ "_" ^^ decimal j) ["step_1"; "trigger"; "step_3"].
Proof.
  apply (findUnusedName_least_free ["step_1"; "trigger"; "step_3"] "step" 3).
  simpl. lia.
Defined.

(* ================================================================== *)
(** ** Queries on the steps of a flow *)
(* ================================================================== *)

(** [self.indexOf(value)]: the first position of the value, [-1] when
    it is absent. *)
Fixpoint indexOfFrom (x : string) (l : list string) (i : nat) : Z :=
  match l with
  | [] => (-1)%Z
  | y :: l' => if String.eqb y x then Z.of_nat i else indexOfFrom x l' (S i)
  end.

Definition indexOf (x : string) (l : list string) : Z := indexOfFrom x l 0.

(** [a.filter((value, index) => ...)], from position [i] on. *)
Fixpoint filterWithIndex {A} (keep : A -> nat -> bool) (l : list A) (i : nat)
  : list A :=
  match l with
  | [] => []
  | a :: l' =>
      if keep a i then a :: filterWithIndex keep l' (S i)
      else filterWithIndex keep l' (S i)
  end.

Definition getUsedPieces (trigger_ : Step) : list string :=
  let self :=
    map (fun step => pieceName (settings (propsOf step)))
      (filter isPieceStep (traverseInternal trigger_)) in
  filterWithIndex
    (fun value index => Z.eqb (indexOf value self) (Z.of_nat index)) self 0.

(** [getAllDirectChildStepsForLoop]; [firstLoopAction] of another step
    is [undefined]. *)
Definition getAllDirectChildStepsForLoop (action_ : Step) : list Step :=
  match action_ with
  | LoopOnItemsAction _ b _ => chainFrom b
  | _ => []
  end.

Inductive BranchSide := success | failure.

Definition getAllDirectChildStepsForBranch (action_ : Step)
  (branch : BranchSide) : list Step :=
  match action_, branch with
  | BranchAction _ s _ _, success => chainFrom s
  | BranchAction _ _ f _, failure => chainFrom f
  | _, _ => []
  end.

(** [getAllChildSteps]: the body of a loop, both sides of a branch, and
    for a router what follows the head of each child, the heads left
    out. *)
Definition getAllChildSteps (action_ : Step) : list Step :=
  match action_ with
  | LoopOnItemsAction _ b _ => traverseOpt b
  | RouterAction _ c _ =>
      flat_map
        (fun child =>
           match child with
           | Some a => traverseOpt (nextOf a)
           | None => []
           end) c
  | BranchAction _ s f _ => traverseOpt s ++ traverseOpt f
  | SimpleStep _ _ _ => []
  end.

Definition hasName (name_ : string) (step : Step) : bool :=
  String.eqb (stepName step) name_.

(** [isChildOf]: for a router the heads of its children are looked at,
    for the others [getAllChildSteps]. *)
Definition isChildOf (parent : Step) (childStepName : string) : bool :=
  match parent with
  | RouterAction _ c _ =>
      existsb (hasName childStepName)
        (flat_map (fun child =>
                     match child with Some a => [a] | None => [] end) c)
  | _ => existsb (hasName childStepName) (getAllChildSteps parent)
  end.

Definition isPartOfInnerFlow (parentStep_ : Step) (childName : string)
  : bool :=
  existsb (hasName childName) (getAllSteps (setNext None parentStep_)).

Definition getStepFromSubFlow (subFlowStartStep : Step) (stepName_ : string)
  : option Step :=
  findByName stepName_ (getAllSteps subFlowStartStep).

Definition doesActionHaveChildren (action_ : Step) : bool :=
  match typeOf action_ with
  | OfAction BRANCH | OfAction LOOP_ON_ITEMS => true
  | _ => false
  end.

(** [steps.map((step, dfsIndex) => ({ ...step, dfsIndex }))] *)
Definition withDfsIndex (steps : list Step) : list (Step * nat) :=
  combine steps (seq 0 (List.length steps)).

Definition findPathToStep (targetStepName : string) (trigger_ : Step)
  : list (Step * nat) :=
  filter (fun step => negb (hasName targetStepName (fst step)))
    (filter (fun step =>
               existsb (hasName targetStepName) (getAllSteps (fst step)))
       (withDfsIndex (getAllSteps trigger_))).

(* ------------------------------------------------------------------ *)
(** *** [getUsedPieces] *)

Lemma indexOfFrom_absent x l (i : nat) :
  ~ In x l -> indexOfFrom x l i = (-1)%Z.
Proof.
  revert i. induction l as [|y l IH]; intros i H; [reflexivity|]. simpl.
  destruct (String.eqb y x) eqn:Hyx.
  - apply String.eqb_eq in Hyx. elim H. left. exact Hyx.
  - apply IH. intros Hin. apply H. right. exact Hin.
Qed.

Lemma indexOfFrom_present x l (i : nat) :
  In x l ->
  (Z.of_nat i <= indexOfFrom x l i < Z.of_nat (i + List.length l))%Z.
Proof.
  revert i. induction l as [|y l IH]; intros i H; [contradiction|]. simpl.
  destruct (String.eqb y x) eqn:Hyx; [lia|].
  destruct H as [H|H]; [subst y; rewrite String.eqb_refl in Hyx; discriminate|].
  specialize (IH (S i) H). lia.
Qed.

Lemma indexOfFrom_app x pre rest (i : nat) :
  indexOfFrom x (pre ++ rest) i
  = if includes pre x then indexOfFrom x pre i
    else indexOfFrom x rest (i + List.length pre).
Proof.
  revert i. induction pre as [|y pre IH]; intros i; simpl.
  - rewrite Nat.add_0_r. reflexivity.
  - rewrite (String.eqb_sym x y).
    destruct (String.eqb y x); simpl; [reflexivity|].
    rewrite IH. replace (S i + List.length pre) with (i + S (List.length pre))
      by lia. reflexivity.
Qed.

(** Is the element at position [length pre] of [pre ++ x :: rest] the
    first [x]? *)
Lemma first_occurrence x pre rest :
  Z.eqb (indexOf x (pre ++ x :: rest)) (Z.of_nat (List.length pre))
  = negb (includes pre x).
Proof.
  unfold indexOf. rewrite indexOfFrom_app.
  destruct (includes pre x) eqn:Hin; simpl.
  - apply includes_In in Hin.
    pose proof (indexOfFrom_present x pre 0 Hin) as H. simpl in H.
    apply Z.eqb_neq. lia.
  - rewrite String.eqb_refl. apply Z.eqb_refl.
Qed.

Lemma keep_first_occurrences (suf : list string) :
  forall pre,
    let kept :=
      filterWithIndex
        (fun value index =>
           Z.eqb (indexOf value (pre ++ suf)) (Z.of_nat index))
        suf (List.length pre) in
    NoDup kept /\ forall x, In x kept <-> In x suf /\ ~ In x pre.
Proof.
  induction suf as [|x suf IH]; intros pre; simpl.
  - split; [constructor|]. intros x. tauto.
  - specialize (IH (pre ++ [x])). simpl in IH.
    rewrite <- app_assoc, length_app in IH. simpl in IH.
    rewrite Nat.add_1_r in IH. destruct IH as [Hnd Hin].
    rewrite first_occurrence.
    destruct (includes pre x) eqn:Hx; simpl.
    + apply includes_In in Hx. split; [exact Hnd|].
      intros y. rewrite Hin. rewrite in_app_iff. simpl.
      split.
      * intros [H1 H2]. split; [right; exact H1|]. tauto.
      * intros [[->|H1] H2]; [contradiction|]. split; [exact H1|].
        intros [H|[->|[]]]; contradiction.
    + assert (Hnot : ~ In x pre).
      { intros H. apply includes_In in H. congruence. }
      split.
      * constructor; [|exact Hnd]. rewrite Hin, in_app_iff. simpl. tauto.
      * intros y. simpl. rewrite Hin, in_app_iff. simpl.
        destruct (string_dec x y) as [->|Hne]; [tauto|]. split.
        -- intros [H|[H1 H2]]; [contradiction|]. tauto.
        -- intros [[H|H1] H2]; [contradiction|]. right. split; [exact H1|].
           intros [H|[H|[]]]; [contradiction|]. apply Hne. exact H.
Qed.

(** X8.  [getUsedPieces] lists the piece names of the piece actions and
    piece triggers of the flow: each such name once, and no other
    name. *)
Theorem getUsedPieces_each_piece_once (trigger_ : Step) :
  NoDup (getUsedPieces trigger_)
  /\ forall pieceName_,
       In pieceName_ (getUsedPieces trigger_) <->
       exists step,
         In step (getAllSteps trigger_) /\ isPieceStep step = true
         /\ pieceName (settings (propsOf step)) = pieceName_.
Proof.
  unfold getUsedPieces, getAllSteps.
  destruct (keep_first_occurrences
              (map (fun step => pieceName (settings (propsOf step)))
                 (filter isPieceStep (traverseInternal trigger_))) [])
    as [Hnd Hin].
  simpl in Hnd, Hin. split; [exact Hnd|].
  intros x. rewrite Hin, in_map_iff. split.
  - intros [[step [Hname Hstep]] _]. apply filter_In in Hstep.
    exists step. tauto.
  - intros [step [H1 [H2 H3]]]. split; [|tauto].
    exists step. split; [exact H3|]. apply filter_In. tauto.
Qed.

(* ------------------------------------------------------------------ *)
(** *** First-level steps and inner flows *)

Lemma stepNames_inner step :
  stepNames (setNext None step)
  = stepName step :: flat_map stepNamesOpt (structuralSlots step).
Proof.
  rewrite stepNames_slots, slots_structural, structuralSlots_setNext,
    nextOf_setNext, stepName_setNext, flat_map_app.
  simpl. rewrite app_nil_r. reflexivity.
Qed.

Lemma stepNames_by_first_level (k : nat) :
  forall step, height step <= k ->
    stepNames step
    = flat_map (fun s => stepNames (setNext None s))
        (getAllStepsAtFirstLevel step).
Proof.
  induction k as [|k IH]; intros step Hh.
  - pose proof (height_pos step). lia.
  - rewrite getAllStepsAtFirstLevel_unfold. simpl. rewrite stepNames_inner.
    rewrite stepNames_slots, slots_structural, flat_map_app. simpl.
    f_equal. f_equal. rewrite app_nil_r.
    destruct (nextOf step) as [a|] eqn:Hn; [|reflexivity]. simpl.
    apply IH.
    assert (Hin : In (Some a) (slots step)).
    { rewrite slots_structural, Hn. apply in_or_app. right. left.
      reflexivity. }
    pose proof (height_slot step _ Hin) as Hlt. simpl in Hlt. lia.
Qed.

Lemma hasName_exists name_ steps :
  existsb (hasName name_) steps = true <-> In name_ (map stepName steps).
Proof.
  rewrite existsb_exists, in_map_iff. unfold hasName.
  split; intros [x [H1 H2]]; exists x.
  - apply String.eqb_eq in H2. auto.
  - split; [exact H2|]. apply String.eqb_eq. exact H1.
Qed.

Lemma isPartOfInnerFlow_names parentStep_ childName :
  isPartOfInnerFlow parentStep_ childName = true <->
  In childName (stepNames (setNext None parentStep_)).
Proof. apply hasName_exists. Qed.

(** X9.  The first-level steps of a flow are steps of the flow, and a
    name is the name of a step of the flow exactly when it is part of
    the inner flow of one of the first-level steps. *)
Theorem steps_are_inner_flows_of_first_level (trigger_ : Step) :
  incl (getAllStepsAtFirstLevel trigger_) (getAllSteps trigger_)
  /\ forall name_,
       In name_ (map stepName (getAllSteps trigger_)) <->
       exists parent,
         In parent (getAllStepsAtFirstLevel trigger_)
         /\ isPartOfInnerFlow parent name_ = true.
Proof.
  split; [apply (first_level_steps _ trigger_ (le_n _))|].
  intros name_. fold (stepNames trigger_).
  rewrite (stepNames_by_first_level _ trigger_ (le_n _)), in_flat_map.
  split; intros [parent [H1 H2]]; exists parent; split; auto;
    apply isPartOfInnerFlow_names; exact H2.
Qed.

(** X10.  A child of a step, as [isChildOf] has it, is part of the
    inner flow of the step; for a step that is no router, the inner
    flow is the step itself and its children. *)
Theorem children_are_part_of_inner_flow (parent : Step)
  (childStepName : string) :
  (isChildOf parent childStepName = true ->
   isPartOfInnerFlow parent childStepName = true)
  /\ (typeOf parent <> OfAction ROUTER ->
      isPartOfInnerFlow parent childStepName
      = hasName childStepName parent || isChildOf parent childStepName).
Proof.
  unfold isPartOfInnerFlow, isChildOf, getAllSteps.
  destruct parent as [t p n|p s f n|p b n|p c n]; simpl;
    rewrite ?app_nil_r; split;
    try (intros _; reflexivity);
    try (intros H; apply orb_true_iff; right; exact H);
    try discriminate; try (intros H; elim H; reflexivity).
  intros H. apply orb_true_iff. right.
  apply existsb_exists in H.
  destruct H as [x [Hx Hname]]. apply existsb_exists. exists x.
  split; [|exact Hname].
  apply in_flat_map in Hx. destruct Hx as [[a|] [Ha Hx]]; [|contradiction].
  destruct Hx as [<-|[]]. apply in_flat_map. exists (Some a).
  split; [exact Ha|apply traverseInternal_self].
Qed.

(* ------------------------------------------------------------------ *)
(** *** [findPathToStep] *)

Lemma in_combine_seq {A} (l : list A) :
  forall (start : nat) a i,
    In (a, i) (combine l (seq start (List.length l))) <->
    start <= i /\ nth_error l (i - start) = Some a.
Proof.
  induction l as [|x l IH]; intros start a i; simpl.
  - split; [contradiction|]. intros [_ H].
    destruct (i - start); discriminate.
  - rewrite IH. split.
    + intros [H|[H1 H2]].
      * inversion H; subst. rewrite Nat.sub_diag. auto.
      * split; [lia|].
        replace (i - start) with (S (i - S start)) by lia. exact H2.
    + intros [H1 H2]. destruct (i - start) as [|j] eqn:Hj.
      * left. inversion H2. f_equal. lia.
      * right. split; [lia|]. replace (i - S start) with j by lia. exact H2.
Qed.

(** X11.  [findPathToStep] returns, each with its position in the
    traversal of the flow, the steps that bear another name than the
    target and from which the target is reached, their successors
    counted in: the steps the target is nested in and the steps that
    come before those or before the target in their chains.  For a
    name no step bears the path is empty. *)
Theorem findPathToStep_steps_reaching_target (targetStepName : string)
  (trigger_ : Step) :
  (forall step dfsIndex,
     In (step, dfsIndex) (findPathToStep targetStepName trigger_) <->
     nth_error (getAllSteps trigger_) dfsIndex = Some step
     /\ In targetStepName (map stepName (getAllSteps step))
     /\ stepName step <> targetStepName)
  /\ (~ In targetStepName (map stepName (getAllSteps trigger_)) ->
      findPathToStep targetStepName trigger_ = []).
Proof.
  assert (Hin : forall step dfsIndex,
            In (step, dfsIndex) (findPathToStep targetStepName trigger_) <->
            nth_error (getAllSteps trigger_) dfsIndex = Some step
            /\ In targetStepName (map stepName (getAllSteps step))
            /\ stepName step <> targetStepName).
  { intros step dfsIndex. unfold findPathToStep, withDfsIndex.
    rewrite !filter_In, in_combine_seq, Nat.sub_0_r. simpl.
    rewrite hasName_exists, negb_true_iff. unfold hasName.
    rewrite String.eqb_neq. split; [tauto|].
    intros [H1 [H2 H3]]. repeat split; auto. lia. }
  split; [exact Hin|].
  intros Habsent.
  destruct (findPathToStep targetStepName trigger_) as [|[step i] l] eqn:Hp;
    [reflexivity|].
  exfalso. destruct (Hin step i) as [H _].
  destruct (H (or_introl eq_refl)) as [Hnth [Htarget _]].
  apply Habsent. apply nth_error_In in Hnth.
  fold (stepNames step) in Htarget. fold (stepNames trigger_).
  apply (subtree_names trigger_ step Hnth). exact Htarget.
Qed.

(* ------------------------------------------------------------------ *)
(** *** Looking a step up by its name *)

(** X12.  [getStepFromSubFlow], and [getStep], which is the same on the
    trigger of a flow, return a step of the sub-flow that bears the
    requested name, [undefined] exactly when no step bears it, and,
    when the names of the sub-flow are distinct, every step of the
    sub-flow for its own name. *)
Theorem getStep_finds_the_named_step (subFlowStartStep : Step) :
  (forall flowVersion stepName_,
     getStep flowVersion stepName_
     = getStepFromSubFlow (trigger flowVersion) stepName_)
  /\ (forall stepName_ step,
        getStepFromSubFlow subFlowStartStep stepName_ = Some step ->
        In step (getAllSteps subFlowStartStep) /\ stepName step = stepName_)
  /\ (forall stepName_,
        getStepFromSubFlow subFlowStartStep stepName_ = None <->
        ~ In stepName_ (map stepName (getAllSteps subFlowStartStep)))
  /\ (NoDup (map stepName (getAllSteps subFlowStartStep)) ->
      forall step, In step (getAllSteps subFlowStartStep) ->
        getStepFromSubFlow subFlowStartStep (stepName step) = Some step).
Proof.
  split; [reflexivity|].
  assert (Hfound : forall stepName_ step,
            getStepFromSubFlow subFlowStartStep stepName_ = Some step ->
            In step (getAllSteps subFlowStartStep)
            /\ stepName step = stepName_).
  { intros stepName_ step H. apply find_some in H. destruct H as [H1 H2].
    apply String.eqb_eq in H2. auto. }
  split; [exact Hfound|]. split.
  - intros stepName_. split.
    + intros H Hin. apply in_map_iff in Hin. destruct Hin as [x [Hname Hx]].
      apply (findByName_none_names _ _ H x Hx). exact Hname.
    + apply findByName_absent.
  - intros Hnd step Hstep.
    destruct (getStepFromSubFlow subFlowStartStep (stepName step))
      as [found|] eqn:Hget.
    + destruct (Hfound _ _ Hget) as [H1 H2]. f_equal.
      apply (distinct_names_determine_step subFlowStartStep); auto.
    + exfalso. apply (findByName_none_names _ _ Hget step Hstep).
      reflexivity.
Qed.

(* ================================================================== *)
(** ** One import operation for each step below the root *)
(* ================================================================== *)

(** The name of the step an operation adds. *)
Definition addedNames (operation : FlowOperationRequest) : list string :=
  match operation with
  | ADD_ACTION request => [reqName (action request)]
  | _ => []
  end.

Lemma addedNames_importAdd parent location index a :
  addedNames (importAdd parent location index a) = [stepName a].
Proof.
  unfold importAdd, addedNames. cbn [action].
  rewrite requestOfStep_stripped. reflexivity.
Qed.

Lemma childImports_added parent :
  forall cs (index : nat),
    (forall a, In (Some a) cs ->
       Permutation (flat_map addedNames (getImportOperations a))
         (namesBelow a)) ->
    Permutation (flat_map addedNames (childImports parent index cs))
      (flat_map stepNamesOpt cs).
Proof.
  induction cs as [|child cs IH]; intros index Hrec;
    cbn [childImports flat_map]; [constructor|].
  rewrite flat_map_app. apply Permutation_app.
  - destruct child as [a|]; [|constructor]. cbn [flat_map stepNamesOpt].
    rewrite addedNames_importAdd. cbn [app]. rewrite stepNames_slots.
    constructor. apply Hrec. left. reflexivity.
  - apply IH. intros a Ha. apply Hrec. right. exact Ha.
Qed.

Lemma slotImports_added parent location slot :
  (forall a, slot = Some a ->
     Permutation (flat_map addedNames (getImportOperations a))
       (namesBelow a)) ->
  Permutation (flat_map addedNames (slotImports parent location slot))
    (stepNamesOpt slot).
Proof.
  intros Hrec. destruct slot as [a|]; [|constructor].
  cbn [slotImports flat_map stepNamesOpt].
  rewrite addedNames_importAdd. cbn [app]. rewrite stepNames_slots.
  constructor. apply Hrec. reflexivity.
Qed.

Lemma structuralImports_added step :
  (forall a, In (Some a) (structuralSlots step) ->
     Permutation (flat_map addedNames (getImportOperations a))
       (namesBelow a)) ->
  Permutation (flat_map addedNames (structuralImports step))
    (flat_map stepNamesOpt (structuralSlots step)).
Proof.
  intros Hrec. destruct step as [t p n|p s f n|p b n|p c n];
    cbn [structuralImports structuralSlots flat_map] in *.
  - constructor.
  - rewrite flat_map_app, app_nil_r.
    rewrite Permutation_app_comm. apply Permutation_app;
      apply slotImports_added; intros a ->; apply Hrec; simpl; auto.
  - rewrite app_nil_r. apply slotImports_added. intros a ->. apply Hrec.
    simpl. auto.
  - apply childImports_added. exact Hrec.
Qed.

Lemma import_operations_added (k : nat) :
  forall step, height step <= k ->
    Permutation (flat_map addedNames (getImportOperations step))
      (namesBelow step).
Proof.
  induction k as [|k IH]; intros step Hh.
  - pose proof (height_pos step). lia.
  - assert (Hslot : forall a, In (Some a) (slots step) ->
              Permutation (flat_map addedNames (getImportOperations a))
                (namesBelow a)).
    { intros a Ha. apply IH.
      pose proof (height_slot step _ Ha) as Hlt. simpl in Hlt. lia. }
    rewrite getImportOperations_phases.
    change (namesBelow step) with (flat_map stepNamesOpt (slots step)).
    rewrite slots_structural, !flat_map_app.
    rewrite Permutation_app_swap_app. apply Permutation_app.
    + apply structuralImports_added. intros a Ha. apply Hslot.
      rewrite slots_structural. apply in_or_app. left. exact Ha.
    + destruct (nextOf step) as [a|] eqn:Hn; cbn [flat_map stepNamesOpt app];
        [|constructor].
      rewrite addedNames_importAdd, !app_nil_r. cbn [app].
      rewrite stepNames_slots. constructor. apply Hslot.
      rewrite slots_structural, Hn. apply in_or_app. right. left.
      reflexivity.
Qed.

Lemma addedNames_length operations :
  (forall op, In op operations -> exists request, op = ADD_ACTION request) ->
  List.length (flat_map addedNames operations) = List.length operations.
Proof.
  induction operations as [|op ops IH]; intros Hadd; [reflexivity|].
  cbn [flat_map]. rewrite length_app, IH.
  - destruct (Hadd op (or_introl eq_refl)) as [r ->]. reflexivity.
  - intros op' Hop'. apply Hadd. right. exact Hop'.
Qed.

(** X13.  [getImportOperations] gives one [ADD_ACTION] for each step
    below the root: the names of the steps the operations add are,
    up to their order, the names of the steps below the root, and
    there are as many operations as there are steps but the root. *)
Theorem import_operations_one_per_step_below (step : Step) :
  Permutation (flat_map addedNames (getImportOperations step))
    (namesBelow step)
  /\ List.length (getImportOperations step)
     = List.length (getAllSteps step) - 1.
Proof.
  pose proof (import_operations_added _ step (le_n _)) as Hperm.
  split; [exact Hperm|].
  apply Permutation_length in Hperm.
  assert (Hops : List.length (flat_map addedNames (getImportOperations step))
                 = List.length (getImportOperations step)).
  { apply addedNames_length. intros op Hop.
    destruct (import_ops_names _ step (le_n _) op Hop) as [r [-> _]].
    exists r. reflexivity. }
  rewrite <- Hops, Hperm.
  pose proof (stepNames_slots step) as Hnames.
  apply (f_equal (@List.length string)) in Hnames.
  unfold stepNames in Hnames at 1. rewrite length_map in Hnames.
  simpl in Hnames. unfold namesBelow. lia.
Qed.

(* ================================================================== *)
(** ** Restoring the credentials of a flow *)
(* ================================================================== *)

(** [PopulatedFlow]: the flow with the version it shows.  The engine
    only reads [version]. *)
Record PopulatedFlow := {
  version : FlowVersion;
  otherFlowFields : list (string * Json)
}.

(** [i.auth] of a [settings.input] that may be absent. *)
Definition authOf (i : option Input) : option string :=
  match i with Some input_ => auth input_ | None => None end.

(** The callback of [updateFlowSecrets]: [oldStep?.settings?.input?.auth]
    read as a condition, then the assignment to [step.settings.input.auth],
    a [TypeError] when the step has no [input]. *)
Definition updateFlowSecretsFn (originalFlow : PopulatedFlow) (step : Step)
  : outcome Step :=
  match getStep (version originalFlow) (stepName step) with
  | Some oldStep =>
      if truthyAuth (input (settings (propsOf oldStep))) then
        match input (settings (propsOf step)) with
        | Some input_ =>
            Returns
              (setProps
                 (withSettings
                    (withInput
                       (Some {| auth :=
                                  authOf (input (settings (propsOf oldStep)));
                                otherInput := otherInput input_ |})
                       (settings (propsOf step)))
                    (propsOf step))
                 step)
        | None => Throws TypeError
        end
      else Returns step
  | None => Returns step
  end.

(** [updateFlowSecrets]; the promise it returns is settled by the value
    or the exception of its body. *)
Definition updateFlowSecrets (fuel : nat) (originalFlow newFlow : PopulatedFlow)
  : outcome FlowVersion :=
  transferFlow fuel (version newFlow) (updateFlowSecretsFn originalFlow).

Lemma updateFlowSecretsFn_shape originalFlow step u :
  updateFlowSecretsFn originalFlow step = Returns u ->
  exists p, u = setProps p step /\ name p = name (propsOf step).
Proof.
  unfold updateFlowSecretsFn. intros H.
  destruct (getStep _ _) as [oldStep|].
  - destruct (truthyAuth _).
    + destruct (input (settings (propsOf step))); [|discriminate].
      inversion H. eexists. split; reflexivity.
    + inversion H. exists (propsOf u). rewrite setProps_propsOf. auto.
  - inversion H. exists (propsOf u). rewrite setProps_propsOf. auto.
Qed.

Lemma updateFlowSecretsFn_slots originalFlow step u :
  updateFlowSecretsFn originalFlow step = Returns u -> slots u = slots step.
Proof.
  intros H. destruct (updateFlowSecretsFn_shape _ _ _ H) as [p [-> _]].
  apply slots_setProps.
Qed.

(** A shape-keeping rewrite that returns on every step it meets returns
    on the tree. *)
Lemma transfer_returns f :
  (forall s u, f s = Returns u -> slots u = slots s) ->
  forall (fuel : nat) step,
    height step <= fuel ->
    (forall s, In s (traverseInternal step) -> exists u, f s = Returns u) ->
    exists r, transferStep fuel f step = Returns r.
Proof.
  intros Hshape. induction fuel as [|fuel IH]; intros step Hh Hf.
  - pose proof (height_pos step). lia.
  - rewrite transferStep_unfold.
    destruct (Hf step (traverseInternal_self step)) as [u Hu].
    rewrite Hu. simpl. rewrite (Hshape _ _ Hu).
    assert (Hm : exists l,
              mapM (transferOpt (transferStep fuel f)) (slots step)
              = Returns l).
    { assert (Hall : forall slot, In slot (slots step) ->
                exists r, transferOpt (transferStep fuel f) slot = Returns r).
      { intros [a|] Hin; simpl; [|eauto].
        destruct (IH a) as [r Hr].
        - pose proof (height_slot step _ Hin) as Hlt. simpl in Hlt. lia.
        - intros s Hs. apply Hf. rewrite traverseInternal_slots. right.
          apply in_flat_map. exists (Some a). auto.
        - rewrite Hr. simpl. eauto. }
      induction (slots step) as [|slot l IHl]; simpl; [eauto|].
      destruct (Hall slot (or_introl eq_refl)) as [r Hr]. rewrite Hr. simpl.
      destruct IHl as [l' Hl'].
      { intros s Hs. apply Hall. right. exact Hs. }
      rewrite Hl'. simpl. eauto. }
    destruct Hm as [l Hl]. rewrite Hl. simpl. eauto.
Qed.

Lemma Forall2_compose {A B C} (R : A -> B -> Prop) (Q : B -> C -> Prop)
  (T : A -> C -> Prop) l1 l2 l3 :
  (forall a b c, In a l1 -> R a b -> Q b c -> T a c) ->
  Forall2 R l1 l2 -> Forall2 Q l2 l3 -> Forall2 T l1 l3.
Proof.
  intros HT H. revert l3. induction H as [|a b l1 l2 Hab _ IH]; intros l3 H3.
  - inversion H3. constructor.
  - inversion H3; subst. constructor.
    + eapply HT; eauto. left. reflexivity.
    + apply IH; [|assumption]. intros. eapply HT; eauto. right. assumption.
Qed.

Section RestoreCredentials.

Context {E : Externals}.

(** What [normalize] and [updateFlowSecrets] leave of a step: its name,
    its kind and its [settings.input]. *)
Definition sameInput (original restored : Step) : Prop :=
  stepName restored = stepName original
  /\ typeOf restored = typeOf original
  /\ input (settings (propsOf restored)) = input (settings (propsOf original)).

Lemma restore_one originalFlow s s' :
  NoDup (stepNames (trigger (version originalFlow))) ->
  In s (getAllSteps (trigger (version originalFlow))) ->
  rewrittenBy normalizeFn s s' ->
  exists u, updateFlowSecretsFn originalFlow s' = Returns u /\ sameInput s u.
Proof.
  intros Hnd Hs [n [Hn [Hp Hty]]].
  destruct (normalizeFn_input _ _ Hn) as [Hname Hinput].
  assert (Hname' : stepName s' = stepName s)
    by (unfold stepName; rewrite Hp; exact Hname).
  assert (Hty' : typeOf s' = typeOf s).
  { rewrite Hty. destruct (normalizeFn_shape _ _ Hn) as [p ->].
    destruct s; reflexivity. }
  assert (Hget : getStep (version originalFlow) (stepName s') = Some s).
  { rewrite Hname'. unfold getStep.
    destruct (findByName (stepName s) _) as [found|] eqn:Hfind.
    - apply find_some in Hfind. destruct Hfind as [H1 H2].
      apply String.eqb_eq in H2. f_equal.
      apply (distinct_names_determine_step
               (trigger (version originalFlow))); auto.
    - exfalso. apply (findByName_none_names _ _ Hfind s Hs). reflexivity. }
  assert (Hkept : sameInput s s' \/ truthyAuth (input (settings (propsOf s))) = true).
  { destruct (truthyAuth (input (settings (propsOf s)))) eqn:Htruthy;
      [right; reflexivity|left].
    split; [exact Hname'|]. split; [exact Hty'|].
    rewrite Hp, Hinput. reflexivity. }
  unfold updateFlowSecretsFn. rewrite Hget.
  destruct (truthyAuth (input (settings (propsOf s)))) eqn:Htruthy.
  - rewrite Hp, Hinput.
    destruct (input (settings (propsOf s))) as [[a o]|] eqn:Hin;
      [|discriminate].
    assert (Hsome : exists a',
              (if true && isPieceStep s
               then clearAuth (Some {| auth := a; otherInput := o |})
               else Some {| auth := a; otherInput := o |})
              = Some {| auth := a'; otherInput := o |})
      by (destruct (isPieceStep s); simpl; eauto).
    destruct Hsome as [a' ->]. eexists. split; [reflexivity|].
    unfold sameInput, stepName. rewrite propsOf_setProps. simpl.
    split; [exact Hname|]. split; [|symmetry; exact Hin].
    rewrite <- Hty'. destruct s'; reflexivity.
  - destruct Hkept as [Hkept|]; [|discriminate]. eauto.
Qed.

(** X14.  [updateFlowSecrets] undoes what [normalize] does to the
    credentials: for a flow whose step names are distinct, restoring the
    normalised version against the flow returns a version whose steps
    have, one by one in traversal order, the names, the kinds and the
    [settings.input] (with its [auth]) of the steps of the flow. *)
Theorem updateFlowSecrets_restores_normalized_inputs
  (originalFlow : PopulatedFlow) (normalized : FlowVersion)
  (otherFields : list (string * Json)) (fuel fuel' : nat) :
  NoDup (stepNames (trigger (version originalFlow))) ->
  normalize fuel (version originalFlow) = Returns normalized ->
  height (trigger (version originalFlow)) <= fuel' ->
  exists restored,
    updateFlowSecrets fuel' originalFlow
      {| version := normalized; otherFlowFields := otherFields |}
    = Returns restored
    /\ Forall2 sameInput (getAllSteps (trigger (version originalFlow)))
         (getAllSteps (trigger restored)).
Proof.
  intros Hnd Hnorm Hfuel.
  unfold normalize, transferFlow in Hnorm. simpl in Hnorm.
  apply bind_returns in Hnorm. destruct Hnorm as [t [Ht Hnorm]].
  inversion Hnorm; subst normalized. clear Hnorm.
  pose proof (transfer_pointwise normalizeFn normalizeFn_slots _ _ _ Ht)
    as Hall.
  pose proof (transfer_height normalizeFn normalizeFn_slots _ _ _ Ht) as Hh.
  destruct (transfer_returns (updateFlowSecretsFn originalFlow)
              (updateFlowSecretsFn_slots originalFlow) fuel' t) as [r Hr].
  { lia. }
  { intros s' Hs'.
    destruct (Forall2_in_r _ _ _ _ Hall Hs') as [s [Hs Hrw]].
    destruct (restore_one originalFlow s s' Hnd Hs Hrw) as [u [Hu _]]. eauto. }
  unfold updateFlowSecrets, transferFlow. simpl. rewrite Hr. simpl.
  eexists. split; [reflexivity|]. simpl.
  pose proof (transfer_pointwise (updateFlowSecretsFn originalFlow)
                (updateFlowSecretsFn_slots originalFlow) _ _ _ Hr) as Hall'.
  unfold getAllSteps.
  eapply Forall2_compose; [|exact Hall|exact Hall'].
  intros s s' x Hs Hrw [u [Hu [Hp Hty]]].
  destruct (restore_one originalFlow s s' Hnd Hs Hrw) as [u' [Hu' Hsame]].
  rewrite Hu in Hu'. inversion Hu'; subst u'.
  destruct Hsame as [H1 [H2 H3]].
  unfold sameInput, stepName in *. rewrite Hp, Hty. auto.
Qed.

End RestoreCredentials.

Lemma updateFlowSecrets_restores_normalized_inputs_witness :
  exists restored,
    updateFlowSecrets 2 {| version := credentialFlow; otherFlowFields := [] |}
      {| version := credentialFlowNormalized; otherFlowFields := [] |}
    = Returns restored
    /\ Forall2 sameInput (getAllSteps (trigger credentialFlow))
         (getAllSteps (trigger restored)).
Proof.
  apply (updateFlowSecrets_restores_normalized_inputs
           (E := referenceExternals)
           {| version := credentialFlow; otherFlowFields := [] |}
           credentialFlowNormalized [] 3 2).
  - repeat constructor; simpl; intuition discriminate.
  - reflexivity.
  - simpl. lia.
Defined.

Lemma getStep_of_distinct_names flowVersion s :
  NoDup (stepNames (trigger flowVersion)) ->
  In s (getAllSteps (trigger flowVersion)) ->
  getStep flowVersion (stepName s) = Some s.
Proof.
  intros Hnd Hs. unfold getStep.
  destruct (findByName (stepName s) _) as [found|] eqn:Hfind.
  - apply find_some in Hfind. destruct Hfind as [H1 H2].
    apply String.eqb_eq in H2. f_equal.
    apply (distinct_names_determine_step (trigger flowVersion)); auto.
  - exfalso. apply (findByName_none_names _ _ Hfind s Hs). reflexivity.
Qed.

Lemma withInput_same p i :
  input (settings p) = Some i ->
  withSettings
    (withInput (Some {| auth := auth i; otherInput := otherInput i |})
       (settings p)) p = p.
Proof.
  destruct p as [n d v [pn pv inp ui br o]]. simpl. intros ->.
  destruct i. reflexivity.
Qed.

(** X15.  Restoring the credentials of a flow from the flow itself
    changes nothing, when the names of its steps are distinct. *)
Theorem updateFlowSecrets_of_same_flow (flow : PopulatedFlow) (fuel : nat) :
  NoDup (stepNames (trigger (version flow))) ->
  height (trigger (version flow)) <= fuel ->
  updateFlowSecrets fuel flow flow = Returns (version flow).
Proof.
  intros Hnd Hfuel. unfold updateFlowSecrets, transferFlow. simpl.
  rewrite transfer_identity; [destruct (version flow); reflexivity|exact Hfuel|].
  intros s Hs. unfold updateFlowSecretsFn.
  rewrite (getStep_of_distinct_names (version flow) s Hnd Hs).
  destruct (truthyAuth (input (settings (propsOf s)))) eqn:Htruthy;
    [|reflexivity].
  destruct (input (settings (propsOf s))) as [i|] eqn:Hin; [|discriminate].
  cbn [authOf]. rewrite (withInput_same (propsOf s) i Hin), setProps_propsOf.
  reflexivity.
Qed.

Lemma updateFlowSecrets_of_same_flow_witness :
  updateFlowSecrets 2 {| version := credentialFlow; otherFlowFields := [] |}
    {| version := credentialFlow; otherFlowFields := [] |}
  = Returns credentialFlow.
Proof.
  apply (updateFlowSecrets_of_same_flow
           {| version := credentialFlow; otherFlowFields := [] |}).
  - repeat constructor; simpl; intuition discriminate.
  - simpl. lia.
Defined.

(** *** A rewrite whose only exception is [e] *)

Section OneException.

Variable f : Step -> outcome Step.
Variable e : Exn.
Hypothesis f_shape : forall s u, f s = Returns u -> slots u = slots s.
Hypothesis f_settles : forall s, (exists u, f s = Returns u) \/ f s = Throws e.

Lemma mapM_returns_or_throws {A B} (g : A -> outcome B) l :
  (forall a, In a l -> (exists b, g a = Returns b) \/ g a = Throws e) ->
  (exists r, mapM g l = Returns r) \/ mapM g l = Throws e.
Proof.
  induction l as [|a l IH]; intros Hall; simpl; [eauto|].
  destruct (Hall a (or_introl eq_refl)) as [[b Hb]|Hb]; rewrite Hb; simpl;
    [|auto].
  destruct IH as [[r Hr]|Hr]; [intros x Hx; apply Hall; right; exact Hx| |];
    rewrite Hr; simpl; eauto.
Qed.

Lemma mapM_throws {A B} (g : A -> outcome B) l :
  (forall a, In a l -> (exists b, g a = Returns b) \/ g a = Throws e) ->
  (exists a, In a l /\ g a = Throws e) ->
  mapM g l = Throws e.
Proof.
  induction l as [|a l IH]; intros Hall [x [Hx Hthrows]]; [contradiction|].
  simpl.
  destruct (Hall a (or_introl eq_refl)) as [[b Hb]|Hb]; rewrite Hb; simpl;
    [|reflexivity].
  destruct Hx as [->|Hx]; [congruence|].
  rewrite IH; [reflexivity| |eauto].
  intros y Hy. apply Hall. right. exact Hy.
Qed.

Lemma transfer_returns_or_throws (fuel : nat) :
  forall step, height step <= fuel ->
    (exists r, transferStep fuel f step = Returns r)
    \/ transferStep fuel f step = Throws e.
Proof.
  induction fuel as [|fuel IH]; intros step Hh.
  - pose proof (height_pos step). lia.
  - rewrite transferStep_unfold.
    destruct (f_settles step) as [[u Hu]|Hu]; rewrite Hu; simpl; [|auto].
    rewrite (f_shape _ _ Hu).
    destruct (mapM_returns_or_throws (transferOpt (transferStep fuel f))
                (slots step)) as [[l Hl]|Hl]; try (rewrite Hl; simpl; eauto).
    intros [a|] Hin; simpl; [|eauto].
    destruct (IH a) as [[r Hr]|Hr]; try (rewrite Hr; simpl; eauto).
    pose proof (height_slot step _ Hin) as Hlt. simpl in Hlt. lia.
Qed.

(** The exception of one step is the exception of the rewrite. *)
Lemma transfer_throws_somewhere (fuel : nat) :
  forall step, height step <= fuel ->
    forall s, In s (traverseInternal step) -> f s = Throws e ->
      transferStep fuel f step = Throws e.
Proof.
  induction fuel as [|fuel IH]; intros step Hh s Hs Hthrows.
  - pose proof (height_pos step). lia.
  - rewrite transferStep_unfold.
    rewrite traverseInternal_slots in Hs. destruct Hs as [<-|Hs].
    + rewrite Hthrows. reflexivity.
    + destruct (f_settles step) as [[u Hu]|Hu]; rewrite Hu; simpl;
        [|reflexivity].
      rewrite (f_shape _ _ Hu).
      assert (Hbound : forall a, In (Some a) (slots step) -> height a <= fuel).
      { intros a Hin. pose proof (height_slot step _ Hin) as Hlt.
        simpl in Hlt. lia. }
      rewrite mapM_throws; [reflexivity| |].
      * intros [a|] Hin; simpl; [|eauto].
        destruct (transfer_returns_or_throws fuel a (Hbound a Hin))
          as [[r Hr]|Hr]; rewrite Hr; simpl; eauto.
      * apply in_flat_map in Hs. destruct Hs as [[a|] [Hin Hs]];
          [|contradiction].
        exists (Some a). split; [exact Hin|]. simpl.
        rewrite (IH a (Hbound a Hin) s Hs Hthrows). reflexivity.
Qed.

End OneException.

Lemma updateFlowSecretsFn_settles originalFlow s :
  (exists u, updateFlowSecretsFn originalFlow s = Returns u)
  \/ updateFlowSecretsFn originalFlow s = Throws TypeError.
Proof.
  unfold updateFlowSecretsFn.
  destruct (getStep _ _) as [oldStep|]; [|eauto].
  destruct (truthyAuth _); [|eauto].
  destruct (input (settings (propsOf s))); eauto.
Qed.

(** X16.  [updateFlowSecrets] fails on a step that has no
    [settings.input] to put the credential in: when a step of the new
    flow has none, and the step of that name in the original flow has a
    credential, the call throws a [TypeError]. *)
Theorem updateFlowSecrets_needs_input (originalFlow newFlow : PopulatedFlow)
  (step oldStep : Step) (fuel : nat) :
  In step (getAllSteps (trigger (version newFlow))) ->
  input (settings (propsOf step)) = None ->
  getStep (version originalFlow) (stepName step) = Some oldStep ->
  truthyAuth (input (settings (propsOf oldStep))) = true ->
  height (trigger (version newFlow)) <= fuel ->
  updateFlowSecrets fuel originalFlow newFlow = Throws TypeError.
Proof.
  intros Hstep Hinput Hold Hauth Hfuel.
  unfold updateFlowSecrets, transferFlow. simpl.
  rewrite (transfer_throws_somewhere (updateFlowSecretsFn originalFlow)
             TypeError (updateFlowSecretsFn_slots originalFlow)
             (updateFlowSecretsFn_settles originalFlow)
             fuel _ Hfuel step Hstep); [reflexivity|].
  unfold updateFlowSecretsFn. rewrite Hold, Hauth, Hinput. reflexivity.
Qed.

Lemma updateFlowSecrets_needs_input_witness :
  updateFlowSecrets 2 {| version := credentialFlow; otherFlowFields := [] |}
    {| version := flowOf (emptyTrigger (Some (code "step_1" None)));
       otherFlowFields := [] |}
  = Throws TypeError.
Proof.
  apply (updateFlowSecrets_needs_input
           {| version := credentialFlow; otherFlowFields := [] |}
           {| version := flowOf (emptyTrigger (Some (code "step_1" None)));
              otherFlowFields := [] |}
           (code "step_1" None)
           (slackStep "0.4.2" (Some "{{connections.slack}}") None)).
  - simpl. auto.
  - reflexivity.
  - reflexivity.
  - reflexivity.
  - simpl. lia.
Defined.

(* ================================================================== *)
(** ** What UPDATE_TRIGGER keeps *)
(* ================================================================== *)

(** A step after [upgradePiece(step, target)]: the same step, or, for a
    piece step named [target], the step with another [pieceVersion]. *)
Definition pinnedFrom (target : string) (s s' : Step) : Prop :=
  typeOf s' = typeOf s
  /\ (propsOf s' = propsOf s
      \/ (stepName s = target /\ isPieceStep s = true
          /\ exists v,
               propsOf s'
               = withSettings (withPieceVersion v (settings (propsOf s)))
                   (propsOf s))).

Lemma Forall2_map_eq {A B C} (g : A -> C) (h : B -> C) l l' :
  Forall2 (fun a b => h b = g a) l l' -> map h l' = map g l.
Proof. induction 1; simpl; congruence. Qed.

Lemma Forall2_impl_in {A B} (R Q : A -> B -> Prop) l l' :
  (forall a b, R a b -> Q a b) -> Forall2 R l l' -> Forall2 Q l l'.
Proof. intros HRQ. induction 1; constructor; auto. Qed.

Section UpdateTrigger.

Context {E : Externals}.

Lemma upgradePiece_result step target u :
  upgradePiece step target = Returns u ->
  u = step
  \/ (stepName step = target /\ isPieceStep step = true
      /\ exists v, u = setPieceVersion v step).
Proof.
  unfold upgradePiece. intros H.
  destruct (String.eqb (stepName step) target) eqn:Hname; simpl in H;
    [|inversion H; auto].
  apply String.eqb_eq in Hname.
  destruct (isPieceStep step) eqn:Hpiece; [|inversion H; auto].
  repeat (match type of H with
          | context [if ?c then _ else _] => destruct c
          | context [bind ?m _] => destruct m as [[|]| | |]
          end; simpl in H; try discriminate);
    inversion H; eauto 6.
Qed.

Lemma upgradePiece_pinnedFrom target s s' :
  rewrittenBy (fun step => upgradePiece step target) s s' ->
  pinnedFrom target s s'.
Proof.
  intros [u [Hu [Hp Hty]]]. unfold pinnedFrom. rewrite Hp, Hty.
  destruct (upgradePiece_result _ _ _ Hu) as [->|[Hname [Hpiece [v ->]]]].
  - auto.
  - unfold setPieceVersion. rewrite typeOf_setProps, propsOf_setProps.
    split; [reflexivity|]. right. eauto.
Qed.

Lemma pinnedFrom_name target s s' :
  pinnedFrom target s s' -> stepName s' = stepName s.
Proof.
  intros [_ [H|[_ [_ [v H]]]]]; unfold stepName; rewrite H; reflexivity.
Qed.

(** X17.  UPDATE_TRIGGER replaces the trigger and nothing else: the new
    trigger keeps the name of the old one, whatever name the request
    carries, and takes its kind and display name from the request; the
    names of the steps stay as they were, in their order, and the
    actions are the former ones, but for the [pieceVersion] of piece
    steps that bear the name of the request. *)
Theorem update_trigger_keeps_names_and_actions (flowVersion : FlowVersion)
  (request : UpdateTriggerRequest) (fuel : nat) :
  isTrigger (typeOf (trigger flowVersion)) = true ->
  height (trigger flowVersion) < fuel ->
  apply fuel flowVersion (UPDATE_TRIGGER request) <> OutOfFuel
  /\ forall updated,
       apply fuel flowVersion (UPDATE_TRIGGER request) = Returns updated ->
       stepNames (trigger updated) = stepNames (trigger flowVersion)
       /\ typeOf (trigger updated) = OfTrigger (treqType request)
       /\ displayName (propsOf (trigger updated)) = treqDisplayName request
       /\ Forall2 (pinnedFrom (treqName request))
            (traverseOpt (nextOf (trigger flowVersion)))
            (traverseOpt (nextOf (trigger updated))).
Proof.
  intros Htrigger Hfuel. destruct fuel as [|fuel]; [lia|].
  destruct flowVersion as [dn st t fv]. simpl in Htrigger, Hfuel.
  destruct t as [ty p n| | |]; try discriminate.
  set (f := fun step => upgradePiece step (treqName request)).
  set (created := createTrigger (name p) request n).
  assert (Hcreated : exists q, created = SimpleStep
                       (match treqType request with
                        | EMPTY => STriggerEmpty
                        | PIECE_TRIGGER => STriggerPiece
                        end) q n
                     /\ name q = name p
                     /\ displayName q = treqDisplayName request).
  { unfold created, createTrigger. destruct (treqType request); simpl;
      eexists; repeat split. }
  destruct Hcreated as [q [Hcreated [Hqn Hqd]]].
  assert (Hheight : height created <= fuel).
  { rewrite Hcreated. simpl in *. lia. }
  assert (Happly : apply (S fuel) {| flowDisplayName := dn; state := st;
                     trigger := SimpleStep ty p n; flowValid := fv |}
                     (UPDATE_TRIGGER request)
                   = (t' <- transferStep fuel f created ;;
                      Returns (withFlowValid
                        (isValid (withTrigger t' {| flowDisplayName := dn;
                           state := st; trigger := created;
                           flowValid := fv |}))
                        (withTrigger t' {| flowDisplayName := dn;
                           state := st; trigger := created;
                           flowValid := fv |})))).
  { simpl. unfold transferFlow. simpl.
    change (stepName (SimpleStep ty p n)) with (name p). fold f. fold created.
    destruct (transferStep fuel f created); reflexivity. }
  rewrite Happly. clear Happly.
  pose proof (transfer_terminates f (fun s u => upgradePiece_slots s _ u)
                (fun s => proj1 (upgradePiece_total _ _))
                fuel created Hheight) as Hterm.
  split.
  - destruct (transferStep fuel f created); simpl; congruence.
  - intros updated H. apply bind_returns in H. destruct H as [t' [Ht' H]].
    inversion H; subst updated. clear H. simpl.
    pose proof (transfer_pointwise f (fun s u => upgradePiece_slots s _ u)
                  _ _ _ Ht') as Hall.
    apply (Forall2_impl_in _ (pinnedFrom (treqName request))
             _ _ (upgradePiece_pinnedFrom (treqName request))) in Hall.
    rewrite (traverseInternal_slots created) in Hall.
    rewrite (traverseInternal_slots t') in Hall.
    inversion Hall as [|a b l l' Hhead Htail]; subst.
    assert (Hslots : slots t' = [nextOf t']).
    { destruct Hhead as [Hty _]. rewrite Hcreated in Hty.
      destruct t' as [ty' p' n'| | |];
        try (destruct (treqType request); discriminate). reflexivity. }
    rewrite Hslots, Hcreated in Htail. simpl in Htail.
    rewrite !app_nil_r in Htail.
    split; [|split; [|split]].
    + unfold stepNames, getAllSteps.
      rewrite (traverseInternal_slots t'), Hslots.
      rewrite (traverseInternal_slots (SimpleStep ty p n)). simpl.
      rewrite !app_nil_r. f_equal.
      * rewrite (pinnedFrom_name _ _ _ Hhead). rewrite Hcreated.
        unfold stepName. simpl. exact Hqn.
      * apply Forall2_map_eq.
        eapply Forall2_impl_in; [|exact Htail].
        intros a b Hab. apply (pinnedFrom_name _ _ _ Hab).
    + destruct Hhead as [Hty _]. rewrite Hty, Hcreated.
      destruct (treqType request); reflexivity.
    + destruct Hhead as [_ [Hp|[_ [_ [v Hp]]]]]; rewrite Hp, Hcreated;
        simpl; exact Hqd.
    + exact Htail.
Qed.

End UpdateTrigger.

Definition webhookTrigger : UpdateTriggerRequest :=
  {| treqType := PIECE_TRIGGER; treqName := "renamed";
     treqDisplayName := "Catch Webhook";
     treqSettings := pieceSettings "@activepieces/piece-webhook" "0.1.0" None;
     treqValid := None |}.

Lemma update_trigger_keeps_names_and_actions_witness :
  apply (E := referenceExternals) 5 chainFlow (UPDATE_TRIGGER webhookTrigger)
  <> OutOfFuel
  /\ forall updated,
       apply (E := referenceExternals) 5 chainFlow
         (UPDATE_TRIGGER webhookTrigger) = Returns updated ->
       stepNames (trigger updated) = stepNames (trigger chainFlow)
       /\ typeOf (trigger updated) = OfTrigger (treqType webhookTrigger)
       /\ displayName (propsOf (trigger updated))
          = treqDisplayName webhookTrigger
       /\ Forall2 (pinnedFrom (treqName webhookTrigger))
            (traverseOpt (nextOf (trigger chainFlow)))
            (traverseOpt (nextOf (trigger updated))).
Proof.
  apply (update_trigger_keeps_names_and_actions (E := referenceExternals)
           chainFlow webhookTrigger 5).
  - reflexivity.
  - simpl. lia.
Defined.

(* ================================================================== *)
(** ** Deleting a branch of a router *)
(* ================================================================== *)

(** The list without its element at position [i]. *)
Definition removeAt {A} (i : nat) (l : list A) : list A :=
  firstn i l ++ skipn (S i) l.

Lemma splice_remove {A} (index : Z) (l : list A) :
  (0 <= index)%Z -> splice index 1 [] l = removeAt (Z.to_nat index) l.
Proof.
  intros H. unfold splice, spliceStart, removeAt.
  destruct (index <? 0)%Z eqn:Hneg; [apply Z.ltb_lt in Hneg; lia|].
  cbn [app]. destruct (Nat.le_gt_cases (Z.to_nat index) (List.length l)) as [Hle|Hgt].
  - rewrite Nat.min_l by lia. rewrite Nat.add_1_r. reflexivity.
  - rewrite Nat.min_r by lia.
    rewrite !firstn_all2, !skipn_all2 by lia. reflexivity.
Qed.

Lemma in_removeAt {A} (i : nat) (l : list A) a :
  In a (removeAt i l) -> In a l.
Proof.
  unfold removeAt. intros H. apply in_app_or in H. destruct H as [H|H].
  - rewrite <- (firstn_skipn i l). apply in_or_app. left. exact H.
  - rewrite <- (firstn_skipn (S i) l). apply in_or_app. right. exact H.
Qed.

(** The names of the steps in the slot at position [i]. *)
Definition namesInSlot (i : nat) (c : list (option Step)) : list string :=
  match nth_error c i with
  | Some slot => stepNamesOpt slot
  | None => []
  end.

Lemma names_removeAt (i : nat) (c : list (option Step)) :
  Permutation (flat_map stepNamesOpt c)
    (namesInSlot i c ++ flat_map stepNamesOpt (removeAt i c)).
Proof.
  revert i. induction c as [|x c IH]; intros i.
  - destruct i; constructor.
  - destruct i as [|i].
    + apply Permutation_refl.
    + change (removeAt (S i) (x :: c)) with (x :: removeAt i c).
      change (namesInSlot (S i) (x :: c)) with (namesInSlot i c).
      cbn [flat_map]. rewrite (IH i) at 1.
      apply Permutation_app_swap_app.
Qed.

Section DeleteBranch.

Context {E : Externals}.

(** The router after [DELETE_BRANCH] at position [i]. *)
Definition branchDeleted (i : nat) (p : Props) (c : list (option Step))
  (n : option Step) : Step :=
  RouterAction
    (withSettings
       (withBranches (removeAt i (branches (settings p))) (settings p)) p)
    (removeAt i c) n.

Lemma names_branchDeleted parent (i : nat) p c n :
  nextOf parent = Some (RouterAction p c n) ->
  Permutation (stepNames parent)
    (namesInSlot i c
     ++ stepNames (setNext (Some (branchDeleted i p c n)) parent)).
Proof.
  intros Hnext.
  rewrite (stepNames_slots parent), slots_structural, Hnext.
  rewrite (stepNames_slots (setNext _ parent)), slots_setNext.
  assert (Hname : stepName (setNext (Some (branchDeleted i p c n)) parent)
                  = stepName parent) by (destruct parent; reflexivity).
  rewrite Hname, !flat_map_app. cbn [flat_map stepNamesOpt].
  rewrite !app_nil_r.
  rewrite (stepNames_slots (RouterAction p c n)).
  rewrite (stepNames_slots (branchDeleted i p c n)).
  unfold branchDeleted. cbn [slots]. rewrite !flat_map_app.
  change (stepName (RouterAction _ (removeAt i c) n)) with (name p).
  change (stepName (RouterAction p c n)) with (name p).
  rewrite (names_removeAt i c).
  set (d := namesInSlot i c).
  set (r := flat_map stepNamesOpt (removeAt i c)).
  set (s := flat_map stepNamesOpt (structuralSlots parent)).
  set (t := flat_map stepNamesOpt [n]).
  apply Permutation_sym.
  apply Permutation_trans with (l' := stepName parent :: d ++ s ++ name p :: r ++ t).
  - apply Permutation_sym. apply Permutation_middle.
  - constructor.
    apply Permutation_trans with (l' := s ++ d ++ name p :: r ++ t);
      [apply Permutation_app_swap_app|].
    apply Permutation_app_head.
    change (d ++ name p :: r ++ t) with (d ++ [name p] ++ r ++ t).
    change (name p :: (d ++ r) ++ t) with ([name p] ++ (d ++ r) ++ t).
    rewrite <- app_assoc. apply Permutation_app_swap_app.
Qed.

(** X18.  Let a router be the [nextAction] of a step of a flow with
    pairwise distinct step names.  [DELETE_BRANCH] at an index that is
    not negative returns the flow in which only that router changed: the
    entry at the index is gone from its [settings.branches] and from its
    [children] (an index past the end removes nothing), and the steps
    of the flow are those that are left and those of the removed
    child. *)
Theorem delete_branch_removes (flowVersion : FlowVersion) (parent : Step)
  (p : Props) (c : list (option Step)) (n : option Step) (index : Z) :
  NoDup (stepNames (trigger flowVersion)) ->
  In parent (getAllSteps (trigger flowVersion)) ->
  nextOf parent = Some (RouterAction p c n) ->
  (0 <= index)%Z ->
  exists fuel0 flowVersion',
    (forall fuel, fuel0 <= fuel ->
       apply fuel flowVersion (DELETE_BRANCH (name p) index)
       = Returns flowVersion')
    /\ trigger flowVersion'
       = plug (stepName parent)
           (setNext
              (Some
                 (RouterAction
                    (withSettings
                       (withBranches
                          (removeAt (Z.to_nat index) (branches (settings p)))
                          (settings p))
                       p)
                    (removeAt (Z.to_nat index) c) n))
              parent)
           (trigger flowVersion)
    /\ Permutation (stepNames (trigger flowVersion))
         (namesInSlot (Z.to_nat index) c ++ stepNames (trigger flowVersion')).
Proof.
  intros Hnd Hparent Hnext Hindex.
  set (T := trigger flowVersion) in *.
  set (parent' := setNext (Some (branchDeleted (Z.to_nat index) p c n)) parent).
  exists (S (height parent' + height T)).
  eexists. split; [|split].
  - intros [|fuel] Hfuel; [lia|]. simpl.
    unfold transferFlow. simpl. fold T. unfold deleteBranchFn.
    rewrite (router_rewrite_at_next _ T parent p c n
               (withSettings
                  (withBranches
                     (removeAt (Z.to_nat index) (branches (settings p)))
                     (settings p)) p)
               (removeAt (Z.to_nat index) c) Hnd Hparent Hnext).
    + simpl. reflexivity.
    + rewrite !splice_remove by exact Hindex. reflexivity.
    + intros a. apply in_removeAt.
    + fold (branchDeleted (Z.to_nat index) p c n). fold parent'. lia.
  - reflexivity.
  - simpl. fold T. fold (branchDeleted (Z.to_nat index) p c n). fold parent'.
    destruct (plug_names _ T (le_n _) Hnd parent parent' Hparent)
      as [rest [H1 H2]].
    rewrite H1, H2, app_assoc. apply Permutation_app_tail.
    apply names_branchDeleted. exact Hnext.
Qed.

End DeleteBranch.

(** A router with three branches after the trigger, with a step in the
    second one. *)
Definition routerWithBranchStep : Step :=
  RouterAction
    (props "step_1" (routerSettings ["Branch 1"; "Branch 2"; "Otherwise"]))
    [None; Some (code "step_2" None); None] None.

Lemma delete_branch_removes_witness :
  exists fuel0 flowVersion',
    (forall fuel, fuel0 <= fuel ->
       apply (E := referenceExternals) fuel
         (flowOf (emptyTrigger (Some routerWithBranchStep)))
         (DELETE_BRANCH "step_1" 1)
       = Returns flowVersion')
    /\ trigger flowVersion'
       = plug "trigger"
           (emptyTrigger
              (Some
                 (RouterAction
                    (props "step_1" (routerSettings ["Branch 1"; "Otherwise"]))
                    [None; None] None)))
           (emptyTrigger (Some routerWithBranchStep))
    /\ Permutation ["trigger"; "step_1"; "step_2"]
         (["step_2"] ++ stepNames (trigger flowVersion')).
Proof.
  apply (delete_branch_removes (E := referenceExternals)
           (flowOf (emptyTrigger (Some routerWithBranchStep)))
           (emptyTrigger (Some routerWithBranchStep))
           (props "step_1"
              (routerSettings ["Branch 1"; "Branch 2"; "Otherwise"]))
           [None; Some (code "step_2" None); None] None 1).
  - repeat constructor; simpl; intuition discriminate.
  - simpl. auto.
  - reflexivity.
  - lia.
Defined.

(* ================================================================== *)
(** ** A name for a new step *)
(* ================================================================== *)

(** X19.  [findAvailableStepName] gives the first of [prefix_1],
    [prefix_2], ... that is the name of no step of the flow: [getStep]
    finds no step of that name, and finds a step for every candidate
    before it. *)
Theorem findAvailableStepName_names_no_step (flowVersion : FlowVersion)
  (stepPrefix : string) (fuel : nat) :
  List.length (getAllSteps (trigger flowVersion)) <= fuel ->
  exists k,
    findAvailableStepName fuel flowVersion stepPrefix
    = Returns (stepPrefix ^^ "_" ^^ decimal k)
    /\ 1 <= k <= S (List.length (getAllSteps (trigger flowVersion)))
    /\ getStep flowVersion (stepPrefix ^^ "_" ^^ decimal k) = None
    /\ forall j, 1 <= j < k ->
         exists step,
           getStep flowVersion (stepPrefix ^^ "_" ^^ decimal j) = Some step.
Proof.
  intros Hfuel.
  set (names := map stepName (getAllSteps (trigger flowVersion))).
  assert (Hlen : List.length names
                 = List.length (getAllSteps (trigger flowVersion)))
    by apply length_map.
  destruct (some_candidate_is_free names stepPrefix 1) as [k0 [Hk0 Hfree0]].
  destruct (least_free_candidate names stepPrefix (k0 - 1) 1 k0)
    as [k [Hk [Hfree Hused]]]; [lia|lia|exact Hfree0|].
  exists k. fold (candidateName stepPrefix k). split; [|split; [lia|split]].
  - unfold findAvailableStepName, findUnusedName. fold names.
    apply findUnusedNameFrom_reaches; [exact Hfree|lia|lia|exact Hused].
  - apply findByName_absent. intros Hin.
    apply includes_In in Hin. unfold stepNames in Hin. fold names in Hin.
    congruence.
  - intros j Hj. fold (candidateName stepPrefix j).
    destruct (getStep flowVersion (candidateName stepPrefix j))
      as [step|] eqn:Hget; [eauto|].
    pose proof (Hused j Hj) as Hin. apply includes_In in Hin.
    apply in_map_iff in Hin. destruct Hin as [x [Hname Hx]].
    elim (findByName_none_names _ _ Hget x Hx Hname).
Qed.

Lemma findAvailableStepName_names_no_step_witness :
  exists k,
    findAvailableStepName 4 chainFlow "step"
    = Returns ("step" ^^ "_" ^^ decimal k)
    /\ 1 <= k <= S (List.length (getAllSteps (trigger chainFlow)))
    /\ getStep chainFlow ("step" ^^ "_" ^^ decimal k) = None
    /\ forall j, 1 <= j < k ->
         exists step,
           getStep chainFlow ("step" ^^ "_" ^^ decimal j) = Some step.
Proof.
  apply (findAvailableStepName_names_no_step chainFlow "step" 4).
  simpl. lia.
Defined.

(* ================================================================== *)
(** ** The flag [valid] of a flow *)
(* ================================================================== *)

Lemma fold_valid steps v :
  fold_left (fun v step => v && valid (propsOf step)) steps v
  = v && forallb (fun step => valid (propsOf step)) steps.
Proof.
  revert v. induction steps as [|s steps IH]; intros v; simpl.
  - rewrite andb_true_r. reflexivity.
  - rewrite IH, andb_assoc. reflexivity.
Qed.

Lemma isValid_all_steps flowVersion :
  isValid flowVersion = true
  <-> forall step, In step (getAllSteps (trigger flowVersion)) ->
        valid (propsOf step) = true.
Proof.
  unfold isValid. rewrite fold_valid. simpl. rewrite forallb_forall.
  reflexivity.
Qed.

Section ValidFlag.

Context {E : Externals}.

(** X20.  Whatever the operation, a flow that [apply] returns is
    flagged valid exactly when each of its steps, the trigger among
    them, is valid; the flag of the flow it was given does not count. *)
Theorem apply_flags_valid_iff_steps_valid (flowVersion : FlowVersion)
  (operation : FlowOperationRequest) (fuel : nat) (result : FlowVersion) :
  apply fuel flowVersion operation = Returns result ->
  flowValid result = isValid result
  /\ (flowValid result = true
      <-> forall step, In step (getAllSteps (trigger result)) ->
            valid (propsOf step) = true).
Proof.
  intros H.
  assert (Hflag : flowValid result = isValid result).
  { destruct fuel as [|fuel]; [discriminate|].
    cbn [apply] in H. apply bind_returns in H. destruct H as [c [_ H]].
    apply bind_returns in H. destruct H as [c' [_ H]].
    inversion H. reflexivity. }
  split; [exact Hflag|]. rewrite Hflag. apply isValid_all_steps.
Qed.

End ValidFlag.

Lemma apply_flags_valid_iff_steps_valid_witness :
  flowValid (withFlowValid true chainFlow)
  = isValid (withFlowValid true chainFlow)
  /\ (flowValid (withFlowValid true chainFlow) = true
      <-> forall step,
            In step (getAllSteps (trigger (withFlowValid true chainFlow))) ->
            valid (propsOf step) = true).
Proof.
  apply (apply_flags_valid_iff_steps_valid (E := referenceExternals)
           chainFlow (DELETE_ACTION "step_9") 5).
  reflexivity.
Defined.

(* ================================================================== *)
(** ** The parent of a step *)
(* ================================================================== *)

(** [steps.at(-1)?.name === name_], also [steps[steps.length - 1]]. *)
Definition lastNamed (name_ : string) (steps : list Step) : bool :=
  match rev steps with
  | lastStep :: _ => hasName name_ lastStep
  | [] => false
  end.

(** [parent.children.map((child) => child?.nextAction)
      .filter((child) => child)] *)
Definition routerDirectChildren (children_ : list (option Step)) : list Step :=
  flat_map
    (fun child =>
       match child with
       | Some a => match nextOf a with Some x => [x] | None => [] end
       | None => []
       end) children_.

(** What [getDirectParentStep] and [isStepLastChildOfParent] ask of a
    branch, a loop or a router before they call it the parent. *)
Definition lastDirectChildNamed (name_ : string) (parent : Step) : bool :=
  match parent with
  | BranchAction _ _ _ _ =>
      lastNamed name_ (getAllDirectChildStepsForBranch parent success)
      || lastNamed name_ (getAllDirectChildStepsForBranch parent failure)
  | LoopOnItemsAction _ _ _ =>
      lastNamed name_ (getAllDirectChildStepsForLoop parent)
  | RouterAction _ c _ => lastNamed name_ (routerDirectChildren c)
  | SimpleStep _ _ _ => false
  end.

(** [a ?? b] *)
Definition nullish {A} (a b : option A) : option A :=
  match a with Some _ => a | None => b end.

(** [getDirectParentStep] on a parent that is there.  The search goes
    on in the successor when the parent is no trigger with the child in
    its chain and no branch, loop or router with the child as its child. *)
Fixpoint getDirectParentStepIn (child : Step) (parent : Step) : option Step :=
  let name_ := stepName child in
  let inSlot slot :=
    match slot with
    | Some a => getDirectParentStepIn child a
    | None => None
    end in
  if isTrigger (typeOf parent)
     && existsb (hasName name_) (chainFrom (nextOf parent))
  then Some parent
  else
    match parent with
    | SimpleStep _ _ n => inSlot n
    | BranchAction _ s f n =>
        if isChildOf parent name_ then
          if lastDirectChildNamed name_ parent then Some parent
          else nullish (inSlot s) (inSlot f)
        else inSlot n
    | LoopOnItemsAction _ b n =>
        if isChildOf parent name_ then
          if lastDirectChildNamed name_ parent then Some parent
          else inSlot b
        else inSlot n
    | RouterAction _ c n =>
        if isChildOf parent name_ then
          if lastDirectChildNamed name_ parent then Some parent
          else
            match c with
            | Some (SimpleStep _ _ x) :: _
            | Some (BranchAction _ _ _ x) :: _
            | Some (LoopOnItemsAction _ _ x) :: _
            | Some (RouterAction _ _ x) :: _ => inSlot x
            | _ => None
            end
        else inSlot n
    end.

Definition getDirectParentStep (child : Step) (parent : option Step)
  : option Step :=
  match parent with
  | Some p => getDirectParentStepIn child p
  | None => None
  end.

(** [isStepLastChildOfParent]; the loop over the successors of a parent
    without children looks for the last of them. *)
Definition isStepLastChildOfParent (child : Step) (trigger_ : Step) : bool :=
  match getDirectParentStep child (Some trigger_) with
  | Some parent =>
      if doesStepHaveChildren parent then
        match parent with
        | LoopOnItemsAction _ _ _ =>
            lastNamed (stepName child) (getAllDirectChildStepsForLoop parent)
        | RouterAction _ c _ =>
            lastNamed (stepName child) (routerDirectChildren c)
        | _ =>
            lastNamed (stepName child)
              (getAllDirectChildStepsForBranch parent success)
            || lastNamed (stepName child)
                 (getAllDirectChildStepsForBranch parent failure)
        end
      else lastNamed (stepName child) (chainFrom (nextOf parent))
  | None => false
  end.

Lemma in_slot_in_tree parent slot x :
  In slot (slots parent) -> In x (traverseOpt slot) ->
  In x (traverseInternal parent).
Proof.
  intros Hslot Hx. rewrite traverseInternal_slots. right.
  apply in_flat_map. exists slot. auto.
Qed.

(** Why [getDirectParentStep] answered [found]. *)
Definition foundAsParent (name_ : string) (found : Step) : Prop :=
  (isTrigger (typeOf found) = true
   /\ existsb (hasName name_) (chainFrom (nextOf found)) = true)
  \/ (isChildOf found name_ = true
      /\ lastDirectChildNamed name_ found = true).

(** [children[0]?.nextAction] *)
Definition firstChildNext (children_ : list (option Step)) : option Step :=
  match children_ with
  | Some a :: _ => nextOf a
  | _ => None
  end.

Lemma getDirectParentStepIn_unfold child parent :
  getDirectParentStepIn child parent =
  let name_ := stepName child in
  if isTrigger (typeOf parent)
     && existsb (hasName name_) (chainFrom (nextOf parent))
  then Some parent
  else
    match parent with
    | SimpleStep _ _ n => getDirectParentStep child n
    | BranchAction _ s f n =>
        if isChildOf parent name_ then
          if lastDirectChildNamed name_ parent then Some parent
          else nullish (getDirectParentStep child s)
                 (getDirectParentStep child f)
        else getDirectParentStep child n
    | LoopOnItemsAction _ b n =>
        if isChildOf parent name_ then
          if lastDirectChildNamed name_ parent then Some parent
          else getDirectParentStep child b
        else getDirectParentStep child n
    | RouterAction _ c n =>
        if isChildOf parent name_ then
          if lastDirectChildNamed name_ parent then Some parent
          else getDirectParentStep child (firstChildNext c)
        else getDirectParentStep child n
    end.
Proof.
  destruct parent as [ty p n|p s f n|p b n|p c n]; try reflexivity.
  destruct c as [|[[]|] c']; reflexivity.
Qed.

Lemma getDirectParentStepIn_found child (k : nat) :
  forall parent, height parent <= k ->
    forall found, getDirectParentStepIn child parent = Some found ->
      In found (traverseInternal parent)
      /\ foundAsParent (stepName child) found.
Proof.
  induction k as [|k IH]; intros parent Hh found H.
  - pose proof (height_pos parent). lia.
  - assert (Hbelow : forall a x,
              height a < height parent ->
              In a (traverseInternal parent) ->
              getDirectParentStep child (Some a) = Some x ->
              In x (traverseInternal parent)
              /\ foundAsParent (stepName child) x).
    { intros a x Hlt Ha Hx. simpl in Hx.
      destruct (IH a) with (found := x) as [H1 H2]; [lia|exact Hx|].
      split; [|exact H2].
      apply (traverse_trans _ parent (le_n _) a); assumption. }
    assert (Hslot : forall slot x,
              In slot (slots parent) ->
              getDirectParentStep child slot = Some x ->
              In x (traverseInternal parent)
              /\ foundAsParent (stepName child) x).
    { intros [a|] x Hin Hx; [|discriminate].
      apply (Hbelow a); [|eapply in_slot_in_tree; eauto;
                          apply traverseInternal_self|exact Hx].
      apply (height_slot parent (Some a) Hin). }
    rewrite getDirectParentStepIn_unfold in H. cbv zeta in H.
    destruct (isTrigger (typeOf parent)
              && existsb (hasName (stepName child)) (chainFrom (nextOf parent)))
      eqn:Htrigger.
    { inversion H; subst found. apply andb_prop in Htrigger.
      split; [apply traverseInternal_self|left; exact Htrigger]. }
    assert (Hself : isChildOf parent (stepName child) = true ->
              lastDirectChildNamed (stepName child) parent = true ->
              Some parent = Some found ->
              In found (traverseInternal parent)
              /\ foundAsParent (stepName child) found).
    { intros H1 H2 Heq. inversion Heq; subst found.
      split; [apply traverseInternal_self|right; auto]. }
    destruct parent as [ty p n|p s f n|p b n|p c n].
    + apply (Hslot n); [left; reflexivity|exact H].
    + destruct (isChildOf _ _) eqn:Hchild;
        [|apply (Hslot n); simpl; auto].
      destruct (lastDirectChildNamed _ _) eqn:Hlast; [auto|].
      unfold nullish in H.
      destruct (getDirectParentStep child s) eqn:Hs.
      * inversion H; subst. apply (Hslot s); simpl; auto.
      * apply (Hslot f); simpl; auto.
    + destruct (isChildOf _ _) eqn:Hchild;
        [|apply (Hslot n); simpl; auto].
      destruct (lastDirectChildNamed _ _) eqn:Hlast; [auto|].
      apply (Hslot b); simpl; auto.
    + destruct (isChildOf _ _) eqn:Hchild.
      * destruct (lastDirectChildNamed _ _) eqn:Hlast; [auto|].
        destruct c as [|[a|] c']; try discriminate. simpl in H.
        destruct (nextOf a) as [x|] eqn:Hnext; [|discriminate].
        assert (Ha : In (Some a) (slots (RouterAction p (Some a :: c') n)))
          by (left; reflexivity).
        assert (Hx : In (Some x) (slots a))
          by (rewrite slots_structural, Hnext; apply in_or_app;
              right; left; reflexivity).
        pose proof (height_slot _ _ Ha) as Hlt.
        pose proof (height_slot _ _ Hx) as Hlt'.
        apply (Hbelow x); [simpl in *; lia| |exact H].
        apply (in_slot_in_tree _ (Some a)); [exact Ha|].
        simpl. apply (in_slot_in_tree a (Some x)); [exact Hx|].
        apply traverseInternal_self.
      * apply (Hslot n); [|exact H]. simpl. apply in_or_app. right.
        left. reflexivity.
Qed.

Lemma isChildOf_below parent name_ :
  isChildOf parent name_ = true ->
  In name_ (flat_map stepNamesOpt (structuralSlots parent)).
Proof.
  destruct parent as [ty p n|p s f n|p b n|p c n]; simpl; intros H.
  - discriminate.
  - apply hasName_exists in H. rewrite map_app in H.
    rewrite app_nil_r. destruct s, f; exact H.
  - apply hasName_exists in H. rewrite app_nil_r. destruct b; exact H.
  - apply existsb_exists in H. destruct H as [a [Ha Hname]].
    apply in_flat_map in Ha. destruct Ha as [[a'|] [Hin Ha]];
      [|contradiction].
    destruct Ha as [<-|[]]. apply String.eqb_eq in Hname.
    apply in_flat_map. exists (Some a'). split; [exact Hin|]. simpl.
    rewrite <- Hname. unfold stepNames. apply in_map.
    apply traverseInternal_self.
Qed.

Lemma foundAsParent_kind name_ found :
  foundAsParent name_ found ->
  (isTrigger (typeOf found) = true /\ doesStepHaveChildren found = false)
  \/ (doesStepHaveChildren found = true
      /\ lastDirectChildNamed name_ found = true).
Proof.
  intros [[H _]|[_ H]].
  - left. split; [exact H|]. destruct found as [[]| | |]; try discriminate;
      reflexivity.
  - right. split; [|exact H].
    destruct found; try reflexivity; discriminate.
Qed.

(** X21.  The step [getDirectParentStep] answers is a step of the tree
    it searched, it is a trigger, a branch, a loop or a router, never a
    code or piece action, and a step with the name of the child lies
    below it. *)
Theorem getDirectParentStep_answers_a_step_above (child parent found : Step) :
  getDirectParentStep child (Some parent) = Some found ->
  In found (getAllSteps parent)
  /\ In (stepName child) (namesBelow found)
  /\ (isTrigger (typeOf found) = true \/ doesStepHaveChildren found = true).
Proof.
  intros H. simpl in H.
  destruct (getDirectParentStepIn_found child (height parent) parent
              (le_n _) found H) as [Hin Hwhy].
  split; [exact Hin|]. split.
  - unfold namesBelow. rewrite slots_structural, flat_map_app.
    apply in_or_app. destruct Hwhy as [[_ Hchain]|[Hchild _]].
    + right. simpl. rewrite app_nil_r.
      apply hasName_exists in Hchain. apply in_map_iff in Hchain.
      destruct Hchain as [x [Hname Hx]]. apply chainFrom_steps in Hx.
      destruct (nextOf found) as [a|]; [|contradiction].
      simpl. rewrite <- Hname. unfold stepNames. apply in_map. exact Hx.
    + left. apply isChildOf_below. exact Hchild.
  - destruct (foundAsParent_kind _ _ Hwhy) as [[H1 _]|[H1 _]]; auto.
Qed.

Lemma getDirectParentStep_answers_a_step_above_witness :
  In (trigger chainFlow) (getAllSteps (trigger chainFlow))
  /\ In (stepName (code "step_2" None)) (namesBelow (trigger chainFlow))
  /\ (isTrigger (typeOf (trigger chainFlow)) = true
      \/ doesStepHaveChildren (trigger chainFlow) = true).
Proof.
  apply (getDirectParentStep_answers_a_step_above (code "step_2" None)
           (trigger chainFlow) (trigger chainFlow)).
  reflexivity.
Defined.

(** X22.  [isStepLastChildOfParent] says yes for every step whose
    direct parent, as [getDirectParentStep] answers it, is a branch, a
    loop or a router; under a trigger it says yes for the name of the
    last step of the chain that follows the trigger; without a direct
    parent it says no. *)
Theorem isStepLastChildOfParent_by_parent (child trigger_ : Step) :
  isStepLastChildOfParent child trigger_
  = match getDirectParentStep child (Some trigger_) with
    | Some parent =>
        doesStepHaveChildren parent
        || lastNamed (stepName child) (chainFrom (nextOf parent))
    | None => false
    end.
Proof.
  unfold isStepLastChildOfParent.
  destruct (getDirectParentStep child (Some trigger_)) as [found|] eqn:H;
    [|reflexivity].
  simpl in H.
  destruct (getDirectParentStepIn_found child (height trigger_) trigger_
              (le_n _) found H) as [_ Hwhy].
  destruct (foundAsParent_kind _ _ Hwhy) as [[_ Hno]|[Hyes Hlast]].
  - rewrite Hno. reflexivity.
  - rewrite Hyes. simpl.
    destruct found as [ty p n|p s f n|p b n|p c n];
      [discriminate|exact Hlast|exact Hlast|exact Hlast].
Qed.

(* ================================================================== *)
(** ** Adding an action after a step *)
(* ================================================================== *)

(** The requests that [addAction] serves by writing [nextAction] of the
    parent: location [AFTER] or none, and any location when the parent
    is no loop, branch or router. *)
Definition placedAfter (parent : Step)
  (location : option StepLocationRelativeToParent) : bool :=
  match location with
  | None | Some AFTER => true
  | Some _ => negb (doesStepHaveChildren parent)
  end.

Lemma name_not_below T parent x :
  NoDup (stepNames T) -> In parent (traverseInternal T) ->
  In x (flat_map traverseOpt (slots parent)) ->
  stepName x <> stepName parent.
Proof.
  intros Hnd Hparent Hx Hname.
  pose proof (height_below _ _ Hx) as Hlt.
  assert (x = parent).
  { apply (distinct_names_determine_step T); auto.
    eapply below_in_tree; eauto. }
  subst x. lia.
Qed.

Section AddAfter.

Context {E : Externals}.

Lemma addActionFn_after request children_ parent :
  stepName parent = parentStep request ->
  placedAfter parent (stepLocationRelativeToParent request) = true ->
  addActionFn request children_ parent
  = (a <- createAction (action request)
            (onlyNext (nextOf parent) children_) ;;
     Returns (setNext (Some a) parent)).
Proof.
  intros Hname Hafter. unfold addActionFn.
  rewrite Hname, String.eqb_refl. cbn [negb].
  destruct parent as [ty p n|p s f n|p b n|p c n];
    destruct (stepLocationRelativeToParent request) as [[]|];
    try discriminate; try reflexivity.
Qed.

Lemma createAction_onlyNext request n a :
  createAction request (onlyNext n None) = Returns a ->
  stepName a = reqName request
  /\ nextOf a = n
  /\ flat_map traverseOpt (slots a) = traverseOpt n.
Proof.
  unfold createAction. intros H.
  destruct (reqType request) as [[]|]; simpl in H; try discriminate;
    inversion H; simpl; rewrite ?app_nil_r; auto.
Qed.

(** X23.  [ADD_ACTION] with location [AFTER] (or without location, or
    under a parent that is no loop, branch or router) puts the new step
    between the parent and its former successor and leaves the rest of
    the flow as it was, when the step names are distinct, the name of
    the new step is not in use, and [createAction] and [upgradePiece]
    return on the request: the step added is what they return, and the
    flow has one step more, the one of the request. *)
Theorem add_action_after_parent (flowVersion : FlowVersion)
  (request : AddActionRequest) (parent created added : Step) :
  NoDup (stepNames (trigger flowVersion)) ->
  In parent (getAllSteps (trigger flowVersion)) ->
  stepName parent = parentStep request ->
  ~ In (reqName (action request)) (stepNames (trigger flowVersion)) ->
  placedAfter parent (stepLocationRelativeToParent request) = true ->
  createAction (action request) (onlyNext (nextOf parent) None)
  = Returns created ->
  upgradePiece created (reqName (action request)) = Returns added ->
  exists fuel0 flowVersion',
    (forall fuel, fuel0 <= fuel ->
       apply fuel flowVersion (ADD_ACTION request) = Returns flowVersion')
    /\ trigger flowVersion'
       = plug (stepName parent) (setNext (Some added) parent)
           (trigger flowVersion)
    /\ stepName added = reqName (action request)
    /\ nextOf added = nextOf parent
    /\ Permutation (stepNames (trigger flowVersion'))
         (reqName (action request) :: stepNames (trigger flowVersion)).
Proof.
  intros Hnd Hparent Hname Hfresh Hafter Hcreate Hupgrade.
  set (T := trigger flowVersion) in *.
  set (new := reqName (action request)) in *.
  destruct (createAction_onlyNext _ _ _ Hcreate) as [Hcname [Hcnext Hcbelow]].
  destruct (upgradePiece_shape _ _ _ Hupgrade) as [q Hadded].
  assert (Haname : stepName added = new).
  { destruct (upgradePiece_result _ _ _ Hupgrade) as [->|[_ [_ [v ->]]]];
      [exact Hcname|].
    unfold setPieceVersion, stepName. rewrite propsOf_setProps. exact Hcname. }
  assert (Hanext : nextOf added = nextOf parent).
  { rewrite Hadded. destruct created; exact Hcnext. }
  assert (Hslots : slots added = slots created)
    by (apply (upgradePiece_slots _ _ _ Hupgrade)).
  assert (Hwf : wellFramed parent (structuralSlots parent) []).
  { unfold wellFramed. rewrite slots_structural, length_app. simpl. lia. }
  assert (Hpname : stepName parent <> new).
  { intros Heq. apply Hfresh. fold new. rewrite <- Heq.
    unfold stepNames. apply in_map. exact Hparent. }
  (* the steps below the parent *)
  assert (Hbelow : forall x, In x (flat_map traverseOpt (slots parent)) ->
            stepName x <> stepName parent /\ stepName x <> new).
  { intros x Hx. split; [eapply name_not_below; eauto|].
    intros Heq. apply Hfresh. fold new. rewrite <- Heq.
    unfold stepNames. apply in_map. eapply below_in_tree; eauto. }
  assert (Hstructural : forall x,
            In x (flat_map traverseOpt (structuralSlots parent ++ [])) ->
            stepName x <> stepName parent /\ stepName x <> new).
  { intros x Hx. apply Hbelow. rewrite slots_structural, flat_map_app.
    rewrite app_nil_r in Hx. apply in_or_app. left. exact Hx. }
  assert (Hchain : forall x, In x (traverseOpt (nextOf parent)) ->
            stepName x <> stepName parent /\ stepName x <> new).
  { intros x Hx. apply Hbelow. rewrite slots_structural, flat_map_app.
    apply in_or_app. right. simpl. rewrite app_nil_r. exact Hx. }
  assert (Houter : forall t x,
            In x (outerSteps (stepName parent) t T) ->
            stepName x <> stepName parent /\ stepName x <> new).
  { intros t x Hx.
    destruct (outerSteps_in _ _ _ T (le_n _) x Hx) as [_ H1].
    split; [exact H1|]. intros Heq. apply Hfresh. fold new. rewrite <- Heq.
    apply (outerSteps_names _ t _ T (le_n _) x Hx). }
  (* first pass: the new step is put after the parent *)
  assert (Hfirst : settles (addActionFn request None) T
                     (plug (stepName parent) (setNext (Some created) parent) T)).
  { rewrite <- (plug_self T parent Hnd Hparent) at 1.
    apply (transparent_plug [parentStep request] (stepName parent) T).
    - intros t x Hx [Heq|[]]. destruct (Houter t x Hx) as [H1 _].
      apply H1. rewrite Hname. symmetry. exact Heq.
    - apply addActionFn_localTo.
    - rewrite <- (withSlots_slots (setNext (Some created) parent)).
      apply settles_node.
      + rewrite (addActionFn_after request None parent Hname Hafter), Hcreate.
        reflexivity.
      + apply slots_settle_identity. intros x Hx.
        apply addActionFn_other. rewrite <- Hname.
        rewrite slots_setNext, flat_map_app in Hx.
        apply in_app_or in Hx. destruct Hx as [Hx|Hx].
        * apply Hstructural. rewrite app_nil_r. exact Hx.
        * simpl in Hx. rewrite app_nil_r, traverseInternal_slots in Hx.
          destruct Hx as [<-|Hx].
          -- rewrite Hcname. intros Heq. apply Hpname. symmetry. exact Heq.
          -- rewrite Hcbelow in Hx. apply (Hchain x Hx). }
  (* second pass: the version of the new step is pinned *)
  assert (Hsecond : settles (fun s => upgradePiece s new)
                      (plug (stepName parent) (setNext (Some created) parent) T)
                      (plug (stepName parent) (setNext (Some added) parent) T)).
  { apply (transparent_plug [new] (stepName parent) T).
    - intros t x Hx [Heq|[]]. destruct (Houter t x Hx) as [_ H2].
      apply H2. symmetry. exact Heq.
    - apply upgradePiece_localTo.
    - rewrite <- !frameOf_next.
      apply settles_in_frame; [exact Hwf| | |].
      + apply upgradePiece_localTo. intros [Heq|[]].
        rewrite stepName_frameOf in Heq. apply Hpname. symmetry. exact Heq.
      + intros x Hx. apply upgradePiece_localTo. intros [Heq|[]].
        destruct (Hstructural x Hx) as [_ H2]. apply H2. symmetry. exact Heq.
      + rewrite <- (withSlots_slots added). apply settles_node.
        * exact Hupgrade.
        * rewrite Hslots. apply slots_settle_identity. intros x Hx.
          apply upgradePiece_localTo. intros [Heq|[]].
          rewrite Hcbelow in Hx. destruct (Hchain x Hx) as [_ H2].
          apply H2. symmetry. exact Heq. }
  destruct Hfirst as [fuel1 Hfirst]. destruct Hsecond as [fuel2 Hsecond].
  exists (S (Nat.max fuel1 fuel2)). eexists. split; [|split; [|split; [|split]]].
  - intros [|fuel] Hfuel; [lia|]. simpl.
    unfold addAction, transferFlow. simpl. fold T.
    rewrite Hfirst by lia. simpl. fold new.
    rewrite Hsecond by lia. simpl. reflexivity.
  - reflexivity.
  - exact Haname.
  - exact Hanext.
  - simpl.
    destruct (plug_names _ T (le_n _) Hnd parent
                (setNext (Some added) parent) Hparent) as [rest [H1 H2]].
    rewrite H2, H1.
    change (new :: stepNames parent ++ rest)
      with ((new :: stepNames parent) ++ rest).
    apply Permutation_app_tail.
    rewrite (stepNames_slots (setNext (Some added) parent)), slots_setNext.
    rewrite (stepNames_slots parent), slots_structural.
    rewrite stepName_setNext, !flat_map_app.
    cbn [flat_map stepNamesOpt]. rewrite !app_nil_r.
    rewrite (stepNames_slots added), Haname.
    assert (Hnames : flat_map stepNamesOpt (slots added)
                     = stepNamesOpt (nextOf parent)).
    { rewrite Hslots.
      assert (Hmap : forall l, flat_map stepNamesOpt l
                               = map stepName (flat_map traverseOpt l)).
      { induction l as [|[x|] l IHl]; simpl; [reflexivity| |exact IHl].
        rewrite map_app, IHl. reflexivity. }
      rewrite Hmap, Hcbelow. destruct (nextOf parent); reflexivity. }
    rewrite Hnames.
    apply Permutation_trans
      with (l' := stepName parent
                  :: new :: flat_map stepNamesOpt (structuralSlots parent)
                     ++ stepNamesOpt (nextOf parent)).
    + constructor. apply Permutation_sym. apply Permutation_middle.
    + apply perm_swap.
Qed.

End AddAfter.

(** A code step to be put after ["step_1"] of the chain. *)
Definition addAfterFirst : AddActionRequest :=
  {| parentStep := "step_1";
     stepLocationRelativeToParent := Some AFTER;
     branchIndex := None;
     addBranchName := None;
     action := requestOfStep (code "step_9" None) |}.

Lemma add_action_after_parent_witness :
  exists fuel0 flowVersion',
    (forall fuel, fuel0 <= fuel ->
       apply (E := referenceExternals) fuel chainFlow
         (ADD_ACTION addAfterFirst) = Returns flowVersion')
    /\ trigger flowVersion'
       = plug "step_1"
           (code "step_1"
              (Some (code "step_9"
                       (Some (code "step_2" (Some (code "step_3" None)))))))
           (trigger chainFlow)
    /\ stepName
         (code "step_9" (Some (code "step_2" (Some (code "step_3" None)))))
       = "step_9"
    /\ nextOf
         (code "step_9" (Some (code "step_2" (Some (code "step_3" None)))))
       = Some (code "step_2" (Some (code "step_3" None)))
    /\ Permutation (stepNames (trigger flowVersion'))
         ("step_9" :: stepNames (trigger chainFlow)).
Proof.
  apply (add_action_after_parent (E := referenceExternals) chainFlow
           addAfterFirst
           (code "step_1" (Some (code "step_2" (Some (code "step_3" None)))))
           (code "step_9" (Some (code "step_2" (Some (code "step_3" None)))))
           (code "step_9" (Some (code "step_2" (Some (code "step_3" None)))))).
  - repeat constructor; simpl; intuition discriminate.
  - simpl. auto.
  - reflexivity.
  - simpl. intuition discriminate.
  - reflexivity.
  - reflexivity.
  - reflexivity.
Defined.

(* ================================================================== *)
(** ** Updating an action in place *)
(* ================================================================== *)

Lemma outerOpt_names hole t (l : list (option Step)) x :
  In x (flat_map (outerOpt hole t) l) ->
  In (stepName x) (flat_map stepNamesOpt l).
Proof.
  intros Hx. apply in_flat_map in Hx. destruct Hx as [[b|] [Hb Hx]];
    [|contradiction].
  apply (in_slot_names _ b); [exact Hb|].
  apply (outerSteps_names hole t _ b (le_n _) x Hx).
Qed.

(** With distinct names, the steps around the hole share no name with
    the steps of the step that was there. *)
Lemma outerSteps_apart hole t (k : nat) :
  forall ctx, height ctx <= k -> NoDup (stepNames ctx) ->
    forall Q, In Q (traverseInternal ctx) -> stepName Q = hole ->
      forall x, In x (outerSteps hole t ctx) ->
        ~ In (stepName x) (stepNames Q).
Proof.
  induction k as [|k IH]; intros ctx Hh Hnd Q HQ Hhole x Hx.
  - pose proof (height_pos ctx). lia.
  - rewrite outerSteps_unfold in Hx.
    destruct (String.eqb (stepName ctx) hole) eqn:Hname; [contradiction|].
    assert (Hplug : stepName (plug hole t ctx) = stepName ctx).
    { rewrite plug_unfold, Hname. unfold stepName.
      rewrite propsOf_withSlots. reflexivity. }
    apply String.eqb_neq in Hname.
    rewrite traverseInternal_slots in HQ.
    destruct HQ as [<-|HQ]; [congruence|].
    apply in_flat_map in HQ. destruct HQ as [[a|] [Ha HQ]]; [|contradiction].
    simpl in HQ.
    destruct (in_split _ _ Ha) as [l1 [l2 Hsplit]].
    assert (Hsub : incl (stepNames Q) (stepNames a)).
    { intros y Hy. unfold stepNames in *. apply in_map_iff in Hy.
      destruct Hy as [z [<- Hz]]. apply in_map.
      eapply traverse_trans; [apply le_n|exact HQ|exact Hz]. }
    destruct (NoDup_slot ctx l1 a l2 Hnd Hsplit) as [Hnda [Hroot Hothers]].
    destruct Hx as [<-|Hx].
    + intros Hin. rewrite Hplug in Hin. apply Hroot, Hsub, Hin.
    + rewrite Hsplit, flat_map_app in Hx. simpl in Hx.
      apply in_app_or in Hx.
      destruct Hx as [Hx|Hx]; [|apply in_app_or in Hx; destruct Hx as [Hx|Hx]].
      * intros Hin. apply (Hothers (stepName x)); [|apply Hsub; exact Hin].
        rewrite flat_map_app. apply in_or_app. left.
        eapply outerOpt_names; eauto.
      * apply (IH a); auto.
        pose proof (height_slot ctx _ Ha) as Hlt. simpl in Hlt. lia.
      * intros Hin. apply (Hothers (stepName x)); [|apply Hsub; exact Hin].
        rewrite flat_map_app. apply in_or_app. right.
        eapply outerOpt_names; eauto.
Qed.

Lemma extractActions_slots S x :
  In (Some x)
    [linkNext (extractActions S); linkOnSuccess (extractActions S);
     linkOnFailure (extractActions S); linkFirstLoop (extractActions S)]
  \/ (exists c, linkChildren (extractActions S) = Some c /\ In (Some x) c) ->
  In (Some x) (slots S).
Proof.
  destruct S as [ty p n|p s f n|p b n|p c n]; simpl.
  - intros [[H|[H|[H|[H|[]]]]]|[c [H _]]]; try discriminate. auto.
  - intros [[H|[H|[H|[H|[]]]]]|[c [H _]]]; try discriminate; auto.
  - intros [[H|[H|[H|[H|[]]]]]|[c [H _]]]; try discriminate; auto.
  - intros [[H|[H|[H|[H|[]]]]]|[c' [H Hx]]]; try discriminate.
    + apply in_or_app. right. left. exact H.
    + inversion H; subst c'. apply in_or_app. left. exact Hx.
Qed.

Section UpdateInPlace.

Context {E : Externals}.

Lemma recreateFirstChild_at request c1 S c2 :
  (forall a, In (Some a) c1 -> stepName a <> reqName request) ->
  stepName S = reqName request ->
  recreateFirstChild request (c1 ++ Some S :: c2)
  = (a <- createAction request (extractActions S) ;;
     Returns (c1 ++ Some a :: c2)).
Proof.
  intros Hother Hname. induction c1 as [|[x|] c1 IH]; simpl.
  - rewrite Hname, String.eqb_refl. reflexivity.
  - assert (Hx : String.eqb (stepName x) (reqName request) = false)
      by (apply String.eqb_neq, Hother; left; reflexivity).
    rewrite Hx, IH by (intros a Ha; apply Hother; right; exact Ha).
    destruct (createAction _ _); reflexivity.
  - rewrite IH by (intros a Ha; apply Hother; right; exact Ha).
    destruct (createAction _ _); reflexivity.
Qed.

Lemma recreate_at request S :
  stepName S = reqName request ->
  recreate request (Some S)
  = (a <- createAction request (extractActions S) ;; Returns (Some a)).
Proof. intros Hname. simpl. rewrite Hname, String.eqb_refl. reflexivity. Qed.

(** [updateAction] at the step that has the named step in a slot. *)
Lemma updateActionFn_at request Q before S after :
  slots Q = before ++ Some S :: after ->
  stepName S = reqName request ->
  (forall a, In (Some a) (before ++ after) ->
     stepName a <> reqName request) ->
  updateActionFn request Q
  = (a <- createAction request (extractActions S) ;;
     Returns (frameOf Q before after (Some a))).
Proof.
  intros Hslots Hname Hother.
  assert (Hrec : forall slot, In slot (before ++ after) ->
            recreate request slot = Returns slot).
  { intros slot Hin. apply recreate_other. intros a ->. apply Hother, Hin. }
  unfold updateActionFn, frameOf.
  destruct Q as [ty p n|p s f n|p b n|p c n]; cbn [nextOf]; simpl in Hslots.
  - destruct before as [|x [|y before]]; inversion Hslots; subst.
    rewrite (recreate_at request S Hname).
    destruct (createAction _ _); reflexivity.
  - destruct before as [|x [|y [|z before]]]; inversion Hslots; subst;
      try (destruct before; discriminate).
    + rewrite (Hrec n), (Hrec f), (recreate_at request S Hname)
        by (simpl; auto).
      destruct (createAction _ _); reflexivity.
    + rewrite (Hrec n), (recreate_at request S Hname), (Hrec x)
        by (simpl; auto).
      destruct (createAction _ _); reflexivity.
    + rewrite (recreate_at request S Hname).
      destruct (createAction _ _); [|reflexivity..]. simpl.
      rewrite (Hrec y), (Hrec x) by (simpl; auto). reflexivity.
  - destruct before as [|x [|y before]]; inversion Hslots; subst;
      try (destruct before; discriminate).
    + rewrite (Hrec n), (recreate_at request S Hname) by (simpl; auto).
      destruct (createAction _ _); reflexivity.
    + rewrite (recreate_at request S Hname).
      destruct (createAction _ _); [|reflexivity..]. simpl.
      rewrite (Hrec x) by (simpl; auto). reflexivity.
  - destruct after as [|y after].
    + apply app_inj_tail in Hslots. destruct Hslots as [-> ->].
      rewrite (recreate_at request S Hname).
      destruct (createAction _ _) as [created| | |]; [|reflexivity..]. simpl.
      rewrite recreateFirstChild_other.
      * simpl. rewrite removelast_last, last_last. reflexivity.
      * intros x Hx. apply Hother. rewrite app_nil_r. exact Hx.
    + destruct (exists_last (l := y :: after)) as [after' [z Hafter]];
        [discriminate|].
      rewrite Hafter in *.
      assert (Heq : c ++ [n] = (before ++ Some S :: after') ++ [z])
        by (rewrite Hslots, <- app_assoc; reflexivity).
      apply app_inj_tail in Heq. destruct Heq as [-> ->].
      rewrite (Hrec z) by (apply in_or_app; right; apply in_or_app; right;
                           left; reflexivity).
      simpl.
      rewrite recreateFirstChild_at; [|
        intros x Hx; apply Hother; apply in_or_app; left; exact Hx|
        exact Hname].
      destruct (createAction _ _) as [created| | |]; [|reflexivity..]. simpl.
      replace (before ++ Some created :: after' ++ [z])
        with ((before ++ Some created :: after') ++ [z])
        by (rewrite <- app_assoc; reflexivity).
      rewrite removelast_last, last_last. reflexivity.
Qed.

Lemma createAction_same_kind request S a :
  createAction request (extractActions S) = Returns a ->
  typeOf S = reqType request -> slots a = slots S.
Proof.
  unfold createAction. intros H Hty. rewrite <- Hty in H.
  destruct S as [[]| | |]; simpl in H; try discriminate; inversion H;
    reflexivity.
Qed.

(** X24.  [UPDATE_ACTION] re-creates the named step where it is: in a
    flow with distinct step names, the step of that name in a slot of
    another step is replaced by what [createAction] makes of the request
    and the links of the step, passed through [upgradePiece] (both are
    to return); it keeps its name and its successor, and, when the
    request has the kind of the step, all that was below it.  The rest
    of the flow stays as it was. *)
Theorem update_action_in_place (flowVersion : FlowVersion)
  (request : UpdateActionRequest) (Q S : Step)
  (before after : list (option Step)) (created updated : Step) :
  NoDup (stepNames (trigger flowVersion)) ->
  In Q (getAllSteps (trigger flowVersion)) ->
  slots Q = before ++ Some S :: after ->
  stepName S = reqName request ->
  createAction request (extractActions S) = Returns created ->
  upgradePiece created (reqName request) = Returns updated ->
  exists fuel0 flowVersion',
    (forall fuel, fuel0 <= fuel ->
       apply fuel flowVersion (UPDATE_ACTION request) = Returns flowVersion')
    /\ trigger flowVersion'
       = plug (stepName Q) (frameOf Q before after (Some updated))
           (trigger flowVersion)
    /\ stepName updated = stepName S
    /\ nextOf updated = nextOf S
    /\ (typeOf S = reqType request -> slots updated = slots S).
Proof.
  intros Hnd HQ Hslots Hname Hcreate Hupgrade.
  set (T := trigger flowVersion) in *.
  set (f := updateActionFn request).
  assert (Hwf : wellFramed Q before after).
  { unfold wellFramed. rewrite Hslots, length_app. simpl. lia. }
  assert (HSQ : In (Some S) (slots Q)).
  { rewrite Hslots. apply in_or_app. right. left. reflexivity. }
  assert (HS : In S (traverseInternal T)).
  { eapply traverse_trans; [apply le_n|exact HQ|].
    eapply in_traverse_slot; [exact HSQ|apply traverseInternal_self]. }
  assert (HndQ : NoDup (stepNames Q)).
  { apply (NoDup_subtree _ T (le_n _) Hnd Q HQ). }
  destruct (NoDup_slot Q before S after HndQ Hslots) as [_ [HQS Hothers]].
  destruct (createAction_returns _ _ _ Hcreate) as [Hcname [_ [Hclinks _]]].
  assert (Hcslots : forall a, In (Some a) (slots created) ->
            In (Some a) (slots S)).
  { intros a Ha. apply extractActions_slots. apply Hclinks. exact Ha. }
  assert (Hcbelow : forall x, In x (flat_map traverseOpt (slots created)) ->
            In x (flat_map traverseOpt (slots S))).
  { intros x Hx. apply in_flat_map in Hx.
    destruct Hx as [[a|] [Ha Hx]]; [|contradiction].
    apply in_flat_map. exists (Some a). split; [apply Hcslots, Ha|exact Hx]. }
  assert (Huslots : slots updated = slots created)
    by (apply (upgradePiece_slots _ _ _ Hupgrade)).
  assert (Huname : stepName updated = stepName S).
  { rewrite Hname.
    destruct (upgradePiece_result _ _ _ Hupgrade) as [->|[_ [_ [v ->]]]];
      [exact Hcname|].
    unfold setPieceVersion, stepName. rewrite propsOf_setProps. exact Hcname. }
  (* steps of the flow other than [Q] have no slot with the named step *)
  assert (Hid : forall z, In z (traverseInternal T) ->
            stepName z <> stepName Q -> f z = Returns z).
  { intros z Hz Hzname. apply updateActionFn_other. intros a Ha Heq.
    assert (a = S).
    { apply (distinct_names_determine_step T); auto; [|congruence].
      eapply traverse_trans; [apply le_n|exact Hz|].
      eapply in_traverse_slot; [exact Ha|apply traverseInternal_self]. }
    subst a. apply Hzname. f_equal.
    apply (distinct_names_one_owner _ T (le_n _) Hnd z Q S); auto. }
  assert (HbelowS : forall x, In x (flat_map traverseOpt (slots S)) ->
            In x (flat_map traverseOpt (slots Q))).
  { intros x Hx. rewrite Hslots, flat_map_app. apply in_or_app. right.
    simpl. apply in_or_app. left. rewrite traverseInternal_slots. right.
    exact Hx. }
  assert (HbelowQ : forall x, In x (flat_map traverseOpt (slots Q)) ->
            f x = Returns x).
  { intros x Hx. apply Hid.
    - exact (below_in_tree T Q x HQ Hx).
    - exact (name_not_below T Q x Hnd HQ Hx). }
  (* first pass *)
  assert (Hroot : settles f Q (frameOf Q before after (Some created))).
  { rewrite <- (withSlots_slots (frameOf Q before after (Some created))).
    apply settles_node.
    - unfold f. rewrite (updateActionFn_at request Q before S after Hslots Hname).
      + rewrite Hcreate. reflexivity.
      + intros a Ha Heq. apply (Hothers (stepName a)).
        * apply (in_slot_names _ a); [exact Ha|apply stepName_in_stepNames].
        * rewrite Heq, <- Hname. apply stepName_in_stepNames.
    - rewrite slots_frameOf by exact Hwf.
      apply slots_settle_identity. intros x Hx.
      rewrite flat_map_app in Hx. simpl in Hx.
      apply in_app_or in Hx.
      destruct Hx as [Hx|Hx]; [|apply in_app_or in Hx; destruct Hx as [Hx|Hx]].
      + apply HbelowQ. rewrite Hslots, flat_map_app. apply in_or_app. auto.
      + rewrite traverseInternal_slots in Hx. destruct Hx as [<-|Hx].
        * apply updateActionFn_other. intros a Ha Heq.
          apply (name_not_below T S a Hnd HS).
          -- apply in_own_slot. apply Hcslots. exact Ha.
          -- congruence.
        * apply HbelowQ, HbelowS, Hcbelow, Hx.
      + apply HbelowQ. rewrite Hslots, flat_map_app. apply in_or_app. right.
        simpl. apply in_or_app. right. exact Hx. }
  assert (Hfirst : settles f T
                     (plug (stepName Q) (frameOf Q before after (Some created))
                        T)).
  { destruct Hroot as [fuel0 Hroot].
    exists (fuel0 + height T). intros fuel Hfuel.
    pose proof (transfer_plug f (stepName Q) Q
                  (frameOf Q before after (Some created)) fuel0 Hroot
                  (height T) T (le_n _)) as Hplug.
    rewrite (plug_self T Q Hnd HQ) in Hplug. apply Hplug; [|exact Hfuel].
    intros s Hs. destruct (outerSteps_in _ _ _ T (le_n _) s Hs) as [Hin Hsname].
    rewrite (plug_self T Q Hnd HQ) in Hin. apply Hid; assumption. }
  (* second pass *)
  assert (Hsecond : settles (fun s => upgradePiece s (reqName request))
                      (plug (stepName Q)
                         (frameOf Q before after (Some created)) T)
                      (plug (stepName Q)
                         (frameOf Q before after (Some updated)) T)).
  { apply (transparent_plug [reqName request] (stepName Q) T).
    - intros t x Hx [Heq|[]].
      apply (outerSteps_apart (stepName Q) t _ T (le_n _) Hnd Q HQ eq_refl x Hx).
      rewrite <- Heq, <- Hname. unfold stepNames. apply in_map.
      eapply in_traverse_slot; [exact HSQ|apply traverseInternal_self].
    - apply upgradePiece_localTo.
    - apply settles_in_frame; [exact Hwf| | |].
      + apply upgradePiece_localTo. intros [Heq|[]].
        rewrite stepName_frameOf in Heq. apply HQS.
        rewrite <- Heq, <- Hname. apply stepName_in_stepNames.
      + intros x Hx. apply upgradePiece_localTo. intros [Heq|[]].
        apply (Hothers (stepName x)); [apply in_steps_names; exact Hx|].
        rewrite <- Heq, <- Hname. apply stepName_in_stepNames.
      + rewrite <- (withSlots_slots updated). apply settles_node.
        * exact Hupgrade.
        * rewrite Huslots. apply slots_settle_identity. intros x Hx.
          apply upgradePiece_localTo. intros [Heq|[]].
          apply (name_not_below T S x Hnd HS); [apply Hcbelow, Hx|].
          congruence. }
  destruct Hfirst as [fuel1 Hfirst]. destruct Hsecond as [fuel2 Hsecond].
  exists (Datatypes.S (Nat.max fuel1 fuel2)). eexists.
  split; [|split; [|split; [|split]]].
  - intros [|fuel] Hfuel; [lia|]. simpl.
    unfold updateAction, transferFlow. simpl. fold T. fold f.
    rewrite Hfirst by lia. simpl.
    rewrite Hsecond by lia. simpl. reflexivity.
  - reflexivity.
  - exact Huname.
  - destruct (upgradePiece_shape _ _ _ Hupgrade) as [q ->].
    transitivity (nextOf created); [destruct created; reflexivity|].
    rewrite (createAction_next _ _ _ Hcreate). destruct S; reflexivity.
  - intros Hty. rewrite Huslots.
    apply (createAction_same_kind request S created Hcreate Hty).
Qed.

End UpdateInPlace.

(** ["step_2"] of the chain under another display name. *)
Definition renameSecond : UpdateActionRequest :=
  {| reqType := OfAction CODE; reqName := "step_2";
     reqDisplayName := "Send the report"; reqSettings := plainSettings;
     reqValid := Some true |}.

Definition secondRenamed : Step :=
  SimpleStep SCode
    {| name := "step_2"; displayName := "Send the report"; valid := true;
       settings := plainSettings |}
    (Some (code "step_3" None)).

Lemma update_action_in_place_witness :
  exists fuel0 flowVersion',
    (forall fuel, fuel0 <= fuel ->
       apply (E := referenceExternals) fuel chainFlow
         (UPDATE_ACTION renameSecond) = Returns flowVersion')
    /\ trigger flowVersion'
       = plug "step_1" (code "step_1" (Some secondRenamed))
           (trigger chainFlow)
    /\ stepName secondRenamed = "step_2"
    /\ nextOf secondRenamed = Some (code "step_3" None)
    /\ (OfAction CODE = OfAction CODE ->
        slots secondRenamed = [Some (code "step_3" None)]).
Proof.
  apply (update_action_in_place (E := referenceExternals) chainFlow
           renameSecond
           (code "step_1" (Some (code "step_2" (Some (code "step_3" None)))))
           (code "step_2" (Some (code "step_3" None)))
           [] [] secondRenamed secondRenamed).
  - repeat constructor; simpl; intuition discriminate.
  - simpl. auto.
  - reflexivity.
  - reflexivity.
  - reflexivity.
  - reflexivity.
Defined.

(* ================================================================== *)
(** ** [transferFlow] as a rewrite of the steps one by one *)
(* ================================================================== *)

(** X25.  When the callback keeps the links of the step it is given and
    returns on every step of the flow, [transferFlow] returns; the flow
    it returns has the name, the state and the flag of the one given,
    and its steps are, one by one in traversal order, the steps of the
    given flow with the properties and the kind the callback gave
    them. *)
Theorem transferFlow_rewrites_step_by_step (flowVersion : FlowVersion)
  (transferFunction : Step -> outcome Step) (fuel : nat) :
  (forall s u, transferFunction s = Returns u -> slots u = slots s) ->
  (forall s, In s (getAllSteps (trigger flowVersion)) ->
     exists u, transferFunction s = Returns u) ->
  height (trigger flowVersion) <= fuel ->
  exists flowVersion',
    transferFlow fuel flowVersion transferFunction = Returns flowVersion'
    /\ flowDisplayName flowVersion' = flowDisplayName flowVersion
    /\ state flowVersion' = state flowVersion
    /\ flowValid flowVersion' = flowValid flowVersion
    /\ Forall2
         (fun s s' =>
            exists u, transferFunction s = Returns u
                      /\ propsOf s' = propsOf u /\ typeOf s' = typeOf u)
         (getAllSteps (trigger flowVersion))
         (getAllSteps (trigger flowVersion')).
Proof.
  intros Hshape Hreturns Hfuel.
  destruct (transfer_returns transferFunction Hshape fuel
              (trigger flowVersion) Hfuel Hreturns) as [t Ht].
  exists (withTrigger t flowVersion).
  unfold transferFlow. simpl. rewrite Ht. simpl.
  repeat split.
  exact (transfer_pointwise transferFunction Hshape _ _ _ Ht).
Qed.

Lemma transferFlow_rewrites_step_by_step_witness :
  exists flowVersion',
    transferFlow 3 credentialFlow (normalizeFn (E := referenceExternals))
    = Returns flowVersion'
    /\ flowDisplayName flowVersion' = flowDisplayName credentialFlow
    /\ state flowVersion' = state credentialFlow
    /\ flowValid flowVersion' = flowValid credentialFlow
    /\ Forall2
         (fun s s' =>
            exists u, normalizeFn (E := referenceExternals) s = Returns u
                      /\ propsOf s' = propsOf u /\ typeOf s' = typeOf u)
         (getAllSteps (trigger credentialFlow))
         (getAllSteps (trigger flowVersion')).
Proof.
  apply (transferFlow_rewrites_step_by_step credentialFlow
           (normalizeFn (E := referenceExternals)) 3).
  - apply normalizeFn_slots.
  - intros s [<-|[<-|[]]]; eexists; reflexivity.
  - simpl. lia.
Defined.

(* ================================================================== *)
(** ** Router alignment under every operation *)
(* ================================================================== *)

(** [roomy bound x]: a router [x] has as many child slots as branches,
    and at least [bound] of them, a number that goes by its name. *)
Definition roomy (bound : string -> nat) (x : Step) : Prop :=
  alignedStep x = true
  /\ match x with
     | RouterAction p c _ => bound (name p) <= List.length c
     | _ => True
     end.

(** A router with two child slots, the number [createAction] gives a
    new router. *)
Definition twoSlots (x : Step) : Prop :=
  match x with
  | RouterAction _ c _ => List.length c = 2
  | _ => True
  end.

(** The child slots [createAction] gives a router. *)
Definition childrenOr (children_ : option (list (option Step)))
  : list (option Step) :=
  match children_ with
  | Some c => c
  | None => [None; None]
  end.

(** What an insertion needs to keep the routers roomy: a router it
    creates brings as many branches as it gets child slots, and no
    fewer child slots than its name asks for; the child slots it is
    given hold roomy steps; a branch index is below the number asked of
    the routers that bear the name of the parent. *)
Definition fitsBound (bound : string -> nat) (request : AddActionRequest)
  (children_ : option (list (option Step))) : Prop :=
  (reqType (action request) = OfAction ROUTER ->
   List.length (branches (reqSettings (action request)))
   = List.length (childrenOr children_)
   /\ bound (reqName (action request)) <= List.length (childrenOr children_))
  /\ (forall c a, children_ = Some c -> In (Some a) c ->
        Forall (roomy bound) (traverseInternal a))
  /\ (stepLocationRelativeToParent request = Some INSIDE_BRANCH ->
      forall i, branchIndex request = Some i ->
                (i < Z.of_nat (bound (parentStep request)))%Z).

Definition opFits (bound : string -> nat) (op : FlowOperationRequest)
  : Prop :=
  exists request, op = ADD_ACTION request /\ fitsBound bound request None.

Lemma roomy_slotBlind bound : slotBlind (roomy bound).
Proof.
  intros u l Hlen [Ha Hi]. split; [rewrite alignedStep_withSlots; auto|].
  destruct u as [t p n|p s f n|p b n|p c n]; simpl; auto.
  simpl in Hlen. rewrite length_app in Hlen. simpl in Hlen.
  destruct l as [|x l] using rev_ind; [simpl in Hlen; lia|].
  rewrite removelast_last. rewrite length_app in Hlen. simpl in Hlen.
  replace (List.length l) with (List.length c) by lia. exact Hi.
Qed.

Lemma roomy_aligned bound T :
  Forall (roomy bound) (traverseInternal T) -> routersAligned T = true.
Proof.
  intros H. apply routersAligned_Forall. rewrite Forall_forall in *.
  intros x Hx. apply (H x Hx).
Qed.

Section RoomyOperations.

Context {E : Externals}.

Lemma created_roomy bound request children_ x a :
  fitsBound bound request children_ ->
  (forall b, x = Some b -> Forall (roomy bound) (traverseInternal b)) ->
  createAction (action request) (onlyNext x children_) = Returns a ->
  Forall (roomy bound) (traverseInternal a).
Proof.
  intros [Hrouter [Hchildren _]] Hx H.
  destruct (createAction_returns _ _ _ H) as [Hn [Hs [Hslots Hkind]]].
  apply Forall_traverse_slots. split.
  - destruct a as [t p n|p s f n|p b n|p c n];
      try (split; [reflexivity|exact I]).
    destruct Hkind as [Hty Hc]. simpl in Hc, Hs, Hn.
    change (c = childrenOr children_) in Hc. subst c.
    destruct (Hrouter Hty) as [Hlen Hbound]. split.
    + simpl. rewrite Hs, Hlen. apply Nat.eqb_refl.
    + unfold stepName in Hn. simpl in Hn. simpl. rewrite Hn. exact Hbound.
  - intros y Hy. destruct (Hslots y Hy) as [Hin|[c [Hc Hin]]].
    + simpl in Hin. destruct Hin as [Hin|[Hin|[Hin|[Hin|[]]]]];
        try discriminate.
      apply Hx. exact Hin.
    + simpl in Hc. exact (Hchildren c y Hc Hin).
Qed.

Lemma addActionFn_roomy bound request children_ s u :
  fitsBound bound request children_ ->
  Forall (roomy bound) (traverseInternal s) ->
  addActionFn request children_ s = Returns u ->
  Forall (roomy bound) (traverseInternal u).
Proof.
  intros Hfit HQ H. unfold addActionFn in H.
  destruct (String.eqb (stepName s) (parentStep request)) eqn:Hparent;
    simpl in H; [|inversion H; subst u; exact HQ].
  apply String.eqb_eq in Hparent.
  pose proof (proj1 (Forall_traverse_slots _ _) HQ) as [Hq Hslots].
  assert (Hcreated : forall x a,
            (forall b, x = Some b -> In (Some b) (slots s)) ->
            createAction (action request) (onlyNext x children_)
            = Returns a ->
            Forall (roomy bound) (traverseInternal a)).
  { intros x a Hx Ha. eapply created_roomy; eauto. }
  assert (Hafter : forall v,
            (a <- createAction (action request)
                    (onlyNext (nextOf s) children_) ;;
             Returns (setNext (Some a) s)) = Returns v ->
            Forall (roomy bound) (traverseInternal v)).
  { intros v Hv. apply bind_returns in Hv. destruct Hv as [a [Ha Hv]].
    inversion Hv; subst v. clear Hv.
    apply Forall_traverse_slots. split; [destruct s; exact Hq|].
    intros y Hy. rewrite slots_setNext in Hy. apply in_app_or in Hy.
    destruct Hy as [Hy|[Hy|[]]].
    - apply Hslots. rewrite slots_structural. apply in_or_app. auto.
    - inversion Hy; subst y. apply (Hcreated (nextOf s)); [|exact Ha].
      intros b Hb. rewrite slots_structural, Hb. apply in_or_app.
      right. left. reflexivity. }
  destruct s as [t p n|p sc fl n|p b n|p c n];
    destruct (stepLocationRelativeToParent request) as [loc|] eqn:Hloc;
    try (apply Hafter; exact H).
  - (* branch *)
    destruct loc; try discriminate; try (apply Hafter; exact H);
      apply bind_returns in H; destruct H as [a [Ha H]];
      inversion H; subst u; clear H;
      (apply Forall_traverse_slots; split; [exact Hq|]);
      intros y Hy; simpl in Hy;
      repeat match goal with
             | Hy : _ \/ _ |- _ => destruct Hy as [Hy|Hy]
             | Hy : False |- _ => destruct Hy
             end;
      match goal with
      | Hy : Some ?a = Some ?y |- _ =>
          injection Hy as <-; eapply Hcreated; [|eassumption];
          intros x ->; simpl; auto
      | Hy : ?slot = Some ?y |- _ =>
          apply Hslots; rewrite <- Hy; simpl; tauto
      end.
  - (* loop *)
    destruct loc; try discriminate; try (apply Hafter; exact H).
    apply bind_returns in H. destruct H as [a [Ha H]].
    inversion H; subst u. clear H.
    apply Forall_traverse_slots. split; [exact Hq|].
    intros y [Hy|[Hy|[]]]; [|apply Hslots; rewrite <- Hy; simpl; tauto].
    injection Hy as <-.
    eapply Hcreated; [|exact Ha]. intros x ->. simpl. auto.
  - (* router *)
    destruct loc; try discriminate; try (apply Hafter; exact H).
    destruct (branchIndex request) as [i|] eqn:Hi; [|discriminate].
    apply bind_returns in H. destruct H as [a [Ha H]].
    inversion H; subst u. clear H.
    destruct Hq as [Hal Hroom]. simpl in Hparent.
    destruct Hfit as [_ [_ Hindex]]. specialize (Hindex Hloc i Hi).
    rewrite <- Hparent in Hindex. simpl in Hroom.
    change (stepName (RouterAction p c n)) with (name p) in Hindex.
    assert (Hfit : (i < Z.of_nat (List.length c))%Z) by lia.
    apply Forall_traverse_slots. split.
    + split.
      * simpl in *. rewrite length_assignAt by exact Hfit. exact Hal.
      * rewrite length_assignAt by exact Hfit. exact Hroom.
    + intros y Hy. simpl in Hy. apply in_app_or in Hy.
      destruct Hy as [Hy|Hy];
        [|apply Hslots; simpl; apply in_or_app; right; exact Hy].
      apply in_assignAt in Hy. destruct Hy as [Hy|[Hy|Hy]];
        [|discriminate|apply Hslots; simpl; apply in_or_app; left; exact Hy].
      inversion Hy; subst y. eapply Hcreated; [|exact Ha].
      intros x Hx. simpl. apply in_or_app. left.
      destruct (at_ c i) as [[child|]|] eqn:Hat; try discriminate.
      inversion Hx; subst x. eapply at_in; eauto.
Qed.

Lemma upgradePiece_keeps_roomy bound target s u :
  Forall (roomy bound) (traverseInternal s) ->
  upgradePiece s target = Returns u ->
  Forall (roomy bound) (traverseInternal u).
Proof.
  intros HQ H. destruct (upgradePiece_shape _ _ _ H) as [q ->].
  apply Forall_traverse_slots in HQ. destruct HQ as [Hq Hslots].
  apply Forall_traverse_slots. rewrite slots_setProps. split; [|exact Hslots].
  destruct s as [t p n|p s f n|p b n|p c n];
    try (split; [reflexivity|exact I]).
  unfold upgradePiece in H. simpl in H.
  destruct (negb _); inversion H; subst; exact Hq.
Qed.

Lemma apply_add_keeps_roomy bound (fuel : nat) fv fv' request :
  fitsBound bound request None ->
  Forall (roomy bound) (traverseInternal (trigger fv)) ->
  apply fuel fv (ADD_ACTION request) = Returns fv' ->
  Forall (roomy bound) (traverseInternal (trigger fv')).
Proof.
  intros Hfit HQ H.
  destruct (apply_add_action_inv fuel fv fv' request H)
    as [fuel' [t1 [H1 H2]]].
  apply (transfer_keeps (roomy bound) _ (roomy_slotBlind bound)
           (fun s u =>
              upgradePiece_keeps_roomy bound (reqName (action request)) s u)
           fuel' t1 _);
    [|exact H2].
  exact (transfer_keeps (roomy bound) _ (roomy_slotBlind bound)
           (fun s u => addActionFn_roomy bound request None s u Hfit)
           fuel' _ t1 HQ H1).
Qed.

Lemma replay_keeps_roomy bound (fuel : nat) operations fv fv' :
  (forall op, In op operations -> opFits bound op) ->
  Forall (roomy bound) (traverseInternal (trigger fv)) ->
  replay (apply fuel) operations fv = Returns fv' ->
  Forall (roomy bound) (traverseInternal (trigger fv')).
Proof.
  intros Hops HQ H.
  apply (replay_invariant
           (fun T => Forall (roomy bound) (traverseInternal T))
           (apply fuel) operations) with (fv := fv); auto.
  intros op Hop fv0 fv1 HQ0 Happ. destruct (Hops op Hop) as [r [-> Hfit]].
  exact (apply_add_keeps_roomy bound fuel fv0 fv1 r Hfit HQ0 Happ).
Qed.

End RoomyOperations.

(* ------------------------------------------------------------------ *)
(** *** Import operations that fit *)

Lemma childImports_within parent op :
  forall cs (index : nat), In op (childImports parent index cs) ->
    exists a, In (Some a) cs
      /\ ((exists j, index <= j < index + List.length cs
                     /\ op = importAdd parent (Some INSIDE_BRANCH) (Some j) a)
          \/ In op (getImportOperations a)).
Proof.
  induction cs as [|child cs IH]; intros index H; [contradiction|].
  simpl in H. apply in_app_or in H. destruct H as [H|H].
  - destruct child as [a|]; [|contradiction]. exists a.
    split; [left; reflexivity|]. destruct H as [<-|H]; [left|right; exact H].
    exists index. split; [simpl; lia|reflexivity].
  - destruct (IH _ H) as [a [Ha Hop]]. exists a. split; [right; exact Ha|].
    destruct Hop as [[j [Hj Hop]]|Hop]; [left|right; exact Hop].
    exists j. split; [simpl; lia|exact Hop].
Qed.

(** The operation that adds a copy of an aligned step with two child
    slots fits, when its branch index is below the number asked of the
    parent. *)
Lemma importAdd_fits bound parent location index a :
  alignedStep a = true -> twoSlots a ->
  (typeOf a = OfAction ROUTER -> bound (stepName a) <= 2) ->
  (location = Some INSIDE_BRANCH ->
   exists j, index = Some j /\ j < bound parent) ->
  opFits bound (importAdd parent location index a).
Proof.
  intros Hal Htwo Hbound Hindex. eexists. split; [reflexivity|].
  unfold fitsBound.
  cbn [action parentStep stepLocationRelativeToParent branchIndex].
  rewrite requestOfStep_stripped.
  cbn [reqType reqSettings reqName requestOfStep].
  split; [|split].
  - intros Hty. split; [|exact (Hbound Hty)].
    destruct a as [t p n|p s f n|p b n|p c n];
      [destruct t; discriminate|discriminate|discriminate|].
    simpl in *. apply Nat.eqb_eq in Hal. rewrite <- Hal. exact Htwo.
  - intros c y Hc. discriminate.
  - intros Hloc i Hi. destruct (Hindex Hloc) as [j [-> Hj]].
    simpl in Hi. inversion Hi. lia.
Qed.

(** The import operations of a step fit when the steps below it are
    aligned and have two child slots, and every router of the step has
    no more child slots than asked of its name. *)
Lemma import_ops_fit bound (k : nat) :
  forall X, height X <= k ->
    (forall a, In a (flat_map traverseOpt (slots X)) ->
       alignedStep a = true /\ twoSlots a
       /\ (typeOf a = OfAction ROUTER -> bound (stepName a) <= 2)) ->
    (forall p c n, In (RouterAction p c n) (traverseInternal X) ->
       List.length c <= bound (name p)) ->
    forall op, In op (getImportOperations X) -> opFits bound op.
Proof.
  induction k as [|k IH]; intros X Hh Hbelow Hrouters op Hop.
  - pose proof (height_pos X). lia.
  - assert (Hslot : forall a, In (Some a) (slots X) ->
              forall op', In op' (getImportOperations a) ->
                opFits bound op').
    { intros a Ha op' Hop'. apply (IH a); [| | |exact Hop'].
      - pose proof (height_slot X _ Ha) as Hlt. simpl in Hlt. lia.
      - intros b Hb. apply Hbelow. apply in_flat_map. exists (Some a).
        split; [exact Ha|]. simpl. rewrite traverseInternal_slots. right.
        exact Hb.
      - intros p c n Hin. apply (Hrouters p c n).
        rewrite traverseInternal_slots. right. apply in_flat_map.
        exists (Some a). split; [exact Ha|exact Hin]. }
    assert (Hadd : forall a location index,
              In (Some a) (slots X) ->
              (location = Some INSIDE_BRANCH ->
               exists j, index = Some j /\ j < bound (stepName X)) ->
              opFits bound (importAdd (stepName X) location index a)).
    { intros a location index Ha Hindex.
      destruct (Hbelow a) as [H1 [H2 H3]].
      { apply in_flat_map. exists (Some a).
        split; [exact Ha|apply traverseInternal_self]. }
      apply importAdd_fits; auto. }
    assert (Hstruct : forall a, In (Some a) (structuralSlots X) ->
                        In (Some a) (slots X)).
    { intros a Ha. rewrite slots_structural. apply in_or_app. left.
      exact Ha. }
    assert (Hnext : forall a, nextOf X = Some a -> In (Some a) (slots X)).
    { intros a Ha. rewrite slots_structural, Ha. apply in_or_app. right.
      left. reflexivity. }
    rewrite getImportOperations_phases in Hop.
    apply in_app_or in Hop. destruct Hop as [Hop|Hop].
    { destruct (nextOf X) as [a|] eqn:Hn; [|contradiction].
      destruct Hop as [<-|[]]. apply Hadd; [auto|discriminate]. }
    apply in_app_or in Hop. destruct Hop as [Hop|Hop].
    2:{ destruct (nextOf X) as [a|] eqn:Hn; [|contradiction].
        apply (Hslot a); [auto|exact Hop]. }
    clear Hnext.
    destruct X as [t p n|p s f n|p b n|p c n];
      unfold structuralImports, slotImports in Hop.
    + contradiction.
    + apply in_app_or in Hop. destruct Hop as [Hop|Hop].
      * destruct f as [a|]; [|contradiction]. destruct Hop as [<-|Hop].
        -- apply (Hadd a); [apply Hstruct; simpl; auto|discriminate].
        -- apply (Hslot a); [apply Hstruct; simpl; auto|exact Hop].
      * destruct s as [a|]; [|contradiction]. destruct Hop as [<-|Hop].
        -- apply (Hadd a); [apply Hstruct; simpl; auto|discriminate].
        -- apply (Hslot a); [apply Hstruct; simpl; auto|exact Hop].
    + destruct b as [a|]; [|contradiction]. destruct Hop as [<-|Hop].
      * apply (Hadd a); [apply Hstruct; simpl; auto|discriminate].
      * apply (Hslot a); [apply Hstruct; simpl; auto|exact Hop].
    + destruct (childImports_within (name p) op c 0 Hop)
        as [a [Ha [[j [Hj ->]]|Hop']]].
      * apply (Hadd a (Some INSIDE_BRANCH) (Some j));
          [apply Hstruct; exact Ha|].
        intros _. exists j. split; [reflexivity|].
        specialize (Hrouters p c n (traverseInternal_self _)).
        change (stepName (RouterAction p c n)) with (name p). lia.
      * apply (Hslot a); [apply Hstruct; exact Ha|exact Hop'].
Qed.

(* ------------------------------------------------------------------ *)
(** *** The names and the shape of a duplicate *)

Lemma findUnusedNameFrom_fresh names stepPrefix (fuel : nat) :
  forall i n,
    findUnusedNameFrom fuel names stepPrefix i = Returns n -> ~ In n names.
Proof.
  induction fuel as [|fuel IH]; intros i n H; cbn [findUnusedNameFrom] in H;
    destruct (includes names _) eqn:Hinc; try discriminate;
    try (exact (IH _ _ H));
    inversion H; subst n; intros Hin; apply includes_In in Hin; congruence.
Qed.

(** Every old name is given a name that is not in use, and the names
    given after the first differ from the one given first. *)
Lemma allocateNames_spec (fuel : nat) :
  forall olds existing acc m,
    allocateNames fuel existing olds acc = Returns m ->
    (forall o, In o olds ->
       exists n, lookup o m = Some n /\ ~ In n existing)
    /\ (forall o, ~ In o olds -> lookup o m = lookup o acc).
Proof.
  induction olds as [|o olds IH]; intros existing acc m H; simpl in H.
  - inversion H; subst m. split; [intros o []|reflexivity].
  - apply bind_returns in H. destruct H as [n [Hn H]].
    destruct (IH _ _ _ H) as [Hin Hout].
    pose proof (findUnusedNameFrom_fresh _ _ _ _ _ Hn) as Hfresh.
    split.
    + intros o' Ho'. destruct (in_dec string_dec o' olds) as [Hrest|Hrest].
      * destruct (Hin o' Hrest) as [n' [Hl Hn']]. exists n'.
        split; [exact Hl|]. intros Hbad. apply Hn'. apply in_or_app.
        left. exact Hbad.
      * destruct Ho' as [->|Ho']; [|contradiction]. exists n.
        rewrite (Hout _ Hrest). unfold assign. simpl.
        rewrite String.eqb_refl. split; [reflexivity|exact Hfresh].
    + intros o' Ho'. rewrite Hout by (intros Hbad; apply Ho'; right; exact Hbad).
      unfold assign. simpl.
      destruct (String.eqb_spec o' o) as [->|Hne]; [|reflexivity].
      elim Ho'. left. reflexivity.
Qed.

Lemma allocateNames_root (fuel : nat) existing o olds m :
  ~ In o olds ->
  allocateNames fuel existing (o :: olds) [] = Returns m ->
  exists n,
    lookup o m = Some n /\ ~ In n existing
    /\ forall o', In o' olds ->
         exists n', lookup o' m = Some n' /\ ~ In n' existing /\ n' <> n.
Proof.
  intros Hroot H. simpl in H.
  apply bind_returns in H. destruct H as [n [Hn H]].
  destruct (allocateNames_spec fuel _ _ _ _ H) as [Hin Hout].
  pose proof (findUnusedNameFrom_fresh _ _ _ _ _ Hn) as Hfresh.
  exists n. split; [|split; [exact Hfresh|]].
  - rewrite (Hout o Hroot). unfold assign. simpl.
    rewrite String.eqb_refl. reflexivity.
  - intros o' Ho'. destruct (Hin o' Ho') as [n' [Hl Hn']]. exists n'.
    split; [exact Hl|]. split.
    + intros Hbad. apply Hn'. apply in_or_app. left. exact Hbad.
    + intros ->. apply Hn'. apply in_or_app. right. left. reflexivity.
Qed.

(** [copyOf m s s']: [s'] is a step of the kind of [s], with the
    branches and the number of slots of [s], under the name [m] gives
    for the name of [s]. *)
Definition copyOf (m : NameMap) (s s' : Step) : Prop :=
  typeOf s' = typeOf s
  /\ branches (settings (propsOf s')) = branches (settings (propsOf s))
  /\ List.length (slots s') = List.length (slots s)
  /\ lookup (stepName s) m = Some (stepName s').

Lemma transfer_shapes f :
  (forall s u, f s = Returns u -> slots u = slots s) ->
  forall (fuel : nat) step step',
    transferStep fuel f step = Returns step' ->
    Forall2 (fun s s' =>
               rewrittenBy f s s'
               /\ List.length (slots s') = List.length (slots s))
      (traverseInternal step) (traverseInternal step').
Proof.
  intros Hshape. induction fuel as [|fuel IH]; intros step step' H;
    [discriminate|].
  rewrite transferStep_unfold in H.
  apply bind_returns in H. destruct H as [u [Hu H]].
  apply bind_returns in H. destruct H as [l [Hl H]].
  inversion H; subst step'. clear H.
  apply mapM_returns in Hl.
  rewrite (traverseInternal_slots step), (traverseInternal_slots (withSlots u l)).
  rewrite slots_withSlots by (symmetry; eapply Forall2_length; eauto).
  pose proof (Forall2_length Hl) as Hlen.
  rewrite <- (Hshape _ _ Hu).
  constructor.
  - split.
    + exists u. rewrite propsOf_withSlots, typeOf_withSlots. auto.
    + rewrite slots_withSlots by (symmetry; exact Hlen).
      rewrite <- (Hshape _ _ Hu). symmetry. exact Hlen.
  - eapply Forall2_flat_map; [|exact Hl].
    intros [a|] b Hab; simpl in Hab.
    + apply bind_returns in Hab. destruct Hab as [a' [Ha' Hab]].
      inversion Hab; subst b. simpl. eapply IH; eauto.
    + inversion Hab; subst b. constructor.
Qed.

Section DuplicateShape.

Context {E : Externals}.

Lemma renameFn_slots olds m s u :
  renameFn olds m s = Returns u -> slots u = slots s.
Proof.
  unfold renameFn. destruct (lookup _ m); [|discriminate].
  intros H. inversion H. apply slots_setProps.
Qed.

Lemma rename_copies olds m (fuel : nat) T T' :
  transferStep fuel (renameFn olds m) T = Returns T' ->
  Forall2 (copyOf m) (traverseInternal T) (traverseInternal T').
Proof.
  intros H.
  apply (Forall2_impl (copyOf m))
    with (2 := transfer_shapes _ (renameFn_slots olds m) fuel T T' H).
  intros s s' [[u [Hu [Hp Ht]]] Hlen]. unfold renameFn in Hu.
  destruct (lookup (name (propsOf s)) m) as [n|] eqn:Hl; [|discriminate].
  inversion Hu; subst u. clear Hu.
  rewrite propsOf_setProps in Hp. rewrite typeOf_setProps in Ht.
  unfold copyOf, stepName. rewrite Hp, Hl. simpl. auto.
Qed.

Lemma copyOf_router m s p' c' n' :
  copyOf m s (RouterAction p' c' n') ->
  exists p c n,
    s = RouterAction p c n
    /\ List.length c' = List.length c
    /\ branches (settings p') = branches (settings p)
    /\ lookup (name p) m = Some (name p').
Proof.
  intros [Hty [Hb [Hlen Hname]]].
  destruct s as [t p n|p sc fl n|p b n|p c n];
    [destruct t; discriminate|discriminate|discriminate|].
  exists p, c, n. simpl in *. rewrite !length_app in Hlen. simpl in Hlen.
  repeat split; auto. lia.
Qed.

End DuplicateShape.

(* ------------------------------------------------------------------ *)
(** *** The write through the reference [getStep] returned *)

(** [updateFirst] rewrites the step itself, or one of the steps its
    slots hold. *)
Lemma updateFirst_step name_ g T T' :
  updateFirst name_ g T = Some T' ->
  (stepName T = name_ /\ T' = g T)
  \/ exists before a a' after,
       slots T = before ++ Some a :: after
       /\ updateFirst name_ g a = Some a'
       /\ T' = withSlots T (before ++ Some a' :: after).
Proof.
  intros H.
  destruct T as [t p n|p s f n|p b n|p c n]; cbn [updateFirst] in H;
    destruct (String.eqb _ name_) eqn:Hname;
    try (left; apply String.eqb_eq in Hname; inversion H; auto; fail);
    right.
  - destruct n as [a|]; [|discriminate].
    destruct (updateFirst name_ g a) as [a'|] eqn:Ha; [|discriminate].
    inversion H. exists [], a, a', []. auto.
  - destruct s as [a|]; [destruct (updateFirst name_ g a) as [a'|] eqn:Ha|].
    { inversion H. exists [], a, a', [f; n]. auto. }
    all: destruct f as [a1|];
      [destruct (updateFirst name_ g a1) as [a1'|] eqn:Ha1|].
    all: try (inversion H; eexists [_], a1, a1', [n]; split; [reflexivity|];
              split; [exact Ha1|reflexivity]).
    all: destruct n as [a2|]; [|discriminate];
      destruct (updateFirst name_ g a2) as [a2'|] eqn:Ha2; [|discriminate];
      inversion H; eexists [_; _], a2, a2', []; split; [reflexivity|];
      split; [exact Ha2|reflexivity].
  - destruct b as [a|]; [destruct (updateFirst name_ g a) as [a'|] eqn:Ha|].
    { inversion H. exists [], a, a', [n]. auto. }
    all: destruct n as [a2|]; [|discriminate];
      destruct (updateFirst name_ g a2) as [a2'|] eqn:Ha2; [|discriminate];
      inversion H; eexists [_], a2, a2', []; split; [reflexivity|];
      split; [exact Ha2|reflexivity].
  - match type of H with
    | match ?F c with _ => _ end = _ =>
        assert (Hfirst : forall cs cs',
                  F cs = Some cs' ->
                  exists before a a' after,
                    cs = before ++ Some a :: after
                    /\ updateFirst name_ g a = Some a'
                    /\ cs' = before ++ Some a' :: after);
        [|destruct (F c) as [c'|] eqn:Hc]
    end.
    + induction cs as [|child cs IH]; intros cs' Hcs; [discriminate|].
      destruct child as [a|].
      * destruct (updateFirst name_ g a) as [a'|] eqn:Ha.
        -- inversion Hcs. exists [], a, a', cs. auto.
        -- destruct (_ cs) as [cs1|] eqn:Hcs1 in Hcs; [|discriminate].
           inversion Hcs.
           destruct (IH cs1) as [before [x [x' [after [E1 [E2 E3]]]]]].
           { exact Hcs1. }
           exists (Some a :: before), x, x', after. subst. auto.
      * destruct (_ cs) as [cs1|] eqn:Hcs1 in Hcs; [|discriminate].
        inversion Hcs.
        destruct (IH cs1) as [before [x [x' [after [E1 [E2 E3]]]]]].
        { exact Hcs1. }
        exists (None :: before), x, x', after. subst. auto.
    + destruct (Hfirst c c' Hc)
        as [before [a [a' [after [E1 [E2 E3]]]]]].
      inversion H. exists before, a, a', (after ++ [n]).
      split; [|split; [exact E2|]].
      * simpl. rewrite E1, <- app_assoc. reflexivity.
      * simpl. rewrite app_comm_cons, app_assoc, removelast_last, last_last.
        rewrite E3. reflexivity.
    + destruct n as [a2|]; [|discriminate].
      destruct (updateFirst name_ g a2) as [a2'|] eqn:Ha2; [|discriminate].
      inversion H. exists c, a2, a2', []. split; [reflexivity|].
      split; [exact Ha2|]. simpl. rewrite removelast_last, last_last.
      reflexivity.
Qed.

Lemma updateFirst_keeps (Q : Step -> Prop) name_ g :
  slotBlind Q ->
  (forall x, Forall Q (traverseInternal x) -> stepName x = name_ ->
     Forall Q (traverseInternal (g x))) ->
  forall (k : nat) T T',
    height T <= k -> Forall Q (traverseInternal T) ->
    updateFirst name_ g T = Some T' ->
    Forall Q (traverseInternal T').
Proof.
  intros Hblind Hg. induction k as [|k IH]; intros T T' Hh HQ H.
  - pose proof (height_pos T). lia.
  - destruct (updateFirst_step name_ g T T' H)
      as [[Hname ->]|[before [a [a' [after [Hslots [Ha ->]]]]]]].
    + apply Hg; assumption.
    + pose proof (proj1 (Forall_traverse_slots Q T) HQ) as [Hq Hsub].
      apply Forall_traverse_withSlots; auto.
      * rewrite Hslots, !length_app. reflexivity.
      * intros y Hy. apply in_app_or in Hy. destruct Hy as [Hy|[Hy|Hy]].
        -- apply Hsub. rewrite Hslots. apply in_or_app. left. exact Hy.
        -- inversion Hy; subst y. apply (IH a); [| |exact Ha].
           ++ assert (Hin : In (Some a) (slots T)).
              { rewrite Hslots. apply in_or_app. right. left. reflexivity. }
              pose proof (height_slot T _ Hin) as Hlt. simpl in Hlt. lia.
           ++ apply Hsub. rewrite Hslots. apply in_or_app. right. left.
              reflexivity.
        -- apply Hsub. rewrite Hslots. apply in_or_app. right. right.
           exact Hy.
Qed.

(* ------------------------------------------------------------------ *)
(** *** Moving and duplicating *)

(** The steps a move re-creates by replaying import operations: those
    in the structural slots of a loop or of a branch. *)
Definition replayedInMove (source : Step) : list Step :=
  match source with
  | LoopOnItemsAction _ _ _ | BranchAction _ _ _ _ =>
      flat_map traverseOpt (structuralSlots source)
  | _ => []
  end.

Lemma structural_below_in_tree T x a :
  In x (traverseInternal T) ->
  In a (flat_map traverseOpt (structuralSlots x)) ->
  In a (traverseInternal T).
Proof.
  intros Hx Ha. apply (below_in_tree T x a Hx).
  rewrite slots_structural, flat_map_app. apply in_or_app. left. exact Ha.
Qed.

Section AlignmentOfReplays.

Context {E : Externals}.

Lemma transferFlow_keeps (Q : Step -> Prop) f (fuel : nat) fv fv' :
  slotBlind Q ->
  (forall s u, Forall Q (traverseInternal s) -> f s = Returns u ->
     Forall Q (traverseInternal u)) ->
  Forall Q (traverseInternal (trigger fv)) ->
  transferFlow fuel fv f = Returns fv' ->
  Forall Q (traverseInternal (trigger fv')).
Proof.
  intros Hblind Hf HQ H. unfold transferFlow in H. simpl in H.
  apply bind_returns in H. destruct H as [t [Ht H]].
  inversion H; subst fv'. simpl. eapply transfer_keeps; eauto.
Qed.

(** [MOVE_ACTION] keeps the routers aligned when the routers it
    re-creates have two child slots and the branch index is among the
    child slots of the new parent. *)
Lemma move_keeps_aligned fv fv' request (fuel : nat) :
  routersAligned (trigger fv) = true ->
  NoDup (stepNames (trigger fv)) ->
  (forall source, getStep fv (moveName request) = Some source ->
     Forall twoSlots (replayedInMove source)) ->
  (stepLocationRelativeToNewParent request = Some INSIDE_BRANCH ->
   forall p c n i,
     In (RouterAction p c n) (getAllSteps (trigger fv)) ->
     name p = newParentStep request ->
     moveBranchIndex request = Some i ->
     (i < Z.of_nat (List.length c))%Z) ->
  moveAction (apply fuel) fuel fv request = Returns fv' ->
  routersAligned (trigger fv') = true.
Proof.
  intros Hal Hnd Htwo Hindex H. apply routersAligned_Forall in Hal.
  unfold moveAction in H.
  destruct (findByName (moveName request) _) as [S|] eqn:Hsource;
    [|discriminate].
  destruct (negb (isAction (typeOf S))); [discriminate|].
  destruct (findByName (newParentStep request) _) as [dest|];
    [|discriminate].
  simpl in H.
  apply bind_returns in H. destruct H as [fv1 [Hfv1 H]].
  apply bind_returns in H. destruct H as [fv2 [Hfv2 H]].
  specialize (Htwo S Hsource). rewrite Forall_forall in Htwo.
  assert (HS : In S (traverseInternal (trigger fv))).
  { apply find_some in Hsource. exact (proj1 Hsource). }
  assert (Hreplayed : forall a, In a (replayedInMove S) ->
                        In a (traverseInternal (trigger fv))).
  { intros a Ha. apply (structural_below_in_tree _ S a HS).
    destruct S; try contradiction; exact Ha. }
  set (destBound := fun nm : string =>
         match stepLocationRelativeToNewParent request,
               moveBranchIndex request with
         | Some INSIDE_BRANCH, Some i =>
             if String.eqb nm (newParentStep request)
             then Z.to_nat (i + 1) else 0
         | _, _ => 0
         end).
  set (bound := fun nm : string =>
         Nat.max (if in_dec string_dec nm (map stepName (replayedInMove S))
                  then 2 else 0)
           (destBound nm)).
  assert (Hroomy : Forall (roomy bound) (traverseInternal (trigger fv))).
  { rewrite Forall_forall in *. intros x Hx. split; [exact (Hal x Hx)|].
    destruct x as [t p n|p s f n|p b n|p c n]; auto.
    unfold bound. apply Nat.max_lub.
    - destruct (in_dec string_dec (name p) _) as [Hin|_]; [|lia].
      apply in_map_iff in Hin. destruct Hin as [y [Hname Hy]].
      assert (y = RouterAction p c n).
      { apply (distinct_names_determine_step (trigger fv)); auto. }
      subst y. specialize (Htwo _ Hy). simpl in Htwo. lia.
    - unfold destBound.
      destruct (stepLocationRelativeToNewParent request) as [[]|] eqn:Hloc;
        try lia.
      destruct (moveBranchIndex request) as [i|] eqn:Hi; [|lia].
      destruct (String.eqb_spec (name p) (newParentStep request))
        as [Hname|_]; [|lia].
      specialize (Hindex eq_refl p c n i Hx Hname eq_refl). lia. }
  assert (Hfit : fitsBound bound
                   {| parentStep := newParentStep request;
                      stepLocationRelativeToParent :=
                        stepLocationRelativeToNewParent request;
                      branchIndex := moveBranchIndex request;
                      addBranchName := moveBranchName request;
                      action := requestOfStep S |}
                   match S with
                   | RouterAction _ c _ => Some c
                   | _ => None
                   end).
  { unfold fitsBound.
    cbn [action parentStep stepLocationRelativeToParent branchIndex
           reqType reqSettings reqName requestOfStep].
    pose proof (proj1 (Forall_forall _ _) Hroomy S HS) as [HalS HroomS].
    split; [|split].
    - intros Hty. destruct S as [t p n|p s f n|p b n|p c n];
        [destruct t; discriminate|discriminate|discriminate|].
      simpl in *. apply Nat.eqb_eq in HalS. split; [lia|exact HroomS].
    - intros c a Hc Ha. destruct S as [t p n|p s f n|p b n|p c0 n];
        try discriminate.
      inversion Hc; subst c0.
      apply (Forall_traverse_slot _ (RouterAction p c n)).
      + eapply Forall_traverse_sub; [exact Hroomy|exact HS].
      + simpl. apply in_or_app. left. exact Ha.
    - intros Hloc i Hi. unfold bound, destBound. rewrite Hloc, Hi.
      rewrite String.eqb_refl. lia. }
  assert (Hroomy1 : Forall (roomy bound) (traverseInternal (trigger fv1))).
  { apply (transferFlow_keeps (roomy bound) _ fuel fv fv1
             (roomy_slotBlind bound)
             (fun s u => deleteActionFn_keeps (roomy bound) _ s u
                           (roomy_slotBlind bound))
             Hroomy Hfv1). }
  assert (Hroomy2 : Forall (roomy bound) (traverseInternal (trigger fv2))).
  { apply (transferFlow_keeps (roomy bound) _ fuel fv1 fv2
             (roomy_slotBlind bound)
             (fun s u => addActionFn_roomy bound _ _ s u Hfit)
             Hroomy1 Hfv2). }
  apply (roomy_aligned bound).
  eapply (replay_keeps_roomy bound fuel); [|exact Hroomy2|exact H].
  intros op Hop.
  assert (Hops : forall X, X = setNext None S ->
                   (forall p c n, S <> RouterAction p c n) ->
                   In op (getImportOperations X) -> opFits bound op).
  { intros X -> Hkind Hin.
    assert (Hrep : replayedInMove S
                   = flat_map traverseOpt (structuralSlots S)).
    { destruct S as [t p n|p s f n|p b n|p c n]; try reflexivity.
      elim (Hkind p c n). reflexivity. }
    assert (Hbelow : forall a,
              In a (flat_map traverseOpt (slots (setNext None S))) ->
              In a (replayedInMove S)).
    { intros a Ha. rewrite slots_setNext, flat_map_app in Ha.
      apply in_app_or in Ha. rewrite Hrep.
      destruct Ha as [Ha|Ha]; [exact Ha|]. simpl in Ha. contradiction. }
    apply (import_ops_fit bound _ (setNext None S) (le_n _)); [| |exact Hin].
    - intros a Ha. apply Hbelow in Ha.
      pose proof (proj1 (Forall_forall _ _) Hroomy a (Hreplayed a Ha))
        as [Hala Hrooma].
      split; [exact Hala|]. split; [exact (Htwo a Ha)|].
      intros Hty. specialize (Htwo a Ha).
      destruct a as [t p n|p s f n|p b n|p c n];
        [destruct t; discriminate|discriminate|discriminate|].
      simpl in *. change (stepName (RouterAction p c n)) with (name p). lia.
    - intros p c n Hin'. rewrite traverseInternal_slots in Hin'.
      destruct Hin' as [Heq|Hin'].
      + destruct S as [t q m|q s f m|q b m|q c0 m]; try discriminate.
        elim (Hkind q c0 m). reflexivity.
      + apply Hbelow in Hin'. specialize (Htwo _ Hin'). simpl in Htwo.
        unfold bound.
        destruct (in_dec string_dec (name p) _) as [_|Hout]; [lia|].
        elim Hout. apply in_map_iff. exists (RouterAction p c n). auto. }
  destruct S as [t p n|p s f n|p b n|p c n]; try contradiction;
    apply (Hops _ eq_refl); try exact Hop; discriminate.
Qed.

Lemma copyOf_keeps m s s' :
  copyOf m s s' ->
  (alignedStep s = true -> alignedStep s' = true)
  /\ (twoSlots s -> twoSlots s').
Proof.
  intros Hcopy. destruct s' as [t p n|p sc fl n|p b n|p' c' n'];
    try (split; intros; [reflexivity|exact I]).
  destruct (copyOf_router m s p' c' n' Hcopy)
    as [p [c [n [-> [Hlen [Hb _]]]]]].
  simpl. rewrite Hlen, Hb. split; auto.
Qed.

Lemma below_setNext_None found a :
  In a (flat_map traverseOpt (slots (setNext None found))) ->
  In a (flat_map traverseOpt (structuralSlots found)).
Proof.
  intros Ha. rewrite slots_setNext, flat_map_app in Ha.
  apply in_app_or in Ha. destruct Ha as [Ha|Ha]; [exact Ha|].
  simpl in Ha. contradiction.
Qed.

(** [DUPLICATE_ACTION] keeps the routers aligned when the routers below
    the duplicated step have two child slots. *)
Lemma duplicate_keeps_aligned fv fv' stepName_ (fuel : nat) :
  routersAligned (trigger fv) = true ->
  NoDup (stepNames (trigger fv)) ->
  (forall found, getStep fv stepName_ = Some found ->
     Forall twoSlots (flat_map traverseOpt (structuralSlots found))) ->
  duplicateStep (apply fuel) fuel stepName_ fv = Returns fv' ->
  routersAligned (trigger fv') = true.
Proof.
  intros Hal Hnd Htwo H. apply routersAligned_Forall in Hal.
  rewrite Forall_forall in Hal.
  unfold duplicateStep in H.
  destruct (getStep fv stepName_) as [found|] eqn:Hfound; [|discriminate].
  simpl in H.
  apply bind_returns in H. destruct H as [m [Hm H]].
  apply bind_returns in H. destruct H as [D [HD H]].
  apply bind_returns in H. destruct H as [fv1 [Hfv1 H]].
  specialize (Htwo found eq_refl). rewrite Forall_forall in Htwo.
  assert (Hin : In found (traverseInternal (trigger fv))).
  { apply find_some in Hfound. exact (proj1 Hfound). }
  assert (Hroot : ~ In (stepName found)
                      (flat_map stepNamesOpt (structuralSlots found))).
  { intros Hbad.
    apply (root_not_below found (stepName found)
             (NoDup_subtree _ _ (le_n _) Hnd found Hin)); [|reflexivity].
    rewrite slots_structural, flat_map_app. apply in_or_app. left.
    exact Hbad. }
  change (map stepName (getAllSteps (setNext None found)))
    with (stepNames (setNext None found)) in Hm, HD.
  rewrite stepNames_inner in Hm.
  destruct (allocateNames_root fuel _ _ _ m Hroot Hm)
    as [n1 [Hn1 [Hfresh1 Hrest]]].
  pose proof (rename_copies _ m fuel _ D HD) as Hcopies.
  rewrite (traverseInternal_slots (setNext None found)),
    (traverseInternal_slots D) in Hcopies.
  inversion Hcopies as [|? ? ? ? Hhead Htail]; subst. clear Hcopies.
  assert (HnameD : stepName D = n1).
  { destruct Hhead as [_ [_ [_ Hl]]]. rewrite stepName_setNext, Hn1 in Hl.
    inversion Hl. reflexivity. }
  assert (HbelowD : forall a, In a (flat_map traverseOpt (slots D)) ->
            alignedStep a = true /\ twoSlots a /\ stepName a <> n1
            /\ ~ In (stepName a)
                    (map stepName (getAllSteps (trigger fv)))).
  { intros a Ha. destruct (Forall2_in_r _ _ _ a Htail Ha) as [a0 [Ha0 Hcopy]].
    apply below_setNext_None in Ha0.
    destruct (copyOf_keeps m a0 a Hcopy) as [Hk1 Hk2].
    split; [apply Hk1, Hal, (structural_below_in_tree _ found a0 Hin Ha0)|].
    split; [apply Hk2, Htwo, Ha0|].
    destruct (Hrest (stepName a0) (in_steps_names _ _ Ha0))
      as [n' [Hl [Hfresh Hne]]].
    destruct Hcopy as [_ [_ [_ Hl']]]. rewrite Hl in Hl'.
    inversion Hl'. subst n'. auto. }
  set (bound := fun nm : string =>
         if String.eqb nm n1 then List.length (structuralSlots D)
         else if in_dec string_dec nm (stepNames D) then 2 else 0).
  assert (Hroomy : Forall (roomy bound) (traverseInternal (trigger fv))).
  { rewrite Forall_forall. intros x Hx. split; [exact (Hal x Hx)|].
    destruct x as [t p n|p s f n|p b n|p c n]; auto.
    assert (Hused : In (name p) (map stepName (getAllSteps (trigger fv)))).
    { apply (in_map stepName _ (RouterAction p c n)). exact Hx. }
    unfold bound. destruct (String.eqb_spec (name p) n1) as [Heq|_].
    { exfalso. apply Hfresh1. rewrite <- Heq. exact Hused. }
    destruct (in_dec string_dec (name p) (stepNames D)) as [Hdup|_]; [|lia].
    exfalso. unfold stepNames, getAllSteps in Hdup.
    apply in_map_iff in Hdup. destruct Hdup as [y [Hname Hy]].
    rewrite traverseInternal_slots in Hy. destruct Hy as [<-|Hy].
    - apply Hfresh1. rewrite <- HnameD, Hname. exact Hused.
    - destruct (HbelowD y Hy) as [_ [_ [_ Hfresh]]]. apply Hfresh.
      rewrite Hname. exact Hused. }
  assert (HalD : alignedStep D = true).
  { apply (proj1 (copyOf_keeps m _ D Hhead)).
    specialize (Hal found Hin). destruct found; exact Hal. }
  assert (Hfit : fitsBound bound
                   {| parentStep := stepName_;
                      stepLocationRelativeToParent := Some AFTER;
                      branchIndex := None;
                      addBranchName := None;
                      action := requestOfStep D |}
                   match D with
                   | RouterAction _ c _ => Some (map (fun _ => None) c)
                   | _ => None
                   end).
  { unfold fitsBound.
    cbn [action parentStep stepLocationRelativeToParent branchIndex
           reqType reqSettings reqName requestOfStep].
    split; [|split].
    - intros Hty. unfold bound. rewrite HnameD, String.eqb_refl.
      destruct D as [t p n|p s f n|p b n|p c n];
        [destruct t; discriminate|discriminate|discriminate|].
      simpl in *. rewrite length_map. apply Nat.eqb_eq in HalD.
      split; [lia|apply le_n].
    - intros c a Hc Ha. destruct D as [t p n|p s f n|p b n|p c0 n];
        try discriminate.
      inversion Hc; subst c. apply in_map_iff in Ha.
      destruct Ha as [? [Hbad _]]. discriminate.
    - discriminate. }
  assert (Hroomy1 : Forall (roomy bound) (traverseInternal (trigger fv1))).
  { apply (transferFlow_keeps (roomy bound) _ fuel fv fv1
             (roomy_slotBlind bound)
             (fun s u => addActionFn_roomy bound _ _ s u Hfit)
             Hroomy Hfv1). }
  apply (roomy_aligned bound).
  eapply (replay_keeps_roomy bound fuel); [|exact Hroomy1|exact H].
  apply (import_ops_fit bound _ D (le_n _)).
  - intros a Ha. destruct (HbelowD a Ha) as [H1 [H2 [H3 _]]].
    split; [exact H1|]. split; [exact H2|]. intros _. unfold bound.
    destruct (String.eqb_spec (stepName a) n1); [contradiction|].
    destruct (in_dec string_dec (stepName a) (stepNames D)); lia.
  - intros p c n Hin'. unfold bound.
    rewrite traverseInternal_slots in Hin'. destruct Hin' as [Heq|Hin'].
    + assert (Hname : name p = n1).
      { rewrite <- HnameD, Heq. reflexivity. }
      destruct (String.eqb_spec (name p) n1); [|contradiction].
      rewrite Heq. apply le_n.
    + destruct (HbelowD _ Hin') as [_ [H2 [H3 _]]].
      change (stepName (RouterAction p c n)) with (name p) in H3.
      destruct (String.eqb_spec (name p) n1); [contradiction|].
      destruct (in_dec string_dec (name p) (stepNames D)) as [_|Hout].
      * simpl in H2. lia.
      * elim Hout. unfold stepNames, getAllSteps.
        apply (in_map stepName _ (RouterAction p c n)).
        rewrite traverseInternal_slots. right. exact Hin'.
Qed.

Lemma spliceStart_le (len : nat) (start : Z) : spliceStart len start <= len.
Proof. unfold spliceStart. destruct (Z.ltb_spec start 0); lia. Qed.

(** [DUPLICATE_BRANCH] keeps the routers aligned when the routers of
    the duplicated branch have two child slots. *)
Lemma duplicate_branch_keeps_aligned fv fv' routerName (childIndex : Z)
  (fuel : nat) :
  routersAligned (trigger fv) = true ->
  NoDup (stepNames (trigger fv)) ->
  (forall p c n child,
     getStep fv routerName = Some (RouterAction p c n) ->
     at_ c childIndex = Some (Some child) ->
     Forall twoSlots (traverseInternal child)) ->
  duplicateRouterChild (apply fuel) fuel routerName childIndex fv
  = Returns fv' ->
  routersAligned (trigger fv') = true.
Proof.
  intros Hal Hnd Htwo H. apply routersAligned_Forall in Hal.
  unfold duplicateRouterChild in H.
  destruct (getStep fv routerName) as [[t p n|p s f n|p b n|p c n]|]
    eqn:Hfound; try discriminate.
  destruct (at_ c childIndex) as [child|] eqn:Hchild; [|discriminate].
  simpl in H.
  destruct (at_ (branches (settings p)) childIndex) as [branch|];
    [|discriminate].
  simpl in H.
  destruct (updateFirst routerName _ (trigger fv)) as [t1|] eqn:Hupdate;
    [|discriminate].
  simpl in H.
  assert (Hspliced : forall bound,
            Forall (roomy bound) (traverseInternal (trigger fv)) ->
            Forall (roomy bound) (traverseInternal t1)).
  { intros bound HQ.
    apply (updateFirst_keeps (roomy bound) routerName _
             (roomy_slotBlind bound)) with (4 := Hupdate) (k := height (trigger fv));
      [|apply le_n|exact HQ].
    intros x HQx _. destruct x as [t0 p0 n0|p0 s0 f0 n0|p0 b0 n0|p0 c0 n0];
      try exact HQx.
    apply Forall_traverse_slots in HQx. destruct HQx as [[Hal0 Hroom0] Hsub].
    apply Forall_traverse_slots. split.
    - simpl in *. apply Nat.eqb_eq in Hal0. split; simpl.
      + apply Nat.eqb_eq. rewrite !length_splice, Hal0. reflexivity.
      + rewrite length_splice. simpl.
        pose proof (spliceStart_le (List.length c0) (-1)). lia.
    - intros a Ha. simpl in Ha. apply in_app_or in Ha.
      apply Hsub. simpl. apply in_or_app.
      destruct Ha as [Ha|Ha]; [left|right; exact Ha].
      apply in_splice in Ha. destruct Ha as [[Ha|[]]|Ha];
        [discriminate|exact Ha]. }
  destruct child as [ch|].
  2:{ inversion H; subst fv'. simpl. apply (roomy_aligned (fun _ => 0)).
      apply Hspliced. rewrite Forall_forall in *. intros x Hx.
      split; [exact (Hal x Hx)|]. destruct x; auto. simpl. lia. }
  apply bind_returns in H. destruct H as [m [Hm H]].
  apply bind_returns in H. destruct H as [D [HD H]].
  apply bind_returns in H. destruct H as [fv2 [Hfv2 H]].
  specialize (Htwo p c n ch eq_refl Hchild). rewrite Forall_forall in Htwo.
  rewrite Forall_forall in Hal.
  assert (Hrouter : In (RouterAction p c n) (traverseInternal (trigger fv))
                    /\ name p = routerName).
  { apply find_some in Hfound. destruct Hfound as [H1 H2].
    apply String.eqb_eq in H2. auto. }
  destruct Hrouter as [Hrouter HrouterName].
  assert (Hch : forall a, In a (traverseInternal ch) ->
                  In a (traverseInternal (trigger fv))).
  { intros a Ha. apply (below_in_tree _ _ a Hrouter). apply in_flat_map.
    exists (Some ch). split; [|exact Ha]. simpl. apply in_or_app. left.
    eapply at_in; eauto. }
  destruct (allocateNames_spec fuel _ _ _ m Hm) as [Hnames _].
  pose proof (rename_copies _ m fuel _ D HD) as Hcopies.
  assert (HinD : forall a, In a (traverseInternal D) ->
            alignedStep a = true /\ twoSlots a
            /\ ~ In (stepName a)
                    (map stepName (getAllSteps (trigger fv)))).
  { intros a Ha.
    destruct (Forall2_in_r _ _ _ a Hcopies Ha) as [a0 [Ha0 Hcopy]].
    destruct (copyOf_keeps m a0 a Hcopy) as [Hk1 Hk2].
    split; [apply Hk1, Hal, Hch, Ha0|]. split; [apply Hk2, Htwo, Ha0|].
    destruct (Hnames (stepName a0)) as [n' [Hl Hfresh]].
    { apply (in_map stepName _ a0). exact Ha0. }
    destruct Hcopy as [_ [_ [_ Hl']]]. rewrite Hl in Hl'.
    inversion Hl'. subst n'. exact Hfresh. }
  assert (Hused : In routerName (map stepName (getAllSteps (trigger fv)))).
  { rewrite <- HrouterName.
    apply (in_map stepName _ (RouterAction p c n)). exact Hrouter. }
  set (bound := fun nm : string =>
         if String.eqb nm routerName then List.length c
         else if in_dec string_dec nm (stepNames D) then 2 else 0).
  assert (Hsmall : forall a, In a (traverseInternal D) ->
                     bound (stepName a) = 2).
  { intros a Ha. unfold bound.
    destruct (String.eqb_spec (stepName a) routerName) as [Heq|_].
    { exfalso. apply (proj2 (proj2 (HinD a Ha))). rewrite Heq. exact Hused. }
    destruct (in_dec string_dec (stepName a) (stepNames D)) as [_|Hout];
      [reflexivity|].
    elim Hout. unfold stepNames, getAllSteps. apply in_map. exact Ha. }
  assert (Hroomy : Forall (roomy bound) (traverseInternal (trigger fv))).
  { rewrite Forall_forall. intros x Hx. split; [exact (Hal x Hx)|].
    destruct x as [t0 p0 n0|p0 s0 f0 n0|p0 b0 n0|p0 c0 n0]; auto.
    unfold bound.
    destruct (String.eqb_spec (name p0) routerName) as [Heq|_].
    { assert (Hsame : RouterAction p0 c0 n0 = RouterAction p c n).
      { apply (distinct_names_determine_step (trigger fv)); auto.
        unfold stepName. simpl. congruence. }
      inversion Hsame. apply le_n. }
    destruct (in_dec string_dec (name p0) (stepNames D)) as [Hdup|_]; [|lia].
    exfalso. unfold stepNames, getAllSteps in Hdup.
    apply in_map_iff in Hdup. destruct Hdup as [y [Hname Hy]].
    apply (proj2 (proj2 (HinD y Hy))). rewrite Hname.
    apply (in_map stepName _ (RouterAction p0 c0 n0)). exact Hx. }
  assert (Hfit : fitsBound bound
                   {| parentStep := routerName;
                      stepLocationRelativeToParent := Some INSIDE_BRANCH;
                      branchIndex :=
                        Some (Z.of_nat
                                (List.length (splice (-1) 0 [None] c)) - 2)%Z;
                      addBranchName := None;
                      action := requestOfStep D |}
                   None).
  { unfold fitsBound.
    cbn [action parentStep stepLocationRelativeToParent branchIndex
           reqType reqSettings reqName requestOfStep].
    destruct (HinD D (traverseInternal_self D)) as [HalD [HtwoD _]].
    split; [|split].
    - intros Hty. rewrite (Hsmall D (traverseInternal_self D)).
      destruct D as [t0 p0 n0|p0 s0 f0 n0|p0 b0 n0|p0 c0 n0];
        [destruct t0; discriminate|discriminate|discriminate|].
      simpl in *. apply Nat.eqb_eq in HalD. split; [lia|apply le_n].
    - discriminate.
    - intros _ i Hi. inversion Hi. unfold bound.
      rewrite String.eqb_refl, length_splice. simpl.
      pose proof (spliceStart_le (List.length c) (-1)). lia. }
  assert (Hroomy2 : Forall (roomy bound) (traverseInternal (trigger fv2))).
  { apply (transferFlow_keeps (roomy bound) _ fuel (withTrigger t1 fv) fv2
             (roomy_slotBlind bound)
             (fun s u => addActionFn_roomy bound _ _ s u Hfit)
             (Hspliced bound Hroomy) Hfv2). }
  apply (roomy_aligned bound).
  eapply (replay_keeps_roomy bound fuel); [|exact Hroomy2|exact H].
  assert (Hbelow : forall a, In a (flat_map traverseOpt (slots D)) ->
                     In a (traverseInternal D)).
  { intros a Ha. rewrite traverseInternal_slots. right. exact Ha. }
  apply (import_ops_fit bound _ D (le_n _)).
  - intros a Ha. apply Hbelow in Ha.
    destruct (HinD a Ha) as [H1 [H2 _]].
    split; [exact H1|]. split; [exact H2|]. intros _.
    rewrite (Hsmall a Ha). apply le_n.
  - intros p0 c0 n0 Hin'.
    change (name p0) with (stepName (RouterAction p0 c0 n0)).
    rewrite (Hsmall _ Hin'). destruct (HinD _ Hin') as [_ [H2 _]].
    simpl in H2. lia.
Qed.

End AlignmentOfReplays.

Section AlignmentOfApply.

Context {E : Externals}.

(** What the alignment theorem asks of the request of an operation.
    An added router brings two branches, for the two child slots
    [createAction] gives it; an action added [INSIDE_BRANCH] has a name
    other than its parent's and an index among the child slots of the
    router it is added to; a router put in place of a step by
    [UPDATE_ACTION] brings as many branches as it gets child slots.
    Moving and duplicating address steps by name and re-create steps by
    replaying import operations: the names of the flow are pairwise
    distinct, and the routers that are re-created have two child slots:
    those in the structural slots of a moved loop or branch, those
    below a duplicated step, and those of a duplicated router branch;
    a step moved [INSIDE_BRANCH] has an index among the child slots of
    the router it is moved to. *)
Definition keepsRoutersAligned (flowVersion : FlowVersion)
  (operation : FlowOperationRequest) : Prop :=
  match operation with
  | LOCK_FLOW | CHANGE_NAME _ | DELETE_ACTION _ | UPDATE_TRIGGER _
  | DELETE_BRANCH _ _ | ADD_BRANCH _ _ => True
  | ADD_ACTION request =>
      (reqType (action request) = OfAction ROUTER ->
       List.length (branches (reqSettings (action request))) = 2)
      /\ (stepLocationRelativeToParent request = Some INSIDE_BRANCH ->
          reqName (action request) <> parentStep request
          /\ forall p c n i,
               In (RouterAction p c n) (getAllSteps (trigger flowVersion)) ->
               name p = parentStep request ->
               branchIndex request = Some i ->
               (i < Z.of_nat (List.length c))%Z)
  | UPDATE_ACTION request =>
      reqType request = OfAction ROUTER ->
      forall x, In x (getAllSteps (trigger flowVersion)) ->
                stepName x = reqName request ->
                List.length (branches (reqSettings request))
                = List.length (inheritedChildren x)
  | MOVE_ACTION request =>
      NoDup (stepNames (trigger flowVersion))
      /\ (forall source,
            getStep flowVersion (moveName request) = Some source ->
            Forall twoSlots (replayedInMove source))
      /\ (stepLocationRelativeToNewParent request = Some INSIDE_BRANCH ->
          forall p c n i,
            In (RouterAction p c n) (getAllSteps (trigger flowVersion)) ->
            name p = newParentStep request ->
            moveBranchIndex request = Some i ->
            (i < Z.of_nat (List.length c))%Z)
  | DUPLICATE_ACTION stepName_ =>
      NoDup (stepNames (trigger flowVersion))
      /\ (forall found,
            getStep flowVersion stepName_ = Some found ->
            Forall twoSlots (flat_map traverseOpt (structuralSlots found)))
  | DUPLICATE_BRANCH routerName childIndex =>
      NoDup (stepNames (trigger flowVersion))
      /\ (forall p c n child,
            getStep flowVersion routerName = Some (RouterAction p c n) ->
            at_ c childIndex = Some (Some child) ->
            Forall twoSlots (traverseInternal child))
  end.

(** C3 (amended).  Let every router of a flow have as many child slots
    as branches.  When [apply] succeeds on an operation whose request
    meets the conditions of [keepsRoutersAligned] (none for locking and
    renaming the flow, deleting an action, updating the trigger, adding
    and deleting a router branch), every router reachable from the
    trigger of the result has as many child slots as branches. *)
Theorem routers_stay_aligned (flowVersion flowVersion' : FlowVersion)
  (operation : FlowOperationRequest) (fuel : nat) :
  routersAligned (trigger flowVersion) = true ->
  keepsRoutersAligned flowVersion operation ->
  apply fuel flowVersion operation = Returns flowVersion' ->
  routersAligned (trigger flowVersion') = true.
Proof.
  intros Hal Hop H. apply routersAligned_Forall in Hal.
  apply routersAligned_Forall.
  destruct fuel as [|fuel]; [discriminate|]. simpl in H.
  apply bind_returns in H. destruct H as [fv [Hfv H]].
  inversion H; subst flowVersion'. simpl. clear H.
  destruct operation as [m| |newName|name_|request|request|request|dn
                        |rn ri|rn ri|rn ri];
    simpl in Hop.
  - (* MOVE_ACTION *)
    destruct Hop as [Hnd [Htwo Hindex]].
    apply routersAligned_Forall.
    apply (move_keeps_aligned flowVersion fv m fuel); auto.
    apply routersAligned_Forall. exact Hal.
  - inversion Hfv; subst fv. exact Hal.
  - inversion Hfv; subst fv. exact Hal.
  - eapply transferFlow_keeps; [apply aligned_slotBlind| |exact Hal|exact Hfv].
    intros s u. apply deleteActionFn_keeps, aligned_slotBlind.
  - (* ADD_ACTION *)
    apply bind_returns in Hfv. destruct Hfv as [added [Hadded Hfv]].
    destruct Hop as [Hrouter Hinside].
    eapply transferFlow_keeps;
      [apply aligned_slotBlind| | |exact Hfv].
    { intros s u. apply upgradePiece_keeps_aligned. }
    assert (Hfit : Forall (addFits request)
                     (traverseInternal (trigger flowVersion))).
    { rewrite Forall_forall in *. intros x Hx. split; [apply Hal; exact Hx|].
      destruct x as [t p n|p s f n|p b n|p c n]; auto.
      intros H1 H2 i H3. destruct (Hinside H2) as [_ Hidx]. eauto. }
    pose proof (transferFlow_keeps (addFits request)
                  (addActionFn request None) fuel flowVersion added
                  (addFits_slotBlind request)) as Hkeep.
    unfold addAction in Hadded.
    specialize (Hkeep
                  (fun s u =>
                     addActionFn_keeps request s u Hrouter
                       (fun Hloc => proj1 (Hinside Hloc)))
                  Hfit Hadded).
    rewrite Forall_forall in *. intros x Hx. apply (Hkeep x Hx).
  - (* UPDATE_ACTION *)
    apply bind_returns in Hfv. destruct Hfv as [updated [Hupdated Hfv]].
    eapply transferFlow_keeps;
      [apply aligned_slotBlind| | |exact Hfv].
    { intros s u. apply upgradePiece_keeps_aligned. }
    assert (Hfit : Forall (updateFits request)
                     (traverseInternal (trigger flowVersion))).
    { rewrite Forall_forall in *. intros x Hx. split; [apply Hal; exact Hx|].
      intros H1 H2. apply Hop; auto. }
    pose proof (transferFlow_keeps (updateFits request)
                  (updateActionFn request) fuel flowVersion updated
                  (updateFits_slotBlind request)
                  (updateActionFn_keeps request) Hfit Hupdated) as Hkeep.
    rewrite Forall_forall in *. intros x Hx. apply (Hkeep x Hx).
  - (* UPDATE_TRIGGER *)
    eapply transferFlow_keeps;
      [apply aligned_slotBlind| | |exact Hfv].
    { intros s u. apply upgradePiece_keeps_aligned. }
    simpl. unfold createTrigger.
    apply Forall_traverse_slots. split.
    + destruct (treqType request); reflexivity.
    + intros a Ha. eapply Forall_traverse_next; [exact Hal|].
      destruct (treqType request); simpl in Ha; destruct Ha as [Ha|[]];
        exact Ha.
  - (* DUPLICATE_ACTION *)
    destruct Hop as [Hnd Htwo].
    apply routersAligned_Forall.
    apply (duplicate_keeps_aligned flowVersion fv dn fuel); auto.
    apply routersAligned_Forall. exact Hal.
  - (* DELETE_BRANCH *)
    eapply transferFlow_keeps; [apply aligned_slotBlind| |exact Hal|exact Hfv].
    intros s u.
    apply (branchFn_keeps_aligned rn ri 1 (fun _ => [])); auto.
  - (* ADD_BRANCH *)
    eapply transferFlow_keeps; [apply aligned_slotBlind| |exact Hal|exact Hfv].
    intros s u.
    apply (branchFn_keeps_aligned rn ri 0
             (fun p => [createEmptyBranch
                          (List.length (branches (settings p)))])); auto.
  - (* DUPLICATE_BRANCH *)
    destruct Hop as [Hnd Htwo].
    apply routersAligned_Forall.
    apply (duplicate_branch_keeps_aligned flowVersion fv rn ri fuel); auto.
    apply routersAligned_Forall. exact Hal.
Qed.

End AlignmentOfApply.

Definition routerWithChild (name_ : string) (child : option Step) : Step :=
  RouterAction (props name_ (routerSettings ["Branch 1"; "Otherwise"]))
    [None; child] None.

Definition loopAroundTwoBranchRouterFlow : FlowVersion :=
  flowOf
    (emptyTrigger
       (Some (LoopOnItemsAction (props "step_1" plainSettings)
                (Some (routerWithChild "step_2" (Some (code "step_4" None))))
                (Some (code "step_3" None))))).

Lemma routers_stay_aligned_witness :
  exists flowVersion',
    apply (E := referenceExternals) 8 loopAroundTwoBranchRouterFlow
      (moveAfter "step_1" "step_3") = Returns flowVersion'
    /\ routersAligned (trigger flowVersion') = true.
Proof.
  destruct (apply (E := referenceExternals) 8 loopAroundTwoBranchRouterFlow
              (moveAfter "step_1" "step_3")) as [flowVersion'| | |]
    eqn:Happly; try (vm_compute in Happly; discriminate Happly).
  exists flowVersion'. split; [reflexivity|].
  apply (routers_stay_aligned (E := referenceExternals)
           loopAroundTwoBranchRouterFlow flowVersion'
           (moveAfter "step_1" "step_3") 8).
  - reflexivity.
  - simpl. split; [|split].
    + repeat constructor; simpl; intuition discriminate.
    + intros source Hsource. vm_compute in Hsource.
      inversion Hsource; subst source. simpl. repeat constructor.
    + discriminate.
  - exact Happly.
Defined.

Definition threeBranchRouter (name_ : string) : Step :=
  RouterAction
    (props name_ (routerSettings ["Branch 1"; "Branch 2"; "Otherwise"]))
    [None; None; None] None.

(** The claim as stated fails: adding a router whose settings carry
    three branches to the (aligned) flow that consists of its trigger
    succeeds, and the router of the result has two child slots for its
    three branches. *)
Lemma add_three_branch_router_misaligns :
  routersAligned (trigger loneTriggerFlow) = true
  /\ exists flowVersion' p n,
       (forall fuel, 3 < fuel ->
          apply (E := referenceExternals) fuel loneTriggerFlow
            (addUnder "trigger" AFTER (threeBranchRouter "step_1"))
          = Returns flowVersion')
       /\ getStep flowVersion' "step_1" = Some (RouterAction p [None; None] n)
       /\ List.length (branches (settings p)) = 3
       /\ routersAligned (trigger flowVersion') = false.
Proof.
  split; [reflexivity|].
  eexists. eexists. eexists. split; [|split; [|split]].
  - intros [|[|[|[|fuel]]]] H; try lia. reflexivity.
  - reflexivity.
  - reflexivity.
  - reflexivity.
Qed.

(** The two child slots asked of the routers a move re-creates are
    needed: a loop around an aligned three-branch router is rebuilt, by
    replaying import operations, around a router with two child
    slots. *)
Definition loopAroundRouterFlow : FlowVersion :=
  flowOf
    (emptyTrigger
       (Some (LoopOnItemsAction (props "step_1" plainSettings)
                (Some (threeBranchRouter "step_2"))
                (Some (code "step_3" None))))).

Lemma move_loop_around_router_misaligns :
  routersAligned (trigger loopAroundRouterFlow) = true
  /\ exists flowVersion',
       apply (E := referenceExternals) 8 loopAroundRouterFlow
         (MOVE_ACTION
            {| moveName := "step_1"; newParentStep := "step_3";
               stepLocationRelativeToNewParent := Some AFTER;
               moveBranchIndex := None; moveBranchName := None |})
       = Returns flowVersion'
       /\ routersAligned (trigger flowVersion') = false.
Proof.
  split; [reflexivity|]. eexists. split; reflexivity.
Qed.
